(** * JsonParser: scanner, recursive-descent parser and renderer

    A shallow embedding of [parser.cpp].  The C++ classes [Scanner] and
    [Parser] are stateful objects whose methods mutate a cursor and may
    throw; they are modelled in a small state-and-exception monad.  Loops
    and the recursive descent are driven by an explicit fuel argument, and
    the theorems below show which amount of fuel is always enough. *)

From Stdlib Require Import ZArith List String Ascii Bool Arith Lia SpecFloat.
From Stdlib Require Import Sorting.Sorted.
Import ListNotations.

Local Open Scope string_scope.
Local Open Scope list_scope.
Local Open Scope nat_scope.

(* ================================================================= *)
(** ** Exceptions and the execution monad *)

(** The exceptions the program can raise: [std::invalid_argument] thrown by
    the program itself, [std::out_of_range] thrown by [stoi]/[stod], and
    [std::bad_variant_access] thrown by [std::get]. *)
Inductive Error : Type :=
| invalid_argument (what : string)
| out_of_range (what : string)
| bad_variant_access.

(** Result of running a method on an object in state [St].
    - [Ok a s]: returned [a], the object is now in state [s];
    - [Throw e s]: threw [e] while the object was in state [s];
    - [Fault]: indexed a container outside its bounds (undefined behaviour);
    - [OutOfFuel]: the model ran out of fuel. *)
Inductive Outcome (St A : Type) : Type :=
| Ok (a : A) (s : St)
| Throw (e : Error) (s : St)
| Fault
| OutOfFuel.

Arguments Ok {St A} a s.
Arguments Throw {St A} e s.
Arguments Fault {St A}.
Arguments OutOfFuel {St A}.

Definition M (St A : Type) : Type := St -> Outcome St A.

Definition ret {St A} (a : A) : M St A := fun s => Ok a s.

Definition bind {St A B} (c : M St A) (k : A -> M St B) : M St B :=
  fun s =>
    match c s with
    | Ok a s' => k a s'
    | Throw e s' => Throw e s'
    | Fault => Fault
    | OutOfFuel => OutOfFuel
    end.

Definition throw {St A} (e : Error) : M St A := fun s => Throw e s.
Definition fault {St A} : M St A := fun _ => Fault.
Definition out_of_fuel {St A} : M St A := fun _ => OutOfFuel.
Definition gets {St A} (f : St -> A) : M St A := fun s => Ok (f s) s.
Definition modify {St} (f : St -> St) : M St unit := fun s => Ok tt (f s).

(** Lifting of a library call that either returns or throws. *)
Definition lift {St A} (r : Error + A) : M St A :=
  match r with
  | inl e => throw e
  | inr a => ret a
  end.

Declare Scope monad_scope.
Delimit Scope monad_scope with monad.
Notation "x <- c ;; k" := (bind c (fun x => k))
  (at level 61, c at next level, right associativity) : monad_scope.
Notation "c ;; k" := (bind c (fun _ => k))
  (at level 61, right associativity) : monad_scope.
Local Open Scope monad_scope.

(** [while (cond) body]: the condition is tested first, so a loop whose
    condition is false needs no fuel. *)
Fixpoint while_ {St} (fuel : nat) (cond : St -> bool) (body : M St unit)
  (s : St) : Outcome St unit :=
  if cond s then
    match fuel with
    | O => OutOfFuel
    | S fuel' =>
        match body s with
        | Ok _ s' => while_ fuel' cond body s'
        | Throw e s' => Throw e s'
        | Fault => Fault
        | OutOfFuel => OutOfFuel
        end
    end
  else Ok tt s.

(** What a caller observes once the object is gone. *)
Inductive Result (A : Type) : Type :=
| Returns (a : A)
| Throws (e : Error)
| Undefined
| Diverges.

Arguments Returns {A} a.
Arguments Throws {A} e.
Arguments Undefined {A}.
Arguments Diverges {A}.

Definition observe {St A} (o : Outcome St A) : Result A :=
  match o with
  | Ok a _ => Returns a
  | Throw e _ => Throws e
  | Fault => Undefined
  | OutOfFuel => Diverges
  end.

(* ================================================================= *)
(** ** Characters and the C library predicates *)

Definition dquote : ascii := "034"%char.
Definition newline : ascii := "010"%char.
Definition space : ascii := " "%char.

(** [isdigit] and [isalpha] in the "C" locale. *)
Definition isdigit (c : ascii) : bool :=
  let n := nat_of_ascii c in (48 <=? n) && (n <=? 57).

Definition isalpha (c : ascii) : bool :=
  let n := nat_of_ascii c in
  ((65 <=? n) && (n <=? 90)) || ((97 <=? n) && (n <=? 122)).

(** [std::string(n, c)]. *)
Fixpoint string_rep (n : nat) (c : ascii) : string :=
  match n with
  | O => EmptyString
  | S n' => String c (string_rep n' c)
  end.

(** [str[i]] on a [std::string]: the terminating NUL at [i = size()],
    undefined behaviour beyond. *)
Definition string_at {St} (str : string) (i : nat) : M St ascii :=
  match String.get i str with
  | Some c => ret c
  | None => if i =? String.length str then ret zero else fault
  end.

(* ================================================================= *)
(** ** The value model *)

(** [using JsonValue = variant<JsonObject, JsonArray, string, int, double,
    bool, nullptr_t>].  A [JsonObject] is a [std::map<string, JsonValue>]:
    its entries are held, and enumerated, in ascending key order; it is
    modelled by the list of its entries in iteration order.  A [double] is
    an IEEE binary64 value, [spec_float] with precision 53. *)
#[local] Unset Elimination Schemes.
Inductive JsonValue : Type :=
| JObject (o : list (string * JsonValue))
| JArray (a : list JsonValue)
| JString (s : string)
| JInt (i : Z)
| JDouble (d : spec_float)
| JBool (b : bool)
| JNull.
#[local] Set Elimination Schemes.

Definition JsonObject : Type := list (string * JsonValue).
Definition JsonArray : Type := list JsonValue.

(** [operator<] on [std::string]: lexicographic on unsigned bytes. *)
Definition string_lt (a b : string) : Prop := String.compare a b = Lt.

(** [m[k] = v] on a [std::map]: the entry is inserted at its place in key
    order, or the value of the existing entry is replaced. *)
Fixpoint map_assign (k : string) (v : JsonValue) (m : JsonObject) : JsonObject :=
  match m with
  | [] => [(k, v)]
  | (k', v') :: m' =>
      match String.compare k k' with
      | Lt => (k, v) :: m
      | Eq => (k', v) :: m'
      | Gt => (k', v') :: map_assign k v m'
      end
  end.

(* ================================================================= *)
(** ** Tokens *)

Inductive TokenType : Type :=
| STRING
| NUMBER
| BOOLEAN
| NULL_VALUE
| COMMA
| COLON
| LEFT_CURLY
| RIGHT_CURLY
| LEFT_SQUARE
| RIGHT_SQUARE
| EOF_TOKEN.

Definition TokenType_eqb (a b : TokenType) : bool :=
  match a, b with
  | STRING, STRING | NUMBER, NUMBER | BOOLEAN, BOOLEAN
  | NULL_VALUE, NULL_VALUE | COMMA, COMMA | COLON, COLON
  | LEFT_CURLY, LEFT_CURLY | RIGHT_CURLY, RIGHT_CURLY
  | LEFT_SQUARE, LEFT_SQUARE | RIGHT_SQUARE, RIGHT_SQUARE
  | EOF_TOKEN, EOF_TOKEN => true
  | _, _ => false
  end.

(** [variant<monostate, string, int, double, bool>]. *)
Inductive TokenValue : Type :=
| monostate
| VString (s : string)
| VInt (i : Z)
| VDouble (d : spec_float)
| VBool (b : bool).

Record Token : Type := mkToken { token_type : TokenType; value : TokenValue }.

(** [std::get<T>] throws [bad_variant_access] on another alternative. *)
Definition get_string (v : TokenValue) : Error + string :=
  match v with VString s => inr s | _ => inl bad_variant_access end.
Definition get_int (v : TokenValue) : Error + Z :=
  match v with VInt i => inr i | _ => inl bad_variant_access end.
Definition get_double (v : TokenValue) : Error + spec_float :=
  match v with VDouble d => inr d | _ => inl bad_variant_access end.
Definition get_bool (v : TokenValue) : Error + bool :=
  match v with VBool b => inr b | _ => inl bad_variant_access end.
Definition holds_int (v : TokenValue) : bool :=
  match v with VInt _ => true | _ => false end.

(* ================================================================= *)
(** ** Library conversions: [stoi], [stod], [operator<<] *)

Definition digit_val (c : ascii) : Z := (Z.of_nat (nat_of_ascii c) - 48)%Z.
Definition digit_char (d : Z) : ascii := ascii_of_nat (Z.to_nat (d + 48)).

(** Reads the longest run of decimal digits at the front of [s], adding
    them to [acc]; returns the value, the number of digits read and the
    rest of the string. *)
Fixpoint read_digits (s : string) (acc : Z) (n : nat) : Z * nat * string :=
  match s with
  | String c s' =>
      if isdigit c then read_digits s' (10 * acc + digit_val c)%Z (S n)
      else (acc, n, s)
  | EmptyString => (acc, n, s)
  end.

Definition read_sign (s : string) : bool * string :=
  match s with
  | String c s' => if (c =? "-")%char then (true, s') else (false, s)
  | EmptyString => (false, s)
  end.

(** [int] is 32 bits wide. *)
Definition INT_MAX : Z := 2147483647%Z.
Definition INT_MIN : Z := (-2147483648)%Z.

(** [std::stoi] on an optional minus sign followed by decimal digits, the
    only form the scanner passes to it: [invalid_argument] when there is
    no digit, [out_of_range] when the value does not fit an [int]. *)
Definition stoi (s : string) : Error + Z :=
  let (neg, body) := read_sign s in
  let '(v, n, _) := read_digits body 0%Z 0 in
  if n =? 0 then inl (invalid_argument "stoi")
  else
    let z := if neg then (- v)%Z else v in
    if ((INT_MIN <=? z) && (z <=? INT_MAX))%Z then inr z
    else inl (out_of_range "stoi").

(** Quotient of [n / d] rounded to the nearest integer, ties to even, and
    whether the division was exact. *)
Definition div_half_even (n d : Z) : Z * bool :=
  let q := (n / d)%Z in
  let r := (n mod d)%Z in
  let up :=
    match (2 * r ?= d)%Z with
    | Gt => true
    | Eq => Z.odd q
    | Lt => false
    end in
  (if up then (q + 1)%Z else q, (r =? 0)%Z).

(** [n / (d * 2^e)] rounded to an integer. *)
Definition scaled_quotient (n d e : Z) : Z * bool :=
  if (0 <=? e)%Z then div_half_even n (d * 2 ^ e)
  else div_half_even (n * 2 ^ (- e)) d.

(** Is the positive rational [n / d], whose 53-bit quotient has the
    exponent [e1], tiny: still below the least normal number 2^-1022 once
    rounded to 53 bits with no bound on the exponent? *)
Definition tiny (n d e1 : Z) : bool :=
  ((e1 <? -1075)
   || ((e1 =? -1075)
       && negb (fst (scaled_quotient n d (-1075)) =? 2 ^ 53)))%Z.

(** glibc's [strtod] reads no bit of a value behind the bit of weight
    2^-1076, a quarter of the least subnormal number, and uses that bit
    only to tell whether the value is tiny.  A value in [2^-1023, 2^-1022)
    that lies 2^-1076 above a multiple of 2^-1074 is delivered, rounded
    down, with no range error. *)
Definition quarter_ulp (n d e1 : Z) : bool :=
  ((e1 =? -1075)
   && ((n * 2 ^ 1076) mod d =? 0)
   && (((n * 2 ^ 1076) / d) mod 4 =? 1))%Z.

(** Rounding of the positive rational [n / d] to the nearest binary64
    value, ties to even.  The exponent [e] is chosen so that the quotient
    has 53 bits, but not below the exponent of the subnormal numbers.  As
    glibc's [strtod] does, the conversion reports a range error when the
    result overflows, and when it underflows: when the value is tiny and
    the result is inexact, the case of [quarter_ulp] apart. *)
Definition round_binary64 (neg : bool) (n d : Z) : Error + spec_float :=
  if (n =? 0)%Z then inr (S754_zero neg)
  else
    let e0 := (Z.log2 n - Z.log2 d - 52)%Z in
    let e1 := if (n * 2 ^ (- Z.min e0 0) <? d * 2 ^ (Z.max e0 0) * 2 ^ 52)%Z
              then (e0 - 1)%Z else e0 in
    let e2 := Z.max e1 (-1074) in
    let (q, exact) := scaled_quotient n d e2 in
    let (m, e) := if (q =? 2 ^ 53)%Z then (2 ^ 52, e2 + 1)%Z else (q, e2) in
    if (971 <? e)%Z then inl (out_of_range "stod")
    else if tiny n d e1 && negb exact && negb (quarter_ulp n d e1)
    then inl (out_of_range "stod")
    else
      match m with
      | Zpos p => inr (S754_finite neg p e)
      | _ => inr (S754_zero neg)
      end.

(** [std::stod] on an optional minus sign, decimal digits and an optional
    fraction, the only form the scanner passes to it. *)
Definition stod (s : string) : Error + spec_float :=
  let (neg, body) := read_sign s in
  let '(vi, ni, rest) := read_digits body 0%Z 0 in
  let '(v, nf) :=
    match rest with
    | String c rest' =>
        if (c =? ".")%char then
          let '(v, nf, _) := read_digits rest' vi 0 in (v, nf)
        else (vi, 0)
    | EmptyString => (vi, 0)
    end in
  if ni + nf =? 0 then inl (invalid_argument "stod")
  else round_binary64 neg v (10 ^ Z.of_nat nf).

(** Decimal digits of a non-negative integer, most significant first. *)
Fixpoint decimal_digits (fuel : nat) (n : Z) (acc : string) : string :=
  let acc' := String (digit_char (n mod 10)) acc in
  match fuel with
  | O => acc'
  | S fuel' =>
      if (n / 10 =? 0)%Z then acc' else decimal_digits fuel' (n / 10) acc'
  end.

Definition decimal (n : Z) : string :=
  decimal_digits (Z.to_nat (Z.log2 n)) n EmptyString.

(** [cout << i] for an [int]. *)
Definition print_int (i : Z) : string :=
  if (i <? 0)%Z then String "-" (decimal (- i)) else decimal i.

(** Removes the zeros at the end of a digit string. *)
Fixpoint strip_zeros (s : string) : string :=
  match s with
  | EmptyString => EmptyString
  | String c s' =>
      match strip_zeros s' with
      | EmptyString => if (c =? "0")%char then EmptyString else String c EmptyString
      | r => String c r
      end
  end.

Definition with_fraction (int_part frac : string) : string :=
  match strip_zeros frac with
  | EmptyString => int_part
  | f => int_part ++ "." ++ f
  end.

(** Is [10^k <= n / d] ? *)
Definition ge_pow10 (n d k : Z) : bool :=
  if (0 <=? k)%Z then (10 ^ k * d <=? n)%Z else (d <=? n * 10 ^ (- k))%Z.

(** [n / d * 10^t] rounded to an integer. *)
Definition scaled_decimal (n d t : Z) : Z :=
  if (0 <=? t)%Z then fst (div_half_even (n * 10 ^ t) d)
  else fst (div_half_even n (d * 10 ^ (- t))).

Definition exponent_field (x : Z) : string :=
  let a := decimal (Z.abs x) in
  String (if (x <? 0)%Z then "-" else "+")%char
    (if String.length a <? 2 then String "0" a else a).

(** The positive rational [n / d] in the style of [printf("%g")] with the
    default precision of 6 significant digits. *)
Definition format_g (n d : Z) : string :=
  let cand := (Z.of_nat (String.length (decimal n))
               - Z.of_nat (String.length (decimal d)))%Z in
  let x0 := if ge_pow10 n d cand then cand else (cand - 1)%Z in
  let q := scaled_decimal n d (5 - x0) in
  let (x, digits) :=
    if (q =? 10 ^ 6)%Z then ((x0 + 1)%Z, decimal (10 ^ 5))
    else (x0, decimal q) in
  if ((x <? -4) || (6 <=? x))%Z then
    with_fraction (substring 0 1 digits) (substring 1 5 digits)
      ++ "e" ++ exponent_field x
  else if (0 <=? x)%Z then
    with_fraction (substring 0 (Z.to_nat x + 1) digits)
                  (substring (Z.to_nat x + 1) (5 - Z.to_nat x) digits)
  else
    with_fraction "0" (string_rep (Z.to_nat (- x - 1)) "0" ++ digits).

(** [cout << d] for a [double], with the stream's default flags. *)
Definition print_double (d : spec_float) : string :=
  match d with
  | S754_zero neg => if neg then "-0" else "0"
  | S754_infinity neg => if neg then "-inf" else "inf"
  | S754_nan => "nan"
  | S754_finite neg m e =>
      (if neg then "-" else "") ++
      (if (0 <=? e)%Z then format_g (Zpos m * 2 ^ e) 1
       else format_g (Zpos m) (2 ^ (- e)))
  end.

(* ================================================================= *)
(** ** The scanner *)

Module Scanner.

Record t : Type := mk
  { str : string;
    start : nat;
    current : nat;
    line : nat;
    tokens : list Token }.

(** [Scanner(const string &str)]. *)
Definition init (input : string) : t := mk input 0 0 1 [].

Definition isLast (s : t) : bool := String.length (str s) <=? current s.

Definition incr_current (s : t) : t :=
  mk (str s) (start s) (S (current s)) (line s) (tokens s).
Definition incr_line (s : t) : t :=
  mk (str s) (start s) (current s) (S (line s)) (tokens s).
Definition set_start (s : t) : t :=
  mk (str s) (current s) (current s) (line s) (tokens s).
Definition push_back (tk : Token) (s : t) : t :=
  mk (str s) (start s) (current s) (line s) (tokens s ++ [tk]).

(** [char c = str[current++]]. *)
Definition advanceCurrent : M t ascii :=
  s <- gets (fun s => s) ;;
  c <- string_at (str s) (current s) ;;
  modify incr_current ;;
  ret c.

Definition getCurrValue : M t ascii :=
  s <- gets (fun s => s) ;;
  if isLast s then ret space else string_at (str s) (current s).

Definition getNextValue : M t ascii :=
  s <- gets (fun s => s) ;;
  if String.length (str s) <=? current s + 1 then ret space
  else string_at (str s) (current s + 1).

(** The text between [start] and [current]. *)
Definition lexeme (s : t) : string :=
  substring (start s) (current s - start s) (str s).

(** [while (p(getCurrValue())) current++]. *)
Definition cond_of (p : ascii -> bool) (s : t) : bool :=
  match getCurrValue s with
  | Ok c _ => p c
  | _ => false
  end.

Definition addString (fuel : nat) : M t unit :=
  while_ fuel (fun s => cond_of (fun c => negb (c =? dquote)%char) s
                        && negb (isLast s))
         (modify incr_current) ;;
  s <- gets (fun s => s) ;;
  if isLast s then throw (invalid_argument "Unterminated string")
  else
    modify incr_current ;;
    s <- gets (fun s => s) ;;
    modify (push_back
              (mkToken STRING
                 (VString (substring (start s + 1)
                                     (current s - start s - 2) (str s))))).

Definition addNumber (fuel : nat) : M t unit :=
  while_ fuel (cond_of isdigit) (modify incr_current) ;;
  c <- getCurrValue ;;
  if (c =? ".")%char then
    n <- getNextValue ;;
    if negb (isdigit n) then
      throw (invalid_argument "Expected digit after . (trying to parse float)")
    else
      modify incr_current ;;
      while_ fuel (cond_of isdigit) (modify incr_current) ;;
      s <- gets (fun s => s) ;;
      d <- lift (stod (lexeme s)) ;;
      modify (push_back (mkToken NUMBER (VDouble d)))
  else
    s <- gets (fun s => s) ;;
    i <- lift (stoi (lexeme s)) ;;
    modify (push_back (mkToken NUMBER (VInt i))).

Definition addKeyword (fuel : nat) : M t unit :=
  while_ fuel (cond_of isalpha) (modify incr_current) ;;
  s <- gets (fun s => s) ;;
  let keyword := lexeme s in
  if (keyword =? "true")%string then
    modify (push_back (mkToken BOOLEAN (VBool true)))
  else if (keyword =? "false")%string then
    modify (push_back (mkToken BOOLEAN (VBool false)))
  else if (keyword =? "null")%string then
    modify (push_back (mkToken NULL_VALUE monostate))
  else throw (invalid_argument "Unexpected token").

Definition punctuation (tt : TokenType) (c : ascii) : M t unit :=
  modify (push_back (mkToken tt (VString (string_rep 1 c)))).

Definition scanToken (fuel : nat) : M t unit :=
  c <- advanceCurrent ;;
  if (c =? "{")%char then punctuation LEFT_CURLY c
  else if (c =? "}")%char then punctuation RIGHT_CURLY c
  else if (c =? "[")%char then punctuation LEFT_SQUARE c
  else if (c =? "]")%char then punctuation RIGHT_SQUARE c
  else if (c =? ",")%char then punctuation COMMA c
  else if (c =? ":")%char then punctuation COLON c
  else if (c =? newline)%char then modify incr_line
  else if (c =? " ")%char then ret tt
  else if (c =? dquote)%char then addString fuel
  else if (c =? "-")%char then
    d <- getCurrValue ;;
    if isdigit d then advanceCurrent ;; addNumber fuel
    else throw (invalid_argument "- must be followed by a number")
  else if isdigit c then addNumber fuel
  else if isalpha c then addKeyword fuel
  else throw (invalid_argument "Unexpected token").

Definition scan (fuel : nat) : M t (list Token) :=
  while_ fuel (fun s => negb (isLast s))
         (modify set_start ;; scanToken fuel) ;;
  modify (push_back (mkToken EOF_TOKEN monostate)) ;;
  gets tokens.

End Scanner.

(** Fuel that is enough to scan [input]: no loop of the scanner makes more
    iterations than the input has characters. *)
Definition scan_fuel (input : string) : nat := String.length input.

Definition scan (input : string) : Result (list Token) :=
  observe (Scanner.scan (scan_fuel input) (Scanner.init input)).

(* ================================================================= *)
(** ** The parser *)

Module Parser.

Record t : Type := mk
  { tokens : list Token;
    current : nat }.

(** [Parser(const vector<Token> &tokens)]. *)
Definition init (toks : list Token) : t := mk toks 0.

Definition incr_current (p : t) : t := mk (tokens p) (S (current p)).

(** [tokens[current]] on a [std::vector]: undefined out of bounds. *)
Definition token_at (p : t) : M t Token :=
  match nth_error (tokens p) (current p) with
  | Some tk => ret tk
  | None => fault
  end.

Definition advanceCurrent : M t Token :=
  p <- gets (fun p => p) ;;
  token <- token_at p ;;
  modify incr_current ;;
  ret token.

Definition getCurrValue : M t Token :=
  p <- gets (fun p => p) ;;
  token_at p.

Definition consume (tt : TokenType) (error : string) : M t unit :=
  tk <- getCurrValue ;;
  if negb (TokenType_eqb (token_type tk) tt) then
    throw (invalid_argument error)
  else modify incr_current.

Definition consume_until_comma (exception : TokenType) : M t unit :=
  tk <- getCurrValue ;;
  if TokenType_eqb (token_type tk) COMMA then modify incr_current
  else
    tk' <- getCurrValue ;;
    if negb (TokenType_eqb (token_type tk') exception) then
      throw (invalid_argument "Missing comma unless followed by")
    else ret tt.

(** [parse_object_loop] and [parse_array_loop] are the [while] loops of
    [parse_object] and [parse_array], entered with the token that was
    read last and the container built so far. *)
Fixpoint parse_from_token (fuel : nat) (token : Token) : M t JsonValue :=
  match fuel with
  | O => out_of_fuel
  | S fuel' =>
      match token_type token with
      | STRING => s <- lift (get_string (value token)) ;; ret (JString s)
      | NUMBER =>
          if holds_int (value token) then
            i <- lift (get_int (value token)) ;; ret (JInt i)
          else
            d <- lift (get_double (value token)) ;; ret (JDouble d)
      | BOOLEAN => b <- lift (get_bool (value token)) ;; ret (JBool b)
      | NULL_VALUE => ret JNull
      | LEFT_CURLY => o <- parse_object fuel' ;; ret (JObject o)
      | LEFT_SQUARE => a <- parse_array fuel' ;; ret (JArray a)
      | _ => throw (invalid_argument "Unexpected token")
      end
  end

with parse_object (fuel : nat) : M t JsonObject :=
  match fuel with
  | O => out_of_fuel
  | S fuel' =>
      key_token <- advanceCurrent ;;
      parse_object_loop fuel' key_token []
  end

with parse_object_loop (fuel : nat) (key_token : Token)
       (json_object : JsonObject) : M t JsonObject :=
  match fuel with
  | O => out_of_fuel
  | S fuel' =>
      if negb (TokenType_eqb (token_type key_token) RIGHT_CURLY) then
        if TokenType_eqb (token_type key_token) EOF_TOKEN then
          throw (invalid_argument "Unterminated JSON object")
        else if negb (TokenType_eqb (token_type key_token) STRING) then
          throw (invalid_argument
                   "JSON object fields must begin with a 'key' i.e. string")
        else
          consume COLON "Key: values must be colon separated" ;;
          value_token <- advanceCurrent ;;
          v <- parse_from_token fuel' value_token ;;
          k <- lift (get_string (value key_token)) ;;
          consume_until_comma RIGHT_CURLY ;;
          key_token' <- advanceCurrent ;;
          parse_object_loop fuel' key_token' (map_assign k v json_object)
      else ret json_object
  end

with parse_array (fuel : nat) : M t JsonArray :=
  match fuel with
  | O => out_of_fuel
  | S fuel' =>
      token <- advanceCurrent ;;
      parse_array_loop fuel' token []
  end

with parse_array_loop (fuel : nat) (token : Token)
       (json_array : JsonArray) : M t JsonArray :=
  match fuel with
  | O => out_of_fuel
  | S fuel' =>
      if negb (TokenType_eqb (token_type token) RIGHT_SQUARE) then
        if TokenType_eqb (token_type token) EOF_TOKEN then
          throw (invalid_argument "Unterminated JSON array")
        else
          v <- parse_from_token fuel' token ;;
          consume_until_comma RIGHT_SQUARE ;;
          token' <- advanceCurrent ;;
          parse_array_loop fuel' token' (json_array ++ [v])
      else ret json_array
  end.

Definition parse (fuel : nat) : M t JsonValue :=
  token <- advanceCurrent ;;
  parse_from_token fuel token.

End Parser.

(** Fuel that is enough to parse [toks]: every unit of fuel spent by the
    descent is paid for by a token. *)
Definition parse_fuel (toks : list Token) : nat := 3 * List.length toks + 3.

(** [JsonValue parse(const string &input)]. *)
Definition parse (input : string) : Result JsonValue :=
  match scan input with
  | Returns toks => observe (Parser.parse (parse_fuel toks) (Parser.init toks))
  | Throws e => Throws e
  | Undefined => Undefined
  | Diverges => Diverges
  end.

(* ================================================================= *)
(** ** The renderer *)

(** [print_json] writes to [cout]; the model returns the text written.
    [print_object_entries] and [print_array_items] are the bodies of the
    [for] loops of [print_json_object] and [print_json_array]. *)
Fixpoint print_json (value : JsonValue) (indent : nat) : string :=
  match value with
  | JObject obj =>
      (string_rep indent " " ++ "{" ++ String newline "" ++
       (fix print_object_entries (l : list (string * JsonValue)) : string :=
          match l with
          | [] => ""
          | (k, v) :: l' =>
              string_rep (indent + 2) " " ++ String dquote "" ++ k
              ++ String dquote "" ++ ": " ++ print_json v (indent + 2)
              ++ (match l' with [] => "" | _ => "," end)
              ++ String newline "" ++ print_object_entries l'
          end) obj
       ++ string_rep indent " " ++ "}")%string
  | JArray arr =>
      (string_rep indent " " ++ "[" ++ String newline "" ++
       (fix print_array_items (l : list JsonValue) : string :=
          match l with
          | [] => ""
          | v :: l' =>
              print_json v (indent + 2)
              ++ (match l' with [] => "" | _ => "," end)
              ++ String newline "" ++ print_array_items l'
          end) arr
       ++ string_rep indent " " ++ "]")%string
  | JString s => (String dquote "" ++ s ++ String dquote "")%string
  | JInt i => print_int i
  | JDouble d => print_double d
  | JBool b => if b then "true" else "false"
  | JNull => "null"
  end.

(** The loops of [print_json_object] and [print_json_array] by name. *)
Definition print_object_entries (indent : nat)
  : list (string * JsonValue) -> string :=
  fix print_object_entries (l : list (string * JsonValue)) : string :=
    match l with
    | [] => ""
    | (k, v) :: l' =>
        (string_rep (indent + 2) " " ++ String dquote "" ++ k
         ++ String dquote "" ++ ": " ++ print_json v (indent + 2)
         ++ (match l' with [] => "" | _ => "," end)
         ++ String newline "" ++ print_object_entries l')%string
    end.

Definition print_array_items (indent : nat) : list JsonValue -> string :=
  fix print_array_items (l : list JsonValue) : string :=
    match l with
    | [] => ""
    | v :: l' =>
        (print_json v (indent + 2)
         ++ (match l' with [] => "" | _ => "," end)
         ++ String newline "" ++ print_array_items l')%string
    end.

(* ================================================================= *)
(** ** Vocabulary of the specification *)

Definition backslash : ascii := "092"%char.

(** The text [s] between double quotes. *)
Definition quoted (s : string) : string :=
  String dquote (s ++ String dquote "").

(** [c] does not occur in [s]. *)
Fixpoint absent (c : ascii) (s : string) : Prop :=
  match s with
  | EmptyString => True
  | String c' s' => c' <> c /\ absent c s'
  end.

(** Every character of [a] satisfies [p]. *)
Fixpoint all_chars (p : ascii -> bool) (a : string) : Prop :=
  match a with
  | EmptyString => True
  | String c a' => p c = true /\ all_chars p a'
  end.

(** The text [post] does not start with a character that satisfies [p];
    past the end of the input the scanner sees a space. *)
Definition stops (p : ascii -> bool) (post : string) : Prop :=
  match post with
  | EmptyString => p space = false
  | String c _ => p c = false
  end.

(** The sign of a numeric literal. *)
Definition sign (neg : bool) : string := if neg then "-" else "".

(** The value of a string of decimal digits. *)
Definition digits_value (s : string) : Z := fst (fst (read_digits s 0%Z 0)).

Definition keys (o : JsonObject) : list string := map fst o.

(** Every object inside [v] lists its keys in strictly ascending order. *)
Fixpoint sorted_objects (v : JsonValue) : Prop :=
  match v with
  | JObject o =>
      Sorted string_lt (keys o) /\
      (fix entries (l : list (string * JsonValue)) : Prop :=
         match l with
         | [] => True
         | (_, x) :: l' => sorted_objects x /\ entries l'
         end) o
  | JArray a =>
      (fix items (l : list JsonValue) : Prop :=
         match l with
         | [] => True
         | x :: l' => sorted_objects x /\ items l'
         end) a
  | _ => True
  end.

(** No leaf of [v] is a [double]. *)
Fixpoint no_double (v : JsonValue) : Prop :=
  match v with
  | JObject o =>
      (fix entries (l : list (string * JsonValue)) : Prop :=
         match l with
         | [] => True
         | (_, x) :: l' => no_double x /\ entries l'
         end) o
  | JArray a =>
      (fix items (l : list JsonValue) : Prop :=
         match l with
         | [] => True
         | x :: l' => no_double x /\ items l'
         end) a
  | JDouble _ => False
  | _ => True
  end.

(** What parse can deliver: every object of [v] lists its keys in strictly
    ascending order, the strings and keys hold no double quote, and the
    integers fit an [int]. *)
Fixpoint canonical (v : JsonValue) : Prop :=
  match v with
  | JObject o =>
      Sorted string_lt (keys o) /\
      (fix entries (l : list (string * JsonValue)) : Prop :=
         match l with
         | [] => True
         | (k, x) :: l' => (absent dquote k /\ canonical x) /\ entries l'
         end) o
  | JArray a =>
      (fix items (l : list JsonValue) : Prop :=
         match l with
         | [] => True
         | x :: l' => canonical x /\ items l'
         end) a
  | JString s => absent dquote s
  | JInt i => (INT_MIN <= i <= INT_MAX)%Z
  | _ => True
  end.

(** A literal with a fraction: sign, digits, point, digits. *)
Definition fraction_literal (s : string) : Prop :=
  exists neg ds fs,
    s = (sign neg ++ ds ++ String "." fs)%string
    /\ ds <> EmptyString /\ all_chars isdigit ds
    /\ fs <> EmptyString /\ all_chars isdigit fs.

(** The double that [stod] reads from the text written for [d]. *)
Definition reread_double (d : spec_float) : spec_float :=
  match stod (print_double d) with
  | inr d' => d'
  | inl _ => d
  end.

(** The tree [v] with every float leaf read again from the text written
    for it. *)
Fixpoint reread (v : JsonValue) : JsonValue :=
  match v with
  | JObject o =>
      JObject
        ((fix entries (l : list (string * JsonValue))
            : list (string * JsonValue) :=
            match l with
            | [] => []
            | (k, x) :: l' => (k, reread x) :: entries l'
            end) o)
  | JArray a =>
      JArray
        ((fix items (l : list JsonValue) : list JsonValue :=
            match l with
            | [] => []
            | x :: l' => reread x :: items l'
            end) a)
  | JDouble d => JDouble (reread_double d)
  | _ => v
  end.

(** The entries of an object with their float leaves read again, by
    name. *)
Definition reread_entries
  : list (string * JsonValue) -> list (string * JsonValue) :=
  fix entries (l : list (string * JsonValue)) : list (string * JsonValue) :=
    match l with
    | [] => []
    | (k, x) :: l' => (k, reread x) :: entries l'
    end.

(** Every float leaf of [v] is written as a literal with a fraction. *)
Fixpoint floats_with_fraction (v : JsonValue) : Prop :=
  match v with
  | JObject o =>
      (fix entries (l : list (string * JsonValue)) : Prop :=
         match l with
         | [] => True
         | (_, x) :: l' => floats_with_fraction x /\ entries l'
         end) o
  | JArray a =>
      (fix items (l : list JsonValue) : Prop :=
         match l with
         | [] => True
         | x :: l' => floats_with_fraction x /\ items l'
         end) a
  | JDouble d => fraction_literal (print_double d)
  | _ => True
  end.

(** Every float leaf of [v] is written exactly: [stod] reads the leaf
    itself from the text written for it. *)
Fixpoint floats_exact (v : JsonValue) : Prop :=
  match v with
  | JObject o =>
      (fix entries (l : list (string * JsonValue)) : Prop :=
         match l with
         | [] => True
         | (_, x) :: l' => floats_exact x /\ entries l'
         end) o
  | JArray a =>
      (fix items (l : list JsonValue) : Prop :=
         match l with
         | [] => True
         | x :: l' => floats_exact x /\ items l'
         end) a
  | JDouble d => stod (print_double d) = inr d
  | _ => True
  end.

(** The magnitude of a double as a fraction: numerator and denominator. *)
Definition magnitude (d : spec_float) : Z * Z :=
  match d with
  | S754_finite _ m e =>
      if (0 <=? e)%Z then (Zpos m * 2 ^ e, 1)%Z else (Zpos m, 2 ^ (- e))%Z
  | _ => (0, 1)%Z
  end.

(** [d'] is [d] up to a relative error of 10^-5: it is [d], or both are
    finite and not zero, they have the same sign, and
    |d' - d| <= 10^-5 * |d|, written on the fractions without division. *)
Definition within_tolerance (d d' : spec_float) : Prop :=
  d' = d
  \/ match d, d' with
     | S754_finite s _ _, S754_finite s' _ _ =>
         s' = s
         /\ (10 ^ 5 * Z.abs (fst (magnitude d') * snd (magnitude d)
                             - fst (magnitude d) * snd (magnitude d'))
             <= fst (magnitude d) * snd (magnitude d'))%Z
     | _, _ => False
     end.

(** Structural equality of two trees, the floats compared with
    tolerance: the same variants, the same keys in the same order, the
    same strings, integers and booleans, and float leaves within the
    tolerance. *)
Fixpoint similar (v w : JsonValue) {struct v} : Prop :=
  match v, w with
  | JObject o, JObject o' =>
      (fix entries (l l' : list (string * JsonValue)) {struct l} : Prop :=
         match l, l' with
         | [], [] => True
         | (k, x) :: r, (k', x') :: r' =>
             k = k' /\ similar x x' /\ entries r r'
         | _, _ => False
         end) o o'
  | JArray a, JArray a' =>
      (fix items (l l' : list JsonValue) {struct l} : Prop :=
         match l, l' with
         | [], [] => True
         | x :: r, x' :: r' => similar x x' /\ items r r'
         | _, _ => False
         end) a a'
  | JString s, JString s' => s = s'
  | JInt i, JInt i' => i = i'
  | JDouble d, JDouble d' => within_tolerance d d'
  | JBool b, JBool b' => b = b'
  | JNull, JNull => True
  | _, _ => False
  end.

(** A character of a numeric literal: a digit, the point or the sign. *)
Definition numeric (c : ascii) : bool :=
  isdigit c || (c =? ".")%char || (c =? "-")%char.

(** The payload of a token has the alternative its type announces, a
    string payload holds no double quote and an integer fits an [int]. *)
Definition wf_token (tk : Token) : Prop :=
  match token_type tk, value tk with
  | STRING, VString s => absent dquote s
  | NUMBER, VInt i => (INT_MIN <= i <= INT_MAX)%Z
  | NUMBER, VDouble _ => True
  | BOOLEAN, VBool _ => True
  | NULL_VALUE, monostate => True
  | (COMMA | COLON | LEFT_CURLY | RIGHT_CURLY | LEFT_SQUARE | RIGHT_SQUARE),
    VString _ => True
  | EOF_TOKEN, _ => False
  | _, _ => False
  end.

(** The exceptions the scanner raises: its own four messages, and the
    range and conversion errors of [stoi] and [stod]. *)
Definition scanner_error (e : Error) : Prop :=
  In e [invalid_argument "Unterminated string";
        invalid_argument "- must be followed by a number";
        invalid_argument "Expected digit after . (trying to parse float)";
        invalid_argument "Unexpected token";
        out_of_range "stoi"; invalid_argument "stoi";
        out_of_range "stod"; invalid_argument "stod"].

(** A token the scanner can deliver: well formed, or the end marker. *)
Definition wf_or_eof (tk : Token) : Prop :=
  wf_token tk \/ token_type tk = EOF_TOKEN.

Definition is_eof (tk : Token) : bool := TokenType_eqb (token_type tk) EOF_TOKEN.

(** The token sequence ends with an [EOF_TOKEN]. *)
Definition ends_with_eof (toks : list Token) : Prop :=
  exists body tk, toks = body ++ [tk] /\ is_eof tk = true.

(** The exceptions the parser raises: its own messages, and the failure
    of [std::get] on a token whose payload has another alternative. *)
Definition parser_error (e : Error) : Prop :=
  In e [invalid_argument "Unexpected token";
        invalid_argument "Unterminated JSON object";
        invalid_argument "JSON object fields must begin with a 'key' i.e. string";
        invalid_argument "Key: values must be colon separated";
        invalid_argument "Missing comma unless followed by";
        invalid_argument "Unterminated JSON array";
        bad_variant_access].

(** A character that continues a numeric literal. *)
Definition digit_or_point (c : ascii) : bool := isdigit c || (c =? ".")%char.

(** The token at index [c] of [toks] has type [ty]. *)
Definition token_is (toks : list Token) (c : nat) (ty : TokenType) : Prop :=
  exists tk, nth_error toks c = Some tk /\ token_type tk = ty.

(** The messages of the parser's errors at the end of a container. *)
Definition missing_comma : Error :=
  invalid_argument "Missing comma unless followed by".
Definition unterminated_array : Error :=
  invalid_argument "Unterminated JSON array".
Definition unterminated_object : Error :=
  invalid_argument "Unterminated JSON object".

(** Where a throw of the parser leaves the cursor: behind a token that
    has been read; one past the last token only with the three errors
    thrown on the token [advanceCurrent] has just read; and with one of
    the two "Unterminated" errors only behind an end marker. *)
Definition throw_site {A} (toks : list Token) (o : Outcome Parser.t A)
  : Prop :=
  match o with
  | Throw e p' =>
      0 < Parser.current p'
      /\ (Parser.current p' = List.length toks ->
          e = invalid_argument "Unexpected token"
          \/ e = unterminated_object \/ e = unterminated_array)
      /\ (e = unterminated_object \/ e = unterminated_array ->
          token_is toks (Parser.current p' - 1) EOF_TOKEN)
  | _ => True
  end.

(** The only end marker of the token sequence is its last token. *)
Definition eof_only_last (toks : list Token) : Prop :=
  exists body tk,
    toks = body ++ [tk] /\ is_eof tk = true
    /\ Forall (fun t => is_eof t = false) body.

(** The tokens of the text [print_json] writes for [v]. *)
Definition punct (tt : TokenType) (c : ascii) : Token :=
  mkToken tt (VString (String c "")).

Fixpoint tokens_of (v : JsonValue) : list Token :=
  match v with
  | JObject o =>
      punct LEFT_CURLY "{" ::
      (fix entries (l : list (string * JsonValue)) : list Token :=
         match l with
         | [] => []
         | (k, x) :: l' =>
             mkToken STRING (VString k) :: punct COLON ":" :: tokens_of x
             ++ (match l' with [] => [] | _ => [punct COMMA ","] end)
             ++ entries l'
         end) o
      ++ [punct RIGHT_CURLY "}"]
  | JArray a =>
      punct LEFT_SQUARE "[" ::
      (fix items (l : list JsonValue) : list Token :=
         match l with
         | [] => []
         | x :: l' =>
             tokens_of x
             ++ (match l' with [] => [] | _ => [punct COMMA ","] end)
             ++ items l'
         end) a
      ++ [punct RIGHT_SQUARE "]"]
  | JString s => [mkToken STRING (VString s)]
  | JInt i => [mkToken NUMBER (VInt i)]
  | JDouble d => [mkToken NUMBER (VDouble d)]
  | JBool b => [mkToken BOOLEAN (VBool b)]
  | JNull => [mkToken NULL_VALUE monostate]
  end.

(** Views of a scanner state used to describe its steps. *)
Module ScanState.
Import Scanner.

(** The character under the cursor, a space at the end of the input. *)
Definition peek (s : t) : ascii :=
  match String.get (current s) (str s) with
  | Some c => c
  | None => space
  end.

Definition peek_next (s : t) : ascii :=
  match String.get (current s + 1) (str s) with
  | Some c => c
  | None => space
  end.

(** The state [s] with the cursor moved [n] characters ahead. *)
Definition adv (n : nat) (s : t) : t :=
  mk (str s) (start s) (n + current s) (line s) (tokens s).

(** The text is [pre ++ post] and the cursor stands between them. *)
Definition at_split (s : t) (pre post : string) : Prop :=
  str s = (pre ++ post)%string /\ current s = String.length pre.

(** No requirement on the text that follows. *)
Definition anything (post : string) : Prop := True.

(** The loop of [scan]: its condition and its body. *)
Definition more (s : t) : bool := negb (isLast s).
Definition body (F : nat) : M t unit := modify set_start ;; scanToken F.

(** [n] iterations of the loop of [scan] lead from [s] to [s']. *)
Definition steps (F n : nat) (s s' : t) : Prop :=
  forall k, while_ (n + k) more (body F) s = while_ k more (body F) s'.

(** The scanner reads [text] as the tokens [toks], whatever precedes it,
    provided that what follows satisfies [B]. *)
Definition lexes (B : string -> Prop) (text : string) (toks : list Token)
  : Prop :=
  forall F pre post s,
    at_split s pre (text ++ post) -> B post -> String.length (str s) <= F ->
    exists n s',
      n <= String.length text /\ steps F n s s'
      /\ at_split s' (pre ++ text) post /\ tokens s' = tokens s ++ toks.

(** What a scanning step may do: it keeps the text, moves the cursor
    ahead within the text and appends at most one well-formed token, or
    it throws.  It neither faults nor runs out of fuel. *)
Definition step_post (lo : nat) (s : t) (o : Outcome t unit) : Prop :=
  match o with
  | Ok _ s' =>
      str s' = str s
      /\ lo < current s' <= String.length (str s)
      /\ (tokens s' = tokens s
          \/ exists tk, tokens s' = tokens s ++ [tk] /\ wf_token tk)
  | Throw e _ => scanner_error e
  | Fault => False
  | OutOfFuel => False
  end.

(** The loop of [scan], run from a state inside the text: it stops at the
    end of the text having appended well-formed tokens, or throws. *)
Definition loop_post (s : t) (o : Outcome t unit) : Prop :=
  match o with
  | Ok _ s' =>
      str s' = str s
      /\ current s' = String.length (str s)
      /\ exists new, tokens s' = tokens s ++ new /\ Forall wf_token new
  | Throw e _ => scanner_error e
  | Fault => False
  | OutOfFuel => False
  end.

End ScanState.

(** Views of a parser run over the token sequence [toks]. *)
Module ParseState.
Import Parser.

(** The parser has just read [token] and its cursor is [c]: the cursor is
    at most one past the last token, and inside the sequence unless the
    token read was the end marker. *)
Definition ready (toks : list Token) (token : Token) (c : nat) : Prop :=
  c <= List.length toks /\ (is_eof token = false -> c < List.length toks).

(** An acceptable outcome of a step entered with the cursor at [c]: it
    never faults; on return the cursor has not moved back and stands on a
    token; on a throw the cursor is at most one past the last token; fuel
    runs out only below [need]. *)
Definition good {A} (toks : list Token) (need fuel c : nat)
  (o : Outcome t A) : Prop :=
  match o with
  | Ok _ p' =>
      tokens p' = toks /\ c <= current p' /\ current p' < List.length toks
  | Throw e p' =>
      tokens p' = toks /\ current p' <= List.length toks /\ parser_error e
  | Fault => False
  | OutOfFuel => fuel < need
  end.

(** [toks'] has the same tokens as [toks] at the indices below [n]. *)
Definition agree (n : nat) (toks toks' : list Token) : Prop :=
  forall i, i < n -> nth_error toks' i = nth_error toks i.

(** A step entered at cursor [c] over [toks] returned [r] in state [p']:
    it kept the tokens, did not move the cursor back, and returns the same
    over every sequence with the same tokens below the final cursor. *)
Definition local {A} (run : t -> Outcome t A) (toks : list Token) (c : nat)
  : Prop :=
  forall r p', run (mk toks c) = Ok r p' ->
    tokens p' = toks /\ c <= current p'
    /\ (c <= List.length toks -> current p' <= List.length toks)
    /\ forall toks', agree (current p') toks toks' ->
         run (mk toks' c) = Ok r (mk toks' (current p')).

(** The statement for one value: entered with the first token of [v] read
    and the cursor behind it, the descent returns [v] with the cursor
    behind the last token of [v]. *)
Definition reads_back (v : JsonValue) : Prop :=
  forall fuel toks pre rest tk tl c c',
    tokens_of v = tk :: tl ->
    toks = pre ++ tokens_of v ++ rest ->
    c = S (List.length pre) ->
    c' = List.length pre + List.length (tokens_of v) ->
    3 * List.length (tokens_of v) <= fuel ->
    Parser.parse_from_token fuel tk (mk toks c) = Ok v (mk toks c').

End ParseState.

(** The token lists of the entries of an object and of the items of an
    array, by name. *)
Definition object_tokens : list (string * JsonValue) -> list Token :=
  fix entries (l : list (string * JsonValue)) : list Token :=
    match l with
    | [] => []
    | (k, x) :: l' =>
        mkToken STRING (VString k) :: punct COLON ":" :: tokens_of x
        ++ (match l' with [] => [] | _ => [punct COMMA ","] end)
        ++ entries l'
    end.

Definition array_tokens : list JsonValue -> list Token :=
  fix items (l : list JsonValue) : list Token :=
    match l with
    | [] => []
    | x :: l' =>
        tokens_of x
        ++ (match l' with [] => [] | _ => [punct COMMA ","] end)
        ++ items l'
    end.

(** What may follow a rendered value: the end of the text, a comma or a
    newline. *)
Definition ends_ok (post : string) : Prop :=
  match post with
  | EmptyString => True
  | String c _ => c = ","%char \/ c = newline
  end.

(* ================================================================= *)
(** ** Vocabulary of the further properties *)

(** The two characters [scanToken] skips. *)
Definition is_blank (c : ascii) : bool :=
  (c =? " ")%char || (c =? newline)%char.

(** The characters that have a [case] label in [scanToken]. *)
Definition has_case (c : ascii) : bool :=
  (c =? "{")%char || (c =? "}")%char || (c =? "[")%char || (c =? "]")%char
  || (c =? ",")%char || (c =? ":")%char || (c =? newline)%char
  || (c =? " ")%char || (c =? dquote)%char || (c =? "-")%char.

(** The message of the scanner and of the parser for what neither
    expects. *)
Definition unexpected_token : Error := invalid_argument "Unexpected token".

(** The errors of the grammar: the six messages of the parser. *)
Definition syntax_error (e : Error) : Prop :=
  In e [unexpected_token; unterminated_object;
        invalid_argument "JSON object fields must begin with a 'key' i.e. string";
        invalid_argument "Key: values must be colon separated";
        missing_comma; unterminated_array].

(** The token a run of letters stands for, if any. *)
Definition keyword_token (w : string) : option Token :=
  if (w =? "true")%string then Some (mkToken BOOLEAN (VBool true))
  else if (w =? "false")%string then Some (mkToken BOOLEAN (VBool false))
  else if (w =? "null")%string then Some (mkToken NULL_VALUE monostate)
  else None.

(** A tree as a text spells it, with the pairs of an object in the order
    of the text and keys that may repeat, and the value the parser builds
    from it: the pairs are assigned to the map one after the other. *)
Fixpoint normalize (v : JsonValue) : JsonValue :=
  match v with
  | JObject o =>
      JObject
        ((fix assign_entries (l : list (string * JsonValue)) (acc : JsonObject)
            : JsonObject :=
            match l with
            | [] => acc
            | (k, x) :: l' => assign_entries l' (map_assign k (normalize x) acc)
            end) o [])
  | JArray a =>
      JArray
        ((fix items (l : list JsonValue) : list JsonValue :=
            match l with
            | [] => []
            | x :: l' => normalize x :: items l'
            end) a)
  | _ => v
  end.

(** The assignment of the pairs of an object, by name. *)
Definition assign_entries
  : list (string * JsonValue) -> JsonObject -> JsonObject :=
  fix assign_entries (l : list (string * JsonValue)) (acc : JsonObject)
    : JsonObject :=
    match l with
    | [] => acc
    | (k, x) :: l' => assign_entries l' (map_assign k (normalize x) acc)
    end.

(** The value of the last pair of [l] whose key is [k]. *)
Fixpoint last_value (k : string) (l : list (string * JsonValue))
  : option JsonValue :=
  match l with
  | [] => None
  | (k', x) :: l' =>
      match last_value k l' with
      | Some y => Some y
      | None => if (k =? k')%string then Some x else None
      end
  end.

(** The keys of every object inside [v] are pairwise distinct. *)
Fixpoint unique_keys (v : JsonValue) : Prop :=
  match v with
  | JObject o =>
      NoDup (keys o) /\
      (fix entries (l : list (string * JsonValue)) : Prop :=
         match l with
         | [] => True
         | (_, x) :: l' => unique_keys x /\ entries l'
         end) o
  | JArray a =>
      (fix items (l : list JsonValue) : Prop :=
         match l with
         | [] => True
         | x :: l' => unique_keys x /\ items l'
         end) a
  | _ => True
  end.

(** The strings and keys of [v] hold no double quote and its integers fit
    an [int]. *)
Fixpoint leaves_scannable (v : JsonValue) : Prop :=
  match v with
  | JObject o =>
      (fix entries (l : list (string * JsonValue)) : Prop :=
         match l with
         | [] => True
         | (k, x) :: l' => (absent dquote k /\ leaves_scannable x) /\ entries l'
         end) o
  | JArray a =>
      (fix items (l : list JsonValue) : Prop :=
         match l with
         | [] => True
         | x :: l' => leaves_scannable x /\ items l'
         end) a
  | JString s => absent dquote s
  | JInt i => (INT_MIN <= i <= INT_MAX)%Z
  | _ => True
  end.

(** The payload of [tk] is not a [double]. *)
Definition not_double_token (tk : Token) : Prop :=
  match value tk with
  | VDouble _ => False
  | _ => True
  end.

(** The statement of [ParseState.reads_back] with a result of its own:
    the tokens of [v] are read as the value [r]. *)
Definition reads_as (v r : JsonValue) : Prop :=
  forall fuel toks pre rest tk tl c c',
    tokens_of v = tk :: tl ->
    toks = pre ++ tokens_of v ++ rest ->
    c = S (List.length pre) ->
    c' = List.length pre + List.length (tokens_of v) ->
    3 * List.length (tokens_of v) <= fuel ->
    Parser.parse_from_token fuel tk (Parser.mk toks c)
    = Ok r (Parser.mk toks c').

(** The state of a scan of a text without decimal point: no token with a
    [double] payload has been appended. *)
Definition pointless (s : Scanner.t) : Prop :=
  absent "." (Scanner.str s) /\ Forall not_double_token (Scanner.tokens s).

(** The scanner state [s2] is the state [s] seen inside a longer text:
    the text of [s] stands between [pre] and [post], the cursors are
    [pre] further on, and the tokens [T] precede the tokens of [s]. *)
Definition inside (pre post : string) (T : list Token) (s s2 : Scanner.t)
  : Prop :=
  Scanner.str s2 = (pre ++ Scanner.str s ++ post)%string
  /\ Scanner.start s2 = String.length pre + Scanner.start s
  /\ Scanner.current s2 = String.length pre + Scanner.current s
  /\ Scanner.tokens s2 = T ++ Scanner.tokens s.

(** The text [post] is empty or starts with a space or a newline. *)
Definition quiet (post : string) : Prop :=
  match post with
  | EmptyString => True
  | String c _ => is_blank c = true
  end.

(** The predicate [p] takes a space and a newline for the same. *)
Definition blind (p : ascii -> bool) : Prop :=
  forall c, is_blank c = true -> p c = p space.

(** The outcome [o2] inside the longer text mirrors the outcome [o]: it
    returns the same in a state that is the state of [o] seen inside the
    longer text, and throws the same provided that no double quote
    follows the text. *)
Definition mirrors {A} (pre post : string) (T : list Token)
  (o o2 : Outcome Scanner.t A) : Prop :=
  match o with
  | Ok a s' => exists s2', o2 = Ok a s2' /\ inside pre post T s' s2'
  | Throw e _ => absent dquote post -> exists s2', o2 = Throw e s2'
  | Fault => True
  | OutOfFuel => True
  end.

(** The token sequences the parser takes for a value, read off the
    descent: a scalar token with the payload of its type; an opening
    brace, pairs of a STRING key, a colon and a value, and a closing
    brace; an opening bracket, values, and a closing bracket.  A comma
    stands between two pairs (values) and may stand behind the last one.
    [spells_pairs ts acc o]: assigning the pairs [ts] in turn to the object
    [acc] gives [o]; [spells_items ts acc a]: appending the values [ts] to
    the array [acc] gives [a]. *)
Inductive spells : list Token -> JsonValue -> Prop :=
| spells_string tk s :
    token_type tk = STRING -> value tk = VString s -> spells [tk] (JString s)
| spells_int tk i :
    token_type tk = NUMBER -> value tk = VInt i -> spells [tk] (JInt i)
| spells_double tk d :
    token_type tk = NUMBER -> value tk = VDouble d -> spells [tk] (JDouble d)
| spells_bool tk b :
    token_type tk = BOOLEAN -> value tk = VBool b -> spells [tk] (JBool b)
| spells_null tk :
    token_type tk = NULL_VALUE -> spells [tk] JNull
| spells_object op body cl o :
    token_type op = LEFT_CURLY -> spells_pairs body [] o ->
    token_type cl = RIGHT_CURLY ->
    spells (op :: body ++ [cl]) (JObject o)
| spells_array op body cl a :
    token_type op = LEFT_SQUARE -> spells_items body [] a ->
    token_type cl = RIGHT_SQUARE ->
    spells (op :: body ++ [cl]) (JArray a)

with spells_pairs : list Token -> JsonObject -> JsonObject -> Prop :=
| pairs_done acc : spells_pairs [] acc acc
| pairs_last key colon ts k v acc :
    token_type key = STRING -> value key = VString k ->
    token_type colon = COLON -> spells ts v ->
    spells_pairs (key :: colon :: ts) acc (map_assign k v acc)
| pairs_more key colon ts comma rest k v acc o :
    token_type key = STRING -> value key = VString k ->
    token_type colon = COLON -> spells ts v ->
    token_type comma = COMMA ->
    spells_pairs rest (map_assign k v acc) o ->
    spells_pairs (key :: colon :: ts ++ comma :: rest) acc o

with spells_items : list Token -> JsonArray -> JsonArray -> Prop :=
| items_done acc : spells_items [] acc acc
| items_last ts v acc :
    spells ts v -> spells_items ts acc (acc ++ [v])
| items_more ts comma rest v acc a :
    spells ts v -> token_type comma = COMMA ->
    spells_items rest (acc ++ [v]) a ->
    spells_items (ts ++ comma :: rest) acc a.

Scheme spells_mut := Minimality for spells Sort Prop
  with spells_pairs_mut := Minimality for spells_pairs Sort Prop
  with spells_items_mut := Minimality for spells_items Sort Prop.
Combined Scheme spells_mutind
  from spells_mut, spells_pairs_mut, spells_items_mut.

(** What a run of the descent has consumed: the tokens [ts] between the
    cursor [c] it was entered with and the cursor it left. *)
Definition consumed (toks : list Token) (c : nat) (p' : Parser.t)
  (ts : list Token) : Prop :=
  Parser.tokens p' = toks
  /\ skipn c toks = ts ++ skipn (Parser.current p') toks
  /\ Parser.current p' = c + List.length ts.

(** The exceptions a scan can end with: the four messages of the scanner
    and the range errors of [stoi] and [stod]. *)
Definition lexical_error (e : Error) : Prop :=
  In e [invalid_argument "Unterminated string";
        invalid_argument "- must be followed by a number";
        invalid_argument "Expected digit after . (trying to parse float)";
        unexpected_token;
        out_of_range "stoi"; out_of_range "stod"].

(* ================================================================= *)
(** * Proofs *)

(** ** Induction on values *)

Section JsonValue_induction.
Variable P : JsonValue -> Prop.
Hypothesis HObject : forall o, Forall (fun kv => P (snd kv)) o -> P (JObject o).
Hypothesis HArray : forall a, Forall P a -> P (JArray a).
Hypothesis HString : forall s, P (JString s).
Hypothesis HInt : forall i, P (JInt i).
Hypothesis HDouble : forall d, P (JDouble d).
Hypothesis HBool : forall b, P (JBool b).
Hypothesis HNull : P JNull.

Fixpoint JsonValue_ind (v : JsonValue) : P v :=
  match v with
  | JObject o =>
      HObject o
        ((fix go (l : list (string * JsonValue)) : Forall (fun kv => P (snd kv)) l :=
            match l with
            | [] => Forall_nil _
            | kv :: l' => Forall_cons kv (JsonValue_ind (snd kv)) (go l')
            end) o)
  | JArray a =>
      HArray a
        ((fix go (l : list JsonValue) : Forall P l :=
            match l with
            | [] => Forall_nil _
            | x :: l' => Forall_cons x (JsonValue_ind x) (go l')
            end) a)
  | JString s => HString s
  | JInt i => HInt i
  | JDouble d => HDouble d
  | JBool b => HBool b
  | JNull => HNull
  end.
End JsonValue_induction.

(** ** The monad *)

Lemma ret_eq {St A} (a : A) (s : St) : ret a s = Ok a s.
Proof. reflexivity. Qed.
Lemma throw_eq {St A} (e : Error) (s : St) : @throw St A e s = Throw e s.
Proof. reflexivity. Qed.
Lemma gets_eq {St A} (f : St -> A) (s : St) : gets f s = Ok (f s) s.
Proof. reflexivity. Qed.
Lemma modify_eq {St} (f : St -> St) (s : St) : modify f s = Ok tt (f s).
Proof. reflexivity. Qed.
Lemma lift_inl {St A} (e : Error) (s : St) : @lift St A (inl e) s = Throw e s.
Proof. reflexivity. Qed.
Lemma lift_inr {St A} (a : A) (s : St) : @lift St A (inr a) s = Ok a s.
Proof. reflexivity. Qed.
Lemma fault_eq {St A} (s : St) : @fault St A s = Fault.
Proof. reflexivity. Qed.
Lemma out_of_fuel_eq {St A} (s : St) : @out_of_fuel St A s = OutOfFuel.
Proof. reflexivity. Qed.

(** Runs the monadic operations at the head of the goal. *)
Ltac mred :=
  repeat (cbv beta iota;
          first [ rewrite modify_eq | rewrite gets_eq | rewrite ret_eq
                | rewrite throw_eq | rewrite lift_inl | rewrite lift_inr
                | rewrite fault_eq | rewrite out_of_fuel_eq ]);
  cbv beta iota.

(** ** Strings *)

Lemma length_append (a b : string) :
  String.length (a ++ b) = String.length a + String.length b.
Proof. induction a; simpl; auto. Qed.

Lemma append_assoc (a b c : string) : ((a ++ b) ++ c = a ++ (b ++ c))%string.
Proof. induction a; simpl; congruence. Qed.

Lemma append_nil_r (a : string) : (a ++ "")%string = a.
Proof. induction a; simpl; congruence. Qed.

Lemma get_append_r (a b : string) (i : nat) :
  String.get (String.length a + i) (a ++ b) = String.get i b.
Proof. induction a; simpl; auto. Qed.

Lemma get_append_l (a b : string) (i : nat) :
  i < String.length a -> String.get i (a ++ b) = String.get i a.
Proof.
  revert i; induction a; simpl; intros i Hi; [lia|].
  destruct i; auto. apply IHa; lia.
Qed.

Lemma get_none (s : string) (i : nat) :
  String.length s <= i -> String.get i s = None.
Proof.
  revert i; induction s; simpl; intros i Hi; auto.
  destruct i; [lia|]. apply IHs; lia.
Qed.

Lemma get_some (s : string) (i : nat) :
  i < String.length s -> exists c, String.get i s = Some c.
Proof.
  revert i; induction s; simpl; intros i Hi; [lia|].
  destruct i; eauto. apply IHs; lia.
Qed.

Lemma substring_0_append (a b : string) :
  substring 0 (String.length a) (a ++ b) = a.
Proof.
  induction a; simpl.
  - destruct b; reflexivity.
  - congruence.
Qed.

Lemma substring_append (a b c : string) :
  substring (String.length a) (String.length b) (a ++ b ++ c) = b.
Proof. induction a; simpl; auto using substring_0_append. Qed.

Lemma substring_after_char (a b c : string) (x : ascii) :
  substring (String.length a + 1) (String.length b) (a ++ String x (b ++ c)) = b.
Proof. induction a; simpl; auto using substring_0_append. Qed.

(** ** The scanner: elementary steps *)

Module ScannerFacts.
Import Scanner ScanState.

Lemma adv_0 s : adv 0 s = s.
Proof. destruct s; reflexivity. Qed.

Lemma adv_S n s : adv (S n) s = adv n (incr_current s).
Proof. unfold adv, incr_current; simpl. f_equal. lia. Qed.

Lemma isLast_true s : isLast s = true <-> String.length (str s) <= current s.
Proof. unfold isLast. apply Nat.leb_le. Qed.

Lemma isLast_false s : isLast s = false <-> current s < String.length (str s).
Proof. unfold isLast. apply Nat.leb_gt. Qed.

Lemma getCurrValue_peek s : getCurrValue s = Ok (peek s) s.
Proof.
  unfold getCurrValue, peek, bind, gets, string_at.
  destruct (isLast s) eqn:E.
  - apply isLast_true in E. rewrite get_none by exact E. reflexivity.
  - apply isLast_false in E. destruct (get_some _ _ E) as [c ->]. reflexivity.
Qed.

Lemma getNextValue_peek s : getNextValue s = Ok (peek_next s) s.
Proof.
  unfold getNextValue, peek_next, bind, gets, string_at.
  destruct (String.length (str s) <=? current s + 1) eqn:E.
  - apply Nat.leb_le in E. rewrite get_none by exact E. reflexivity.
  - apply Nat.leb_gt in E. destruct (get_some _ _ E) as [c ->]. reflexivity.
Qed.

Lemma cond_of_peek p s : cond_of p s = p (peek s).
Proof. unfold cond_of. rewrite getCurrValue_peek. reflexivity. Qed.

Lemma advanceCurrent_get s c :
  String.get (current s) (str s) = Some c ->
  advanceCurrent s = Ok c (incr_current s).
Proof.
  intros H. unfold advanceCurrent, bind, gets, string_at, modify, ret.
  rewrite H. reflexivity.
Qed.

Lemma peek_in_bounds s :
  peek s <> space -> current s < String.length (str s).
Proof.
  unfold peek. intros H.
  destruct (Nat.lt_ge_cases (current s) (String.length (str s))); auto.
  rewrite get_none in H by assumption. congruence.
Qed.

Lemma peek_next_in_bounds s :
  peek_next s <> space -> current s + 1 < String.length (str s).
Proof.
  unfold peek_next. intros H.
  destruct (Nat.lt_ge_cases (current s + 1) (String.length (str s))); auto.
  rewrite get_none in H by assumption. congruence.
Qed.

Lemma isdigit_not_space c : isdigit c = true -> c <> space.
Proof. intros H ->. discriminate. Qed.

Lemma isalpha_not_space c : isalpha c = true -> c <> space.
Proof. intros H ->. discriminate. Qed.

(** *** Loops that only move the cursor *)

Lemma while_exact n : forall fuel cond s,
  n <= fuel ->
  (forall i, i < n -> cond (adv i s) = true) ->
  cond (adv n s) = false ->
  while_ fuel cond (modify incr_current) s = Ok tt (adv n s).
Proof.
  induction n as [|n IH]; intros fuel cond s Hf Ht Hn.
  - rewrite adv_0 in *. destruct fuel; simpl; rewrite Hn; reflexivity.
  - destruct fuel as [|fuel]; [lia|]. simpl.
    rewrite <- (adv_0 s) at 1. rewrite Ht by lia.
    unfold modify at 1. rewrite adv_S. apply IH.
    + lia.
    + intros i Hi. rewrite <- adv_S. apply Ht. lia.
    + rewrite <- adv_S. exact Hn.
Qed.

Lemma while_total fuel : forall cond s,
  (forall s', cond s' = true -> current s' < String.length (str s')) ->
  String.length (str s) - current s <= fuel ->
  exists n,
    while_ fuel cond (modify incr_current) s = Ok tt (adv n s)
    /\ cond (adv n s) = false
    /\ (forall i, i < n -> cond (adv i s) = true)
    /\ (current s <= String.length (str s) ->
        n + current s <= String.length (str s)).
Proof.
  induction fuel as [|fuel IH]; intros cond s Hc Hf.
  - exists 0. rewrite adv_0. simpl.
    destruct (cond s) eqn:E.
    + apply Hc in E. lia.
    + repeat split; auto; intros; lia.
  - simpl. destruct (cond s) eqn:E.
    + pose proof (Hc _ E) as Hlt.
      destruct (IH cond (incr_current s) Hc) as (n & Hw & Hn & Hi & Hb).
      { simpl. lia. }
      exists (S n). unfold modify at 1. rewrite adv_S. repeat split; auto.
      * intros i Hlt'. destruct i; [rewrite adv_0; exact E|].
        rewrite adv_S. apply Hi. lia.
      * intros _. simpl in Hb. lia.
    + exists 0. rewrite adv_0. repeat split; auto; intros; lia.
Qed.

(** *** Substrings without a given character *)

Lemma absent_substring x : forall s a n,
  (forall i c, i < n -> String.get (a + i) s = Some c -> c <> x) ->
  absent x (substring a n s).
Proof.
  induction s as [|c s IH]; intros a n H.
  - destruct a, n; simpl; auto.
  - destruct a as [|a]; simpl.
    + destruct n as [|n]; simpl; auto. split.
      * apply (H 0 c); simpl; auto; lia.
      * apply IH. intros i c' Hi Hg. apply (H (S i) c'); simpl; auto; lia.
    + apply IH. intros i c' Hi Hg. apply (H i c'); simpl; auto.
Qed.

End ScannerFacts.

(** ** The scanner: one token *)

Module ScanToken.
Import Scanner ScanState ScannerFacts.

Lemma stoi_error s e :
  stoi s = inl e -> e = invalid_argument "stoi" \/ e = out_of_range "stoi".
Proof.
  unfold stoi. destruct (read_sign s) as [neg body].
  destruct (read_digits body 0 0) as [[v n] r].
  destruct (n =? 0); [intros H; inversion H; auto|].
  destruct ((INT_MIN <=? (if neg then (- v)%Z else v))%Z
            && ((if neg then (- v)%Z else v) <=? INT_MAX)%Z);
    intros H; inversion H; auto.
Qed.

Lemma round_binary64_error neg n d e :
  round_binary64 neg n d = inl e -> e = out_of_range "stod".
Proof.
  unfold round_binary64. destruct (n =? 0)%Z; [discriminate|].
  destruct (scaled_quotient _ _ _) as [q exact].
  destruct (if (q =? 2 ^ 53)%Z then _ else _) as [m e'].
  destruct (971 <? e')%Z; [intros H; inversion H; auto|].
  destruct (tiny _ _ _ && negb exact && negb (quarter_ulp _ _ _));
    [intros H; inversion H; auto|].
  destruct m; discriminate.
Qed.

Lemma stod_error s e :
  stod s = inl e -> e = invalid_argument "stod" \/ e = out_of_range "stod".
Proof.
  unfold stod. destruct (read_sign s) as [neg body].
  destruct (read_digits body 0 0) as [[vi ni] rest].
  destruct (match rest with
            | EmptyString => (vi, 0)
            | String c rest' => _
            end) as [v nf].
  destruct (ni + nf =? 0); [intros H; inversion H; auto|].
  intros H. right. eapply round_binary64_error; eauto.
Qed.

Ltac serr :=
  solve [ cbn [step_post]; unfold scanner_error; simpl;
          repeat (first [left; reflexivity | right]) ].

Lemma stoi_range s z : stoi s = inr z -> (INT_MIN <= z <= INT_MAX)%Z.
Proof.
  unfold stoi. destruct (read_sign s) as [neg body].
  destruct (read_digits body 0 0) as [[v n] r].
  destruct (n =? 0); [discriminate|].
  destruct ((INT_MIN <=? (if neg then (- v)%Z else v))%Z
            && ((if neg then (- v)%Z else v) <=? INT_MAX)%Z) eqn:E;
    [|discriminate].
  intros H; inversion H; subst. apply andb_prop in E. destruct E.
  split; apply Z.leb_le; assumption.
Qed.

Ltac sstate :=
  cbn [step_post str start current line tokens adv incr_current incr_line
       set_start push_back token_type value] in *.

Lemma addString_post fuel s :
  start s + 1 = current s ->
  current s <= String.length (str s) ->
  String.length (str s) <= fuel ->
  step_post (start s) s (addString fuel s).
Proof.
  intros Hst Hc Hf. unfold addString, bind.
  destruct (while_total fuel
              (fun s => cond_of (fun c => negb (c =? dquote)%char) s
                        && negb (isLast s)) s)
    as (n & Hw & Hn & Hi & Hb).
  { intros s' H. apply andb_prop in H. destruct H as [_ H].
    apply negb_true_iff in H. apply isLast_false. exact H. }
  { lia. }
  rewrite Hw. mred.
  destruct (isLast (adv n s)) eqn:El; mred; [serr|].
  apply isLast_false in El. sstate.
  repeat split; try lia.
  right. eexists. split; [reflexivity|].
  unfold wf_token; sstate.
  replace (start s + 1) with (current s) by lia.
  replace (S (n + current s) - start s - 2) with n by lia.
  apply absent_substring. intros i c Hlt Hg.
  specialize (Hi i Hlt). apply andb_prop in Hi. destruct Hi as [Hi _].
  rewrite cond_of_peek in Hi. unfold peek in Hi. sstate.
  rewrite (Nat.add_comm i) in Hi. rewrite Hg in Hi.
  apply negb_true_iff in Hi. apply Ascii.eqb_neq in Hi. exact Hi.
Qed.

Lemma digits_loop fuel s :
  String.length (str s) - current s <= fuel ->
  current s <= String.length (str s) ->
  exists n,
    while_ fuel (cond_of isdigit) (modify incr_current) s = Ok tt (adv n s)
    /\ n + current s <= String.length (str s).
Proof.
  intros Hf Hc.
  destruct (while_total fuel (cond_of isdigit) s) as (n & Hw & _ & _ & Hb).
  { intros s' H. rewrite cond_of_peek in H.
    apply peek_in_bounds, isdigit_not_space, H. }
  { exact Hf. }
  exists n. auto.
Qed.

Lemma addNumber_post fuel s :
  start s < current s ->
  current s <= String.length (str s) ->
  String.length (str s) <= fuel ->
  step_post (start s) s (addNumber fuel s).
Proof.
  intros Hst Hc Hf. unfold addNumber, bind.
  destruct (digits_loop fuel s) as (n & Hw & Hb); try lia.
  rewrite Hw. mred. rewrite getCurrValue_peek. mred.
  destruct (peek (adv n s) =? ".")%char.
  - rewrite getNextValue_peek. mred.
    destruct (isdigit (peek_next (adv n s))) eqn:Ed; cbn [negb]; mred;
      [|serr].
    apply isdigit_not_space, peek_next_in_bounds in Ed. sstate.
    destruct (digits_loop fuel (incr_current (adv n s))) as (m & Hw' & Hb');
      sstate; try lia.
    rewrite Hw'. mred.
    destruct (stod (lexeme (adv m (incr_current (adv n s))))) eqn:Es; mred;
      [destruct (stod_error _ _ Es) as [-> | ->]; serr|].
    sstate. repeat split; try lia.
    right. eexists. split; [reflexivity|exact I].
  - mred.
    destruct (stoi (lexeme (adv n s))) eqn:Es; mred;
      [destruct (stoi_error _ _ Es) as [-> | ->]; serr|].
    sstate. repeat split; try lia.
    right. eexists. split; [reflexivity|].
    unfold wf_token; sstate. eapply stoi_range; eauto.
Qed.

Lemma addKeyword_post fuel s :
  start s < current s ->
  current s <= String.length (str s) ->
  String.length (str s) <= fuel ->
  step_post (start s) s (addKeyword fuel s).
Proof.
  intros Hst Hc Hf. unfold addKeyword, bind.
  destruct (while_total fuel (cond_of isalpha) s) as (n & Hw & _ & _ & Hb).
  { intros s' H. rewrite cond_of_peek in H.
    apply peek_in_bounds, isalpha_not_space, H. }
  { lia. }
  rewrite Hw. mred. specialize (Hb Hc).
  destruct (lexeme (adv n s) =? "true")%string;
    [|destruct (lexeme (adv n s) =? "false")%string;
      [|destruct (lexeme (adv n s) =? "null")%string]];
    mred; try (serr; fail); sstate;
    (repeat split; try lia; right; eexists; split; [reflexivity|exact I]).
Qed.

Lemma punctuation_post tt c s :
  start s < current s ->
  current s <= String.length (str s) ->
  In tt [LEFT_CURLY; RIGHT_CURLY; LEFT_SQUARE; RIGHT_SQUARE; COMMA; COLON] ->
  step_post (start s) s (punctuation tt c s).
Proof.
  intros Hst Hc Hin. unfold punctuation. mred. sstate.
  repeat split; try lia. right. eexists. split; [reflexivity|].
  unfold wf_token. sstate. simpl in Hin.
  repeat (destruct Hin as [<-|Hin]; [exact I|]). contradiction.
Qed.

(** [scanToken] entered with [start = current] inside the text. *)
Lemma scanToken_post fuel s :
  start s = current s ->
  current s < String.length (str s) ->
  String.length (str s) <= fuel ->
  step_post (current s) s (scanToken fuel s).
Proof.
  intros Hst Hc Hf. unfold scanToken.
  destruct (get_some _ _ Hc) as [c Hg].
  unfold bind at 1. rewrite (advanceCurrent_get _ _ Hg). cbv beta iota.
  set (s1 := incr_current s).
  assert (H1 : start s1 < current s1) by (simpl; lia).
  assert (H2 : current s1 <= String.length (str s1)) by (simpl; lia).
  assert (H3 : start s1 + 1 = current s1) by (simpl; lia).
  assert (Hlift : forall o, step_post (start s1) s1 o -> step_post (current s) s o).
  { intros [a s'|e s'| |]; simpl; auto. rewrite Hst. auto. }
  repeat match goal with
         | |- step_post _ _ ((if ?b then _ else _) _) => destruct b eqn:?
         end;
    try (apply Hlift, punctuation_post; simpl; auto 10; fail).
  - mred. subst s1. sstate. repeat split; auto; lia.
  - mred. subst s1. sstate. repeat split; auto; lia.
  - apply Hlift, addString_post; auto.
  - unfold bind. rewrite getCurrValue_peek. cbv beta iota.
    destruct (isdigit (peek s1)) eqn:Ed; mred; [|serr].
    pose proof (peek_in_bounds _ (isdigit_not_space _ Ed)) as Hb.
    destruct (get_some _ _ Hb) as [c' Hg'].
    rewrite (advanceCurrent_get _ _ Hg'). cbv beta iota.
    pose proof (addNumber_post fuel (incr_current s1)) as HN.
    subst s1. sstate.
    destruct (addNumber fuel (incr_current (incr_current s)))
      as [a s'|e s'| |]; sstate; auto; try (apply HN; lia).
    destruct HN as (Ha & Hb' & Hc'); try lia. repeat split; auto; lia.
  - apply Hlift, addNumber_post; auto.
  - apply Hlift, addKeyword_post; auto.
  - mred. serr.
Qed.

Lemma scan_loop_post F k : forall s,
  String.length (str s) <= F ->
  String.length (str s) - current s <= k ->
  current s <= String.length (str s) ->
  loop_post s (while_ k (fun s => negb (isLast s))
                        (modify set_start ;; scanToken F) s).
Proof.
  induction k as [|k IH]; intros s HF Hk Hc.
  - simpl. destruct (isLast s) eqn:E; cbn [negb].
    + apply isLast_true in E. simpl. split; auto. split; [lia|].
      exists []. rewrite app_nil_r. auto.
    + apply isLast_false in E. lia.
  - simpl. destruct (isLast s) eqn:E; cbn [negb].
    + apply isLast_true in E. simpl. split; auto. split; [lia|].
      exists []. rewrite app_nil_r. auto.
    + apply isLast_false in E. unfold bind at 1. rewrite modify_eq.
      cbv beta iota.
      pose proof (scanToken_post F (set_start s)) as HP. sstate.
      specialize (HP eq_refl E HF).
      destruct (scanToken F (set_start s)) as [a s'|e s'| |]; sstate; auto.
      destruct HP as (Hs & Hb & Ht).
      specialize (IH s'). rewrite Hs in IH.
      specialize (IH HF ltac:(lia) ltac:(lia)).
      destruct (while_ k _ _ s') as [a' s''|e s''| |]; sstate; auto.
      destruct IH as (Hs' & Hc' & new & Hn & Hwf).
      split; [congruence|]. split; [congruence|].
      destruct Ht as [Ht|(tk & Ht & Hw)]; rewrite Ht in Hn.
      * exists new. auto.
      * exists (tk :: new). rewrite <- app_assoc in Hn. auto.
Qed.

Lemma wf_token_not_eof tk : wf_token tk -> token_type tk <> EOF_TOKEN.
Proof. unfold wf_token. intros H E. rewrite E in H. exact H. Qed.

(** [scan] with enough fuel: the tokens of the text followed by one
    end marker, or a scanner error. *)
Lemma scan_post fuel input :
  String.length input <= fuel ->
  match Scanner.scan fuel (init input) with
  | Ok toks _ =>
      exists body,
        toks = body ++ [mkToken EOF_TOKEN monostate] /\ Forall wf_token body
  | Throw e _ => scanner_error e
  | Fault => False
  | OutOfFuel => False
  end.
Proof.
  intros Hf. unfold Scanner.scan, bind.
  pose proof (scan_loop_post fuel fuel (init input)) as HL. sstate.
  specialize (HL Hf ltac:(simpl; lia) ltac:(simpl; lia)).
  destruct (while_ fuel _ _ (init input)) as [a s'|e s'| |]; sstate; auto.
  mred. destruct HL as (_ & _ & new & Hn & Hwf). simpl in Hn.
  exists new. sstate. rewrite Hn. auto.
Qed.

End ScanToken.

(** ** The scanner: what each kind of lexeme yields *)

Module ScanLexeme.
Import Scanner ScanState ScannerFacts ScanToken.

Lemma at_split_get s pre post i :
  at_split s pre post ->
  String.get (i + current s) (str s) = String.get i post.
Proof.
  intros [-> ->]. rewrite Nat.add_comm. apply get_append_r.
Qed.

Lemma at_split_peek s pre c post :
  at_split s pre (String c post) -> peek s = c.
Proof.
  intros H. unfold peek. rewrite <- (Nat.add_0_l (current s)).
  rewrite (at_split_get _ _ _ 0 H). reflexivity.
Qed.

Lemma at_split_peek_end s pre : at_split s pre "" -> peek s = space.
Proof.
  intros H. unfold peek. rewrite <- (Nat.add_0_l (current s)).
  rewrite (at_split_get _ _ _ 0 H). reflexivity.
Qed.

Lemma at_split_isLast s pre c post :
  at_split s pre (String c post) -> isLast s = false.
Proof.
  intros [Hs Hc]. apply isLast_false. rewrite Hs, Hc, length_append.
  simpl. lia.
Qed.

Lemma at_split_isLast_end s pre : at_split s pre "" -> isLast s = true.
Proof.
  intros [Hs Hc]. apply isLast_true. rewrite Hs, Hc, length_append.
  simpl. lia.
Qed.

Lemma at_split_adv s pre a post :
  at_split s pre (a ++ post) ->
  at_split (adv (String.length a) s) (pre ++ a) post.
Proof.
  intros [Hs Hc]. split; simpl.
  - rewrite Hs. symmetry. apply append_assoc.
  - rewrite Hc, length_append. lia.
Qed.

Lemma at_split_incr s pre c post :
  at_split s pre (String c post) ->
  at_split (incr_current s) (pre ++ String c "") post.
Proof.
  intros [Hs Hc]. split; simpl.
  - rewrite Hs, append_assoc. reflexivity.
  - rewrite Hc, length_append. simpl. lia.
Qed.

Lemma at_split_advance s pre c post :
  at_split s pre (String c post) ->
  advanceCurrent s = Ok c (incr_current s).
Proof.
  intros H. apply advanceCurrent_get.
  rewrite <- (Nat.add_0_l (current s)), (at_split_get _ _ _ 0 H).
  reflexivity.
Qed.

Lemma peek_in_run p s pre a post i :
  at_split s pre (a ++ post) -> all_chars p a -> i < String.length a ->
  p (peek (adv i s)) = true.
Proof.
  intros H Ha Hi. unfold peek. cbn [adv str current].
  rewrite (at_split_get _ _ _ i H).
  rewrite get_append_l by exact Hi.
  clear - Ha Hi. revert i Hi. induction a as [|c a IH]; intros i Hi.
  - simpl in Hi. lia.
  - destruct Ha as [Hc Ha]. destruct i; simpl; auto. apply IH; auto.
    simpl in Hi. lia.
Qed.

Lemma peek_after_run p s pre a post :
  at_split s pre (a ++ post) -> stops p post ->
  p (peek (adv (String.length a) s)) = false.
Proof.
  intros H Hp. apply at_split_adv in H.
  destruct post as [|c post].
  - rewrite (at_split_peek_end _ _ H). exact Hp.
  - rewrite (at_split_peek _ _ _ _ H). exact Hp.
Qed.

Lemma skip_run p fuel s pre a post :
  at_split s pre (a ++ post) -> all_chars p a -> stops p post ->
  String.length a <= fuel ->
  while_ fuel (cond_of p) (modify incr_current) s
  = Ok tt (adv (String.length a) s).
Proof.
  intros H Ha Hp Hf. apply while_exact; auto.
  - intros i Hi. rewrite cond_of_peek. eapply peek_in_run; eauto.
  - rewrite cond_of_peek. eapply peek_after_run; eauto.
Qed.

Lemma absent_all_chars x a :
  absent x a -> all_chars (fun c => negb (c =? x)%char) a.
Proof.
  induction a as [|c a IH]; simpl; auto. intros [Hc Ha]. split; auto.
  apply negb_true_iff, Ascii.eqb_neq, Hc.
Qed.

Lemma lexeme_at s pre a post n :
  str s = (pre ++ a ++ post)%string -> start s = String.length pre ->
  n + current s - start s = String.length a ->
  lexeme (adv n s) = a.
Proof.
  intros Hs Hst Hn. unfold lexeme. cbn [adv str start current].
  rewrite Hn, Hs, Hst. apply substring_append.
Qed.

(** *** String literals *)

Lemma scanToken_dquote fuel s pre post :
  at_split s pre (String dquote post) ->
  scanToken fuel s = addString fuel (incr_current s).
Proof.
  intros H. unfold scanToken, bind at 1.
  rewrite (at_split_advance _ _ _ _ H). reflexivity.
Qed.

Lemma addString_loop fuel s pre body post :
  at_split s pre (body ++ post) -> absent dquote body ->
  match post with String c _ => c = dquote | EmptyString => True end ->
  String.length body <= fuel ->
  while_ fuel (fun s => cond_of (fun c => negb (c =? dquote)%char) s
                        && negb (isLast s))
         (modify incr_current) s
  = Ok tt (adv (String.length body) s).
Proof.
  intros H Ha Hp Hf. apply while_exact; auto.
  - intros i Hi. rewrite cond_of_peek.
    rewrite (peek_in_run _ _ _ _ _ _ H (absent_all_chars _ _ Ha) Hi).
    cbn [andb]. apply negb_true_iff, isLast_false. cbn [adv str current].
    destruct H as [-> ->]. rewrite !length_append. lia.
  - apply at_split_adv in H. destruct post as [|c post].
    + rewrite (at_split_isLast_end _ _ H). apply andb_false_r.
    + rewrite cond_of_peek, (at_split_peek _ _ _ _ H), Hp. reflexivity.
Qed.

(** A literal closed by the next double quote yields a [STRING] token
    whose payload is the text between the quotes. *)
Lemma scanToken_string fuel s pre body post :
  at_split s pre (quoted body ++ post) -> start s = current s ->
  absent dquote body -> String.length body <= fuel ->
  scanToken fuel s
  = Ok tt (push_back (mkToken STRING (VString body))
                     (adv (String.length body + 2) s)).
Proof.
  intros H Hst Ha Hf. unfold quoted in H. cbn [append] in H.
  rewrite (scanToken_dquote _ _ _ _ H).
  pose proof (at_split_incr _ _ _ _ H) as H1.
  rewrite append_assoc in H1.
  unfold addString, bind.
  rewrite (addString_loop fuel _ _ _ _ H1 Ha eq_refl Hf). mred.
  pose proof (at_split_adv _ _ _ _ H1) as H2. cbn [append] in H2.
  rewrite (at_split_isLast _ _ _ _ H2). mred.
  destruct H as [Hs Hc]. unfold push_back, adv, incr_current.
  cbn [str start current line tokens]. f_equal. f_equal.
  - f_equal. lia.
  - f_equal. f_equal. f_equal.
    replace (S (String.length body + S (current s)) - start s - 2)
      with (String.length body) by lia.
    rewrite Hst, Hc, Hs. cbn [append]. rewrite append_assoc.
    f_equal. apply substring_after_char.
Qed.

(** A literal with no closing double quote fails. *)
Lemma scanToken_unterminated fuel s pre body :
  at_split s pre (String dquote body) ->
  absent dquote body -> String.length body <= fuel ->
  scanToken fuel s
  = Throw (invalid_argument "Unterminated string")
          (adv (String.length body + 1) s).
Proof.
  intros H Ha Hf.
  rewrite (scanToken_dquote _ _ _ _ H).
  pose proof (at_split_incr _ _ _ _ H) as H1.
  rewrite <- (append_nil_r body) in H1.
  unfold addString, bind.
  rewrite (addString_loop fuel _ _ _ _ H1 Ha I Hf). mred.
  pose proof (at_split_adv _ _ _ _ H1) as H2.
  rewrite (at_split_isLast_end _ _ H2). mred.
  unfold adv, incr_current. cbn [str start current line tokens].
  do 2 f_equal. lia.
Qed.

(** *** Dispatch on the first character *)

Lemma digit_dispatch c :
  isdigit c = true ->
  (c =? "{")%char = false /\ (c =? "}")%char = false
  /\ (c =? "[")%char = false /\ (c =? "]")%char = false
  /\ (c =? ",")%char = false /\ (c =? ":")%char = false
  /\ (c =? newline)%char = false /\ (c =? " ")%char = false
  /\ (c =? dquote)%char = false /\ (c =? "-")%char = false
  /\ (c =? ".")%char = false /\ isalpha c = false.
Proof.
  destruct c as [[] [] [] [] [] [] [] []]; intros H;
    try discriminate H; repeat split; reflexivity.
Qed.

Lemma alpha_dispatch c :
  isalpha c = true ->
  (c =? "{")%char = false /\ (c =? "}")%char = false
  /\ (c =? "[")%char = false /\ (c =? "]")%char = false
  /\ (c =? ",")%char = false /\ (c =? ":")%char = false
  /\ (c =? newline)%char = false /\ (c =? " ")%char = false
  /\ (c =? dquote)%char = false /\ (c =? "-")%char = false
  /\ isdigit c = false.
Proof.
  destruct c as [[] [] [] [] [] [] [] []]; intros H;
    try discriminate H; repeat split; reflexivity.
Qed.

Lemma scanToken_digit fuel s pre c post :
  at_split s pre (String c post) -> isdigit c = true ->
  scanToken fuel s = addNumber fuel (incr_current s).
Proof.
  intros H Hd. unfold scanToken, bind at 1.
  rewrite (at_split_advance _ _ _ _ H). cbv beta iota.
  destruct (digit_dispatch _ Hd)
    as (E1 & E2 & E3 & E4 & E5 & E6 & E7 & E8 & E9 & E10 & _).
  rewrite E1, E2, E3, E4, E5, E6, E7, E8, E9, E10, Hd. reflexivity.
Qed.

Lemma scanToken_minus fuel s pre c post :
  at_split s pre (String "-" (String c post)) -> isdigit c = true ->
  scanToken fuel s = addNumber fuel (incr_current (incr_current s)).
Proof.
  intros H Hd. unfold scanToken, bind at 1.
  rewrite (at_split_advance _ _ _ _ H). cbv beta iota.
  pose proof (at_split_incr _ _ _ _ H) as H1.
  change ((if ("-" =? "{")%char then ?a else ?b) (incr_current s))
    with (bind getCurrValue
            (fun d => if isdigit d
                      then bind advanceCurrent (fun _ => addNumber fuel)
                      else throw (invalid_argument
                                    "- must be followed by a number"))
            (incr_current s)).
  unfold bind. rewrite getCurrValue_peek. cbv beta iota.
  rewrite (at_split_peek _ _ _ _ H1), Hd.
  rewrite (at_split_advance _ _ _ _ H1). reflexivity.
Qed.

Lemma scanToken_alpha fuel s pre c post :
  at_split s pre (String c post) -> isalpha c = true ->
  scanToken fuel s = addKeyword fuel (incr_current s).
Proof.
  intros H Hd. unfold scanToken, bind at 1.
  rewrite (at_split_advance _ _ _ _ H). cbv beta iota.
  destruct (alpha_dispatch _ Hd)
    as (E1 & E2 & E3 & E4 & E5 & E6 & E7 & E8 & E9 & E10 & E11).
  rewrite E1, E2, E3, E4, E5, E6, E7, E8, E9, E10, E11, Hd. reflexivity.
Qed.

(** *** Numeric literals *)

Lemma stops_digit_or_point post :
  stops digit_or_point post ->
  stops isdigit post /\ stops (fun c => (c =? ".")%char) post.
Proof.
  unfold stops, digit_or_point. destruct post; intros H;
    apply orb_false_elim in H; exact H.
Qed.

(** [addNumber] entered after [head], the sign and first digit of the
    literal, with the digits [ds] ahead and no fraction. *)
Lemma addNumber_int fuel s pre head ds post :
  at_split s (pre ++ head) (ds ++ post) ->
  start s = String.length pre ->
  all_chars isdigit ds -> stops digit_or_point post ->
  String.length ds <= fuel ->
  addNumber fuel s
  = match stoi (head ++ ds) with
    | inr i => Ok tt (push_back (mkToken NUMBER (VInt i))
                                (adv (String.length ds) s))
    | inl e => Throw e (adv (String.length ds) s)
    end.
Proof.
  intros H Hst Hd Hp Hf.
  destruct (stops_digit_or_point _ Hp) as [Hp1 Hp2].
  unfold addNumber, bind.
  rewrite (skip_run _ _ _ _ _ _ H Hd Hp1 Hf). mred.
  rewrite getCurrValue_peek. mred.
  rewrite (peek_after_run _ _ _ _ _ H Hp2).
  mred.
  assert (HL : lexeme (adv (String.length ds) s) = (head ++ ds)%string).
  { destruct H as [Hs Hc]. apply lexeme_at with (pre := pre) (post := post); auto.
    - rewrite Hs. rewrite !append_assoc. reflexivity.
    - rewrite Hc, Hst, !length_append. lia. }
  rewrite HL. destruct (stoi (head ++ ds)); mred; reflexivity.
Qed.

(** The same with the fraction [.fs] ahead. *)
Lemma addNumber_float fuel s pre head ds fs post :
  at_split s (pre ++ head) (ds ++ String "." (fs ++ post)) ->
  start s = String.length pre ->
  all_chars isdigit ds -> all_chars isdigit fs -> fs <> EmptyString ->
  stops isdigit post ->
  String.length ds <= fuel -> String.length fs <= fuel ->
  addNumber fuel s
  = match stod (head ++ ds ++ String "." fs) with
    | inr d => Ok tt (push_back (mkToken NUMBER (VDouble d))
                        (adv (String.length ds + 1 + String.length fs) s))
    | inl e => Throw e (adv (String.length ds + 1 + String.length fs) s)
    end.
Proof.
  intros H Hst Hd Hfs Hne Hp Hf Hf'.
  unfold addNumber, bind.
  rewrite (skip_run isdigit fuel s _ ds _ H Hd eq_refl Hf). mred.
  rewrite getCurrValue_peek. mred.
  pose proof (at_split_adv _ _ _ _ H) as H1.
  rewrite (at_split_peek _ _ _ _ H1). cbn [Ascii.eqb Bool.eqb]. cbv iota.
  rewrite getNextValue_peek. mred.
  pose proof (at_split_incr _ _ _ _ H1) as H2.
  assert (Hn : peek_next (adv (String.length ds) s)
               = peek (incr_current (adv (String.length ds) s))).
  { unfold peek_next, peek. cbn [incr_current adv str current].
    rewrite Nat.add_1_r. reflexivity. }
  rewrite Hn.
  destruct fs as [|f fs]; [congruence|]. cbn [append] in H2.
  rewrite (at_split_peek _ _ _ _ H2).
  destruct Hfs as [Hf0 Hfs]. rewrite Hf0. cbn [negb]. mred.
  change (String f (fs ++ post)) with (String f fs ++ post)%string in H2.
  rewrite (skip_run isdigit fuel _ _ (String f fs) _ H2 (conj Hf0 Hfs) Hp Hf').
  mred.
  assert (HL : lexeme (adv (String.length (String f fs))
                         (incr_current (adv (String.length ds) s)))
               = (head ++ ds ++ String "." (String f fs))%string).
  { destruct H as [Hs Hc]. unfold lexeme.
    cbn [adv incr_current str start current].
    rewrite Hst, Hs.
    replace (String.length (String f fs) + S (String.length ds + current s)
             - String.length pre)
      with (String.length (head ++ ds ++ String "." (String f fs))).
    2:{ rewrite Hc, !length_append. cbn [String.length]. lia. }
    replace ((pre ++ head) ++ ds ++ String "." (String f fs ++ post))%string
      with (pre ++ (head ++ ds ++ String "." (String f fs)) ++ post)%string.
    2:{ rewrite !append_assoc. reflexivity. }
    apply substring_append. }
  rewrite HL.
  replace (adv (String.length (String f fs))
             (incr_current (adv (String.length ds) s)))
    with (adv (String.length ds + 1 + String.length (String f fs)) s).
  2:{ unfold adv, incr_current; cbn [str start current line tokens].
      f_equal. lia. }
  destruct (stod _); mred; reflexivity.
Qed.

Lemma adv_incr n s : adv n (incr_current s) = adv (S n) s.
Proof. symmetry. apply adv_S. Qed.

Lemma adv_incr2 n s : adv n (incr_current (incr_current s)) = adv (S (S n)) s.
Proof. rewrite !adv_incr. reflexivity. Qed.

(** An integer literal: sign, digits, and no digit or point behind. *)
Lemma scanToken_int fuel s pre neg ds post :
  at_split s pre (sign neg ++ ds ++ post) -> start s = current s ->
  ds <> EmptyString -> all_chars isdigit ds -> stops digit_or_point post ->
  String.length ds <= fuel ->
  scanToken fuel s
  = match stoi (sign neg ++ ds) with
    | inr i => Ok tt (push_back (mkToken NUMBER (VInt i))
                        (adv (String.length (sign neg ++ ds)) s))
    | inl e => Throw e (adv (String.length (sign neg ++ ds)) s)
    end.
Proof.
  intros H Hst Hne Hd Hp Hf.
  destruct ds as [|d ds]; [congruence|]. destruct Hd as [Hd0 Hd].
  cbn [String.length] in Hf.
  assert (Hst' : start s = String.length pre) by (destruct H; congruence).
  destruct neg; cbn [sign append] in *.
  - rewrite (scanToken_minus _ _ _ _ _ H Hd0).
    pose proof (at_split_incr _ _ _ _ (at_split_incr _ _ _ _ H)) as H2.
    rewrite append_assoc in H2. cbn [append] in H2.
    rewrite (addNumber_int fuel _ pre _ ds post H2 Hst' Hd Hp ltac:(lia)).
    cbn [append String.length]. rewrite adv_incr2. reflexivity.
  - rewrite (scanToken_digit _ _ _ _ _ H Hd0).
    pose proof (at_split_incr _ _ _ _ H) as H2.
    rewrite (addNumber_int fuel _ pre _ ds post H2 Hst' Hd Hp ltac:(lia)).
    cbn [append String.length]. rewrite adv_incr. reflexivity.
Qed.

(** A literal with a fraction: sign, digits, point, digits. *)
Lemma scanToken_float fuel s pre neg ds fs post :
  at_split s pre (sign neg ++ ds ++ String "." (fs ++ post)) ->
  start s = current s ->
  ds <> EmptyString -> all_chars isdigit ds ->
  fs <> EmptyString -> all_chars isdigit fs -> stops isdigit post ->
  String.length ds <= fuel -> String.length fs <= fuel ->
  scanToken fuel s
  = match stod (sign neg ++ ds ++ String "." fs) with
    | inr d => Ok tt (push_back (mkToken NUMBER (VDouble d))
                        (adv (String.length (sign neg ++ ds ++ String "." fs)) s))
    | inl e => Throw e (adv (String.length (sign neg ++ ds ++ String "." fs)) s)
    end.
Proof.
  intros H Hst Hne Hd Hnf Hfs Hp Hf Hf'.
  destruct ds as [|d ds]; [congruence|]. destruct Hd as [Hd0 Hd].
  cbn [String.length] in Hf.
  assert (Hst' : start s = String.length pre) by (destruct H; congruence).
  destruct neg; cbn [sign append] in *.
  - rewrite (scanToken_minus _ _ _ _ _ H Hd0).
    pose proof (at_split_incr _ _ _ _ (at_split_incr _ _ _ _ H)) as H2.
    rewrite append_assoc in H2. cbn [append] in H2.
    rewrite (addNumber_float fuel _ pre _ ds fs post H2 Hst' Hd Hfs Hnf Hp
               ltac:(lia) Hf').
    cbn [append String.length]. rewrite !adv_incr2, !length_append.
    cbn [String.length].
    replace (S (S (String.length ds + 1 + String.length fs)))
      with (S (S (String.length ds + S (String.length fs)))) by lia.
    reflexivity.
  - rewrite (scanToken_digit _ _ _ _ _ H Hd0).
    pose proof (at_split_incr _ _ _ _ H) as H2.
    rewrite (addNumber_float fuel _ pre _ ds fs post H2 Hst' Hd Hfs Hnf Hp
               ltac:(lia) Hf').
    cbn [append String.length]. rewrite !adv_incr, !length_append.
    cbn [String.length].
    replace (S (String.length ds + 1 + String.length fs))
      with (S (String.length ds + S (String.length fs))) by lia.
    reflexivity.
Qed.

End ScanLexeme.

(** ** The scanner: whole texts *)

Module ScanText.
Import Scanner ScanState ScannerFacts ScanToken ScanLexeme.

Lemma scan_unfold F s :
  Scanner.scan F s
  = (while_ F more (body F) ;;
     modify (push_back (mkToken EOF_TOKEN monostate)) ;;
     gets tokens) s.
Proof. reflexivity. Qed.

Lemma steps_trans F n m s s1 s2 :
  steps F n s s1 -> steps F m s1 s2 -> steps F (n + m) s s2.
Proof.
  intros H1 H2 k. rewrite <- Nat.add_assoc, (H1 (m + k)), (H2 k). reflexivity.
Qed.

Lemma steps_one F s s' :
  isLast s = false -> body F s = Ok tt s' -> steps F 1 s s'.
Proof.
  intros Hl Hb k. cbn [Nat.add while_]. unfold more at 1.
  rewrite Hl, Hb. reflexivity.
Qed.

Lemma while_done k F s : isLast s = true -> while_ k more (body F) s = Ok tt s.
Proof. intros H. destruct k; simpl; unfold more; rewrite H; reflexivity. Qed.

Lemma while_throw k F s e s' :
  isLast s = false -> body F s = Throw e s' ->
  while_ (S k) more (body F) s = Throw e s'.
Proof. intros Hl Hb. simpl. unfold more. rewrite Hl, Hb. reflexivity. Qed.

Lemma body_eq F s : body F s = scanToken F (set_start s).
Proof. reflexivity. Qed.

(** Scanning a text that is read as [toks]. *)
Lemma scan_lexes B text toks F :
  lexes B text toks -> B EmptyString -> String.length text <= F ->
  exists s', Scanner.scan F (init text) = Ok (toks ++ [mkToken EOF_TOKEN monostate]) s'.
Proof.
  intros HL HB HF.
  destruct (HL F EmptyString EmptyString (init text)) as (n & s' & Hn & Hs & Ha & Ht); auto.
  { split; simpl; auto. rewrite append_nil_r. reflexivity. }
  assert (HW : while_ F more (body F) (init text) = Ok tt s').
  { replace F with (n + (F - n)) at 1 by lia.
    rewrite (Hs (F - n)). apply while_done.
    eapply at_split_isLast_end; eauto. }
  eexists. rewrite scan_unfold. unfold bind. rewrite HW. mred.
  cbn [push_back tokens]. rewrite Ht. reflexivity.
Qed.

(** A text that consists of one numeric literal. *)
Lemma scan_one_token text F (r : Error + Token) :
  text <> EmptyString -> String.length text <= F ->
  scanToken F (set_start (init text))
  = match r with
    | inr tk => Ok tt (push_back tk (adv (String.length text)
                                         (set_start (init text))))
    | inl e => Throw e (adv (String.length text) (set_start (init text)))
    end ->
  observe (Scanner.scan F (init text))
  = match r with
    | inr tk => Returns [tk; mkToken EOF_TOKEN monostate]
    | inl e => Throws e
    end.
Proof.
  intros Hne HF Hr. rewrite scan_unfold. unfold bind.
  destruct F as [|F]; [destruct text; simpl in *; [congruence|lia]|].
  assert (Hl : isLast (init text) = false).
  { apply isLast_false. destruct text; simpl; [congruence|lia]. }
  destruct r as [e|tk].
  - rewrite (while_throw _ _ _ _ _ Hl (eq_trans (body_eq _ _) Hr)).
    reflexivity.
  - cbn [while_]. unfold more at 1. rewrite Hl. cbn [negb].
    rewrite body_eq, Hr, while_done.
    2:{ apply isLast_true. simpl. lia. }
    reflexivity.
Qed.

End ScanText.

(** ** Texts that hold one numeric literal *)

Module ScanNumber.
Import ScanState ScannerFacts ScanToken ScanLexeme ScanText.

Lemma scan_int_literal neg ds :
  ds <> EmptyString -> all_chars isdigit ds ->
  scan (sign neg ++ ds)%string
  = match stoi (sign neg ++ ds)%string with
    | inr i => Returns [mkToken NUMBER (VInt i); mkToken EOF_TOKEN monostate]
    | inl e => Throws e
    end.
Proof.
  intros Hne Hd. unfold scan, scan_fuel.
  rewrite (scan_one_token (_ : string) _
             (match stoi (sign neg ++ ds)%string with
              | inr i => inr (mkToken NUMBER (VInt i))
              | inl e => inl e
              end)).
  - destruct (stoi (sign neg ++ ds)%string); reflexivity.
  - destruct neg, ds; simpl; congruence.
  - lia.
  - rewrite (scanToken_int _ _ EmptyString neg ds EmptyString); auto.
    + destruct (stoi (sign neg ++ ds)%string); reflexivity.
    + split; simpl; auto. rewrite append_nil_r. reflexivity.
    + reflexivity.
    + simpl. rewrite length_append. lia.
Qed.

Lemma scan_float_literal neg ds fs :
  ds <> EmptyString -> all_chars isdigit ds ->
  fs <> EmptyString -> all_chars isdigit fs ->
  scan (sign neg ++ ds ++ String "." fs)%string
  = match stod (sign neg ++ ds ++ String "." fs)%string with
    | inr d => Returns [mkToken NUMBER (VDouble d); mkToken EOF_TOKEN monostate]
    | inl e => Throws e
    end.
Proof.
  intros Hne Hd Hnf Hfs. unfold scan, scan_fuel.
  rewrite (scan_one_token (_ : string) _
             (match stod (sign neg ++ ds ++ String "." fs)%string with
              | inr d => inr (mkToken NUMBER (VDouble d))
              | inl e => inl e
              end)).
  - destruct (stod (sign neg ++ ds ++ String "." fs)%string); reflexivity.
  - destruct neg, ds; simpl; congruence.
  - lia.
  - rewrite (scanToken_float _ _ EmptyString neg ds fs EmptyString); auto.
    + destruct (stod (sign neg ++ ds ++ String "." fs)%string); reflexivity.
    + split; simpl; auto. rewrite append_nil_r. reflexivity.
    + reflexivity.
    + simpl. rewrite !length_append. lia.
    + simpl. rewrite !length_append. simpl. lia.
Qed.

Lemma read_digits_run ds : forall acc n c r,
  all_chars isdigit ds -> isdigit c = false ->
  read_digits (ds ++ String c r) acc n
  = (fst (fst (read_digits ds acc n)), n + String.length ds, String c r).
Proof.
  induction ds as [|d ds IH]; intros acc n c r Hd Hc; cbn [append read_digits].
  - rewrite Hc. simpl. f_equal. f_equal. lia.
  - destruct Hd as [Hd0 Hd]. rewrite Hd0. rewrite IH by assumption.
    cbn [String.length]. f_equal. f_equal. lia.
Qed.

Lemma read_digits_all ds : forall acc n,
  all_chars isdigit ds ->
  read_digits ds acc n
  = (fst (fst (read_digits ds acc n)), n + String.length ds, EmptyString).
Proof.
  induction ds as [|d ds IH]; intros acc n Hd; cbn [read_digits].
  - simpl. f_equal. f_equal. lia.
  - destruct Hd as [Hd0 Hd]. rewrite Hd0. rewrite IH by assumption.
    cbn [String.length]. f_equal. f_equal. lia.
Qed.

Lemma read_sign_literal neg ds rest :
  ds <> EmptyString -> all_chars isdigit ds ->
  read_sign (sign neg ++ ds ++ rest) = (neg, (ds ++ rest)%string).
Proof.
  intros Hne Hd. destruct neg; [reflexivity|].
  destruct ds as [|d ds]; [congruence|]. destruct Hd as [Hd0 _].
  cbn [sign append read_sign].
  destruct (digit_dispatch _ Hd0)
    as (_ & _ & _ & _ & _ & _ & _ & _ & _ & E & _).
  rewrite E. reflexivity.
Qed.

(** [stoi] on a literal: the signed value of the digits when it fits. *)
Lemma stoi_literal neg ds :
  ds <> EmptyString -> all_chars isdigit ds ->
  stoi (sign neg ++ ds)
  = let z := (if neg then - digits_value ds else digits_value ds)%Z in
    if ((INT_MIN <=? z) && (z <=? INT_MAX))%Z then inr z
    else inl (out_of_range "stoi").
Proof.
  intros Hne Hd. unfold stoi.
  rewrite <- (append_nil_r ds) at 1.
  rewrite (read_sign_literal neg ds EmptyString Hne Hd), append_nil_r.
  rewrite (read_digits_all ds 0%Z 0 Hd). fold (digits_value ds).
  destruct ds as [|d ds]; [congruence|]. reflexivity.
Qed.

(** [stod] on a literal with a fraction fails with a range error only. *)
Lemma stod_literal_error neg ds fs e :
  ds <> EmptyString -> all_chars isdigit ds ->
  stod (sign neg ++ ds ++ String "." fs) = inl e -> e = out_of_range "stod".
Proof.
  intros Hne Hd. unfold stod.
  rewrite (read_sign_literal neg ds _ Hne Hd).
  rewrite (read_digits_run ds 0%Z 0 "."%char fs Hd eq_refl).
  cbn [Ascii.eqb Bool.eqb]. cbv iota.
  destruct (read_digits fs _ 0) as [[v nf] r].
  destruct ds as [|d ds]; [congruence|]. cbn [String.length Nat.add Nat.eqb].
  apply round_binary64_error.
Qed.

End ScanNumber.

(** ** Values and maps *)

Module ValueFacts.

Lemma entries_Forall (P : string -> JsonValue -> Prop) l :
  (fix entries (l : list (string * JsonValue)) : Prop :=
     match l with
     | [] => True
     | (k, x) :: l' => P k x /\ entries l'
     end) l
  <-> Forall (fun kv => P (fst kv) (snd kv)) l.
Proof.
  induction l as [|[k x] l IH]; simpl.
  - split; auto.
  - rewrite IH. split.
    + intros [H1 H2]. constructor; auto.
    + intros H. inversion H; subst. auto.
Qed.

Lemma items_Forall (P : JsonValue -> Prop) l :
  (fix items (l : list JsonValue) : Prop :=
     match l with
     | [] => True
     | x :: l' => P x /\ items l'
     end) l
  <-> Forall P l.
Proof.
  induction l as [|x l IH]; simpl.
  - split; auto.
  - rewrite IH. split.
    + intros [H1 H2]. constructor; auto.
    + intros H. inversion H; subst. auto.
Qed.

Lemma canonical_object o :
  canonical (JObject o)
  <-> Sorted string_lt (keys o)
      /\ Forall (fun kv => absent dquote (fst kv) /\ canonical (snd kv)) o.
Proof.
  cbn [canonical].
  rewrite (entries_Forall (fun k x => absent dquote k /\ canonical x)).
  reflexivity.
Qed.

Lemma canonical_array a : canonical (JArray a) <-> Forall canonical a.
Proof. cbn [canonical]. apply items_Forall. Qed.

Lemma sorted_objects_object o :
  sorted_objects (JObject o)
  <-> Sorted string_lt (keys o) /\ Forall (fun kv => sorted_objects (snd kv)) o.
Proof.
  cbn [sorted_objects].
  rewrite (entries_Forall (fun _ x => sorted_objects x)). reflexivity.
Qed.

Lemma sorted_objects_array a :
  sorted_objects (JArray a) <-> Forall sorted_objects a.
Proof. cbn [sorted_objects]. apply items_Forall. Qed.

Lemma no_double_object o :
  no_double (JObject o) <-> Forall (fun kv => no_double (snd kv)) o.
Proof.
  cbn [no_double]. apply (entries_Forall (fun _ x => no_double x)).
Qed.

Lemma no_double_array a : no_double (JArray a) <-> Forall no_double a.
Proof. cbn [no_double]. apply items_Forall. Qed.

Lemma canonical_sorted v : canonical v -> sorted_objects v.
Proof.
  induction v as [o IH|a IH| | | | |] using JsonValue_ind;
    try (intros; exact I).
  - rewrite canonical_object, sorted_objects_object. intros [Hs Hf].
    split; auto. rewrite Forall_forall in *.
    intros kv Hin. apply IH; auto. apply Hf; auto.
  - rewrite canonical_array, sorted_objects_array. intros Hf.
    rewrite Forall_forall in *. intros x Hin. apply IH; auto.
Qed.

(** *** The order on keys *)

Lemma string_compare_gt_lt a b :
  String.compare a b = Gt -> String.compare b a = Lt.
Proof.
  intros H. rewrite String.compare_antisym, H. reflexivity.
Qed.

Lemma string_lt_trans a b c : string_lt a b -> string_lt b c -> string_lt a c.
Proof.
  unfold string_lt. revert b c.
  induction a as [|x a IH]; intros [|y b] [|z c]; simpl; auto;
    try discriminate.
  unfold Ascii.compare.
  destruct (N.compare_spec (N_of_ascii x) (N_of_ascii y)) as [E1|L1|G1];
    try discriminate;
    destruct (N.compare_spec (N_of_ascii y) (N_of_ascii z)) as [E2|L2|G2];
    try discriminate; intros H1 H2.
  - rewrite E1, E2, N.compare_refl. eapply IH; eauto.
  - rewrite E1. apply N.compare_lt_iff in L2. rewrite L2. reflexivity.
  - rewrite <- E2. apply N.compare_lt_iff in L1. rewrite L1. reflexivity.
  - assert (L : (N_of_ascii x < N_of_ascii z)%N) by (eapply N.lt_trans; eauto).
    apply N.compare_lt_iff in L. rewrite L. reflexivity.
Qed.

(** *** Assignment to a key *)

Lemma map_assign_hd k v m x :
  HdRel string_lt x (keys m) -> string_lt x k ->
  HdRel string_lt x (keys (map_assign k v m)).
Proof.
  destruct m as [|[k' v'] m]; simpl; intros H Hx.
  - constructor; auto.
  - inversion H; subst.
    destruct (String.compare k k'); simpl; constructor; auto.
Qed.

Lemma map_assign_sorted k v m :
  Sorted string_lt (keys m) -> Sorted string_lt (keys (map_assign k v m)).
Proof.
  induction m as [|[k' v'] m IH]; simpl; intros H.
  - repeat constructor.
  - inversion H; subst.
    destruct (String.compare k k') eqn:E; simpl.
    + constructor; auto.
    + constructor; auto; constructor; exact E.
    + constructor; auto. apply map_assign_hd; auto.
      apply string_compare_gt_lt, E.
Qed.

Lemma map_assign_Forall (P : string * JsonValue -> Prop) k v m :
  Forall P m -> P (k, v) -> Forall P (map_assign k v m).
Proof.
  induction m as [|[k' v'] m IH]; simpl; intros H Hk.
  - constructor; auto.
  - inversion H; subst.
    destruct (String.compare k k') eqn:E; constructor; auto.
    apply String.compare_eq_iff in E. subst k'. exact Hk.
Qed.

(** Assigning a key greater than every key of the map appends the entry. *)
Lemma map_assign_last k v m :
  Forall (fun kv => string_lt (fst kv) k) m ->
  map_assign k v m = m ++ [(k, v)].
Proof.
  induction m as [|[k' v'] m IH]; simpl; intros H; auto.
  inversion H; subst. simpl in *.
  unfold string_lt in H2. rewrite String.compare_antisym, H2. simpl.
  f_equal. auto.
Qed.

End ValueFacts.

(** ** The scanner: texts read piece by piece *)

Module LexFacts.
Import Scanner ScanState ScannerFacts ScanToken ScanLexeme ScanText.

Lemma lexes_weaken (B B' : string -> Prop) text toks :
  lexes B text toks -> (forall post, B' post -> B post) -> lexes B' text toks.
Proof. intros H HB F pre post s Ha Hb HF. apply H; auto. Qed.

Lemma lexes_nil B : lexes B EmptyString [].
Proof.
  intros F pre post s [Hs Hc] _ _. exists 0, s. repeat split.
  - lia.
  - rewrite append_nil_r. exact Hs.
  - rewrite append_nil_r. exact Hc.
  - rewrite app_nil_r. reflexivity.
Qed.

Lemma lexes_app (B1 B2 : string -> Prop) t1 t2 k1 k2 :
  lexes B1 t1 k1 -> lexes B2 t2 k2 ->
  (forall post, B2 post -> B1 (t2 ++ post)%string) ->
  lexes B2 (t1 ++ t2) (k1 ++ k2).
Proof.
  intros H1 H2 HB F pre post s Ha Hb HF.
  rewrite append_assoc in Ha.
  destruct (H1 F pre (t2 ++ post)%string s Ha (HB _ Hb) HF)
    as (n1 & s1 & Hn1 & Hs1 & Ha1 & Ht1).
  assert (HF1 : String.length (str s1) <= F).
  { destruct Ha as [E _], Ha1 as [E1 _]. rewrite E1, append_assoc, <- E.
    exact HF. }
  destruct (H2 F (pre ++ t1)%string post s1 Ha1 Hb HF1)
    as (n2 & s2 & Hn2 & Hs2 & Ha2 & Ht2).
  exists (n1 + n2), s2. repeat split.
  - rewrite length_append. lia.
  - eapply steps_trans; eauto.
  - destruct Ha2 as [E _]. rewrite E, !append_assoc. reflexivity.
  - destruct Ha2 as [_ E]. rewrite E, !length_append. lia.
  - rewrite Ht2, Ht1, app_assoc. reflexivity.
Qed.

(** A text that one call of [scanToken] consumes. *)
Lemma lexes_one (B : string -> Prop) text toks :
  1 <= String.length text ->
  (forall F pre post s,
      at_split s pre (text ++ post) -> start s = current s -> B post ->
      String.length (str s) <= F ->
      exists s',
        scanToken F s = Ok tt s' /\ str s' = str s
        /\ current s' = current s + String.length text
        /\ tokens s' = tokens s ++ toks) ->
  lexes B text toks.
Proof.
  intros Hlen H F pre post s Ha Hb HF.
  destruct (H F pre post (set_start s) Ha eq_refl Hb HF)
    as (s' & Hr & Hs & Hc & Ht).
  exists 1, s'. repeat split; auto.
  - apply steps_one; auto.
    apply isLast_false. destruct Ha as [E1 E2].
    rewrite E1, E2, !length_append. lia.
  - rewrite Hs. destruct Ha as [E _]. simpl. rewrite E, append_assoc.
    reflexivity.
  - rewrite Hc. destruct Ha as [_ E]. simpl. rewrite E, length_append.
    reflexivity.
Qed.

Lemma lexes_char c toks (f : t -> t) :
  (forall F s pre post,
      at_split s pre (String c post) ->
      scanToken F s = Ok tt (f (incr_current s))) ->
  (forall s, str (f s) = str s /\ current (f s) = current s
             /\ tokens (f s) = tokens s ++ toks) ->
  lexes anything (String c EmptyString) toks.
Proof.
  intros Hstep Hf. apply lexes_one; [simpl; lia|].
  intros F pre post s Ha Hst _ HF.
  exists (f (incr_current s)). rewrite (Hstep F s pre post Ha).
  destruct (Hf (incr_current s)) as (E1 & E2 & E3).
  repeat split; auto. rewrite E2. simpl. lia.
Qed.

Ltac char_step :=
  intros F s pre post Ha; unfold scanToken, bind at 1;
  rewrite (at_split_advance _ _ _ _ Ha); reflexivity.

Ltac char_state :=
  intros s; cbn [str current tokens push_back incr_line];
  repeat split; auto using app_nil_r.

Lemma lexes_space : lexes anything " " [].
Proof.
  apply (lexes_char " " [] (fun s => s)); [char_step|].
  intros s. rewrite app_nil_r. auto.
Qed.

Lemma lexes_newline : lexes anything (String newline EmptyString) [].
Proof.
  apply (lexes_char newline [] incr_line); [char_step|].
  intros s. simpl. rewrite app_nil_r. auto.
Qed.

Lemma lexes_left_curly : lexes anything "{" [punct LEFT_CURLY "{"].
Proof.
  apply (lexes_char "{" _ (push_back (punct LEFT_CURLY "{")));
    [char_step|char_state].
Qed.

Lemma lexes_right_curly : lexes anything "}" [punct RIGHT_CURLY "}"].
Proof.
  apply (lexes_char "}" _ (push_back (punct RIGHT_CURLY "}")));
    [char_step|char_state].
Qed.

Lemma lexes_left_square : lexes anything "[" [punct LEFT_SQUARE "["].
Proof.
  apply (lexes_char "[" _ (push_back (punct LEFT_SQUARE "[")));
    [char_step|char_state].
Qed.

Lemma lexes_right_square : lexes anything "]" [punct RIGHT_SQUARE "]"].
Proof.
  apply (lexes_char "]" _ (push_back (punct RIGHT_SQUARE "]")));
    [char_step|char_state].
Qed.

Lemma lexes_comma : lexes anything "," [punct COMMA ","].
Proof.
  apply (lexes_char "," _ (push_back (punct COMMA ",")));
    [char_step|char_state].
Qed.

Lemma lexes_colon : lexes anything ":" [punct COLON ":"].
Proof.
  apply (lexes_char ":" _ (push_back (punct COLON ":")));
    [char_step|char_state].
Qed.

Lemma lexes_spaces n : lexes anything (string_rep n " ") [].
Proof.
  induction n as [|n IH]; cbn [string_rep].
  - apply lexes_nil.
  - apply (lexes_app anything anything " " _ [] []);
      auto using lexes_space; intros; exact I.
Qed.

Lemma lexes_quoted k :
  absent dquote k -> lexes anything (quoted k) [mkToken STRING (VString k)].
Proof.
  intros Hk. apply lexes_one.
  { unfold quoted. simpl. lia. }
  intros F pre post s Ha Hst _ HF.
  assert (Hlen : String.length k <= F).
  { destruct Ha as [E _]. rewrite E in HF. unfold quoted in HF.
    rewrite !length_append in HF. cbn [String.length] in HF.
    rewrite length_append in HF. lia. }
  rewrite (scanToken_string F s pre k post Ha Hst Hk Hlen).
  eexists. split; [reflexivity|].
  cbn [str current tokens push_back adv]. repeat split; auto.
  unfold quoted. cbn [String.length]. rewrite length_append. simpl. lia.
Qed.

Lemma ends_ok_digit post : ends_ok post -> stops digit_or_point post.
Proof.
  destruct post as [|c post]; simpl; [reflexivity|].
  intros [-> | ->]; reflexivity.
Qed.

Lemma ends_ok_alpha post : ends_ok post -> stops isalpha post.
Proof.
  destruct post as [|c post]; simpl; [reflexivity|].
  intros [-> | ->]; reflexivity.
Qed.

Lemma lexes_int neg ds i :
  ds <> EmptyString -> all_chars isdigit ds -> stoi (sign neg ++ ds) = inr i ->
  lexes ends_ok (sign neg ++ ds) [mkToken NUMBER (VInt i)].
Proof.
  intros Hne Hd Hi. apply lexes_one.
  { rewrite length_append. destruct ds; [congruence|simpl; lia]. }
  intros F pre post s Ha Hst Hb HF.
  assert (Hlen : String.length ds <= F).
  { destruct Ha as [E _]. rewrite E in HF. rewrite !length_append in HF. lia. }
  rewrite append_assoc in Ha.
  rewrite (scanToken_int F s pre neg ds post Ha Hst Hne Hd
             (ends_ok_digit _ Hb) Hlen).
  rewrite Hi. eexists. split; [reflexivity|].
  cbn [str current tokens push_back adv]. repeat split; auto. lia.
Qed.

(** *** Keywords *)

Lemma scanToken_keyword F s pre c kw post tk :
  at_split s pre (String c kw ++ post) -> start s = current s ->
  isalpha c = true -> all_chars isalpha kw -> stops isalpha post ->
  String.length kw <= F ->
  (if (String c kw =? "true")%string then Some (mkToken BOOLEAN (VBool true))
   else if (String c kw =? "false")%string
        then Some (mkToken BOOLEAN (VBool false))
   else if (String c kw =? "null")%string
        then Some (mkToken NULL_VALUE monostate)
   else None) = Some tk ->
  scanToken F s = Ok tt (push_back tk (adv (S (String.length kw)) s)).
Proof.
  intros Ha Hst Hc Hkw Hp HF Htk. cbn [append] in Ha.
  rewrite (scanToken_alpha _ _ _ _ _ Ha Hc).
  pose proof (at_split_incr _ _ _ _ Ha) as H1.
  unfold addKeyword, bind.
  rewrite (skip_run isalpha F _ _ kw post H1 Hkw Hp HF). mred.
  assert (HL : lexeme (adv (String.length kw) (incr_current s)) = String c kw).
  { destruct Ha as [Hs Hcur]. unfold lexeme.
    cbn [adv incr_current str start current]. rewrite Hst, Hs, Hcur.
    replace (String.length kw + S (String.length pre) - String.length pre)
      with (String.length (String c kw)) by (simpl; lia).
    change (String c (kw ++ post)) with (String c kw ++ post)%string.
    apply substring_append. }
  rewrite HL, adv_incr.
  destruct (String c kw =? "true")%string;
    [|destruct (String c kw =? "false")%string;
      [|destruct (String c kw =? "null")%string]];
    inversion Htk; subst; mred; reflexivity.
Qed.

Lemma lexes_keyword c kw tk :
  isalpha c = true -> all_chars isalpha kw ->
  (if (String c kw =? "true")%string then Some (mkToken BOOLEAN (VBool true))
   else if (String c kw =? "false")%string
        then Some (mkToken BOOLEAN (VBool false))
   else if (String c kw =? "null")%string
        then Some (mkToken NULL_VALUE monostate)
   else None) = Some tk ->
  lexes ends_ok (String c kw) [tk].
Proof.
  intros Hc Hkw Htk. apply lexes_one; [simpl; lia|].
  intros F pre post s Ha Hst Hb HF.
  assert (Hlen : String.length kw <= F).
  { destruct Ha as [E _]. rewrite E in HF. rewrite !length_append in HF.
    simpl in HF. lia. }
  rewrite (scanToken_keyword F s pre c kw post tk Ha Hst Hc Hkw
             (ends_ok_alpha _ Hb) Hlen Htk).
  eexists. split; [reflexivity|].
  cbn [str current tokens push_back adv String.length].
  repeat split; auto. lia.
Qed.

Lemma lexes_true : lexes ends_ok "true" [mkToken BOOLEAN (VBool true)].
Proof. apply lexes_keyword; simpl; auto. Qed.

Lemma lexes_false : lexes ends_ok "false" [mkToken BOOLEAN (VBool false)].
Proof. apply lexes_keyword; simpl; auto 10. Qed.

Lemma lexes_null : lexes ends_ok "null" [mkToken NULL_VALUE monostate].
Proof. apply lexes_keyword; simpl; auto. Qed.

End LexFacts.

(** ** Rendering: the shape of the text and of its tokens *)

Module RenderFacts.

Lemma print_json_object o indent :
  print_json (JObject o) indent
  = (string_rep indent " " ++ "{" ++ String newline ""
     ++ print_object_entries indent o ++ string_rep indent " " ++ "}")%string.
Proof. reflexivity. Qed.

Lemma print_json_array a indent :
  print_json (JArray a) indent
  = (string_rep indent " " ++ "[" ++ String newline ""
     ++ print_array_items indent a ++ string_rep indent " " ++ "]")%string.
Proof. reflexivity. Qed.

Lemma tokens_of_object o :
  tokens_of (JObject o)
  = punct LEFT_CURLY "{" :: object_tokens o ++ [punct RIGHT_CURLY "}"].
Proof. reflexivity. Qed.

Lemma tokens_of_array a :
  tokens_of (JArray a)
  = punct LEFT_SQUARE "[" :: array_tokens a ++ [punct RIGHT_SQUARE "]"].
Proof. reflexivity. Qed.

(** *** Decimal digits *)

Lemma digit_char_spec d :
  (0 <= d <= 9)%Z ->
  isdigit (digit_char d) = true /\ digit_val (digit_char d) = d.
Proof.
  intros H.
  assert (d = 0 \/ d = 1 \/ d = 2 \/ d = 3 \/ d = 4 \/ d = 5 \/ d = 6
          \/ d = 7 \/ d = 8 \/ d = 9)%Z as E by lia.
  repeat (destruct E as [-> | E]; [split; reflexivity|]).
  subst; split; reflexivity.
Qed.

Lemma read_digits_app x : forall y a k,
  all_chars isdigit x ->
  read_digits (x ++ y) a k
  = read_digits y (fst (fst (read_digits x a k))) (k + String.length x).
Proof.
  induction x as [|c x IH]; intros y a k Hx; cbn [append read_digits].
  - simpl. rewrite Nat.add_0_r. reflexivity.
  - destruct Hx as [Hc Hx]. rewrite Hc. rewrite IH by assumption.
    cbn [String.length]. f_equal. lia.
Qed.

Lemma all_chars_app p x y :
  all_chars p x -> all_chars p y -> all_chars p (x ++ y).
Proof. induction x; simpl; intuition. Qed.

Lemma decimal_digits_spec fuel : forall n acc,
  (0 <= n < 10 ^ Z.of_nat (S fuel))%Z ->
  exists ds,
    decimal_digits fuel n acc = (ds ++ acc)%string
    /\ all_chars isdigit ds /\ ds <> EmptyString
    /\ forall a k,
        fst (fst (read_digits ds a k))
        = (a * 10 ^ Z.of_nat (String.length ds) + n)%Z.
Proof.
  assert (Hone : forall n acc,
             (0 <= n < 10)%Z ->
             exists ds,
               String (digit_char (n mod 10)) acc = (ds ++ acc)%string
               /\ all_chars isdigit ds /\ ds <> EmptyString
               /\ forall a k,
                   fst (fst (read_digits ds a k))
                   = (a * 10 ^ Z.of_nat (String.length ds) + n)%Z).
  { intros n acc Hn. rewrite Z.mod_small by lia.
    destruct (digit_char_spec n ltac:(lia)) as [Hd Hv].
    exists (String (digit_char n) EmptyString). repeat split; auto.
    - discriminate.
    - intros a k. cbn [read_digits]. rewrite Hd, Hv.
      cbn [fst String.length]. change (Z.of_nat 1) with 1%Z.
      rewrite Z.pow_1_r. lia. }
  induction fuel as [|fuel IH]; intros n acc Hn; cbn [decimal_digits].
  - apply Hone. simpl in Hn. lia.
  - destruct (n / 10 =? 0)%Z eqn:E.
    + apply Z.eqb_eq in E. apply Hone.
      pose proof (Z.div_mod n 10 ltac:(lia)).
      pose proof (Z.mod_pos_bound n 10 ltac:(lia)). lia.
    + apply Z.eqb_neq in E.
      destruct (IH (n / 10)%Z (String (digit_char (n mod 10)) acc))
        as (ds & Hds & Hd & Hne & Hv).
      { split; [apply Z.div_pos; lia|].
        apply Z.div_lt_upper_bound; [lia|].
        rewrite <- Z.pow_succ_r by lia. rewrite <- Nat2Z.inj_succ. lia. }
      pose proof (Z.mod_pos_bound n 10 ltac:(lia)) as Hm.
      destruct (digit_char_spec (n mod 10) ltac:(lia)) as [Hd0 Hv0].
      exists (ds ++ String (digit_char (n mod 10)) EmptyString)%string.
      repeat split.
      * rewrite Hds, append_assoc. reflexivity.
      * apply all_chars_app; simpl; auto.
      * destruct ds; [congruence|discriminate].
      * intros a k. rewrite read_digits_app by assumption.
        cbn [read_digits]. rewrite Hd0, Hv0, Hv. cbn [fst].
        rewrite length_append. cbn [String.length].
        rewrite Nat2Z.inj_add. rewrite Z.pow_add_r by lia.
        change (10 ^ Z.of_nat 1)%Z with 10%Z.
        pose proof (Z.div_mod n 10 ltac:(lia)). lia.
Qed.

Lemma decimal_spec n :
  (0 <= n)%Z ->
  all_chars isdigit (decimal n) /\ decimal n <> EmptyString
  /\ digits_value (decimal n) = n.
Proof.
  intros Hn. unfold decimal.
  destruct (decimal_digits_spec (Z.to_nat (Z.log2 n)) n EmptyString)
    as (ds & Hds & Hd & Hne & Hv).
  { split; auto. rewrite Nat2Z.inj_succ, Z2Nat.id by apply Z.log2_nonneg.
    destruct (Z.eq_dec n 0) as [->|Hz]; [reflexivity|].
    eapply Z.lt_le_trans; [apply Z.log2_spec; lia|].
    apply Z.pow_le_mono_l. lia. }
  rewrite Hds, append_nil_r. repeat split; auto.
  unfold digits_value. rewrite Hv. lia.
Qed.

(** [cout << i] writes a literal that [stoi] reads back as [i]. *)
Lemma print_int_literal i :
  exists neg ds,
    print_int i = (sign neg ++ ds)%string
    /\ ds <> EmptyString /\ all_chars isdigit ds
    /\ ((INT_MIN <= i <= INT_MAX)%Z -> stoi (sign neg ++ ds) = inr i).
Proof.
  unfold print_int. destruct (i <? 0)%Z eqn:E.
  - apply Z.ltb_lt in E.
    destruct (decimal_spec (- i) ltac:(lia)) as (Hd & Hne & Hv).
    exists true, (decimal (- i)). repeat split; auto.
    intros Hr. rewrite (ScanNumber.stoi_literal true _ Hne Hd). cbv zeta.
    rewrite Hv, Z.opp_involutive.
    destruct Hr as [H1 H2]. apply Z.leb_le in H1, H2. rewrite H1, H2.
    reflexivity.
  - apply Z.ltb_ge in E.
    destruct (decimal_spec i E) as (Hd & Hne & Hv).
    exists false, (decimal i). repeat split; auto.
    intros Hr. rewrite (ScanNumber.stoi_literal false _ Hne Hd). cbv zeta.
    rewrite Hv.
    destruct Hr as [H1 H2]. apply Z.leb_le in H1, H2. rewrite H1, H2.
    reflexivity.
Qed.

(** *** The scanner reads a rendered value as its tokens *)

Import ScanState LexFacts.

Lemma print_object_entries_cons indent k v l :
  print_object_entries indent ((k, v) :: l)
  = (string_rep (indent + 2) " "
     ++ quoted k
     ++ ":" ++ " " ++ print_json v (indent + 2)
     ++ (match l with [] => "" | _ => "," end)
     ++ String newline "" ++ print_object_entries indent l)%string.
Proof.
  change (print_object_entries indent ((k, v) :: l))
    with (string_rep (indent + 2) " " ++ String dquote "" ++ k
          ++ String dquote "" ++ ": " ++ print_json v (indent + 2)
          ++ (match l with [] => "" | _ => "," end)
          ++ String newline "" ++ print_object_entries indent l)%string.
  f_equal. unfold quoted. cbn [append]. rewrite append_assoc. reflexivity.
Qed.

Lemma print_array_items_cons indent v l :
  print_array_items indent (v :: l)
  = (print_json v (indent + 2)
     ++ (match l with [] => "" | _ => "," end)
     ++ String newline "" ++ print_array_items indent l)%string.
Proof. reflexivity. Qed.

Lemma object_tokens_cons k v l :
  object_tokens ((k, v) :: l)
  = [mkToken STRING (VString k)] ++ [punct COLON ":"] ++ [] ++ tokens_of v
    ++ (match l with [] => [] | _ => [punct COMMA ","] end)
    ++ [] ++ object_tokens l.
Proof. reflexivity. Qed.

Lemma array_tokens_cons v l :
  array_tokens (v :: l)
  = tokens_of v
    ++ (match l with [] => [] | _ => [punct COMMA ","] end)
    ++ [] ++ array_tokens l.
Proof. reflexivity. Qed.

Lemma lexes_app_any B t1 t2 k1 k2 :
  lexes anything t1 k1 -> lexes B t2 k2 -> lexes B (t1 ++ t2) (k1 ++ k2).
Proof. intros H1 H2. eapply lexes_app; eauto. intros; exact I. Qed.

Lemma lexes_any B text toks : lexes anything text toks -> lexes B text toks.
Proof. intros H. eapply lexes_weaken; eauto. intros; exact I. Qed.

(** A separator and the newline behind it, as they follow a value. *)
Lemma lexes_separator {A} (l : list A) B t k :
  lexes B t k ->
  lexes B ((match l with [] => "" | _ => "," end)
           ++ String newline "" ++ t)
        ((match l with [] => [] | _ => [punct COMMA ","] end) ++ [] ++ k)
  /\ forall post,
      ends_ok (((match l with [] => "" | _ => "," end)
                ++ String newline "" ++ t) ++ post).
Proof.
  intros H. split.
  - apply lexes_app_any.
    + destruct l; [apply lexes_nil|apply lexes_comma].
    + apply lexes_app_any; auto using lexes_newline.
  - intros post. destruct l; simpl; auto.
Qed.

Lemma lexes_value v :
  canonical v -> no_double v ->
  forall indent, lexes ends_ok (print_json v indent) (tokens_of v).
Proof.
  induction v as [o IH|a IH|s|i|d|b|] using JsonValue_ind;
    intros Hc Hn indent.
  - (* object *)
    apply ValueFacts.canonical_object in Hc. destruct Hc as [_ Hc].
    apply ValueFacts.no_double_object in Hn.
    rewrite print_json_object, tokens_of_object.
    apply lexes_any.
    apply (lexes_app_any _ _ _ [] _ (lexes_spaces indent)).
    apply (lexes_app_any _ _ _ [_] _ lexes_left_curly).
    apply (lexes_app_any _ _ _ [] _ lexes_newline).
    apply lexes_app_any.
    2:{ apply (lexes_app_any _ _ _ [] _ (lexes_spaces indent)).
        apply lexes_right_curly. }
    induction o as [|[k x] o IHo].
    + apply lexes_nil.
    + inversion IH as [|? ? IHx IHrest]; subst.
      inversion Hc as [|? ? [Hk Hx] Hcrest]; subst.
      inversion Hn as [|? ? Hnx Hnrest]; subst. cbn [fst snd] in *.
      rewrite print_object_entries_cons, object_tokens_cons.
      apply (lexes_app_any _ _ _ [] _ (lexes_spaces (indent + 2))).
      apply (lexes_app_any _ _ _ _ _ (lexes_quoted k Hk)).
      apply (lexes_app_any _ _ _ _ _ lexes_colon).
      apply (lexes_app_any _ _ _ _ _ lexes_space).
      destruct (lexes_separator o anything _ _ (IHo IHrest Hcrest Hnrest))
        as [Hsep Hends].
      eapply lexes_app; [apply (IHx Hx Hnx)|exact Hsep|].
      intros post _. apply Hends.
  - (* array *)
    apply ValueFacts.canonical_array in Hc.
    apply ValueFacts.no_double_array in Hn.
    rewrite print_json_array, tokens_of_array.
    apply lexes_any.
    apply (lexes_app_any _ _ _ [] _ (lexes_spaces indent)).
    apply (lexes_app_any _ _ _ [_] _ lexes_left_square).
    apply (lexes_app_any _ _ _ [] _ lexes_newline).
    apply lexes_app_any.
    2:{ apply (lexes_app_any _ _ _ [] _ (lexes_spaces indent)).
        apply lexes_right_square. }
    induction a as [|x a IHa].
    + apply lexes_nil.
    + inversion IH as [|? ? IHx IHrest]; subst.
      inversion Hc as [|? ? Hx Hcrest]; subst.
      inversion Hn as [|? ? Hnx Hnrest]; subst.
      rewrite print_array_items_cons, array_tokens_cons.
      destruct (lexes_separator a anything _ _ (IHa IHrest Hcrest Hnrest))
        as [Hsep Hends].
      eapply lexes_app; [apply (IHx Hx Hnx)|exact Hsep|].
      intros post _. apply Hends.
  - (* string *)
    apply lexes_any. apply (lexes_quoted s Hc).
  - (* integer *)
    destruct (print_int_literal i) as (neg & ds & Hp & Hne & Hd & Hs).
    cbn [print_json tokens_of]. rewrite Hp.
    apply lexes_int; auto.
  - destruct Hn.
  - destruct b; [apply lexes_true|apply lexes_false].
  - apply lexes_null.
Qed.

End RenderFacts.

(** ** The text written for a double *)

Module FloatText.
Import RenderFacts.

(** *** The number of digits [decimal] writes *)

Lemma decimal_digits_length fuel : forall n acc,
  (1 <= n < 10 ^ Z.of_nat (S fuel))%Z ->
  exists ds,
    decimal_digits fuel n acc = (ds ++ acc)%string
    /\ (10 ^ Z.of_nat (String.length ds) <= 10 * n)%Z
    /\ (n < 10 ^ Z.of_nat (String.length ds))%Z.
Proof.
  assert (Hone : forall n acc,
             (1 <= n < 10)%Z ->
             exists ds,
               String (digit_char (n mod 10)) acc = (ds ++ acc)%string
               /\ (10 ^ Z.of_nat (String.length ds) <= 10 * n)%Z
               /\ (n < 10 ^ Z.of_nat (String.length ds))%Z).
  { intros n acc Hn. exists (String (digit_char (n mod 10)) EmptyString).
    split; [reflexivity|]. cbn [String.length].
    change (10 ^ Z.of_nat 1)%Z with 10%Z. lia. }
  induction fuel as [|fuel IH]; intros n acc Hn; cbn [decimal_digits].
  - apply Hone. change (10 ^ Z.of_nat 1)%Z with 10%Z in Hn. lia.
  - destruct (n / 10 =? 0)%Z eqn:E.
    + apply Z.eqb_eq in E. apply Hone.
      pose proof (Z.div_mod n 10 ltac:(lia)).
      pose proof (Z.mod_pos_bound n 10 ltac:(lia)). lia.
    + apply Z.eqb_neq in E.
      pose proof (Z.div_mod n 10 ltac:(lia)) as Hdm.
      pose proof (Z.mod_pos_bound n 10 ltac:(lia)) as Hm.
      assert (H10 : (0 <= n / 10)%Z) by (apply Z.div_pos; lia).
      destruct (IH (n / 10)%Z (String (digit_char (n mod 10)) acc))
        as (ds & Hds & Hlo & Hhi).
      { split; [lia|].
        apply Z.div_lt_upper_bound; [lia|].
        rewrite <- Z.pow_succ_r by lia. rewrite <- Nat2Z.inj_succ. lia. }
      exists (ds ++ String (digit_char (n mod 10)) EmptyString)%string.
      split; [rewrite Hds, append_assoc; reflexivity|].
      rewrite length_append. cbn [String.length].
      rewrite Nat2Z.inj_add. change (Z.of_nat 1) with 1%Z.
      rewrite Z.pow_add_r by lia. change (10 ^ 1)%Z with 10%Z. lia.
Qed.

Lemma decimal_length_bounds n :
  (1 <= n)%Z ->
  (10 ^ Z.of_nat (String.length (decimal n)) <= 10 * n)%Z
  /\ (n < 10 ^ Z.of_nat (String.length (decimal n)))%Z.
Proof.
  intros Hn. unfold decimal.
  destruct (decimal_digits_length (Z.to_nat (Z.log2 n)) n EmptyString)
    as (ds & Hds & Hlo & Hhi).
  { split; auto. rewrite Nat2Z.inj_succ, Z2Nat.id by apply Z.log2_nonneg.
    eapply Z.lt_le_trans; [apply Z.log2_spec; lia|].
    apply Z.pow_le_mono_l. lia. }
  rewrite Hds, append_nil_r. auto.
Qed.

Lemma decimal_length6 q :
  (10 ^ 5 <= q < 10 ^ 6)%Z -> String.length (decimal q) = 6.
Proof.
  intros Hq. destruct (decimal_length_bounds q ltac:(lia)) as [Hlo Hhi].
  set (l := String.length (decimal q)) in *.
  assert (H1 : (Z.of_nat l < 7)%Z).
  { apply (Z.pow_lt_mono_r_iff 10); lia. }
  assert (H2 : (5 < Z.of_nat l)%Z).
  { apply (Z.pow_lt_mono_r_iff 10); lia. }
  lia.
Qed.

(** *** Pieces of a string *)

Lemma string_split (s : string) : forall a,
  a <= String.length s ->
  exists u w, s = (u ++ w)%string /\ String.length u = a.
Proof.
  induction s as [|c s IH]; intros a Ha.
  - exists EmptyString, EmptyString. simpl in *. split; [reflexivity|lia].
  - destruct a as [|a].
    + exists EmptyString, (String c s). split; reflexivity.
    + destruct (IH a) as (u & w & -> & Hu); [simpl in Ha; lia|].
      exists (String c u), w. split; [reflexivity|]. simpl. lia.
Qed.

Lemma all_chars_split p x y :
  all_chars p (x ++ y) -> all_chars p x /\ all_chars p y.
Proof. induction x; simpl; intuition. Qed.

Lemma substring_pieces (s : string) a b :
  String.length s = a + b ->
  exists u w,
    s = (u ++ w)%string /\ substring 0 a s = u /\ substring a b s = w
    /\ String.length u = a /\ String.length w = b.
Proof.
  intros Hl. destruct (string_split s a ltac:(lia)) as (u & w & -> & Hu).
  exists u, w. rewrite length_append in Hl.
  assert (Hw : String.length w = b) by lia.
  split; [reflexivity|]. split; [|split; [|split; assumption]].
  - rewrite <- Hu. apply substring_0_append.
  - rewrite <- Hu, <- Hw. rewrite <- (append_nil_r w) at 2.
    apply substring_append.
Qed.

(** *** Zeros at the end of a fraction *)

Lemma all_chars_string_rep p n c : p c = true -> all_chars p (string_rep n c).
Proof. intros H. induction n; simpl; auto. Qed.

Lemma length_string_rep n c : String.length (string_rep n c) = n.
Proof. induction n; simpl; auto. Qed.

Lemma strip_zeros_spec f :
  exists j, f = (strip_zeros f ++ string_rep j "0")%string.
Proof.
  induction f as [|c f [j IH]]; [exists 0; reflexivity|].
  cbn [strip_zeros]. destruct (strip_zeros f) as [|c' r] eqn:E.
  - destruct (Ascii.eqb_spec c "0") as [-> | Hc].
    + exists (S j). simpl in *. congruence.
    + exists j. simpl in *. congruence.
  - exists j. simpl in *. congruence.
Qed.

Lemma read_digits_value y : forall a k,
  all_chars isdigit y ->
  fst (fst (read_digits y a k))
  = (a * 10 ^ Z.of_nat (String.length y) + digits_value y)%Z.
Proof.
  unfold digits_value.
  assert (H : forall y a k k', all_chars isdigit y ->
             fst (fst (read_digits y a k))
             = (a * 10 ^ Z.of_nat (String.length y)
                + fst (fst (read_digits y 0%Z k')))%Z).
  { clear. induction y as [|c y IH]; intros a k k' Hy.
    - simpl. lia.
    - destruct Hy as [Hc Hy]. cbn [read_digits String.length]. rewrite Hc.
      rewrite (IH (10 * a + digit_val c)%Z (S k) 0 Hy).
      rewrite (IH (10 * 0 + digit_val c)%Z (S k') 0 Hy).
      rewrite Nat2Z.inj_succ, Z.pow_succ_r by lia. lia. }
  intros a k Hy. apply H. exact Hy.
Qed.

Lemma digits_value_app x y :
  all_chars isdigit x -> all_chars isdigit y ->
  digits_value (x ++ y)
  = (digits_value x * 10 ^ Z.of_nat (String.length y) + digits_value y)%Z.
Proof.
  intros Hx Hy. unfold digits_value at 1.
  rewrite (read_digits_app x y 0%Z 0 Hx).
  rewrite (read_digits_value y _ _ Hy). reflexivity.
Qed.

Lemma digit_val_nonneg c : isdigit c = true -> (0 <= digit_val c)%Z.
Proof.
  unfold isdigit, digit_val. intros H. apply andb_prop in H.
  destruct H as [H _]. apply Nat.leb_le in H. lia.
Qed.

Lemma digits_value_nonneg x : all_chars isdigit x -> (0 <= digits_value x)%Z.
Proof.
  unfold digits_value.
  assert (H : forall x a k, (0 <= a)%Z -> all_chars isdigit x ->
             (0 <= fst (fst (read_digits x a k)))%Z).
  { clear. induction x as [|c x IH]; intros a k Ha Hx; [simpl; lia|].
    destruct Hx as [Hc Hx]. cbn [read_digits]. rewrite Hc. apply IH; auto.
    pose proof (digit_val_nonneg c Hc). lia. }
  intros Hx. apply H; auto. lia.
Qed.

Lemma digits_value_zeros j : digits_value (string_rep j "0") = 0%Z.
Proof.
  induction j as [|j IH]; [reflexivity|].
  change (string_rep (S j) "0") with ("0" ++ string_rep j "0")%string.
  rewrite digits_value_app.
  - rewrite IH. reflexivity.
  - simpl. auto.
  - apply all_chars_string_rep. reflexivity.
Qed.

(** *** Literals with a fraction *)

Lemma with_fraction_spec I F :
  (strip_zeros F = EmptyString /\ with_fraction I F = I)
  \/ (strip_zeros F <> EmptyString
      /\ with_fraction I F = (I ++ String "." (strip_zeros F))%string).
Proof.
  unfold with_fraction. destruct (strip_zeros F) as [|c r].
  - left. split; reflexivity.
  - right. split; [discriminate|reflexivity].
Qed.

Lemma literal_unique ds : forall fs I G,
  all_chars isdigit ds -> all_chars isdigit I ->
  (ds ++ String "." fs)%string = (I ++ String "." G)%string ->
  ds = I /\ fs = G.
Proof.
  induction ds as [|c ds IH]; intros fs [|c' I] G Hd HI E; simpl in *.
  - inversion E. auto.
  - inversion E; subst. destruct HI as [HI _]. cbv in HI. discriminate HI.
  - inversion E; subst. destruct Hd as [Hd _]. cbv in Hd. discriminate Hd.
  - inversion E; subst. destruct Hd as [_ Hd], HI as [_ HI].
    destruct (IH fs I G Hd HI H1) as [-> ->]. auto.
Qed.

Lemma sign_unique neg neg' c x c' y :
  isdigit c = true -> isdigit c' = true ->
  (sign neg ++ String c x)%string = (sign neg' ++ String c' y)%string ->
  neg = neg' /\ String c x = String c' y.
Proof.
  intros Hc Hc' E. destruct neg, neg'; simpl in E; auto.
  - inversion E; subst. auto.
  - inversion E; subst. cbv in Hc'. discriminate Hc'.
  - inversion E; subst. cbv in Hc. discriminate Hc.
Qed.

Lemma digits_have_no_point ds fs x :
  all_chars isdigit x -> (ds ++ String "." fs)%string <> x.
Proof.
  intros Hx E. subst x. apply all_chars_split in Hx.
  destruct Hx as [_ [Hp _]]. cbv in Hp. discriminate Hp.
Qed.

Lemma all_chars_weaken (p q : ascii -> bool) x :
  (forall c, p c = true -> q c = true) -> all_chars p x -> all_chars q x.
Proof. intros H. induction x; simpl; intuition. Qed.

Lemma literal_has_no_letter ds fs w y :
  all_chars isdigit ds -> all_chars isdigit fs ->
  (ds ++ String "." fs)%string <> (w ++ String "e" y)%string.
Proof.
  intros Hd Hf E.
  assert (H : all_chars digit_or_point (ds ++ String "." fs)).
  { assert (Hw : forall x, all_chars isdigit x -> all_chars digit_or_point x).
    { intros x. apply all_chars_weaken. intros c Hc.
      unfold digit_or_point. rewrite Hc. reflexivity. }
    apply all_chars_app; [apply Hw; exact Hd|].
    split; [reflexivity|apply Hw; exact Hf]. }
  rewrite E in H. apply all_chars_split in H.
  destruct H as [_ [Hp _]]. cbv in Hp. discriminate Hp.
Qed.

Lemma all_chars_substring p : forall s a b,
  all_chars p s -> all_chars p (substring a b s).
Proof.
  induction s as [|c s IH]; intros a b H.
  - destruct a, b; exact I.
  - destruct H as [Hc H]. destruct a as [|a]; simpl.
    + destruct b; simpl; auto.
    + apply IH. exact H.
Qed.

Lemma all_chars_strip_zeros p f : all_chars p f -> all_chars p (strip_zeros f).
Proof.
  induction f as [|c f IH]; [auto|]. intros [Hc Hf]. cbn [strip_zeros].
  destruct (strip_zeros f) as [|c' r].
  - destruct (c =? "0")%char; simpl; auto.
  - split; auto.
Qed.

(** *** Rounded quotients *)

Lemma div_half_even_spec N d :
  (0 <= N)%Z -> (0 < d)%Z ->
  (0 <= fst (div_half_even N d))%Z
  /\ (2 * Z.abs (fst (div_half_even N d) * d - N) <= d)%Z.
Proof.
  intros HN Hd. unfold div_half_even.
  pose proof (Z.div_mod N d ltac:(lia)) as Hdm.
  pose proof (Z.mod_pos_bound N d Hd) as Hm.
  assert (H0 : (0 <= N / d)%Z) by (apply Z.div_pos; lia).
  set (q := (N / d)%Z) in *. set (r := (N mod d)%Z) in *.
  clearbody q r. subst N.
  destruct (Z.compare_spec (2 * r) d) as [E|E|E].
  - destruct (Z.odd q); cbn [fst]; split; lia.
  - cbn [fst]. split; lia.
  - cbn [fst]. split; lia.
Qed.

(** *** The decimal exponent [format_g] chooses *)

Lemma pow10_pos e : (0 < 10 ^ e)%Z \/ (e < 0)%Z.
Proof.
  destruct (Z.le_gt_cases 0 e); [left; apply Z.pow_pos_nonneg; lia|right; lia].
Qed.

Lemma pow10_split a b :
  (0 <= a)%Z -> (0 <= b)%Z -> (10 ^ a * 10 ^ b = 10 ^ (a + b))%Z.
Proof. intros. rewrite Z.pow_add_r; lia. Qed.

Lemma ge_pow10_true n k c :
  (0 < k)%Z -> ge_pow10 n k c = true -> (c <= 5)%Z ->
  (10 ^ 5 * k <= n * 10 ^ (5 - c))%Z.
Proof.
  intros Hk H Hc. unfold ge_pow10 in H.
  destruct (0 <=? c)%Z eqn:E.
  - apply Z.leb_le in E, H.
    pose proof (pow10_split c (5 - c) E ltac:(lia)) as P.
    replace (c + (5 - c))%Z with 5%Z in P by lia.
    assert (0 < 10 ^ c)%Z by (apply Z.pow_pos_nonneg; lia).
    assert (0 < 10 ^ (5 - c))%Z by (apply Z.pow_pos_nonneg; lia).
    rewrite <- P. nia.
  - apply Z.leb_gt in E. apply Z.leb_le in H.
    pose proof (pow10_split (- c) 5 ltac:(lia) ltac:(lia)) as P.
    replace (- c + 5)%Z with (5 - c)%Z in P by lia.
    rewrite <- P. nia.
Qed.

Lemma ge_pow10_false n k c :
  (0 < k)%Z -> ge_pow10 n k c = false -> (c <= 6)%Z ->
  (n * 10 ^ (6 - c) < 10 ^ 6 * k)%Z.
Proof.
  intros Hk H Hc. unfold ge_pow10 in H.
  destruct (0 <=? c)%Z eqn:E.
  - apply Z.leb_le in E. apply Z.leb_gt in H.
    pose proof (pow10_split c (6 - c) E ltac:(lia)) as P.
    replace (c + (6 - c))%Z with 6%Z in P by lia.
    assert (0 < 10 ^ c)%Z by (apply Z.pow_pos_nonneg; lia).
    assert (0 < 10 ^ (6 - c))%Z by (apply Z.pow_pos_nonneg; lia).
    rewrite <- P. nia.
  - apply Z.leb_gt in E, H.
    pose proof (pow10_split (- c) 6 ltac:(lia) ltac:(lia)) as P.
    replace (- c + 6)%Z with (6 - c)%Z in P by lia.
    rewrite <- P. nia.
Qed.

Lemma exponent_estimate n k x0 :
  (0 < n)%Z -> (0 < k)%Z ->
  x0 = (let cand := (Z.of_nat (String.length (decimal n))
                     - Z.of_nat (String.length (decimal k)))%Z in
        if ge_pow10 n k cand then cand else (cand - 1)%Z) ->
  (x0 <= 5)%Z ->
  (10 ^ 5 * k <= n * 10 ^ (5 - x0) < 10 ^ 6 * k)%Z.
Proof.
  intros Hn Hk -> Hx. cbv zeta in *.
  destruct (decimal_length_bounds n ltac:(lia)) as [Hnl Hnh].
  destruct (decimal_length_bounds k ltac:(lia)) as [Hkl Hkh].
  set (ln := Z.of_nat (String.length (decimal n))) in *.
  set (lk := Z.of_nat (String.length (decimal k))) in *.
  assert (Hln : (0 <= ln)%Z) by (unfold ln; lia).
  assert (Hlk : (0 <= lk)%Z) by (unfold lk; lia).
  clearbody ln lk.
  destruct (ge_pow10 n k (ln - lk)) eqn:G.
  - split; [apply ge_pow10_true; auto|].
    pose proof (pow10_split ln (5 - (ln - lk)) Hln ltac:(lia)) as P.
    replace (ln + (5 - (ln - lk)))%Z with (5 + lk)%Z in P by lia.
    rewrite <- (pow10_split 5 lk) in P by lia.
    assert (0 < 10 ^ (5 - (ln - lk)))%Z by (apply Z.pow_pos_nonneg; lia).
    nia.
  - replace (5 - (ln - lk - 1))%Z with (6 - (ln - lk))%Z by lia.
    split; [|apply ge_pow10_false; auto; lia].
    pose proof (pow10_split ln (6 - (ln - lk)) Hln ltac:(lia)) as P.
    replace (ln + (6 - (ln - lk)))%Z with (6 + lk)%Z in P by lia.
    rewrite <- (pow10_split 6 lk) in P by lia.
    assert (0 < 10 ^ (6 - (ln - lk)))%Z by (apply Z.pow_pos_nonneg; lia).
    nia.
Qed.

(** The six digits that are written, and their distance to the value. *)
Lemma six_digits n k x0 q :
  (0 < n)%Z -> (0 < k)%Z -> (x0 <= 5)%Z ->
  (10 ^ 5 * k <= n * 10 ^ (5 - x0) < 10 ^ 6 * k)%Z ->
  q = scaled_decimal n k (5 - x0) ->
  forall x Q,
    (x, Q) = (if (q =? 10 ^ 6)%Z then ((x0 + 1)%Z, (10 ^ 5)%Z) else (x0, q)) ->
    (x <= 5)%Z ->
    (10 ^ 5 <= Q < 10 ^ 6)%Z
    /\ (2 * 10 ^ 5 * Z.abs (Q * k - n * 10 ^ (5 - x)) <= n * 10 ^ (5 - x))%Z.
Proof.
  intros Hn Hk Hx0 Hr -> x Q E Hx.
  unfold scaled_decimal in E.
  assert (Ht : (0 <=? 5 - x0)%Z = true) by (apply Z.leb_le; lia).
  rewrite Ht in E.
  assert (HP : (0 < 10 ^ (5 - x0))%Z) by (apply Z.pow_pos_nonneg; lia).
  destruct (div_half_even_spec (n * 10 ^ (5 - x0)) k ltac:(nia) Hk)
    as [Hq0 Hq].
  set (N := (n * 10 ^ (5 - x0))%Z) in *.
  set (q := fst (div_half_even N k)) in *. clearbody q.
  assert (Hq5 : (10 ^ 5 <= q <= 10 ^ 6)%Z) by nia.
  destruct (q =? 10 ^ 6)%Z eqn:E6; inversion E; subst x Q; clear E.
  - apply Z.eqb_eq in E6. subst q.
    split; [lia|].
    assert (E10 : (N = n * 10 ^ (5 - (x0 + 1)) * 10)%Z).
    { unfold N. replace (5 - x0)%Z with (5 - (x0 + 1) + 1)%Z at 1 by lia.
      rewrite Z.pow_add_r by lia. change (10 ^ 1)%Z with 10%Z. ring. }
    set (M := (n * 10 ^ (5 - (x0 + 1)))%Z) in *. clearbody M N.
    subst N. lia.
  - apply Z.eqb_neq in E6. split; [lia|]. fold N. lia.
Qed.

(** *** What [format_g] writes *)

Lemma format_g_shape n k :
  (0 < n)%Z -> (0 < k)%Z ->
  (exists I F Y, format_g n k = (with_fraction I F ++ String "e" Y)%string)
  \/ (exists I F,
        format_g n k = with_fraction I F
        /\ I <> EmptyString /\ all_chars isdigit I /\ all_chars isdigit F
        /\ String.length F <= 9
        /\ (10 ^ 5 <= digits_value (I ++ F) < 10 ^ 6)%Z
        /\ (2 * 10 ^ 5
              * Z.abs (digits_value (I ++ F) * k
                       - n * 10 ^ Z.of_nat (String.length F))
            <= n * 10 ^ Z.of_nat (String.length F))%Z).
Proof.
  intros Hn Hk. unfold format_g.
  set (x0 := if ge_pow10 n k _ then _ else _).
  set (q := scaled_decimal n k (5 - x0)).
  assert (Hcase : exists x Q,
             (if (q =? 10 ^ 6)%Z then ((x0 + 1)%Z, decimal (10 ^ 5))
              else (x0, decimal q)) = (x, decimal Q)
             /\ (x, Q) = (if (q =? 10 ^ 6)%Z then ((x0 + 1)%Z, (10 ^ 5)%Z)
                          else (x0, q))
             /\ (x0 <= x)%Z).
  { destruct (q =? 10 ^ 6)%Z; eexists; eexists; repeat split; lia. }
  destruct Hcase as (x & Q & -> & EQ & Hx0).
  destruct ((x <? -4) || (6 <=? x))%Z eqn:B.
  { left. eexists; eexists; eexists. reflexivity. }
  right. apply orb_false_elim in B. destruct B as [B1 B2].
  apply Z.ltb_ge in B1. apply Z.leb_gt in B2.
  assert (Hx05 : (x0 <= 5)%Z) by lia.
  pose proof (exponent_estimate n k x0 Hn Hk eq_refl Hx05) as Hest.
  destruct (six_digits n k x0 q Hn Hk Hx05 Hest eq_refl x Q EQ ltac:(lia))
    as [HQ Herr].
  destruct (decimal_spec Q ltac:(lia)) as (Hdig & _ & Hval).
  pose proof (decimal_length6 Q HQ) as Hlen.
  set (digits := decimal Q) in *. clearbody digits.
  destruct (0 <=? x)%Z eqn:E0.
  - apply Z.leb_le in E0.
    destruct (substring_pieces digits (Z.to_nat x + 1) (5 - Z.to_nat x))
      as (u & w & -> & -> & -> & Hu & Hw); [lia|].
    apply all_chars_split in Hdig. destruct Hdig as [Hdu Hdw].
    exists u, w. split; [reflexivity|].
    split; [destruct u; [simpl in Hu; lia|discriminate]|].
    split; [exact Hdu|]. split; [exact Hdw|]. split; [lia|].
    rewrite Hval. replace (Z.of_nat (String.length w)) with (5 - x)%Z by lia.
    split; assumption.
  - apply Z.leb_gt in E0.
    exists "0"%string, (string_rep (Z.to_nat (- x - 1)) "0" ++ digits)%string.
    assert (Hz : all_chars isdigit (string_rep (Z.to_nat (- x - 1)) "0"))
      by (apply all_chars_string_rep; reflexivity).
    assert (HF : all_chars isdigit
                   (string_rep (Z.to_nat (- x - 1)) "0" ++ digits))
      by (apply all_chars_app; assumption).
    assert (HL : String.length (string_rep (Z.to_nat (- x - 1)) "0" ++ digits)
                 = Z.to_nat (- x - 1) + 6).
    { rewrite length_append, length_string_rep, Hlen. reflexivity. }
    split; [reflexivity|]. split; [discriminate|].
    split; [simpl; auto|]. split; [exact HF|]. split; [lia|].
    assert (HV : digits_value
                   ("0" ++ string_rep (Z.to_nat (- x - 1)) "0" ++ digits)
                 = Q).
    { rewrite digits_value_app by (simpl; auto).
      rewrite digits_value_app by assumption.
      rewrite digits_value_zeros, Hval.
      change (digits_value "0") with 0%Z. lia. }
    rewrite HV, HL.
    replace (Z.of_nat (Z.to_nat (- x - 1) + 6)) with (5 - x)%Z by lia.
    split; assumption.
Qed.

(** *** The text written for a double *)

Lemma literal_numeric neg ds fs :
  all_chars isdigit ds -> all_chars isdigit fs ->
  all_chars numeric (sign neg ++ ds ++ String "." fs).
Proof.
  intros Hd Hf.
  assert (Hw : forall x, all_chars isdigit x -> all_chars numeric x).
  { intros x. apply all_chars_weaken. intros c Hc.
    unfold numeric. rewrite Hc. reflexivity. }
  apply all_chars_app; [destruct neg; simpl; auto|].
  apply all_chars_app; [apply Hw; exact Hd|].
  split; [reflexivity|apply Hw; exact Hf].
Qed.

Lemma literal_has_point neg ds fs t :
  all_chars isdigit ds -> all_chars isdigit fs ->
  t = (sign neg ++ ds ++ String "." fs)%string ->
  all_chars numeric t /\ ~ absent "." t.
Proof.
  intros Hd Hf ->. split; [apply literal_numeric; assumption|].
  intros H.
  assert (Ha : forall a b, absent "." (a ++ String "." b) -> False).
  { clear. induction a as [|c a IH]; simpl; intros b [H1 H2]; eauto. }
  rewrite <- append_assoc in H. eapply Ha; eauto.
Qed.

Lemma magnitude_pos s m e :
  (0 < fst (magnitude (S754_finite s m e)))%Z
  /\ (0 < snd (magnitude (S754_finite s m e)))%Z.
Proof.
  cbn [magnitude]. destruct (0 <=? e)%Z eqn:E; cbn [fst snd].
  - apply Z.leb_le in E. split; [|lia].
    apply Z.mul_pos_pos; [lia|apply Z.pow_pos_nonneg; lia].
  - apply Z.leb_gt in E. split; [lia|apply Z.pow_pos_nonneg; lia].
Qed.

Lemma print_double_finite s m e :
  print_double (S754_finite s m e)
  = (sign s ++ format_g (fst (magnitude (S754_finite s m e)))
                        (snd (magnitude (S754_finite s m e))))%string.
Proof. cbn [print_double magnitude]. destruct (0 <=? e)%Z, s; reflexivity. Qed.

(** A double written as a literal with a fraction is finite, and the
    literal is its value up to half a unit of the sixth significant
    digit. *)
Lemma print_double_literal d neg ds fs :
  print_double d = (sign neg ++ ds ++ String "." fs)%string ->
  ds <> EmptyString -> all_chars isdigit ds ->
  fs <> EmptyString -> all_chars isdigit fs ->
  exists m e,
    d = S754_finite neg m e
    /\ String.length fs <= 9
    /\ (1 <= digits_value (ds ++ fs) < 10 ^ 6)%Z
    /\ (2 * 10 ^ 5
          * Z.abs (digits_value (ds ++ fs) * snd (magnitude d)
                   - fst (magnitude d) * 10 ^ Z.of_nat (String.length fs))
        <= fst (magnitude d) * 10 ^ Z.of_nat (String.length fs))%Z.
Proof.
  intros Hp Hne Hd Hnf Hf.
  destruct (literal_has_point neg ds fs _ Hd Hf Hp) as [Hnum Hpt].
  destruct d as [s|s| |s m e].
  - exfalso. apply Hpt. destruct s; simpl; repeat split; discriminate.
  - exfalso. apply Hpt. destruct s; simpl; repeat split; discriminate.
  - exfalso. apply Hpt. simpl; repeat split; discriminate.
  - destruct (magnitude_pos s m e) as [Hn Hk].
    rewrite print_double_finite in Hp, Hnum.
    set (n := fst (magnitude (S754_finite s m e))) in *.
    set (k := snd (magnitude (S754_finite s m e))) in *.
    clearbody n k.
    destruct (format_g_shape n k Hn Hk)
      as [(I & F & Y & E)|(I & F & E & HIne & HI & HF & HL & HQ & Herr)];
      rewrite E in *.
    { exfalso. apply all_chars_split in Hnum. destruct Hnum as [_ Hnum].
      apply all_chars_split in Hnum. destruct Hnum as [_ [Hnum _]].
      cbv in Hnum. discriminate Hnum. }
    destruct I as [|c I]; [congruence|]. destruct ds as [|c' ds]; [congruence|].
    destruct (with_fraction_spec (String c I) F) as [[Hs Hw]|[Hs Hw]];
      rewrite Hw in Hp; cbn [append] in Hp.
    { destruct (sign_unique s neg c I c' (ds ++ String "." fs)
                  (proj1 HI) (proj1 Hd) Hp) as [_ E'].
      exfalso. symmetry in E'.
      exact (digits_have_no_point (String c' ds) fs _ HI E'). }
    destruct (sign_unique s neg c (I ++ String "." (strip_zeros F))
                c' (ds ++ String "." fs) (proj1 HI) (proj1 Hd) Hp)
      as [-> E'].
    change (String c (I ++ String "." (strip_zeros F)))
      with (String c I ++ String "." (strip_zeros F))%string in E'.
    change (String c' (ds ++ String "." fs))
      with (String c' ds ++ String "." fs)%string in E'.
    symmetry in E'.
    destruct (literal_unique _ _ _ _ Hd HI E') as [Eds Efs].
    rewrite Eds in *. subst fs. clear E' Eds.
    destruct (strip_zeros_spec F) as [j Hj].
    set (G := strip_zeros F) in *.
    assert (HG : all_chars isdigit G) by (apply all_chars_strip_zeros; exact HF).
    assert (HZ : all_chars isdigit (string_rep j "0"))
      by (apply all_chars_string_rep; reflexivity).
    clearbody G. subst F.
    rewrite length_append, length_string_rep in *.
    rewrite <- append_assoc in HQ, Herr.
    rewrite (digits_value_app (String c I ++ G)) in HQ, Herr
      by (try apply all_chars_app; assumption).
    rewrite digits_value_zeros, length_string_rep, Z.add_0_r in HQ, Herr.
    rewrite Nat2Z.inj_add, Z.pow_add_r in Herr by lia.
    pose proof (digits_value_nonneg (String c I ++ G)
                  ltac:(apply all_chars_app; assumption)) as HV.
    set (V := digits_value (String c I ++ G)) in *. clearbody V.
    assert (HP : (0 < 10 ^ Z.of_nat j)%Z) by (apply Z.pow_pos_nonneg; lia).
    assert (HP' : (0 < 10 ^ Z.of_nat (String.length G))%Z)
      by (apply Z.pow_pos_nonneg; lia).
    set (P := (10 ^ Z.of_nat j)%Z) in *.
    set (R := (10 ^ Z.of_nat (String.length G))%Z) in *.
    exists m, e. split; [reflexivity|]. split; [lia|].
    split; [clearbody P; nia|].
    replace (V * P * k - n * (R * P))%Z with (P * (V * k - n * R))%Z in Herr
      by ring.
    rewrite Z.abs_mul, (Z.abs_eq P) in Herr by lia.
    clearbody P R. nia.
Qed.

End FloatText.

(** ** The double read from the text written for a double *)

Module FloatRound.
Import FloatText.

(** [stod] on a literal with a fraction rounds the value of its digits. *)
Lemma stod_literal neg ds fs :
  ds <> EmptyString -> all_chars isdigit ds -> all_chars isdigit fs ->
  stod (sign neg ++ ds ++ String "." fs)
  = round_binary64 neg (digits_value (ds ++ fs))
      (10 ^ Z.of_nat (String.length fs)).
Proof.
  intros Hne Hd Hf. unfold stod.
  rewrite (ScanNumber.read_sign_literal neg ds _ Hne Hd).
  rewrite (ScanNumber.read_digits_run ds 0%Z 0 "."%char fs Hd eq_refl).
  cbn [Ascii.eqb Bool.eqb]. cbv iota.
  rewrite (ScanNumber.read_digits_all fs _ 0 Hf).
  destruct ds as [|d ds]; [congruence|]. cbn [String.length Nat.add Nat.eqb].
  unfold digits_value at 1.
  rewrite (RenderFacts.read_digits_app (String d ds) fs 0%Z 0 Hd).
  rewrite !(fun a k => read_digits_value fs a k Hf). reflexivity.
Qed.

(** The rounding of a value between 10^-9 and 10^6: it is a normal
    number, no range error is reported, and the result is the value up to
    a relative error of 2^-52. *)
Lemma round_binary64_near neg V nf :
  (1 <= V < 10 ^ 6)%Z -> nf <= 9 ->
  exists m' e',
    round_binary64 neg V (10 ^ Z.of_nat nf) = inr (S754_finite neg m' e')
    /\ (e' < 0)%Z
    /\ (2 ^ 52 * Z.abs (Zpos m' * 10 ^ Z.of_nat nf - V * 2 ^ (- e'))
        <= V * 2 ^ (- e'))%Z.
Proof.
  intros HV Hnf. unfold round_binary64.
  destruct (V =? 0)%Z eqn:EV; [apply Z.eqb_eq in EV; lia|clear EV].
  set (d := (10 ^ Z.of_nat nf)%Z).
  assert (Hd : (1 <= d < 2 ^ 30)%Z).
  { unfold d. split.
    - apply (Z.pow_le_mono_r 10 0); lia.
    - apply Z.le_lt_trans with (10 ^ 9)%Z; [apply Z.pow_le_mono_r; lia|].
      reflexivity. }
  clearbody d.
  destruct (Z.log2_spec V ltac:(lia)) as [Ha1 Ha2].
  destruct (Z.log2_spec d ltac:(lia)) as [Hb1 Hb2].
  pose proof (Z.log2_nonneg V) as Ha0. pose proof (Z.log2_nonneg d) as Hb0.
  assert (Ha : (Z.log2 V < 20)%Z).
  { apply Z.log2_lt_pow2; [lia|]. apply Z.lt_le_trans with (10 ^ 6)%Z; [lia|].
    apply Z.lt_le_incl. reflexivity. }
  assert (Hb : (Z.log2 d < 30)%Z) by (apply Z.log2_lt_pow2; lia).
  set (a := Z.log2 V) in *. set (b := Z.log2 d) in *. clearbody a b.
  set (e0 := (a - b - 52)%Z).
  set (e1 := if (V * 2 ^ (- Z.min e0 0) <? d * 2 ^ (Z.max e0 0) * 2 ^ 52)%Z
             then (e0 - 1)%Z else e0).
  assert (He1 : (e0 - 1 <= e1 <= e0)%Z).
  { unfold e1. destruct (_ <? _)%Z; lia. }
  assert (He0 : (-82 <= e0 <= -33)%Z) by (unfold e0; lia).
  clearbody e1.
  assert (Emax : Z.max e1 (-1074) = e1) by lia. rewrite Emax.
  unfold scaled_quotient.
  assert (Eneg : (0 <=? e1)%Z = false) by (apply Z.leb_gt; lia).
  rewrite Eneg.
  assert (HP : (0 < 2 ^ (- e1))%Z) by (apply Z.pow_pos_nonneg; lia).
  (* the scaled value is at least 2^51 times the denominator *)
  assert (Hbig : (2 ^ 51 * d <= V * 2 ^ (- e1))%Z).
  { assert (E : (2 ^ (- e1) = 2 ^ (- e1 - (52 + b - a)) * 2 ^ (52 + b - a))%Z).
    { rewrite <- Z.pow_add_r by (unfold e0 in *; lia). f_equal. lia. }
    assert (E2 : (2 ^ a * 2 ^ (52 + b - a) = 2 ^ 51 * 2 ^ Z.succ b)%Z).
    { rewrite <- !Z.pow_add_r by lia. f_equal. lia. }
    assert (0 < 2 ^ (- e1 - (52 + b - a)))%Z
      by (apply Z.pow_pos_nonneg; unfold e0 in *; lia).
    assert (0 < 2 ^ (52 + b - a))%Z by (apply Z.pow_pos_nonneg; lia).
    rewrite E. nia. }
  destruct (div_half_even_spec (V * 2 ^ (- e1)) d ltac:(nia) ltac:(lia))
    as [Hq0 Hq].
  destruct (div_half_even (V * 2 ^ (- e1)) d) as [q exact].
  cbn [fst] in Hq0, Hq.
  set (N := (V * 2 ^ (- e1))%Z) in *.
  assert (Hqpos : (0 < q)%Z) by nia.
  assert (Htiny : tiny V d e1 = false).
  { unfold tiny.
    assert ((e1 <? -1075)%Z = false) as -> by (apply Z.ltb_ge; lia).
    assert ((e1 =? -1075)%Z = false) as -> by (apply Z.eqb_neq; lia).
    reflexivity. }
  destruct (q =? 2 ^ 53)%Z eqn:E53.
  - apply Z.eqb_eq in E53.
    assert ((971 <? e1 + 1)%Z = false) as -> by (apply Z.ltb_ge; lia).
    rewrite Htiny. cbn [andb].
    exists (Z.to_pos (2 ^ 52)), (e1 + 1)%Z.
    split; [reflexivity|]. split; [lia|].
    assert (E : (2 ^ (- e1) = 2 * 2 ^ (- (e1 + 1)))%Z).
    { rewrite <- Z.pow_succ_r by lia. f_equal. lia. }
    assert (0 < 2 ^ (- (e1 + 1)))%Z by (apply Z.pow_pos_nonneg; lia).
    change (Z.pos (Z.to_pos (2 ^ 52))) with (2 ^ 52)%Z.
    unfold N in *. rewrite E in *. subst q.
    set (T := (2 ^ (- (e1 + 1)))%Z) in *. clearbody T. lia.
  - apply Z.eqb_neq in E53.
    assert ((971 <? e1)%Z = false) as -> by (apply Z.ltb_ge; lia).
    rewrite Htiny. cbn [andb].
    destruct q as [|p|p]; try lia.
    exists p, e1. split; [reflexivity|]. split; [lia|].
    fold N. lia.
Qed.

(** Two relative errors in a row. *)
Lemma errors_add n k V R m T :
  (0 < n)%Z -> (0 < k)%Z -> (0 < V)%Z -> (0 < R)%Z -> (0 < T)%Z ->
  (2 * 10 ^ 5 * Z.abs (V * k - n * R) <= n * R)%Z ->
  (2 ^ 52 * Z.abs (m * R - V * T) <= V * T)%Z ->
  (10 ^ 5 * Z.abs (m * k - n * T) <= n * T)%Z.
Proof.
  intros Hn Hk HV HR HT H1 H2.
  assert (E : (R * (m * k - n * T) = k * (m * R - V * T) + T * (V * k - n * R))%Z)
    by ring.
  assert (Htri : (R * Z.abs (m * k - n * T)
                  <= k * Z.abs (m * R - V * T) + T * Z.abs (V * k - n * R))%Z).
  { rewrite <- (Z.abs_eq R) at 1 by lia. rewrite <- Z.abs_mul, E.
    eapply Z.le_trans; [apply Z.abs_triangle|].
    rewrite !Z.abs_mul, (Z.abs_eq k), (Z.abs_eq T) by lia. lia. }
  pose proof (Z.abs_nonneg (m * R - V * T)) as Ha0.
  pose proof (Z.abs_nonneg (V * k - n * R)) as Hb0.
  pose proof (Z.abs_nonneg (m * k - n * T)) as Hc0.
  assert (Hb : (V * k <= n * R + Z.abs (V * k - n * R))%Z) by lia.
  set (a := Z.abs (m * R - V * T)) in *.
  set (b := Z.abs (V * k - n * R)) in *.
  set (c := Z.abs (m * k - n * T)) in *.
  clearbody a b c. clear E.
  change (2 ^ 52)%Z with 4503599627370496%Z in H2.
  change (10 ^ 5)%Z with 100000%Z in *.
  assert (Hvk : (V * k <= 2 * (n * R))%Z) by nia.
  assert (Hka : (4503599627370496 * (k * a) <= 2 * (n * R) * T)%Z) by nia.
  assert (Hka' : (200000 * (k * a) <= n * R * T)%Z) by nia.
  assert (Htb : (200000 * (T * b) <= n * R * T)%Z) by nia.
  assert (Hfin : (100000 * (R * c) <= n * T * R)%Z) by nia.
  nia.
Qed.

(** The double read from the text written for [d] is [d] up to the
    tolerance, when that text is a literal with a fraction. *)
Lemma reread_double_near d :
  fraction_literal (print_double d) ->
  exists d', stod (print_double d) = inr d' /\ within_tolerance d d'.
Proof.
  intros (neg & ds & fs & Hp & Hne & Hd & Hnf & Hf).
  destruct (print_double_literal d neg ds fs Hp Hne Hd Hnf Hf)
    as (m & e & -> & HL & HV & Herr).
  rewrite Hp, (stod_literal neg ds fs Hne Hd Hf).
  destruct (round_binary64_near neg (digits_value (ds ++ fs))
              (String.length fs) HV HL) as (m' & e' & -> & He' & Hnear).
  eexists. split; [reflexivity|]. right.
  split; [reflexivity|].
  destruct (magnitude_pos neg m e) as [Hn Hk].
  set (n := fst (magnitude (S754_finite neg m e))) in *.
  set (k := snd (magnitude (S754_finite neg m e))) in *. clearbody n k.
  cbn [magnitude].
  assert ((0 <=? e')%Z = false) as -> by (apply Z.leb_gt; lia).
  cbn [fst snd].
  apply (errors_add n k (digits_value (ds ++ fs))
           (10 ^ Z.of_nat (String.length fs))); auto; try lia.
  all: apply Z.pow_pos_nonneg; lia.
Qed.

End FloatRound.

(** ** Rendering: float leaves read again *)

Module RereadFacts.
Import ScanState LexFacts RenderFacts.

Lemma reread_object o : reread (JObject o) = JObject (reread_entries o).
Proof. reflexivity. Qed.

Lemma reread_array a : reread (JArray a) = JArray (map reread a).
Proof. reflexivity. Qed.

Lemma reread_entries_cons k x o :
  reread_entries ((k, x) :: o) = (k, reread x) :: reread_entries o.
Proof. reflexivity. Qed.

Lemma keys_reread_entries o : keys (reread_entries o) = keys o.
Proof.
  induction o as [|[k x] o IH]; [reflexivity|].
  rewrite reread_entries_cons. unfold keys in *. simpl. rewrite IH.
  reflexivity.
Qed.

Lemma floats_with_fraction_object o :
  floats_with_fraction (JObject o)
  <-> Forall (fun kv => floats_with_fraction (snd kv)) o.
Proof.
  cbn [floats_with_fraction].
  apply (ValueFacts.entries_Forall (fun _ x => floats_with_fraction x)).
Qed.

Lemma floats_with_fraction_array a :
  floats_with_fraction (JArray a) <-> Forall floats_with_fraction a.
Proof. cbn [floats_with_fraction]. apply ValueFacts.items_Forall. Qed.

Lemma floats_exact_object o :
  floats_exact (JObject o) <-> Forall (fun kv => floats_exact (snd kv)) o.
Proof.
  cbn [floats_exact].
  apply (ValueFacts.entries_Forall (fun _ x => floats_exact x)).
Qed.

Lemma floats_exact_array a :
  floats_exact (JArray a) <-> Forall floats_exact a.
Proof. cbn [floats_exact]. apply ValueFacts.items_Forall. Qed.

(** A tree whose float leaves are written exactly is read again as
    itself. *)
Lemma reread_exact v : floats_exact v -> reread v = v.
Proof.
  induction v as [o IH|a IH|s|i|d|b|] using JsonValue_ind;
    try reflexivity.
  - rewrite floats_exact_object, reread_object. intros H. f_equal.
    induction o as [|[k x] o IHo]; [reflexivity|].
    inversion IH as [|? ? IHx IHrest]; subst.
    inversion H as [|? ? Hx Hrest]; subst. cbn [snd] in *.
    rewrite reread_entries_cons, (IHx Hx), (IHo IHrest Hrest). reflexivity.
  - rewrite floats_exact_array, reread_array. intros H. f_equal.
    induction a as [|x a IHa]; [reflexivity|].
    inversion IH as [|? ? IHx IHrest]; subst.
    inversion H as [|? ? Hx Hrest]; subst.
    simpl. rewrite (IHx Hx), (IHa IHrest Hrest). reflexivity.
  - cbn [floats_exact reread]. intros H. unfold reread_double. rewrite H.
    reflexivity.
Qed.

(** Reading the float leaves again keeps the keys, the strings and the
    integers. *)
Lemma canonical_reread v : canonical v -> canonical (reread v).
Proof.
  induction v as [o IH|a IH|s|i|d|b|] using JsonValue_ind; auto.
  - rewrite reread_object, !ValueFacts.canonical_object.
    rewrite keys_reread_entries. intros [Hs Hf]. split; [exact Hs|].
    clear Hs. induction o as [|[k x] o IHo]; [constructor|].
    inversion IH as [|? ? IHx IHrest]; subst.
    inversion Hf as [|? ? [Hk Hx] Hrest]; subst. cbn [fst snd] in *.
    rewrite reread_entries_cons. constructor; [|apply IHo; auto].
    cbn [fst snd]. split; auto.
  - rewrite reread_array, !ValueFacts.canonical_array. intros Hf.
    induction a as [|x a IHa]; [constructor|].
    inversion IH as [|? ? IHx IHrest]; subst.
    inversion Hf as [|? ? Hx Hrest]; subst.
    simpl. constructor; auto.
Qed.

Lemma ends_ok_isdigit post : ends_ok post -> stops isdigit post.
Proof.
  destruct post as [|c post]; simpl; [reflexivity|].
  intros [-> | ->]; reflexivity.
Qed.

(** A literal with a fraction is read as one NUMBER token with the double
    [stod] gives. *)
Lemma lexes_float neg ds fs d :
  ds <> EmptyString -> all_chars isdigit ds ->
  fs <> EmptyString -> all_chars isdigit fs ->
  stod (sign neg ++ ds ++ String "." fs) = inr d ->
  lexes ends_ok (sign neg ++ ds ++ String "." fs) [mkToken NUMBER (VDouble d)].
Proof.
  intros Hne Hd Hnf Hfs Hs. apply lexes_one.
  { rewrite !length_append. cbn [String.length]. lia. }
  intros F pre post s Ha Hst Hb HF.
  assert (Hlen : String.length ds <= F /\ String.length fs <= F).
  { destruct Ha as [E _]. rewrite E in HF. rewrite !length_append in HF.
    cbn [String.length] in HF. lia. }
  assert (Ha' : at_split s pre (sign neg ++ ds ++ String "." (fs ++ post))).
  { revert Ha. rewrite !append_assoc. cbn [append]. auto. }
  rewrite (ScanLexeme.scanToken_float F s pre neg ds fs post Ha' Hst Hne Hd
             Hnf Hfs (ends_ok_isdigit _ Hb) (proj1 Hlen) (proj2 Hlen)).
  rewrite Hs. eexists. split; [reflexivity|].
  cbn [Scanner.str Scanner.current Scanner.tokens Scanner.push_back adv].
  repeat split; auto. lia.
Qed.

Lemma separator_reread_entries {A} (o : list (string * JsonValue)) (x y : A) :
  match reread_entries o with [] => x | _ => y end
  = match o with [] => x | _ => y end.
Proof. destruct o as [|[k v] o]; reflexivity. Qed.

Lemma separator_map {A B C} (f : A -> B) (a : list A) (x y : C) :
  match map f a with [] => x | _ => y end
  = match a with [] => x | _ => y end.
Proof. destruct a; reflexivity. Qed.

(** The scanner reads the text written for [v] as the tokens of [v] with
    its float leaves read again. *)
Lemma lexes_reread v :
  canonical v -> floats_with_fraction v ->
  forall indent, lexes ends_ok (print_json v indent) (tokens_of (reread v)).
Proof.
  induction v as [o IH|a IH|s|i|d|b|] using JsonValue_ind;
    intros Hc Hn indent.
  - (* object *)
    apply ValueFacts.canonical_object in Hc. destruct Hc as [_ Hc].
    apply floats_with_fraction_object in Hn.
    rewrite print_json_object, reread_object, tokens_of_object.
    apply lexes_any.
    apply (lexes_app_any _ _ _ [] _ (lexes_spaces indent)).
    apply (lexes_app_any _ _ _ [_] _ lexes_left_curly).
    apply (lexes_app_any _ _ _ [] _ lexes_newline).
    apply lexes_app_any.
    2:{ apply (lexes_app_any _ _ _ [] _ (lexes_spaces indent)).
        apply lexes_right_curly. }
    induction o as [|[k x] o IHo].
    + apply lexes_nil.
    + inversion IH as [|? ? IHx IHrest]; subst.
      inversion Hc as [|? ? [Hk Hx] Hcrest]; subst.
      inversion Hn as [|? ? Hnx Hnrest]; subst. cbn [fst snd] in *.
      rewrite print_object_entries_cons, reread_entries_cons,
        object_tokens_cons, separator_reread_entries.
      apply (lexes_app_any _ _ _ [] _ (lexes_spaces (indent + 2))).
      apply (lexes_app_any _ _ _ _ _ (lexes_quoted k Hk)).
      apply (lexes_app_any _ _ _ _ _ lexes_colon).
      apply (lexes_app_any _ _ _ _ _ lexes_space).
      destruct (lexes_separator o anything _ _ (IHo IHrest Hcrest Hnrest))
        as [Hsep Hends].
      eapply lexes_app; [apply (IHx Hx Hnx)|exact Hsep|].
      intros post _. apply Hends.
  - (* array *)
    apply ValueFacts.canonical_array in Hc.
    apply floats_with_fraction_array in Hn.
    rewrite print_json_array, reread_array, tokens_of_array.
    apply lexes_any.
    apply (lexes_app_any _ _ _ [] _ (lexes_spaces indent)).
    apply (lexes_app_any _ _ _ [_] _ lexes_left_square).
    apply (lexes_app_any _ _ _ [] _ lexes_newline).
    apply lexes_app_any.
    2:{ apply (lexes_app_any _ _ _ [] _ (lexes_spaces indent)).
        apply lexes_right_square. }
    induction a as [|x a IHa].
    + apply lexes_nil.
    + inversion IH as [|? ? IHx IHrest]; subst.
      inversion Hc as [|? ? Hx Hcrest]; subst.
      inversion Hn as [|? ? Hnx Hnrest]; subst.
      rewrite print_array_items_cons. cbn [map].
      rewrite array_tokens_cons, separator_map.
      destruct (lexes_separator a anything _ _ (IHa IHrest Hcrest Hnrest))
        as [Hsep Hends].
      eapply lexes_app; [apply (IHx Hx Hnx)|exact Hsep|].
      intros post _. apply Hends.
  - (* string *)
    apply lexes_any. apply (lexes_quoted s Hc).
  - (* integer *)
    destruct (print_int_literal i) as (neg & ds & Hp & Hne & Hd & Hs).
    cbn [print_json reread tokens_of]. rewrite Hp.
    apply lexes_int; auto.
  - (* double *)
    destruct (FloatRound.reread_double_near d Hn) as (d' & Hs & _).
    destruct Hn as (neg & ds & fs & Hp & Hne & Hd & Hnf & Hfs).
    cbn [print_json reread tokens_of]. unfold reread_double.
    rewrite Hs. rewrite Hp in *. apply lexes_float; auto.
  - destruct b; [apply lexes_true|apply lexes_false].
  - apply lexes_null.
Qed.

(** Reading the float leaves again keeps the tree, up to the tolerance
    on the floats. *)
Lemma similar_reread v : floats_with_fraction v -> similar v (reread v).
Proof.
  induction v as [o IH|a IH|s|i|d|b|] using JsonValue_ind;
    try (intros; reflexivity).
  - rewrite floats_with_fraction_object, reread_object. intros H.
    cbn [similar].
    induction o as [|[k x] o IHo]; [exact I|].
    inversion IH as [|? ? IHx IHrest]; subst.
    inversion H as [|? ? Hx Hrest]; subst. cbn [snd] in *.
    rewrite reread_entries_cons.
    split; [reflexivity|]. split; [apply IHx; exact Hx|].
    apply IHo; assumption.
  - rewrite floats_with_fraction_array, reread_array. intros H.
    cbn [similar].
    induction a as [|x a IHa]; [exact I|].
    inversion IH as [|? ? IHx IHrest]; subst.
    inversion H as [|? ? Hx Hrest]; subst.
    cbn [map]. split; [apply IHx; exact Hx|]. apply IHa; assumption.
  - intros H. cbn [similar reread].
    destruct (FloatRound.reread_double_near d H) as (d' & Hs & Ht).
    unfold reread_double. rewrite Hs. exact Ht.
Qed.

End RereadFacts.

(** ** The parser: every read is in bounds *)

Module ParserFacts.
Import Parser.

Ltac pstate :=
  unfold incr_current, init in *;
  cbn [tokens current token_type value] in *.

Lemma ends_with_eof_last toks i tk :
  ends_with_eof toks -> nth_error toks i = Some tk -> is_eof tk = false ->
  S i < List.length toks.
Proof.
  intros (body & e & -> & He) Hn Hne.
  rewrite length_app. simpl.
  assert (i < List.length body \/ i = List.length body \/ List.length body < i)
    as [H|[H|H]] by lia.
  - lia.
  - subst i. rewrite nth_error_app2 in Hn by lia.
    rewrite Nat.sub_diag in Hn. simpl in Hn. inversion Hn; subst. congruence.
  - rewrite nth_error_app2 in Hn by lia.
    destruct (i - List.length body) as [|k] eqn:E; [lia|].
    simpl in Hn. destruct k; discriminate.
Qed.

Lemma token_at_some p :
  current p < List.length (tokens p) ->
  exists tk, nth_error (tokens p) (current p) = Some tk.
Proof.
  intros H. destruct (nth_error (tokens p) (current p)) eqn:E; eauto.
  apply nth_error_None in E. lia.
Qed.

Lemma advanceCurrent_some p tk :
  nth_error (tokens p) (current p) = Some tk ->
  advanceCurrent p = Ok tk (incr_current p).
Proof.
  intros H. unfold advanceCurrent, bind, token_at. mred. rewrite H. reflexivity.
Qed.

Lemma getCurrValue_some p tk :
  nth_error (tokens p) (current p) = Some tk ->
  getCurrValue p = Ok tk p.
Proof.
  intros H. unfold getCurrValue, bind, token_at. mred. rewrite H. reflexivity.
Qed.

Lemma TokenType_eqb_eq a b : TokenType_eqb a b = true <-> a = b.
Proof. destruct a, b; simpl; split; intros H; congruence. Qed.

Lemma TokenType_eqb_refl a : TokenType_eqb a a = true.
Proof. destruct a; reflexivity. Qed.

Import ParseState.

Ltac perr :=
  solve [ try unfold parser_error; simpl;
          repeat (first [left; reflexivity | right]) ].

Lemma ready_non_eof toks token c :
  ready toks token c -> is_eof token = false -> c < List.length toks.
Proof. intros [_ H]; exact H. Qed.

Lemma ready_next toks c tk :
  ends_with_eof toks -> nth_error toks c = Some tk -> ready toks tk (S c).
Proof.
  intros He Hn. split.
  - assert (c < List.length toks); [|lia].
    apply nth_error_Some. congruence.
  - intros Hne. eapply ends_with_eof_last; eauto.
Qed.

Lemma good_weaken {A} toks need need' fuel fuel' c c' (o : Outcome t A) :
  good toks need fuel c o -> c' <= c -> (fuel < need -> fuel' < need') ->
  good toks need' fuel' c' o.
Proof.
  destruct o; simpl; intuition lia.
Qed.

Lemma consume_good toks tt error c :
  ends_with_eof toks -> c < List.length toks ->
  In error ["Key: values must be colon separated"] ->
  tt <> EOF_TOKEN ->
  match consume tt error (mk toks c) with
  | Ok _ p' => p' = mk toks (S c) /\ S c < List.length toks
  | Throw e p' => p' = mk toks c /\ parser_error e
  | _ => False
  end.
Proof.
  intros He Hc Hin Htt. unfold consume, bind.
  destruct (token_at_some (mk toks c) Hc) as [tk Hn].
  rewrite (getCurrValue_some _ _ Hn). cbv beta iota.
  destruct (TokenType_eqb (token_type tk) tt) eqn:E; cbn [negb]; mred.
  - split; auto. pstate. eapply ends_with_eof_last; eauto.
    apply TokenType_eqb_eq in E. unfold is_eof. rewrite E.
    destruct tt; try reflexivity. congruence.
  - split; auto. destruct Hin as [<-|[]]. perr.
Qed.

Lemma consume_until_comma_good toks exception c :
  ends_with_eof toks -> c < List.length toks ->
  match consume_until_comma exception (mk toks c) with
  | Ok _ p' =>
      (p' = mk toks (S c) /\ S c < List.length toks) \/ p' = mk toks c
  | Throw e p' => p' = mk toks c /\ parser_error e
  | _ => False
  end.
Proof.
  intros He Hc. unfold consume_until_comma, bind.
  destruct (token_at_some (mk toks c) Hc) as [tk Hn].
  rewrite (getCurrValue_some _ _ Hn). cbv beta iota.
  destruct (TokenType_eqb (token_type tk) COMMA) eqn:E; mred.
  - left. split; auto. pstate. eapply ends_with_eof_last; eauto.
    apply TokenType_eqb_eq in E. unfold is_eof. rewrite E. reflexivity.
  - rewrite (getCurrValue_some _ _ Hn). cbv beta iota.
    destruct (TokenType_eqb (token_type tk) exception); cbn [negb]; mred.
    + right; auto.
    + split; auto. perr.
Qed.

(** The descent over a token sequence that ends with the end marker. *)
Lemma parser_good toks :
  ends_with_eof toks ->
  forall fuel,
    (forall token c, ready toks token c ->
       good toks (3 * (List.length toks - c) + 3) fuel c
            (parse_from_token fuel token (mk toks c)))
    /\ (forall c, c < List.length toks ->
         good toks (3 * (List.length toks - c) + 2) fuel c
              (parse_object fuel (mk toks c)))
    /\ (forall key obj c, ready toks key c ->
         good toks (3 * (List.length toks - c) + 4) fuel c
              (parse_object_loop fuel key obj (mk toks c)))
    /\ (forall c, c < List.length toks ->
         good toks (3 * (List.length toks - c) + 2) fuel c
              (parse_array fuel (mk toks c)))
    /\ (forall token arr c, ready toks token c ->
         good toks (3 * (List.length toks - c) + 4) fuel c
              (parse_array_loop fuel token arr (mk toks c))).
Proof.
  intros He. induction fuel as [|fuel (IHv & IHo & IHol & IHa & IHal)].
  { repeat split; intros; simpl; lia. }
  split; [|split; [|split; [|split]]].
  - (* parse_from_token *)
    intros token c Hr. cbn [parse_from_token].
    assert (Hscalar : is_eof token = false -> c <= c /\ c < List.length toks).
    { intros Hn. split; [lia|]. apply (ready_non_eof _ _ _ Hr Hn). }
    destruct Hr as [Hle Hr]. unfold is_eof in *.
    destruct (token_type token) eqn:Et; cbn [TokenType_eqb] in *;
      try (mred; simpl; repeat split; auto; perr).
    + unfold bind. destruct (value token); mred; simpl;
        repeat split; auto; try apply Hscalar; auto; perr.
    + destruct (holds_int (value token)); unfold bind;
        destruct (value token); mred; simpl;
        repeat split; auto; try apply Hscalar; auto; perr.
    + unfold bind. destruct (value token); mred; simpl;
        repeat split; auto; try apply Hscalar; auto; perr.
    + unfold bind. specialize (IHo c (Hr eq_refl)).
      destruct (parse_object fuel (mk toks c)); mred; simpl in *; auto; lia.
    + unfold bind. specialize (IHa c (Hr eq_refl)).
      destruct (parse_array fuel (mk toks c)); mred; simpl in *; auto; lia.
  - (* parse_object *)
    intros c Hc. cbn [parse_object]. unfold bind.
    destruct (token_at_some (mk toks c) Hc) as [tk Hn].
    rewrite (advanceCurrent_some _ _ Hn). cbv beta iota. pstate.
    eapply good_weaken; [apply IHol, ready_next; eauto| |]; pstate; lia.
  - (* parse_object_loop *)
    intros key obj c Hr. cbn [parse_object_loop].
    destruct (TokenType_eqb (token_type key) RIGHT_CURLY) eqn:Erc; cbn [negb].
    2:{
      destruct (TokenType_eqb (token_type key) EOF_TOKEN) eqn:Eeof.
      { mred. simpl. destruct Hr. repeat split; auto. perr. }
      destruct (TokenType_eqb (token_type key) STRING) eqn:Estr; cbn [negb].
      2:{ mred. simpl. destruct Hr. repeat split; auto. perr. }
      pose proof (ready_non_eof _ _ _ Hr Eeof) as Hc.
      unfold bind at 1.
      pose proof (consume_good toks COLON
                    "Key: values must be colon separated" c He Hc
                    ltac:(simpl; auto) ltac:(discriminate)) as HC.
      destruct (consume COLON _ (mk toks c)) as [u p1|e p1| |];
        try contradiction.
      2:{ destruct HC as [-> HC]. simpl. repeat split; auto. lia. }
      destruct HC as [-> Hc1]. unfold bind at 1.
      destruct (token_at_some (mk toks (S c)) Hc1) as [vt Hn].
      rewrite (advanceCurrent_some _ _ Hn). cbv beta iota. pstate.
      unfold bind at 1.
      specialize (IHv vt (S (S c)) (ready_next _ _ _ He Hn)).
      destruct (parse_from_token fuel vt (mk toks (S (S c))))
        as [v p2|e p2| |]; simpl in IHv; try contradiction.
      2:{ simpl. tauto. }
      2:{ simpl. lia. }
      destruct p2 as [toks2 c2]. pstate. destruct IHv as (-> & Hc2 & Hc2').
      unfold bind at 1.
      destruct (get_string (value key)) as [e|k] eqn:Eg; mred.
      { assert (e = bad_variant_access)
          by (destruct (value key); inversion Eg; auto).
        subst e. simpl. repeat split; auto; try lia. perr. }
      unfold bind at 1.
      pose proof (consume_until_comma_good toks RIGHT_CURLY c2 He Hc2') as HU.
      destruct (consume_until_comma RIGHT_CURLY (mk toks c2))
        as [u' p3|e p3| |]; try contradiction.
      2:{ destruct HU as [-> HU]. simpl. repeat split; auto. lia. }
      assert (exists c3, p3 = mk toks c3 /\ c2 <= c3 /\ c3 < List.length toks)
        as (c3 & -> & Hc3 & Hc3').
      { destruct HU as [[-> HU]| ->]; eexists; split; eauto; lia. }
      unfold bind at 1.
      destruct (token_at_some (mk toks c3) Hc3') as [kt Hn'].
      rewrite (advanceCurrent_some _ _ Hn'). cbv beta iota. pstate.
      eapply good_weaken; [apply IHol, ready_next; eauto| |]; pstate; lia.
    }
    mred. simpl. destruct Hr as [Hle Hr]. repeat split; auto.
    apply Hr. unfold is_eof. apply TokenType_eqb_eq in Erc. rewrite Erc.
    reflexivity.
  - (* parse_array *)
    intros c Hc. cbn [parse_array]. unfold bind.
    destruct (token_at_some (mk toks c) Hc) as [tk Hn].
    rewrite (advanceCurrent_some _ _ Hn). cbv beta iota. pstate.
    eapply good_weaken; [apply IHal, ready_next; eauto| |]; pstate; lia.
  - (* parse_array_loop *)
    intros token arr c Hr. cbn [parse_array_loop].
    destruct (TokenType_eqb (token_type token) RIGHT_SQUARE) eqn:Erc;
      cbn [negb].
    2:{
      destruct (TokenType_eqb (token_type token) EOF_TOKEN) eqn:Eeof.
      { mred. simpl. destruct Hr. repeat split; auto. perr. }
      pose proof (ready_non_eof _ _ _ Hr Eeof) as Hc.
      unfold bind at 1.
      specialize (IHv token c Hr).
      destruct (parse_from_token fuel token (mk toks c))
        as [v p2|e p2| |]; simpl in IHv; try contradiction.
      2:{ simpl. tauto. }
      2:{ simpl. lia. }
      destruct p2 as [toks2 c2]. pstate. destruct IHv as (-> & Hc2 & Hc2').
      unfold bind at 1.
      pose proof (consume_until_comma_good toks RIGHT_SQUARE c2 He Hc2') as HU.
      destruct (consume_until_comma RIGHT_SQUARE (mk toks c2))
        as [u' p3|e p3| |]; try contradiction.
      2:{ destruct HU as [-> HU]. simpl. repeat split; auto. lia. }
      assert (exists c3, p3 = mk toks c3 /\ c2 <= c3 /\ c3 < List.length toks)
        as (c3 & -> & Hc3 & Hc3').
      { destruct HU as [[-> HU]| ->]; eexists; split; eauto; lia. }
      unfold bind at 1.
      destruct (token_at_some (mk toks c3) Hc3') as [kt Hn'].
      rewrite (advanceCurrent_some _ _ Hn'). cbv beta iota. pstate.
      eapply good_weaken; [apply IHal, ready_next; eauto| |]; pstate; lia.
    }
    mred. simpl. destruct Hr as [Hle Hr]. repeat split; auto.
    apply Hr. unfold is_eof. apply TokenType_eqb_eq in Erc. rewrite Erc.
    reflexivity.
Qed.

(** ** The parser: only the tokens it consumed matter *)

Lemma agree_le n m toks toks' : agree n toks toks' -> m <= n -> agree m toks toks'.
Proof. intros H Hle i Hi. apply H. lia. Qed.

Lemma advanceCurrent_inv p tk p' :
  advanceCurrent p = Ok tk p' ->
  nth_error (tokens p) (current p) = Some tk /\ p' = incr_current p.
Proof.
  unfold advanceCurrent, bind, token_at. mred.
  destruct (nth_error (tokens p) (current p)); mred; [|discriminate].
  intros H; inversion H; auto.
Qed.

Lemma consume_inv tt error p u p' :
  consume tt error p = Ok u p' ->
  exists tk, nth_error (tokens p) (current p) = Some tk
             /\ token_type tk = tt /\ p' = incr_current p.
Proof.
  unfold consume, getCurrValue, bind, token_at. mred.
  destruct (nth_error (tokens p) (current p)) as [tk|]; mred; [|discriminate].
  destruct (TokenType_eqb (token_type tk) tt) eqn:E; cbn [negb]; mred;
    [|discriminate].
  intros H; inversion H. apply TokenType_eqb_eq in E. eauto.
Qed.

Lemma consume_some ty error toks c tk :
  nth_error toks c = Some tk -> token_type tk = ty ->
  consume ty error (mk toks c) = Ok tt (mk toks (S c)).
Proof.
  intros Hn Ht. unfold consume, bind.
  rewrite (getCurrValue_some (mk toks c) tk Hn).
  cbv beta iota. rewrite Ht, TokenType_eqb_refl. reflexivity.
Qed.

Lemma consume_until_comma_inv exception p u p' :
  consume_until_comma exception p = Ok u p' ->
  exists tk, nth_error (tokens p) (current p) = Some tk
             /\ ((token_type tk = COMMA /\ p' = incr_current p)
                 \/ (token_type tk <> COMMA /\ token_type tk = exception
                     /\ p' = p)).
Proof.
  unfold consume_until_comma, getCurrValue, bind, token_at. mred.
  destruct (nth_error (tokens p) (current p)) as [tk|] eqn:Hn; mred;
    [|discriminate].
  destruct (TokenType_eqb (token_type tk) COMMA) eqn:E; mred.
  - intros H; inversion H. apply TokenType_eqb_eq in E. eauto.
  - rewrite Hn. mred.
    destruct (TokenType_eqb (token_type tk) exception) eqn:E'; cbn [negb]; mred;
      [|discriminate].
    intros H; inversion H. apply TokenType_eqb_eq in E'.
    exists tk. split; auto. right. repeat split; auto.
    intros Hc. rewrite Hc in E. discriminate.
Qed.

Lemma consume_until_comma_comma exception toks c tk :
  nth_error toks c = Some tk -> token_type tk = COMMA ->
  consume_until_comma exception (mk toks c) = Ok tt (mk toks (S c)).
Proof.
  intros Hn Ht. unfold consume_until_comma, bind.
  rewrite (getCurrValue_some (mk toks c) tk Hn). cbv beta iota.
  rewrite Ht. reflexivity.
Qed.

Lemma consume_until_comma_close exception toks c tk :
  nth_error toks c = Some tk -> token_type tk <> COMMA ->
  token_type tk = exception ->
  consume_until_comma exception (mk toks c) = Ok tt (mk toks c).
Proof.
  intros Hn Hc Ht. unfold consume_until_comma, bind.
  rewrite (getCurrValue_some (mk toks c) tk Hn). cbv beta iota.
  destruct (TokenType_eqb (token_type tk) COMMA) eqn:E.
  - apply TokenType_eqb_eq in E. contradiction.
  - rewrite (getCurrValue_some (mk toks c) tk Hn). cbv beta iota.
    rewrite Ht, TokenType_eqb_refl. reflexivity.
Qed.

Lemma advanceCurrent_mk toks c tk :
  nth_error toks c = Some tk ->
  advanceCurrent (mk toks c) = Ok tk (mk toks (S c)).
Proof. intros H. apply (advanceCurrent_some (mk toks c) tk H). Qed.

Lemma bind_Ok_inv {St A B} (c : M St A) (k : A -> M St B) s b s'' :
  bind c k s = Ok b s'' -> exists a s', c s = Ok a s' /\ k a s' = Ok b s''.
Proof.
  unfold bind. destruct (c s) as [a s'| | |]; try discriminate. eauto.
Qed.

Lemma bind_Ok {St A B} (c : M St A) (k : A -> M St B) s a s' :
  c s = Ok a s' -> bind c k s = k a s'.
Proof. unfold bind. intros ->. reflexivity. Qed.

Lemma parser_local toks :
  forall fuel,
    (forall token c, local (parse_from_token fuel token) toks c)
    /\ (forall c, local (parse_object fuel) toks c)
    /\ (forall key obj c, local (parse_object_loop fuel key obj) toks c)
    /\ (forall c, local (parse_array fuel) toks c)
    /\ (forall token arr c, local (parse_array_loop fuel token arr) toks c).
Proof.
  induction fuel as [|fuel (IHv & IHo & IHol & IHa & IHal)].
  { repeat split; intros; discriminate. }
  split; [|split; [|split; [|split]]].
  - (* parse_from_token *)
    intros token c r p'. cbn [parse_from_token].
    destruct (token_type token) eqn:Et; try discriminate.
    + unfold bind. destruct (value token); mred; try discriminate.
      intros H; inversion H; subst. pstate. repeat split; auto.
    + destruct (holds_int (value token)); unfold bind;
        destruct (value token); mred; try discriminate;
        intros H; inversion H; subst; pstate; repeat split; auto.
    + unfold bind. destruct (value token); mred; try discriminate.
      intros H; inversion H; subst. pstate. repeat split; auto.
    + mred. intros H; inversion H; subst. pstate. repeat split; auto.
    + intros H. apply bind_Ok_inv in H. destruct H as (o & p1 & H1 & H2).
      rewrite ret_eq in H2. inversion H2; subst.
      destruct (IHo c _ _ H1) as (Ht & Hc & Hb & Hl). repeat split; auto.
      intros toks' Ha. rewrite (bind_Ok _ _ _ _ _ (Hl toks' Ha)). reflexivity.
    + intros H. apply bind_Ok_inv in H. destruct H as (o & p1 & H1 & H2).
      rewrite ret_eq in H2. inversion H2; subst.
      destruct (IHa c _ _ H1) as (Ht & Hc & Hb & Hl). repeat split; auto.
      intros toks' Ha. rewrite (bind_Ok _ _ _ _ _ (Hl toks' Ha)). reflexivity.
  - (* parse_object *)
    intros c r p'. cbn [parse_object]. intros H.
    apply bind_Ok_inv in H. destruct H as (tk & p1 & H1 & H2).
    apply advanceCurrent_inv in H1. destruct H1 as [Hn ->]. pstate.
    assert (Hlt : c < List.length toks) by (apply nth_error_Some; congruence).
    destruct (IHol _ _ _ _ _ H2) as (Ht & Hc & Hb & Hl).
    repeat split; auto; try lia.
    intros toks' Ha.
    rewrite (bind_Ok _ _ _ tk (mk toks' (S c))).
    2:{ apply advanceCurrent_mk. rewrite Ha by lia. exact Hn. }
    apply Hl, Ha.
  - (* parse_object_loop *)
    intros key obj c r p'. cbn [parse_object_loop].
    destruct (TokenType_eqb (token_type key) RIGHT_CURLY); cbn [negb].
    2:{
      destruct (TokenType_eqb (token_type key) EOF_TOKEN); [discriminate|].
      destruct (TokenType_eqb (token_type key) STRING); cbn [negb];
        [|discriminate].
      intros H.
      apply bind_Ok_inv in H. destruct H as (u & p1 & H1 & H).
      apply consume_inv in H1. destruct H1 as (ct & Hn1 & Hct & ->).
      pstate.
      assert (Hlt1 : c < List.length toks) by (apply nth_error_Some; congruence).
      apply bind_Ok_inv in H. destruct H as (vt & p2 & H2 & H).
      apply advanceCurrent_inv in H2. destruct H2 as [Hn2 ->]. pstate.
      assert (Hlt2 : S c < List.length toks) by (apply nth_error_Some; congruence).
      apply bind_Ok_inv in H. destruct H as (v & p3 & H3 & H).
      destruct (IHv _ _ _ _ H3) as (Ht3 & Hc3 & Hb3 & Hl3).
      destruct p3 as [toks3 c3]. pstate. subst toks3.
      apply bind_Ok_inv in H. destruct H as (k & p4 & H4 & H).
      assert (p4 = mk toks c3) as ->.
      { destruct (get_string (value key)); inversion H4; auto. }
      apply bind_Ok_inv in H. destruct H as (u' & p5 & H5 & H).
      apply consume_until_comma_inv in H5. destruct H5 as (st & Hn5 & Hst).
      apply bind_Ok_inv in H. destruct H as (kt & p6 & H6 & H).
      apply advanceCurrent_inv in H6. destruct H6 as [Hn6 ->].
      assert (exists c5, p5 = mk toks c5 /\ c3 <= c5) as (c5 & -> & Hc5).
      { destruct Hst as [[_ ->]|(_ & _ & ->)]; pstate; eexists; split; eauto. }
      pstate.
      assert (Hlt6 : c5 < List.length toks) by (apply nth_error_Some; congruence).
      destruct (IHol _ _ _ _ _ H) as (Ht & Hc & Hb & Hl).
      repeat split; auto; try lia.
      intros toks' Ha.
      rewrite (bind_Ok _ _ _ tt (mk toks' (S c))).
      2:{ apply (consume_some _ _ _ _ ct); auto.
          rewrite Ha by lia. exact Hn1. }
      rewrite (bind_Ok _ _ _ vt (mk toks' (S (S c)))).
      2:{ apply advanceCurrent_mk. rewrite Ha by lia. exact Hn2. }
      rewrite (bind_Ok _ _ _ v (mk toks' c3)).
      2:{ apply Hl3. eapply agree_le; eauto. lia. }
      rewrite (bind_Ok _ _ _ k (mk toks' c3)).
      2:{ destruct (get_string (value key)); inversion H4; auto. }
      rewrite (bind_Ok _ _ _ tt (mk toks' c5)).
      2:{ pstate. destruct Hst as [[Hst E]|(Hst1 & Hst2 & E)];
            inversion E; subst.
          - apply (consume_until_comma_comma _ _ _ st); auto.
            rewrite Ha by lia. exact Hn5.
          - apply (consume_until_comma_close _ _ _ st); auto.
            rewrite Ha by lia. exact Hn5. }
      rewrite (bind_Ok _ _ _ kt (mk toks' (S c5))).
      2:{ apply advanceCurrent_mk. rewrite Ha by lia. exact Hn6. }
      apply Hl, Ha.
    }
    mred. intros H; inversion H; subst. pstate. repeat split; auto.
  - (* parse_array *)
    intros c r p'. cbn [parse_array]. intros H.
    apply bind_Ok_inv in H. destruct H as (tk & p1 & H1 & H2).
    apply advanceCurrent_inv in H1. destruct H1 as [Hn ->]. pstate.
    assert (Hlt : c < List.length toks) by (apply nth_error_Some; congruence).
    destruct (IHal _ _ _ _ _ H2) as (Ht & Hc & Hb & Hl).
    repeat split; auto; try lia.
    intros toks' Ha.
    rewrite (bind_Ok _ _ _ tk (mk toks' (S c))).
    2:{ apply advanceCurrent_mk. rewrite Ha by lia. exact Hn. }
    apply Hl, Ha.
  - (* parse_array_loop *)
    intros token arr c r p'. cbn [parse_array_loop].
    destruct (TokenType_eqb (token_type token) RIGHT_SQUARE); cbn [negb].
    2:{
      destruct (TokenType_eqb (token_type token) EOF_TOKEN); [discriminate|].
      intros H.
      apply bind_Ok_inv in H. destruct H as (v & p3 & H3 & H).
      destruct (IHv _ _ _ _ H3) as (Ht3 & Hc3 & Hb3 & Hl3).
      destruct p3 as [toks3 c3]. pstate. subst toks3.
      apply bind_Ok_inv in H. destruct H as (u' & p5 & H5 & H).
      apply consume_until_comma_inv in H5. destruct H5 as (st & Hn5 & Hst).
      apply bind_Ok_inv in H. destruct H as (kt & p6 & H6 & H).
      apply advanceCurrent_inv in H6. destruct H6 as [Hn6 ->].
      assert (exists c5, p5 = mk toks c5 /\ c3 <= c5) as (c5 & -> & Hc5).
      { destruct Hst as [[_ ->]|(_ & _ & ->)]; pstate; eexists; split; eauto. }
      pstate.
      assert (Hlt6 : c5 < List.length toks) by (apply nth_error_Some; congruence).
      destruct (IHal _ _ _ _ _ H) as (Ht & Hc & Hb & Hl).
      repeat split; auto; try lia.
      intros toks' Ha.
      rewrite (bind_Ok _ _ _ v (mk toks' c3)).
      2:{ apply Hl3. eapply agree_le; eauto. lia. }
      rewrite (bind_Ok _ _ _ tt (mk toks' c5)).
      2:{ pstate. destruct Hst as [[Hst E]|(Hst1 & Hst2 & E)];
            inversion E; subst.
          - apply (consume_until_comma_comma _ _ _ st); auto.
            rewrite Ha by lia. exact Hn5.
          - apply (consume_until_comma_close _ _ _ st); auto.
            rewrite Ha by lia. exact Hn5. }
      rewrite (bind_Ok _ _ _ kt (mk toks' (S c5))).
      2:{ apply advanceCurrent_mk. rewrite Ha by lia. exact Hn6. }
      apply Hl, Ha.
    }
    mred. intros H; inversion H; subst. pstate. repeat split; auto.
Qed.

(** ** The parser: what follows an element *)

(** The end of a loop iteration: [consume_until_comma], then the read of
    the next token, then the continuation [k]. *)
Lemma tail_comma {A} exception (k : Token -> M t A) toks c nxt :
  token_is toks c COMMA -> nth_error toks (S c) = Some nxt ->
  (consume_until_comma exception ;; tk <- advanceCurrent ;; k tk) (mk toks c)
  = k nxt (mk toks (S (S c))).
Proof.
  intros (comma & Hn & Ht) Hn'.
  rewrite (bind_Ok _ _ _ tt (mk toks (S c))).
  2:{ apply (consume_until_comma_comma _ _ _ comma); auto. }
  rewrite (bind_Ok _ _ _ nxt (mk toks (S (S c)))); auto.
  apply advanceCurrent_mk; auto.
Qed.

Lemma tail_close {A} exception (k : Token -> M t A) toks c close :
  nth_error toks c = Some close -> token_type close = exception ->
  exception <> COMMA ->
  (consume_until_comma exception ;; tk <- advanceCurrent ;; k tk) (mk toks c)
  = k close (mk toks (S c)).
Proof.
  intros Hn Ht Hne.
  rewrite (bind_Ok _ _ _ tt (mk toks c)).
  2:{ apply (consume_until_comma_close _ _ _ close); auto. congruence. }
  rewrite (bind_Ok _ _ _ close (mk toks (S c))); auto.
  apply advanceCurrent_mk; auto.
Qed.

Lemma consume_until_comma_other exception toks c tk :
  nth_error toks c = Some tk ->
  token_type tk <> COMMA -> token_type tk <> exception ->
  consume_until_comma exception (mk toks c) = Throw missing_comma (mk toks c).
Proof.
  intros Hn Hc Ht. unfold consume_until_comma, bind.
  rewrite (getCurrValue_some (mk toks c) tk Hn). cbv beta iota.
  destruct (TokenType_eqb (token_type tk) COMMA) eqn:E.
  { apply TokenType_eqb_eq in E. contradiction. }
  rewrite (getCurrValue_some (mk toks c) tk Hn). cbv beta iota.
  destruct (TokenType_eqb (token_type tk) exception) eqn:E'.
  { apply TokenType_eqb_eq in E'. contradiction. }
  reflexivity.
Qed.

Lemma tail_other {A} exception (k : Token -> M t A) toks c tk :
  nth_error toks c = Some tk ->
  token_type tk <> COMMA -> token_type tk <> exception ->
  (consume_until_comma exception ;; tk <- advanceCurrent ;; k tk) (mk toks c)
  = Throw missing_comma (mk toks c).
Proof.
  intros Hn Hc Ht. unfold bind at 1.
  rewrite (consume_until_comma_other _ _ _ _ Hn Hc Ht). reflexivity.
Qed.

Lemma TokenType_eqb_neq a b : a <> b -> TokenType_eqb a b = false.
Proof.
  intros H. destruct (TokenType_eqb a b) eqn:E; auto.
  apply TokenType_eqb_eq in E. contradiction.
Qed.

Lemma array_loop_element fuel token arr toks c v c1 :
  token_type token <> RIGHT_SQUARE -> token_type token <> EOF_TOKEN ->
  parse_from_token fuel token (mk toks c) = Ok v (mk toks c1) ->
  parse_array_loop (S fuel) token arr (mk toks c)
  = (consume_until_comma RIGHT_SQUARE ;;
     token' <- advanceCurrent ;;
     parse_array_loop fuel token' (arr ++ [v])) (mk toks c1).
Proof.
  intros H1 H2 Hv. cbn [parse_array_loop].
  rewrite (TokenType_eqb_neq _ _ H1), (TokenType_eqb_neq _ _ H2). cbn [negb].
  rewrite (bind_Ok _ _ _ _ _ Hv). reflexivity.
Qed.

Lemma array_loop_close fuel token arr p :
  token_type token = RIGHT_SQUARE ->
  parse_array_loop (S fuel) token arr p = Ok arr p.
Proof. intros H. cbn [parse_array_loop]. rewrite H. reflexivity. Qed.

Lemma array_loop_eof fuel token arr p :
  token_type token = EOF_TOKEN ->
  parse_array_loop (S fuel) token arr p = Throw unterminated_array p.
Proof. intros H. cbn [parse_array_loop]. rewrite H. reflexivity. Qed.

Lemma object_loop_pair fuel key obj toks c vt v c1 k :
  token_type key = STRING -> get_string (value key) = inr k ->
  token_is toks c COLON -> nth_error toks (S c) = Some vt ->
  parse_from_token fuel vt (mk toks (S (S c))) = Ok v (mk toks c1) ->
  parse_object_loop (S fuel) key obj (mk toks c)
  = (consume_until_comma RIGHT_CURLY ;;
     key_token' <- advanceCurrent ;;
     parse_object_loop fuel key_token' (map_assign k v obj)) (mk toks c1).
Proof.
  intros Hk Hg (colon & Hn & Ht) Hn' Hv. cbn [parse_object_loop].
  rewrite Hk. cbn [TokenType_eqb negb].
  rewrite (bind_Ok _ _ _ tt (mk toks (S c))).
  2:{ apply (consume_some _ _ _ _ colon); auto. }
  rewrite (bind_Ok _ _ _ vt (mk toks (S (S c)))).
  2:{ apply advanceCurrent_mk; auto. }
  rewrite (bind_Ok _ _ _ _ _ Hv).
  rewrite (bind_Ok _ _ _ k (mk toks c1)).
  2:{ rewrite Hg. reflexivity. }
  reflexivity.
Qed.

Lemma object_loop_close fuel key obj p :
  token_type key = RIGHT_CURLY ->
  parse_object_loop (S fuel) key obj p = Ok obj p.
Proof. intros H. cbn [parse_object_loop]. rewrite H. reflexivity. Qed.

Lemma object_loop_eof fuel key obj p :
  token_type key = EOF_TOKEN ->
  parse_object_loop (S fuel) key obj p = Throw unterminated_object p.
Proof. intros H. cbn [parse_object_loop]. rewrite H. reflexivity. Qed.

Lemma parse_from_token_fuel fuel token p v p' :
  parse_from_token fuel token p = Ok v p' -> exists fuel', fuel = S fuel'.
Proof. destruct fuel; [discriminate|eauto]. Qed.

(** ** The parser: the values it builds *)

Lemma wf_string_token tk k :
  wf_or_eof tk -> token_type tk = STRING -> get_string (value tk) = inr k ->
  absent dquote k.
Proof.
  intros [H|H] Ht Hg; [|congruence].
  unfold wf_token in H. rewrite Ht in H.
  destruct (value tk); try contradiction. inversion Hg; subst. exact H.
Qed.

Lemma lift_Ok_inv {St A} (r : Error + A) (s : St) a s' :
  lift r s = Ok a s' -> r = inr a /\ s' = s.
Proof. destruct r; simpl; intros H; inversion H; auto. Qed.

Lemma wf_or_eof_nth toks c tk :
  Forall wf_or_eof toks -> nth_error toks c = Some tk -> wf_or_eof tk.
Proof.
  intros H Hn. rewrite Forall_forall in H. apply H.
  eapply nth_error_In; eauto.
Qed.

Lemma parser_canonical toks :
  Forall wf_or_eof toks ->
  forall fuel,
    (forall token c v p',
        wf_or_eof token ->
        parse_from_token fuel token (mk toks c) = Ok v p' -> canonical v)
    /\ (forall c o p',
           parse_object fuel (mk toks c) = Ok o p' -> canonical (JObject o))
    /\ (forall key obj c o p',
           wf_or_eof key -> canonical (JObject obj) ->
           parse_object_loop fuel key obj (mk toks c) = Ok o p' ->
           canonical (JObject o))
    /\ (forall c a p',
           parse_array fuel (mk toks c) = Ok a p' -> canonical (JArray a))
    /\ (forall token arr c a p',
           wf_or_eof token -> canonical (JArray arr) ->
           parse_array_loop fuel token arr (mk toks c) = Ok a p' ->
           canonical (JArray a)).
Proof.
  intros Hwf. induction fuel as [|fuel (IHv & IHo & IHol & IHa & IHal)].
  { repeat split; intros; discriminate. }
  split; [|split; [|split; [|split]]].
  - (* parse_from_token *)
    intros token c v p' Hw. cbn [parse_from_token].
    destruct (token_type token) eqn:Et; try discriminate.
    + intros H. apply bind_Ok_inv in H. destruct H as (k & p1 & H1 & H2).
      apply lift_Ok_inv in H1. destruct H1 as [Hg _].
      rewrite ret_eq in H2. inversion H2; subst.
      exact (wf_string_token _ _ Hw Et Hg).
    + destruct Hw as [Hw|Hw]; [|congruence].
      unfold wf_token in Hw. rewrite Et in Hw.
      destruct (value token); try contradiction; cbn [holds_int];
        intros H; inversion H; subst; simpl; auto.
    + destruct (value token); intros H; inversion H; subst; exact I.
    + intros H; inversion H; subst; exact I.
    + intros H. apply bind_Ok_inv in H. destruct H as (o & p1 & H1 & H2).
      rewrite ret_eq in H2. inversion H2; subst. eapply IHo; eauto.
    + intros H. apply bind_Ok_inv in H. destruct H as (o & p1 & H1 & H2).
      rewrite ret_eq in H2. inversion H2; subst. eapply IHa; eauto.
  - (* parse_object *)
    intros c o p'. cbn [parse_object]. intros H.
    apply bind_Ok_inv in H. destruct H as (tk & p1 & H1 & H2).
    apply advanceCurrent_inv in H1. destruct H1 as [Hn ->]. pstate.
    eapply IHol; eauto.
    + eapply wf_or_eof_nth; eauto.
    + apply ValueFacts.canonical_object. split; constructor.
  - (* parse_object_loop *)
    intros key obj c o p' Hw Hobj. cbn [parse_object_loop].
    destruct (TokenType_eqb (token_type key) RIGHT_CURLY); cbn [negb].
    2:{
      destruct (TokenType_eqb (token_type key) EOF_TOKEN); [discriminate|].
      destruct (TokenType_eqb (token_type key) STRING) eqn:Es; cbn [negb];
        [|discriminate].
      apply TokenType_eqb_eq in Es.
      intros H.
      apply bind_Ok_inv in H. destruct H as (u & p1 & H1 & H).
      apply consume_inv in H1. destruct H1 as (ct & Hn1 & Hct & ->).
      apply bind_Ok_inv in H. destruct H as (vt & p2 & H2 & H).
      apply advanceCurrent_inv in H2. destruct H2 as [Hn2 ->]. pstate.
      apply bind_Ok_inv in H. destruct H as (v & p3 & H3 & H).
      destruct (parser_local toks fuel) as (Hloc & _).
      destruct (Hloc _ _ _ _ H3) as (Ht3 & _).
      destruct p3 as [toks3 c3]. pstate. subst toks3.
      apply bind_Ok_inv in H. destruct H as (k & p4 & H4 & H).
      apply lift_Ok_inv in H4. destruct H4 as [Hg ->].
      apply bind_Ok_inv in H. destruct H as (u' & p5 & H5 & H).
      apply consume_until_comma_inv in H5. destruct H5 as (st & Hn5 & Hst).
      apply bind_Ok_inv in H. destruct H as (kt & p6 & H6 & H).
      apply advanceCurrent_inv in H6. destruct H6 as [Hn6 ->].
      assert (exists c5, p5 = mk toks c5) as (c5 & ->).
      { destruct Hst as [[_ ->]|(_ & _ & ->)]; pstate; eauto. }
      pstate.
      eapply IHol; [| |exact H].
      - eapply wf_or_eof_nth; eauto.
      - apply ValueFacts.canonical_object in Hobj. destruct Hobj as [Hs Hf].
        apply ValueFacts.canonical_object. split.
        + apply ValueFacts.map_assign_sorted, Hs.
        + apply ValueFacts.map_assign_Forall; auto. simpl. split.
          * exact (wf_string_token _ _ Hw Es Hg).
          * eapply IHv; [|exact H3]. eapply wf_or_eof_nth; eauto.
    }
    mred. intros H; inversion H; subst. exact Hobj.
  - (* parse_array *)
    intros c a p'. cbn [parse_array]. intros H.
    apply bind_Ok_inv in H. destruct H as (tk & p1 & H1 & H2).
    apply advanceCurrent_inv in H1. destruct H1 as [Hn ->]. pstate.
    eapply IHal; eauto.
    + eapply wf_or_eof_nth; eauto.
    + apply ValueFacts.canonical_array. constructor.
  - (* parse_array_loop *)
    intros token arr c a p' Hw Harr. cbn [parse_array_loop].
    destruct (TokenType_eqb (token_type token) RIGHT_SQUARE); cbn [negb].
    2:{
      destruct (TokenType_eqb (token_type token) EOF_TOKEN); [discriminate|].
      intros H.
      apply bind_Ok_inv in H. destruct H as (v & p3 & H3 & H).
      destruct (parser_local toks fuel) as (Hloc & _).
      destruct (Hloc _ _ _ _ H3) as (Ht3 & _).
      destruct p3 as [toks3 c3]. pstate. subst toks3.
      apply bind_Ok_inv in H. destruct H as (u' & p5 & H5 & H).
      apply consume_until_comma_inv in H5. destruct H5 as (st & Hn5 & Hst).
      apply bind_Ok_inv in H. destruct H as (kt & p6 & H6 & H).
      apply advanceCurrent_inv in H6. destruct H6 as [Hn6 ->].
      assert (exists c5, p5 = mk toks c5) as (c5 & ->).
      { destruct Hst as [[_ ->]|(_ & _ & ->)]; pstate; eauto. }
      pstate.
      eapply IHal; [| |exact H].
      - eapply wf_or_eof_nth; eauto.
      - apply ValueFacts.canonical_array in Harr.
        apply ValueFacts.canonical_array. apply Forall_app. split; auto.
        constructor; auto. eapply IHv; [|exact H3]. exact Hw.
    }
    mred. intros H; inversion H; subst. exact Harr.
Qed.

End ParserFacts.

(** ** The parser: where a throw leaves the cursor *)

Module ParserThrowSite.
Import Parser ParseState ParserFacts.

(** A throw with the cursor on a token, and not one of the two
    "Unterminated" errors. *)
Lemma site_inside {A} toks e c :
  0 < c -> c < List.length toks ->
  e <> unterminated_object -> e <> unterminated_array ->
  throw_site (A := A) toks (Throw e (mk toks c)).
Proof.
  intros H0 Hc H1 H2. simpl. split; [exact H0|]. split.
  - intros E. lia.
  - intros [E|E]; contradiction.
Qed.

Lemma site_bind {A B} toks (x : M t A) (f : A -> M t B) p :
  throw_site toks (x p) ->
  (forall a p', x p = Ok a p' -> throw_site toks (f a p')) ->
  throw_site toks (bind x f p).
Proof.
  unfold bind. intros Hx Hf. destruct (x p) as [a p'|e p'| |]; auto.
Qed.

Lemma consume_throws tt error p e p' :
  consume tt error p = Throw e p' -> e = invalid_argument error.
Proof.
  unfold consume, getCurrValue, token_at, bind. mred.
  destruct (nth_error (tokens p) (current p)); mred; [|discriminate].
  destruct (TokenType_eqb _ tt); cbn [negb]; mred;
    intros H; inversion H; reflexivity.
Qed.

Lemma consume_until_comma_throws exception p e p' :
  consume_until_comma exception p = Throw e p' -> e = missing_comma.
Proof.
  unfold consume_until_comma, getCurrValue, token_at, bind. mred.
  destruct (nth_error (tokens p) (current p)); mred; [|discriminate].
  destruct (TokenType_eqb (token_type t0) COMMA); mred; [discriminate|].
  destruct (nth_error (tokens p) (current p)); mred; [|discriminate].
  destruct (TokenType_eqb _ exception); cbn [negb]; mred;
    intros H; inversion H; reflexivity.
Qed.

Lemma parser_throw_site toks :
  ends_with_eof toks ->
  forall fuel,
    (forall token c0, nth_error toks c0 = Some token ->
       throw_site toks (parse_from_token fuel token (mk toks (S c0))))
    /\ (forall c, c < List.length toks ->
         throw_site toks (parse_object fuel (mk toks c)))
    /\ (forall key obj c0, nth_error toks c0 = Some key ->
         throw_site toks (parse_object_loop fuel key obj (mk toks (S c0))))
    /\ (forall c, c < List.length toks ->
         throw_site toks (parse_array fuel (mk toks c)))
    /\ (forall token arr c0, nth_error toks c0 = Some token ->
         throw_site toks (parse_array_loop fuel token arr (mk toks (S c0)))).
Proof.
  intros He. induction fuel as [|fuel (IHv & IHo & IHol & IHa & IHal)].
  { repeat split; intros; exact I. }
  destruct (parser_good toks He fuel) as (Gv & _ & _ & _ & _).
  assert (Hin : forall tk c0, nth_error toks c0 = Some tk ->
                  is_eof tk = false -> S c0 < List.length toks).
  { intros tk c0 Hn Hne. eapply ends_with_eof_last; eauto. }
  split; [|split; [|split; [|split]]].
  - (* parse_from_token *)
    intros token c0 Hn. cbn [parse_from_token].
    pose proof (Hin token c0 Hn) as Hc. unfold is_eof in Hc.
    destruct (token_type token) eqn:Et; cbn [TokenType_eqb] in Hc.
    all: try (unfold bind; destruct (value token); mred;
              first [exact I
                    | apply site_inside;
                      [lia|solve [auto]|discriminate|discriminate]]).
    all: try (mred; simpl; split; [lia|]; split;
              [intros _; left; reflexivity|intros [E|E]; discriminate E]).
    + apply site_bind; [apply IHo; auto|]. intros; mred; exact I.
    + apply site_bind; [apply IHa; auto|]. intros; mred; exact I.
  - (* parse_object *)
    intros c Hc. cbn [parse_object]. unfold bind.
    destruct (token_at_some (mk toks c) Hc) as [tk Hn].
    rewrite (advanceCurrent_some _ _ Hn). cbv beta iota. pstate.
    apply IHol. exact Hn.
  - (* parse_object_loop *)
    intros key obj c0 Hn. cbn [parse_object_loop].
    destruct (TokenType_eqb (token_type key) RIGHT_CURLY) eqn:Erc; cbn [negb];
      [mred; exact I|].
    destruct (TokenType_eqb (token_type key) EOF_TOKEN) eqn:Eeof.
    { mred. simpl. split; [lia|]. split; [auto|]. intros _.
      rewrite Nat.sub_0_r. exists key. split; auto.
      apply TokenType_eqb_eq. exact Eeof. }
    pose proof (Hin key c0 Hn Eeof) as Hc.
    destruct (TokenType_eqb (token_type key) STRING) eqn:Estr; cbn [negb].
    2:{ mred. apply site_inside; [lia|auto|discriminate|discriminate]. }
    unfold bind at 1.
    pose proof (consume_good toks COLON
                  "Key: values must be colon separated" (S c0) He Hc
                  ltac:(simpl; auto) ltac:(discriminate)) as HC.
    destruct (consume COLON _ (mk toks (S c0))) as [u p1|e p1| |] eqn:EC;
      try contradiction.
    2:{ destruct HC as [-> HC]. apply consume_throws in EC. subst e.
        apply site_inside; [lia|auto|discriminate|discriminate]. }
    destruct HC as [-> Hc1]. unfold bind at 1.
    destruct (token_at_some (mk toks (S (S c0))) Hc1) as [vt Hn1].
    rewrite (advanceCurrent_some _ _ Hn1). cbv beta iota. pstate.
    unfold bind at 1.
    specialize (IHv vt (S (S c0)) Hn1).
    specialize (Gv vt (S (S (S c0))) (ready_next _ _ _ He Hn1)).
    destruct (parse_from_token fuel vt (mk toks (S (S (S c0)))))
      as [v p2|e p2| |]; simpl in Gv; try contradiction; try exact I.
    2:{ exact IHv. }
    destruct p2 as [toks2 c2]. pstate. destruct Gv as (-> & Hc2 & Hc2').
    unfold bind at 1.
    destruct (get_string (value key)) as [e|k] eqn:Eg; mred.
    { assert (e = bad_variant_access)
        by (destruct (value key); inversion Eg; auto).
      subst e. apply site_inside; [lia|auto|discriminate|discriminate]. }
    unfold bind at 1.
    pose proof (consume_until_comma_good toks RIGHT_CURLY c2 He Hc2') as HU.
    destruct (consume_until_comma RIGHT_CURLY (mk toks c2))
      as [u' p3|e p3| |] eqn:EU; try contradiction.
    2:{ destruct HU as [-> HU]. apply consume_until_comma_throws in EU.
        subst e. apply site_inside; [lia|auto|discriminate|discriminate]. }
    assert (exists c3, p3 = mk toks c3 /\ c2 <= c3 /\ c3 < List.length toks)
      as (c3 & -> & Hc3 & Hc3').
    { destruct HU as [[-> HU]| ->]; eexists; split; eauto; lia. }
    unfold bind at 1.
    destruct (token_at_some (mk toks c3) Hc3') as [kt Hn'].
    rewrite (advanceCurrent_some _ _ Hn'). cbv beta iota. pstate.
    apply IHol. exact Hn'.
  - (* parse_array *)
    intros c Hc. cbn [parse_array]. unfold bind.
    destruct (token_at_some (mk toks c) Hc) as [tk Hn].
    rewrite (advanceCurrent_some _ _ Hn). cbv beta iota. pstate.
    apply IHal. exact Hn.
  - (* parse_array_loop *)
    intros token arr c0 Hn. cbn [parse_array_loop].
    destruct (TokenType_eqb (token_type token) RIGHT_SQUARE) eqn:Erc;
      cbn [negb]; [mred; exact I|].
    destruct (TokenType_eqb (token_type token) EOF_TOKEN) eqn:Eeof.
    { mred. simpl. split; [lia|]. split; [auto|]. intros _.
      rewrite Nat.sub_0_r. exists token. split; auto.
      apply TokenType_eqb_eq. exact Eeof. }
    unfold bind at 1.
    specialize (IHv token c0 Hn).
    specialize (Gv token (S c0) (ready_next _ _ _ He Hn)).
    destruct (parse_from_token fuel token (mk toks (S c0)))
      as [v p2|e p2| |]; simpl in Gv; try contradiction; try exact I.
    2:{ exact IHv. }
    destruct p2 as [toks2 c2]. pstate. destruct Gv as (-> & Hc2 & Hc2').
    unfold bind at 1.
    pose proof (consume_until_comma_good toks RIGHT_SQUARE c2 He Hc2') as HU.
    destruct (consume_until_comma RIGHT_SQUARE (mk toks c2))
      as [u' p3|e p3| |] eqn:EU; try contradiction.
    2:{ destruct HU as [-> HU]. apply consume_until_comma_throws in EU.
        subst e. apply site_inside; [lia|auto|discriminate|discriminate]. }
    assert (exists c3, p3 = mk toks c3 /\ c2 <= c3 /\ c3 < List.length toks)
      as (c3 & -> & Hc3 & Hc3').
    { destruct HU as [[-> HU]| ->]; eexists; split; eauto; lia. }
    unfold bind at 1.
    destruct (token_at_some (mk toks c3) Hc3') as [kt Hn'].
    rewrite (advanceCurrent_some _ _ Hn'). cbv beta iota. pstate.
    apply IHal. exact Hn'.
Qed.

(** In a sequence whose only end marker is its last token, the cursor is
    at the length as soon as the token before it is an end marker. *)
Lemma eof_only_last_index toks c :
  eof_only_last toks -> token_is toks c EOF_TOKEN -> S c = List.length toks.
Proof.
  intros (body & e & -> & He & Hb) (tk & Hn & Ht).
  rewrite length_app. simpl.
  assert (c < List.length body \/ List.length body <= c) as [H|H] by lia.
  - rewrite nth_error_app1 in Hn by lia.
    rewrite Forall_forall in Hb. apply nth_error_In in Hn.
    apply Hb in Hn. unfold is_eof in Hn. rewrite Ht in Hn. discriminate.
  - assert (c < List.length (body ++ [e])).
    { apply nth_error_Some. congruence. }
    rewrite length_app in H0. simpl in H0. lia.
Qed.

End ParserThrowSite.

(** ** The parser reads the tokens of a value back *)

Module ParseTokens.
Import Parser ParseState ParserFacts.

Ltac len :=
  repeat (progress cbn [List.length] in * || rewrite length_app in * );
  lia.

Lemma tokens_of_cons v : exists tk tl, tokens_of v = tk :: tl.
Proof. destruct v; cbn [tokens_of]; eauto. Qed.

Lemma nth_error_at {A} (pre : list A) x suf :
  nth_error (pre ++ x :: suf) (List.length pre) = Some x.
Proof. rewrite nth_error_app2, Nat.sub_diag by lia. reflexivity. Qed.

Lemma nth_error_at1 {A} (pre : list A) a x suf :
  nth_error (pre ++ a :: x :: suf) (S (List.length pre)) = Some x.
Proof.
  rewrite nth_error_app2 by lia.
  replace (S (List.length pre) - List.length pre) with 1 by lia. reflexivity.
Qed.

Lemma nth_error_at2 {A} (pre : list A) a b x suf :
  nth_error (pre ++ a :: b :: x :: suf) (S (S (List.length pre))) = Some x.
Proof.
  rewrite nth_error_app2 by lia.
  replace (S (S (List.length pre)) - List.length pre) with 2 by lia.
  reflexivity.
Qed.

Lemma reads_back_scalar v tk :
  tokens_of v = [tk] ->
  (forall fuel p, parse_from_token (S fuel) tk p = Ok v p) ->
  reads_back v.
Proof.
  intros Ht Hp fuel toks pre rest tk' tl c c' Htk -> -> -> Hf.
  rewrite Ht in *. inversion Htk; subst.
  destruct fuel as [|fuel]; [simpl in Hf; lia|].
  rewrite Hp. simpl. do 2 f_equal. lia.
Qed.

Lemma array_loop_reads_back (l : list JsonValue) :
  Forall reads_back l ->
  forall fuel toks pre rest arr tk tl c c',
    array_tokens l ++ [punct RIGHT_SQUARE "]"] = tk :: tl ->
    toks = pre ++ (array_tokens l ++ [punct RIGHT_SQUARE "]"]) ++ rest ->
    c = S (List.length pre) ->
    c' = List.length pre + List.length (array_tokens l) + 1 ->
    3 * List.length (array_tokens l) + 1 <= fuel ->
    parse_array_loop fuel tk arr (mk toks c) = Ok (arr ++ l) (mk toks c').
Proof.
  induction l as [|x l IHl]; intros Hall fuel toks pre rest arr tk tl c c'
                                    Htk Htoks Hc Hc' Hf.
  - cbn [array_tokens app] in *. inversion Htk; subst tk tl.
    destruct fuel as [|fuel]; [lia|].
    rewrite array_loop_close by reflexivity.
    rewrite app_nil_r. subst. simpl. do 2 f_equal. lia.
  - inversion Hall as [|? ? Hx Hl]; subst x0 l0.
    rewrite RenderFacts.array_tokens_cons in *.
    destruct (tokens_of_cons x) as (xt & xtl & Hxt).
    assert (tk = xt) as ->.
    { rewrite Hxt in Htk. inversion Htk. reflexivity. }
    destruct fuel as [|fuel]; [lia|].
    rewrite !length_app in Hf, Hc'. cbn [List.length] in Hf, Hc'.
    assert (Hxlen : 1 <= List.length (tokens_of x)).
    { rewrite Hxt. simpl. lia. }
    set (c1 := List.length pre + List.length (tokens_of x)).
    assert (Hv : parse_from_token fuel xt (mk toks c) = Ok x (mk toks c1)).
    { apply (Hx fuel toks pre
               ((match l with [] => [] | _ => [punct COMMA ","] end
                 ++ [] ++ array_tokens l ++ [punct RIGHT_SQUARE "]"]) ++ rest)
               xt xtl); auto; [|lia].
      rewrite Htoks. rewrite <- !app_assoc. reflexivity. }
    rewrite (array_loop_element fuel xt arr toks c x c1); auto.
    2:{ destruct x; cbn [tokens_of] in Hxt; inversion Hxt; discriminate. }
    2:{ destruct x; cbn [tokens_of] in Hxt; inversion Hxt; discriminate. }
    assert (Hsplit : toks = (pre ++ tokens_of x)
                            ++ (match l with [] => [] | _ => [punct COMMA ","] end
                                ++ [] ++ array_tokens l ++ [punct RIGHT_SQUARE "]"])
                            ++ rest).
    { rewrite Htoks. rewrite <- !app_assoc. reflexivity. }
    assert (Hc1 : c1 = List.length (pre ++ tokens_of x)).
    { unfold c1. rewrite length_app. reflexivity. }
    destruct l as [|y l].
    + cbn [array_tokens app] in *.
      rewrite (tail_close RIGHT_SQUARE _ toks c1 (punct RIGHT_SQUARE "]")).
      * destruct fuel as [|fuel]; [lia|].
        rewrite array_loop_close by reflexivity.
        subst c'. do 2 f_equal. unfold c1. cbn [List.length]. lia.
      * rewrite Hsplit, Hc1. apply nth_error_at.
      * reflexivity.
      * discriminate.
    + destruct (tokens_of_cons y) as (yt & ytl & Hyt).
      assert (Hnext : exists ntl,
                 array_tokens (y :: l) ++ [punct RIGHT_SQUARE "]"] = yt :: ntl).
      { rewrite RenderFacts.array_tokens_cons, Hyt. simpl. eauto. }
      destruct Hnext as (ntl & Hnext).
      rewrite (tail_comma RIGHT_SQUARE _ toks c1 yt).
      * replace (arr ++ x :: y :: l) with ((arr ++ [x]) ++ y :: l)
          by (rewrite <- app_assoc; reflexivity).
        apply (IHl Hl fuel toks ((pre ++ tokens_of x) ++ [punct COMMA ","])
                 rest (arr ++ [x]) yt ntl); auto.
        -- rewrite Hsplit. cbn [app]. rewrite <- !app_assoc. reflexivity.
        -- rewrite !length_app. cbn [List.length]. unfold c1. lia.
        -- subst c'. rewrite !length_app. cbn [List.length]. lia.
        -- cbn [List.length] in Hf. lia.
      * exists (punct COMMA ","). split; [|reflexivity].
        rewrite Hsplit, Hc1. cbn [app]. apply nth_error_at.
      * rewrite Hsplit, Hc1. cbn [app]. rewrite Hnext. apply nth_error_at1.
Qed.

Lemma object_loop_reads_back (l : list (string * JsonValue)) :
  Forall (fun kv => reads_back (snd kv)) l ->
  forall fuel toks pre rest obj tk tl c c',
    StronglySorted string_lt (keys l) ->
    Forall (fun kv => Forall (string_lt (fst kv)) (keys l)) obj ->
    object_tokens l ++ [punct RIGHT_CURLY "}"] = tk :: tl ->
    toks = pre ++ (object_tokens l ++ [punct RIGHT_CURLY "}"]) ++ rest ->
    c = S (List.length pre) ->
    c' = List.length pre + List.length (object_tokens l) + 1 ->
    3 * List.length (object_tokens l) + 1 <= fuel ->
    parse_object_loop fuel tk obj (mk toks c) = Ok (obj ++ l) (mk toks c').
Proof.
  induction l as [|[k x] l IHl];
    intros Hall fuel toks pre rest obj tk tl c c' Hs Hobj Htk Htoks Hc Hc' Hf.
  - cbn [object_tokens app] in *. inversion Htk; subst tk tl.
    destruct fuel as [|fuel]; [lia|].
    rewrite object_loop_close by reflexivity.
    rewrite app_nil_r. subst. simpl. do 2 f_equal. lia.
  - inversion Hall as [|? ? Hx Hl]; subst x0 l0. cbn [snd] in Hx.
    cbn [keys map fst] in Hs, Hobj.
    apply StronglySorted_inv in Hs. destruct Hs as [Hs' Hk].
    fold (keys l) in Hs', Hk, Hobj.
    rewrite RenderFacts.object_tokens_cons in *.
    destruct (tokens_of_cons x) as (xt & xtl & Hxt).
    cbn [app] in Htk. inversion Htk; subst tk tl. clear Htk.
    destruct fuel as [|fuel]; [lia|].
    rewrite !length_app in Hf. cbn [List.length] in Hf.
    assert (Hxlen : 1 <= List.length (tokens_of x)).
    { rewrite Hxt. simpl. lia. }
    set (sep := match l with [] => [] | _ => [punct COMMA ","] end) in *.
    set (pre2 := pre ++ [mkToken STRING (VString k); punct COLON ":"]).
    assert (Hpre2 : List.length pre2 = S (S (List.length pre))).
    { unfold pre2. rewrite length_app. simpl. lia. }
    set (c1 := List.length pre2 + List.length (tokens_of x)).
    assert (Htoks2 : toks = pre2 ++ tokens_of x
                            ++ (sep ++ [] ++ object_tokens l
                                    ++ [punct RIGHT_CURLY "}"]) ++ rest).
    { rewrite Htoks. unfold pre2. cbn [app]. rewrite <- !app_assoc.
      reflexivity. }
    assert (Hv : parse_from_token fuel xt (mk toks (S (S c))) = Ok x (mk toks c1)).
    { apply (Hx fuel toks pre2
               ((sep ++ [] ++ object_tokens l ++ [punct RIGHT_CURLY "}"])
                ++ rest) xt xtl); auto; lia. }
    rewrite (object_loop_pair fuel _ obj toks c xt x c1 k); auto.
    2:{ exists (punct COLON ":"). split; [|reflexivity].
        rewrite Htoks, Hc. cbn [app]. apply nth_error_at1. }
    2:{ rewrite Htoks, Hc, Hxt. cbn [app]. apply nth_error_at2. }
    assert (Hassign : map_assign k x obj = obj ++ [(k, x)]).
    { apply ValueFacts.map_assign_last.
      eapply Forall_impl; [|exact Hobj]. intros kv H.
      inversion H; auto. }
    rewrite Hassign.
    assert (Hobj' : Forall (fun kv => Forall (string_lt (fst kv)) (keys l))
                           (obj ++ [(k, x)])).
    { apply Forall_app. split.
      - eapply Forall_impl; [|exact Hobj]. intros kv H. inversion H; auto.
      - constructor; auto. }
    assert (Hsplit : toks = (pre2 ++ tokens_of x)
                            ++ (sep ++ [] ++ object_tokens l
                                    ++ [punct RIGHT_CURLY "}"]) ++ rest).
    { rewrite Htoks2. rewrite <- !app_assoc. reflexivity. }
    assert (Hc1 : c1 = List.length (pre2 ++ tokens_of x)).
    { unfold c1. rewrite length_app. reflexivity. }
    destruct l as [|[k2 y] l].
    + cbn [object_tokens app] in *. subst sep. cbn [app] in Hsplit.
      rewrite (tail_close RIGHT_CURLY _ toks c1 (punct RIGHT_CURLY "}")).
      * destruct fuel as [|fuel]; [lia|].
        rewrite object_loop_close by reflexivity.
        subst c'. do 2 f_equal. unfold c1. rewrite Hpre2. len.
      * rewrite Hsplit, Hc1. apply nth_error_at.
      * reflexivity.
      * discriminate.
    + subst sep. cbn [app] in Hsplit.
      assert (Hnext : exists ntl,
                 object_tokens ((k2, y) :: l) ++ [punct RIGHT_CURLY "}"]
                 = mkToken STRING (VString k2) :: ntl).
      { rewrite RenderFacts.object_tokens_cons. simpl. eauto. }
      destruct Hnext as (ntl & Hnext).
      rewrite (tail_comma RIGHT_CURLY _ toks c1 (mkToken STRING (VString k2))).
      * replace (obj ++ (k, x) :: (k2, y) :: l)
          with ((obj ++ [(k, x)]) ++ (k2, y) :: l)
          by (rewrite <- app_assoc; reflexivity).
        apply (IHl Hl fuel toks ((pre2 ++ tokens_of x) ++ [punct COMMA ","])
                 rest (obj ++ [(k, x)]) _ ntl); auto.
        -- rewrite Hsplit. rewrite <- !app_assoc. reflexivity.
        -- unfold c1. len.
        -- subst c'. unfold c1. len.
        -- cbn [List.length] in Hf. lia.
      * exists (punct COMMA ","). split; [|reflexivity].
        rewrite Hsplit, Hc1. apply nth_error_at.
      * rewrite Hsplit, Hc1, Hnext. apply nth_error_at1.
Qed.

Lemma string_lt_Transitive : Relations_1.Transitive string_lt.
Proof. intros a b c. apply ValueFacts.string_lt_trans. Qed.

(** The descent reads the tokens of every canonical value back. *)
Lemma canonical_reads_back v : canonical v -> reads_back v.
Proof.
  induction v as [o IH|a IH|s|i|d|b|] using JsonValue_ind; intros Hcan.
  - (* object *)
    apply ValueFacts.canonical_object in Hcan. destruct Hcan as [Hs Hcan].
    assert (Hall : Forall (fun kv => reads_back (snd kv)) o).
    { rewrite Forall_forall in *. intros kv Hin.
      apply IH; auto. apply Hcan; auto. }
    apply Sorted_StronglySorted in Hs; [|exact string_lt_Transitive].
    intros fuel toks pre rest tk tl c c' Htk Htoks Hc Hc' Hf.
    rewrite RenderFacts.tokens_of_object in *.
    inversion Htk; subst tk tl. clear Htk.
    cbn [List.length] in Hf, Hc'. rewrite length_app in Hf, Hc'.
    cbn [List.length] in Hf, Hc'.
    destruct fuel as [|[|fuel]]; try lia.
    cbn [parse_from_token token_type punct parse_object].
    assert (Hnext : exists key ktl,
               object_tokens o ++ [punct RIGHT_CURLY "}"] = key :: ktl).
    { destruct (object_tokens o); simpl; eauto. }
    destruct Hnext as (key & ktl & Hnext).
    rewrite (bind_Ok _ _ _ o (mk toks c')); [reflexivity|].
    rewrite (bind_Ok _ _ _ key (mk toks (S c))).
    2:{ apply advanceCurrent_mk. rewrite Htoks, Hc. cbn [app].
        rewrite Hnext. apply nth_error_at1. }
    apply (object_loop_reads_back o Hall fuel toks
             (pre ++ [punct LEFT_CURLY "{"]) rest [] key ktl); auto.
    + rewrite Htoks. cbn [app]. rewrite <- !app_assoc. reflexivity.
    + rewrite length_app. cbn [List.length]. lia.
    + rewrite length_app. cbn [List.length]. lia.
    + lia.
  - (* array *)
    apply ValueFacts.canonical_array in Hcan.
    assert (Hall : Forall reads_back a).
    { rewrite Forall_forall in *. intros x Hin. apply IH; auto. }
    intros fuel toks pre rest tk tl c c' Htk Htoks Hc Hc' Hf.
    rewrite RenderFacts.tokens_of_array in *.
    inversion Htk; subst tk tl. clear Htk.
    cbn [List.length] in Hf, Hc'. rewrite length_app in Hf, Hc'.
    cbn [List.length] in Hf, Hc'.
    destruct fuel as [|[|fuel]]; try lia.
    cbn [parse_from_token token_type punct parse_array].
    assert (Hnext : exists key ktl,
               array_tokens a ++ [punct RIGHT_SQUARE "]"] = key :: ktl).
    { destruct (array_tokens a); simpl; eauto. }
    destruct Hnext as (key & ktl & Hnext).
    rewrite (bind_Ok _ _ _ a (mk toks c')); [reflexivity|].
    rewrite (bind_Ok _ _ _ key (mk toks (S c))).
    2:{ apply advanceCurrent_mk. rewrite Htoks, Hc. cbn [app].
        rewrite Hnext. apply nth_error_at1. }
    apply (array_loop_reads_back a Hall fuel toks
             (pre ++ [punct LEFT_SQUARE "["]) rest [] key ktl); auto.
    + rewrite Htoks. cbn [app]. rewrite <- !app_assoc. reflexivity.
    + rewrite length_app. cbn [List.length]. lia.
    + rewrite length_app. cbn [List.length]. lia.
    + lia.
  - eapply reads_back_scalar; [reflexivity|]. reflexivity.
  - eapply reads_back_scalar; [reflexivity|]. reflexivity.
  - eapply reads_back_scalar; [reflexivity|]. reflexivity.
  - eapply reads_back_scalar; [reflexivity|]. reflexivity.
  - eapply reads_back_scalar; [reflexivity|]. reflexivity.
Qed.

End ParseTokens.

(** ** The scanner: lexemes it rejects *)

Module ScanErrors.
Import Scanner ScanState ScannerFacts ScanToken ScanLexeme ScanText LexFacts.

Lemma scanToken_lone_minus fuel s pre post :
  at_split s pre (String "-" post) -> stops isdigit post ->
  scanToken fuel s
  = Throw (invalid_argument "- must be followed by a number") (incr_current s).
Proof.
  intros H Hp. unfold scanToken, bind at 1.
  rewrite (at_split_advance _ _ _ _ H). cbv beta iota.
  pose proof (at_split_incr _ _ _ _ H) as H1.
  change ((if ("-" =? "{")%char then ?a else ?b) (incr_current s))
    with (bind getCurrValue
            (fun d => if isdigit d
                      then bind advanceCurrent (fun _ => addNumber fuel)
                      else throw (invalid_argument
                                    "- must be followed by a number"))
            (incr_current s)).
  unfold bind. rewrite getCurrValue_peek. cbv beta iota.
  assert (E : isdigit (peek (incr_current s)) = false).
  { destruct post as [|c post].
    - rewrite (at_split_peek_end _ _ H1). exact Hp.
    - rewrite (at_split_peek _ _ _ _ H1). exact Hp. }
  rewrite E. reflexivity.
Qed.

(** [addNumber] with the digits [ds] ahead, then a point that no digit
    follows. *)
Lemma addNumber_point fuel s pre ds post :
  at_split s pre (ds ++ String "." post) ->
  all_chars isdigit ds -> stops isdigit post ->
  String.length ds <= fuel ->
  addNumber fuel s
  = Throw (invalid_argument "Expected digit after . (trying to parse float)")
          (adv (String.length ds) s).
Proof.
  intros H Hd Hp Hf. unfold addNumber, bind.
  rewrite (skip_run isdigit fuel s _ ds _ H Hd eq_refl Hf). mred.
  rewrite getCurrValue_peek. mred.
  pose proof (at_split_adv _ _ _ _ H) as H1.
  rewrite (at_split_peek _ _ _ _ H1). cbn [Ascii.eqb Bool.eqb]. cbv iota.
  rewrite getNextValue_peek. mred.
  pose proof (at_split_incr _ _ _ _ H1) as H2.
  assert (Hn : peek_next (adv (String.length ds) s)
               = peek (incr_current (adv (String.length ds) s))).
  { unfold peek_next, peek. cbn [incr_current adv str current].
    rewrite Nat.add_1_r. reflexivity. }
  rewrite Hn.
  assert (E : isdigit (peek (incr_current (adv (String.length ds) s))) = false).
  { destruct post as [|c post].
    - rewrite (at_split_peek_end _ _ H2). exact Hp.
    - rewrite (at_split_peek _ _ _ _ H2). exact Hp. }
  rewrite E. reflexivity.
Qed.

Lemma scanToken_point fuel s pre neg ds post :
  at_split s pre (sign neg ++ ds ++ String "." post) ->
  ds <> EmptyString -> all_chars isdigit ds -> stops isdigit post ->
  String.length ds <= fuel ->
  scanToken fuel s
  = Throw (invalid_argument "Expected digit after . (trying to parse float)")
          (adv (String.length (sign neg ++ ds)) s).
Proof.
  intros H Hne Hd Hp Hf.
  destruct ds as [|d ds]; [congruence|]. destruct Hd as [Hd0 Hd].
  cbn [String.length] in Hf.
  destruct neg; cbn [sign append] in *.
  - rewrite (scanToken_minus _ _ _ _ _ H Hd0).
    pose proof (at_split_incr _ _ _ _ (at_split_incr _ _ _ _ H)) as H2.
    rewrite (addNumber_point fuel _ _ ds post H2 Hd Hp ltac:(lia)).
    cbn [String.length]. rewrite adv_incr2. reflexivity.
  - rewrite (scanToken_digit _ _ _ _ _ H Hd0).
    pose proof (at_split_incr _ _ _ _ H) as H2.
    rewrite (addNumber_point fuel _ _ ds post H2 Hd Hp ltac:(lia)).
    cbn [String.length]. rewrite adv_incr. reflexivity.
Qed.

(** A run of letters: the token of the keyword it spells, or an error. *)
Lemma scanToken_letters F s pre c kw post :
  at_split s pre (String c kw ++ post) -> start s = current s ->
  isalpha c = true -> all_chars isalpha kw -> stops isalpha post ->
  String.length kw <= F ->
  scanToken F s
  = match keyword_token (String c kw) with
    | Some tk => Ok tt (push_back tk (adv (S (String.length kw)) s))
    | None => Throw unexpected_token (adv (S (String.length kw)) s)
    end.
Proof.
  intros Ha Hst Hc Hkw Hp HF. cbn [append] in Ha.
  rewrite (scanToken_alpha _ _ _ _ _ Ha Hc).
  pose proof (at_split_incr _ _ _ _ Ha) as H1.
  unfold addKeyword, bind.
  rewrite (skip_run isalpha F _ _ kw post H1 Hkw Hp HF). mred.
  assert (HL : lexeme (adv (String.length kw) (incr_current s)) = String c kw).
  { destruct Ha as [Hs Hcur]. unfold lexeme.
    cbn [adv incr_current str start current]. rewrite Hst, Hs, Hcur.
    replace (String.length kw + S (String.length pre) - String.length pre)
      with (String.length (String c kw)) by (simpl; lia).
    change (String c (kw ++ post)) with (String c kw ++ post)%string.
    apply substring_append. }
  rewrite HL, adv_incr. unfold keyword_token.
  destruct (String c kw =? "true")%string;
    [|destruct (String c kw =? "false")%string;
      [|destruct (String c kw =? "null")%string]];
    mred; reflexivity.
Qed.

(** A character with no [case] label that is neither a digit nor a
    letter. *)
Lemma scanToken_unknown F s pre c post :
  at_split s pre (String c post) ->
  has_case c = false -> isdigit c = false -> isalpha c = false ->
  scanToken F s = Throw unexpected_token (incr_current s).
Proof.
  intros H Hc Hd Ha. unfold scanToken, bind at 1.
  rewrite (at_split_advance _ _ _ _ H). cbv beta iota.
  unfold has_case in Hc.
  repeat (apply orb_false_elim in Hc; destruct Hc as [Hc ?]).
  repeat match goal with E : (c =? _)%char = false |- _ => rewrite E; clear E end.
  rewrite Hd, Ha. reflexivity.
Qed.

Lemma lexes_blanks ws : all_chars is_blank ws -> lexes anything ws [].
Proof.
  induction ws as [|c ws IH]; intros H.
  - apply lexes_nil.
  - destruct H as [Hc H]. unfold is_blank in Hc.
    apply (lexes_app anything anything (String c EmptyString) ws [] []).
    + apply orb_prop in Hc. destruct Hc as [Hc|Hc];
        apply Ascii.eqb_eq in Hc; subst c.
      * apply lexes_space.
      * apply lexes_newline.
    + apply IH, H.
    + intros; exact I.
Qed.

End ScanErrors.

(** ** The scanner: texts on which it fails *)

Module ScanFailure.
Import ScanState ScannerFacts ScanToken ScanLexeme ScanText LexFacts.

(** A text that is read as tokens up to a point where [scanToken]
    throws. *)
Lemma scan_lexes_throw B pre toks rest e :
  lexes B pre toks -> B rest -> rest <> EmptyString ->
  (forall F s p, at_split s p rest -> Scanner.start s = Scanner.current s ->
                 String.length (Scanner.str s) <= F ->
                 exists s', Scanner.scanToken F s = Throw e s') ->
  scan (pre ++ rest) = Throws e.
Proof.
  intros HL HB Hne Hthrow. unfold scan, scan_fuel.
  set (F := String.length (pre ++ rest)).
  destruct (HL F EmptyString rest (Scanner.init (pre ++ rest)))
    as (n & s1 & Hn & Hs & Ha & Ht); auto.
  { split; reflexivity. }
  assert (Hstr : Scanner.str s1 = (pre ++ rest)%string) by (destruct Ha; auto).
  destruct (Hthrow F (Scanner.set_start s1) (EmptyString ++ pre)%string)
    as [s' Hs'].
  { destruct Ha as [E1 E2]. split; simpl; auto. }
  { reflexivity. }
  { simpl. rewrite Hstr. unfold F. lia. }
  assert (Hl : Scanner.isLast s1 = false).
  { destruct rest as [|c rest]; [congruence|].
    eapply at_split_isLast; eauto. }
  assert (Hlen : n < F).
  { unfold F. rewrite length_append. destruct rest; [congruence|]. simpl. lia. }
  rewrite scan_unfold. unfold bind.
  replace F with (n + S (F - n - 1)) at 1 by lia.
  rewrite (Hs (S (F - n - 1))).
  rewrite (while_throw _ _ _ e s' Hl); [reflexivity|].
  rewrite body_eq. exact Hs'.
Qed.

End ScanFailure.

(** ** The scanner: what its loop preserves *)

Module ScanLoop.
Import Scanner ScanState ScannerFacts ScanToken ScanLexeme ScanText.

(** Each iteration reads at least one character for the token it appends. *)
Lemma scan_loop_count F k : forall s,
  String.length (str s) <= F ->
  String.length (str s) - current s <= k ->
  current s <= String.length (str s) ->
  match while_ k more (body F) s with
  | Ok _ s' =>
      List.length (tokens s') + current s
      <= List.length (tokens s) + String.length (str s)
  | _ => True
  end.
Proof.
  induction k as [|k IH]; intros s HF Hk Hc.
  - simpl. unfold more. destruct (isLast s) eqn:E; cbn [negb]; auto. lia.
  - simpl. unfold more at 1. destruct (isLast s) eqn:E; cbn [negb]; [lia|].
    apply isLast_false in E. rewrite body_eq.
    pose proof (scanToken_post F (set_start s)) as HP. sstate.
    specialize (HP eq_refl E HF).
    destruct (scanToken F (set_start s)) as [a s'|e s'| |]; sstate; auto.
    destruct HP as (Hs & Hb & Ht).
    specialize (IH s'). rewrite Hs in IH.
    specialize (IH HF ltac:(lia) ltac:(lia)).
    destruct (while_ k _ _ s') as [a' s''|e s''| |]; auto.
    destruct Ht as [Ht|(tk & Ht & _)]; rewrite Ht in IH;
      [|rewrite length_app in IH; simpl in IH]; lia.
Qed.

Lemma while_preserves {St} (P : St -> Prop) cond (step : M St unit) :
  (forall s u s', P s -> step s = Ok u s' -> P s') ->
  forall fuel s u s', P s -> while_ fuel cond step s = Ok u s' -> P s'.
Proof.
  intros Hstep. induction fuel as [|fuel IH]; intros s u s' HP; simpl;
    destruct (cond s); try discriminate;
    try (intros H; inversion H; subst; exact HP).
  destruct (step s) as [a s1| | |] eqn:E; try discriminate.
  intros H. eapply IH; [|exact H]. eapply Hstep; eauto.
Qed.

Lemma pointless_cursor f s :
  str (f s) = str s -> tokens (f s) = tokens s -> pointless s -> pointless (f s).
Proof. unfold pointless. intros -> ->. auto. Qed.

Lemma pointless_push tk s :
  not_double_token tk -> pointless s -> pointless (push_back tk s).
Proof.
  unfold pointless. intros Htk [H1 H2]. split; auto. simpl.
  apply Forall_app. auto.
Qed.

Lemma pointless_run cond fuel s u s' :
  pointless s -> while_ fuel cond (modify incr_current) s = Ok u s' ->
  pointless s'.
Proof.
  apply (while_preserves pointless). clear. intros s u s' HP H.
  rewrite modify_eq in H. inversion H; subst.
  apply pointless_cursor; auto.
Qed.

Lemma absent_get x s i c : absent x s -> String.get i s = Some c -> c <> x.
Proof.
  revert i. induction s as [|c' s IH]; intros i H; [discriminate|].
  destruct H as [H1 H2].
  destruct i; simpl; [intros E; inversion E; subst; auto|]. apply IH, H2.
Qed.

Lemma pointless_peek s : pointless s -> (peek s =? ".")%char = false.
Proof.
  intros [H _]. apply Ascii.eqb_neq. unfold peek.
  destruct (String.get (current s) (str s)) as [c|] eqn:E.
  - eapply absent_get; eauto.
  - discriminate.
Qed.

Lemma addNumber_pointless fuel s u s' :
  pointless s -> addNumber fuel s = Ok u s' -> pointless s'.
Proof.
  intros HP H. unfold addNumber in H.
  apply ParserFacts.bind_Ok_inv in H. destruct H as (u1 & s1 & H1 & H).
  apply (pointless_run _ _ _ _ _ HP) in H1.
  unfold bind in H. rewrite getCurrValue_peek in H. cbv beta iota in H.
  rewrite (pointless_peek _ H1) in H. mred.
  rewrite gets_eq in H. cbv beta iota in H.
  destruct (stoi (lexeme s1)); [discriminate|].
  rewrite lift_inr in H. cbv beta iota in H. rewrite modify_eq in H.
  inversion H; subst. apply pointless_push; auto. exact I.
Qed.

Lemma addString_pointless fuel s u s' :
  pointless s -> addString fuel s = Ok u s' -> pointless s'.
Proof.
  intros HP H. unfold addString in H.
  apply ParserFacts.bind_Ok_inv in H. destruct H as (u1 & s1 & H1 & H).
  apply (pointless_run _ _ _ _ _ HP) in H1.
  unfold bind in H. rewrite gets_eq in H. cbv beta iota in H.
  destruct (isLast s1); [discriminate|].
  rewrite modify_eq in H. cbv beta iota in H.
  rewrite gets_eq in H. cbv beta iota in H. rewrite modify_eq in H.
  inversion H; subst. apply pointless_push; [exact I|].
  apply pointless_cursor; auto.
Qed.

Lemma addKeyword_pointless fuel s u s' :
  pointless s -> addKeyword fuel s = Ok u s' -> pointless s'.
Proof.
  intros HP H. unfold addKeyword in H.
  apply ParserFacts.bind_Ok_inv in H. destruct H as (u1 & s1 & H1 & H).
  apply (pointless_run _ _ _ _ _ HP) in H1.
  unfold bind in H. rewrite gets_eq in H. cbv beta iota zeta in H.
  destruct (lexeme s1 =? "true")%string;
    [|destruct (lexeme s1 =? "false")%string;
      [|destruct (lexeme s1 =? "null")%string]];
    try discriminate; rewrite modify_eq in H; inversion H; subst;
    apply pointless_push; auto; exact I.
Qed.

Lemma advanceCurrent_state s c s' :
  advanceCurrent s = Ok c s' -> s' = incr_current s.
Proof.
  unfold advanceCurrent, bind, string_at, gets, modify, ret, fault.
  destruct (String.get (current s) (str s));
    [|destruct (current s =? String.length (str s))%nat];
    intros H; inversion H; reflexivity.
Qed.

Lemma scanToken_pointless fuel s u s' :
  pointless s -> scanToken fuel s = Ok u s' -> pointless s'.
Proof.
  intros HP H. unfold scanToken in H.
  apply ParserFacts.bind_Ok_inv in H. destruct H as (c & s1 & H1 & H).
  assert (HP1 : pointless s1).
  { apply advanceCurrent_state in H1. subst s1.
    apply pointless_cursor; auto. }
  clear H1 HP.
  assert (Hpunct : forall ty, punctuation ty c s1 = Ok u s' -> pointless s').
  { intros ty E. unfold punctuation in E. rewrite modify_eq in E.
    inversion E; subst. apply pointless_push; auto. exact I. }
  repeat match type of H with
         | (if ?b then _ else _) _ = _ => destruct b; eauto
         end.
  - rewrite modify_eq in H. inversion H; subst. apply pointless_cursor; auto.
  - inversion H; subst. exact HP1.
  - eapply addString_pointless; eauto.
  - unfold bind in H. rewrite getCurrValue_peek in H. cbv beta iota in H.
    destruct (isdigit (peek s1)); [|discriminate].
    destruct (advanceCurrent s1) as [c' s2| | |] eqn:E; try discriminate.
    eapply addNumber_pointless; [|exact H].
    apply advanceCurrent_state in E. subst s2.
    apply pointless_cursor; auto.
  - eapply addNumber_pointless; eauto.
  - eapply addKeyword_pointless; eauto.
  - discriminate.
Qed.

Lemma scan_pointless fuel input toks s' :
  absent "." input -> Scanner.scan fuel (init input) = Ok toks s' ->
  Forall not_double_token toks.
Proof.
  intros Ha H. rewrite scan_unfold in H.
  apply ParserFacts.bind_Ok_inv in H. destruct H as (u1 & s1 & H1 & H).
  assert (HP : pointless s1).
  { revert H1. apply (while_preserves pointless).
    - intros s u s2 HP E. unfold body, bind in E. rewrite modify_eq in E.
      eapply scanToken_pointless; [|exact E].
      apply pointless_cursor; auto.
    - split; simpl; auto. }
  unfold bind in H. rewrite modify_eq, gets_eq in H. inversion H; subst.
  simpl. destruct HP as [_ HP]. apply Forall_app. split; auto.
  constructor; [exact I|constructor].
Qed.

End ScanLoop.

(** ** The parser over the tokens of a scan *)

Module ParserOutcomes.
Import Parser ParseState ParserFacts.

Ltac syn :=
  solve [ unfold syntax_error, unexpected_token, unterminated_object,
            missing_comma, unterminated_array; simpl;
          repeat (first [left; reflexivity | right]) ].

Lemma bind_Throw_inv {St A B} (c : M St A) (k : A -> M St B) s e s'' :
  bind c k s = Throw e s'' ->
  c s = Throw e s'' \/ exists a s', c s = Ok a s' /\ k a s' = Throw e s''.
Proof.
  unfold bind. destruct (c s) as [a s'|e' s'| |]; try discriminate;
    intros H; [right; eauto|left; inversion H; reflexivity].
Qed.

Lemma advanceCurrent_no_throw p e p' : advanceCurrent p <> Throw e p'.
Proof.
  unfold advanceCurrent, bind, token_at. mred.
  destruct (nth_error (tokens p) (current p)); mred; discriminate.
Qed.

Lemma consume_throw ty error p e p' :
  consume ty error p = Throw e p' -> e = invalid_argument error.
Proof.
  unfold consume, getCurrValue, bind, token_at. mred.
  destruct (nth_error (tokens p) (current p)) as [tk|]; mred; [|discriminate].
  destruct (TokenType_eqb (token_type tk) ty); cbn [negb]; mred;
    intros H; inversion H; reflexivity.
Qed.

Lemma consume_until_comma_throw exception p e p' :
  consume_until_comma exception p = Throw e p' -> e = missing_comma.
Proof.
  unfold consume_until_comma, getCurrValue, bind, token_at. mred.
  destruct (nth_error (tokens p) (current p)) as [tk|] eqn:Hn; mred;
    [|discriminate].
  destruct (TokenType_eqb (token_type tk) COMMA); mred; [discriminate|].
  rewrite Hn. mred.
  destruct (TokenType_eqb (token_type tk) exception); cbn [negb]; mred;
    intros H; inversion H; reflexivity.
Qed.

Lemma consume_until_comma_state exception toks c u p' :
  consume_until_comma exception (mk toks c) = Ok u p' ->
  exists c', p' = mk toks c'.
Proof.
  intros H. apply consume_until_comma_inv in H.
  destruct H as (st & _ & [[_ ->]|(_ & _ & ->)]); pstate; eauto.
Qed.

(** A well-formed token holds the alternative that [parse_from_token] and
    [parse_object] take out of it. *)
Lemma wf_string_payload tk :
  wf_or_eof tk -> token_type tk = STRING ->
  exists k, get_string (value tk) = inr k.
Proof.
  intros [H|H] Ht; [|congruence]. unfold wf_token in H. rewrite Ht in H.
  destruct (value tk); try contradiction. simpl. eauto.
Qed.

(** Over well-formed tokens the descent throws the errors of the grammar
    only: no [std::get] fails. *)
Lemma parser_throws toks :
  Forall wf_or_eof toks ->
  forall fuel,
    (forall token c e p',
        wf_or_eof token ->
        parse_from_token fuel token (mk toks c) = Throw e p' -> syntax_error e)
    /\ (forall c e p',
           parse_object fuel (mk toks c) = Throw e p' -> syntax_error e)
    /\ (forall key obj c e p',
           wf_or_eof key ->
           parse_object_loop fuel key obj (mk toks c) = Throw e p' ->
           syntax_error e)
    /\ (forall c e p',
           parse_array fuel (mk toks c) = Throw e p' -> syntax_error e)
    /\ (forall token arr c e p',
           wf_or_eof token ->
           parse_array_loop fuel token arr (mk toks c) = Throw e p' ->
           syntax_error e).
Proof.
  intros Hwf. induction fuel as [|fuel (IHv & IHo & IHol & IHa & IHal)].
  { repeat split; intros; discriminate. }
  split; [|split; [|split; [|split]]].
  - (* parse_from_token *)
    intros token c e p' Hw. cbn [parse_from_token].
    destruct (token_type token) eqn:Et;
      try (mred; intros H; inversion H; subst; syn).
    + destruct (wf_string_payload _ Hw Et) as [k Hk].
      unfold bind. rewrite Hk. mred. discriminate.
    + destruct Hw as [Hw|Hw]; [|congruence].
      unfold wf_token in Hw. rewrite Et in Hw.
      destruct (value token); try contradiction; cbn [holds_int];
        unfold bind; mred; discriminate.
    + destruct Hw as [Hw|Hw]; [|congruence].
      unfold wf_token in Hw. rewrite Et in Hw.
      destruct (value token); try contradiction.
      unfold bind; mred; discriminate.
    + intros H. apply bind_Throw_inv in H.
      destruct H as [H|(o & p1 & _ & H)]; [eapply IHo; eauto|].
      rewrite ret_eq in H. discriminate.
    + intros H. apply bind_Throw_inv in H.
      destruct H as [H|(o & p1 & _ & H)]; [eapply IHa; eauto|].
      rewrite ret_eq in H. discriminate.
  - (* parse_object *)
    intros c e p'. cbn [parse_object]. intros H.
    apply bind_Throw_inv in H.
    destruct H as [H|(tk & p1 & H1 & H)];
      [exfalso; eapply advanceCurrent_no_throw; eauto|].
    apply advanceCurrent_inv in H1. destruct H1 as [Hn ->]. pstate.
    eapply IHol; [|exact H]. eapply wf_or_eof_nth; eauto.
  - (* parse_object_loop *)
    intros key obj c e p' Hw. cbn [parse_object_loop].
    destruct (TokenType_eqb (token_type key) RIGHT_CURLY); cbn [negb];
      [mred; discriminate|].
    destruct (TokenType_eqb (token_type key) EOF_TOKEN);
      [mred; intros H; inversion H; subst; syn|].
    destruct (TokenType_eqb (token_type key) STRING) eqn:Es; cbn [negb];
      [|mred; intros H; inversion H; subst; syn].
    apply TokenType_eqb_eq in Es.
    intros H. apply bind_Throw_inv in H.
    destruct H as [H|(u & p1 & H1 & H)].
    { apply consume_throw in H. subst e. syn. }
    apply consume_inv in H1. destruct H1 as (ct & Hn1 & Hct & ->). pstate.
    apply bind_Throw_inv in H.
    destruct H as [H|(vt & p2 & H2 & H)];
      [exfalso; eapply advanceCurrent_no_throw; eauto|].
    apply advanceCurrent_inv in H2. destruct H2 as [Hn2 ->]. pstate.
    apply bind_Throw_inv in H.
    destruct H as [H|(v & p3 & H3 & H)].
    { eapply IHv; [|exact H]. eapply wf_or_eof_nth; eauto. }
    destruct (parser_local toks fuel) as (Hloc & _).
    destruct (Hloc _ _ _ _ H3) as (Ht3 & _).
    destruct p3 as [toks3 c3]. pstate. subst toks3.
    destruct (wf_string_payload _ Hw Es) as [k Hk].
    unfold bind at 1 in H. rewrite Hk in H. rewrite lift_inr in H.
    cbv beta iota in H.
    apply bind_Throw_inv in H.
    destruct H as [H|(u' & p5 & H5 & H)].
    { apply consume_until_comma_throw in H. subst e. syn. }
    destruct (consume_until_comma_state _ _ _ _ _ H5) as [c5 ->].
    apply bind_Throw_inv in H.
    destruct H as [H|(kt & p6 & H6 & H)];
      [exfalso; eapply advanceCurrent_no_throw; eauto|].
    apply advanceCurrent_inv in H6. destruct H6 as [Hn6 ->]. pstate.
    eapply IHol; [|exact H]. eapply wf_or_eof_nth; eauto.
  - (* parse_array *)
    intros c e p'. cbn [parse_array]. intros H.
    apply bind_Throw_inv in H.
    destruct H as [H|(tk & p1 & H1 & H)];
      [exfalso; eapply advanceCurrent_no_throw; eauto|].
    apply advanceCurrent_inv in H1. destruct H1 as [Hn ->]. pstate.
    eapply IHal; [|exact H]. eapply wf_or_eof_nth; eauto.
  - (* parse_array_loop *)
    intros token arr c e p' Hw. cbn [parse_array_loop].
    destruct (TokenType_eqb (token_type token) RIGHT_SQUARE); cbn [negb];
      [mred; discriminate|].
    destruct (TokenType_eqb (token_type token) EOF_TOKEN);
      [mred; intros H; inversion H; subst; syn|].
    intros H. apply bind_Throw_inv in H.
    destruct H as [H|(v & p3 & H3 & H)].
    { eapply IHv; [|exact H]. exact Hw. }
    destruct (parser_local toks fuel) as (Hloc & _).
    destruct (Hloc _ _ _ _ H3) as (Ht3 & _).
    destruct p3 as [toks3 c3]. pstate. subst toks3.
    apply bind_Throw_inv in H.
    destruct H as [H|(u' & p5 & H5 & H)].
    { apply consume_until_comma_throw in H. subst e. syn. }
    destruct (consume_until_comma_state _ _ _ _ _ H5) as [c5 ->].
    apply bind_Throw_inv in H.
    destruct H as [H|(kt & p6 & H6 & H)];
      [exfalso; eapply advanceCurrent_no_throw; eauto|].
    apply advanceCurrent_inv in H6. destruct H6 as [Hn6 ->]. pstate.
    eapply IHal; [|exact H]. eapply wf_or_eof_nth; eauto.
Qed.

(** Over tokens without a [double] payload the descent builds no float
    leaf. *)
Lemma parser_no_double toks :
  Forall not_double_token toks ->
  forall fuel,
    (forall token c v p',
        not_double_token token ->
        parse_from_token fuel token (mk toks c) = Ok v p' -> no_double v)
    /\ (forall c o p',
           parse_object fuel (mk toks c) = Ok o p' -> no_double (JObject o))
    /\ (forall key obj c o p',
           no_double (JObject obj) ->
           parse_object_loop fuel key obj (mk toks c) = Ok o p' ->
           no_double (JObject o))
    /\ (forall c a p',
           parse_array fuel (mk toks c) = Ok a p' -> no_double (JArray a))
    /\ (forall token arr c a p',
           not_double_token token -> no_double (JArray arr) ->
           parse_array_loop fuel token arr (mk toks c) = Ok a p' ->
           no_double (JArray a)).
Proof.
  intros Hwf.
  assert (Hnth : forall c tk, nth_error toks c = Some tk -> not_double_token tk).
  { intros c tk Hn. rewrite Forall_forall in Hwf. apply Hwf.
    eapply nth_error_In; eauto. }
  induction fuel as [|fuel (IHv & IHo & IHol & IHa & IHal)].
  { repeat split; intros; discriminate. }
  split; [|split; [|split; [|split]]].
  - (* parse_from_token *)
    intros token c v p' Hw. cbn [parse_from_token].
    unfold not_double_token in Hw.
    destruct (token_type token) eqn:Et; try discriminate.
    + unfold bind. destruct (value token); mred; try discriminate;
        intros H; inversion H; subst; exact I.
    + destruct (value token); try contradiction; cbn [holds_int];
        unfold bind; mred; try discriminate;
        intros H; inversion H; subst; exact I.
    + unfold bind. destruct (value token); mred; try discriminate;
        intros H; inversion H; subst; exact I.
    + intros H; inversion H; subst; exact I.
    + intros H. apply bind_Ok_inv in H. destruct H as (o & p1 & H1 & H2).
      rewrite ret_eq in H2. inversion H2; subst. eapply IHo; eauto.
    + intros H. apply bind_Ok_inv in H. destruct H as (o & p1 & H1 & H2).
      rewrite ret_eq in H2. inversion H2; subst. eapply IHa; eauto.
  - (* parse_object *)
    intros c o p'. cbn [parse_object]. intros H.
    apply bind_Ok_inv in H. destruct H as (tk & p1 & H1 & H2).
    apply advanceCurrent_inv in H1. destruct H1 as [Hn ->]. pstate.
    eapply IHol; eauto. exact I.
  - (* parse_object_loop *)
    intros key obj c o p' Hobj. cbn [parse_object_loop].
    destruct (TokenType_eqb (token_type key) RIGHT_CURLY); cbn [negb].
    2:{
      destruct (TokenType_eqb (token_type key) EOF_TOKEN); [discriminate|].
      destruct (TokenType_eqb (token_type key) STRING) eqn:Es; cbn [negb];
        [|discriminate].
      intros H.
      apply bind_Ok_inv in H. destruct H as (u & p1 & H1 & H).
      apply consume_inv in H1. destruct H1 as (ct & Hn1 & Hct & ->).
      apply bind_Ok_inv in H. destruct H as (vt & p2 & H2 & H).
      apply advanceCurrent_inv in H2. destruct H2 as [Hn2 ->]. pstate.
      apply bind_Ok_inv in H. destruct H as (v & p3 & H3 & H).
      destruct (parser_local toks fuel) as (Hloc & _).
      destruct (Hloc _ _ _ _ H3) as (Ht3 & _).
      destruct p3 as [toks3 c3]. pstate. subst toks3.
      apply bind_Ok_inv in H. destruct H as (k & p4 & H4 & H).
      apply lift_Ok_inv in H4. destruct H4 as [Hg ->].
      apply bind_Ok_inv in H. destruct H as (u' & p5 & H5 & H).
      destruct (consume_until_comma_state _ _ _ _ _ H5) as [c5 ->].
      apply bind_Ok_inv in H. destruct H as (kt & p6 & H6 & H).
      apply advanceCurrent_inv in H6. destruct H6 as [Hn6 ->]. pstate.
      eapply IHol; [|exact H].
      apply ValueFacts.no_double_object in Hobj.
      apply ValueFacts.no_double_object.
      apply ValueFacts.map_assign_Forall; auto. simpl.
      eapply IHv; [|exact H3]. eapply Hnth; eauto.
    }
    mred. intros H; inversion H; subst. exact Hobj.
  - (* parse_array *)
    intros c a p'. cbn [parse_array]. intros H.
    apply bind_Ok_inv in H. destruct H as (tk & p1 & H1 & H2).
    apply advanceCurrent_inv in H1. destruct H1 as [Hn ->]. pstate.
    eapply IHal; eauto. exact I.
  - (* parse_array_loop *)
    intros token arr c a p' Hw Harr. cbn [parse_array_loop].
    destruct (TokenType_eqb (token_type token) RIGHT_SQUARE); cbn [negb].
    2:{
      destruct (TokenType_eqb (token_type token) EOF_TOKEN); [discriminate|].
      intros H.
      apply bind_Ok_inv in H. destruct H as (v & p3 & H3 & H).
      destruct (parser_local toks fuel) as (Hloc & _).
      destruct (Hloc _ _ _ _ H3) as (Ht3 & _).
      destruct p3 as [toks3 c3]. pstate. subst toks3.
      apply bind_Ok_inv in H. destruct H as (u' & p5 & H5 & H).
      destruct (consume_until_comma_state _ _ _ _ _ H5) as [c5 ->].
      apply bind_Ok_inv in H. destruct H as (kt & p6 & H6 & H).
      apply advanceCurrent_inv in H6. destruct H6 as [Hn6 ->]. pstate.
      eapply IHal; [| |exact H].
      - eapply Hnth; eauto.
      - apply ValueFacts.no_double_array in Harr.
        apply ValueFacts.no_double_array. apply Forall_app. split; auto.
        constructor; auto. eapply IHv; [|exact H3]. exact Hw.
    }
    mred. intros H; inversion H; subst. exact Harr.
Qed.

End ParserOutcomes.

(** ** The parser on the tokens of a tree with keys in any order *)

Module ParseSpelling.
Import Parser ParseState ParserFacts ParseTokens.

Lemma normalize_object o :
  normalize (JObject o) = JObject (assign_entries o []).
Proof. reflexivity. Qed.

Lemma normalize_array a : normalize (JArray a) = JArray (map normalize a).
Proof. reflexivity. Qed.

Lemma reads_as_scalar v tk :
  tokens_of v = [tk] ->
  (forall fuel p, parse_from_token (S fuel) tk p = Ok v p) ->
  reads_as v v.
Proof.
  intros Ht Hp fuel toks pre rest tk' tl c c' Htk -> -> -> Hf.
  rewrite Ht in *. inversion Htk; subst.
  destruct fuel as [|fuel]; [simpl in Hf; lia|].
  rewrite Hp. simpl. do 2 f_equal. lia.
Qed.

Lemma array_loop_reads_as (l : list JsonValue) :
  Forall (fun x => reads_as x (normalize x)) l ->
  forall fuel toks pre rest arr tk tl c c',
    array_tokens l ++ [punct RIGHT_SQUARE "]"] = tk :: tl ->
    toks = pre ++ (array_tokens l ++ [punct RIGHT_SQUARE "]"]) ++ rest ->
    c = S (List.length pre) ->
    c' = List.length pre + List.length (array_tokens l) + 1 ->
    3 * List.length (array_tokens l) + 1 <= fuel ->
    parse_array_loop fuel tk arr (mk toks c)
    = Ok (arr ++ map normalize l) (mk toks c').
Proof.
  induction l as [|x l IHl]; intros Hall fuel toks pre rest arr tk tl c c'
                                    Htk Htoks Hc Hc' Hf.
  - cbn [array_tokens app] in *. inversion Htk; subst tk tl.
    destruct fuel as [|fuel]; [lia|].
    rewrite array_loop_close by reflexivity.
    cbn [map]. rewrite app_nil_r. subst. simpl. do 2 f_equal. lia.
  - inversion Hall as [|? ? Hx Hl]; subst x0 l0.
    rewrite RenderFacts.array_tokens_cons in *.
    destruct (tokens_of_cons x) as (xt & xtl & Hxt).
    assert (tk = xt) as ->.
    { rewrite Hxt in Htk. inversion Htk. reflexivity. }
    destruct fuel as [|fuel]; [lia|].
    rewrite !length_app in Hf, Hc'. cbn [List.length] in Hf, Hc'.
    assert (Hxlen : 1 <= List.length (tokens_of x)).
    { rewrite Hxt. simpl. lia. }
    set (c1 := List.length pre + List.length (tokens_of x)).
    assert (Hv : parse_from_token fuel xt (mk toks c)
                 = Ok (normalize x) (mk toks c1)).
    { apply (Hx fuel toks pre
               ((match l with [] => [] | _ => [punct COMMA ","] end
                 ++ [] ++ array_tokens l ++ [punct RIGHT_SQUARE "]"]) ++ rest)
               xt xtl); auto; [|lia].
      rewrite Htoks. rewrite <- !app_assoc. reflexivity. }
    rewrite (array_loop_element fuel xt arr toks c (normalize x) c1); auto.
    2:{ destruct x; cbn [tokens_of] in Hxt; inversion Hxt; discriminate. }
    2:{ destruct x; cbn [tokens_of] in Hxt; inversion Hxt; discriminate. }
    assert (Hsplit : toks = (pre ++ tokens_of x)
                            ++ (match l with [] => [] | _ => [punct COMMA ","] end
                                ++ [] ++ array_tokens l ++ [punct RIGHT_SQUARE "]"])
                            ++ rest).
    { rewrite Htoks. rewrite <- !app_assoc. reflexivity. }
    assert (Hc1 : c1 = List.length (pre ++ tokens_of x)).
    { unfold c1. rewrite length_app. reflexivity. }
    destruct l as [|y l].
    + cbn [array_tokens app] in *.
      rewrite (tail_close RIGHT_SQUARE _ toks c1 (punct RIGHT_SQUARE "]")).
      * destruct fuel as [|fuel]; [lia|].
        rewrite array_loop_close by reflexivity.
        subst c'. do 2 f_equal. unfold c1. cbn [List.length]. lia.
      * rewrite Hsplit, Hc1. apply nth_error_at.
      * reflexivity.
      * discriminate.
    + destruct (tokens_of_cons y) as (yt & ytl & Hyt).
      assert (Hnext : exists ntl,
                 array_tokens (y :: l) ++ [punct RIGHT_SQUARE "]"] = yt :: ntl).
      { rewrite RenderFacts.array_tokens_cons, Hyt. simpl. eauto. }
      destruct Hnext as (ntl & Hnext).
      rewrite (tail_comma RIGHT_SQUARE _ toks c1 yt).
      * replace (arr ++ map normalize (x :: y :: l))
          with ((arr ++ [normalize x]) ++ map normalize (y :: l))
          by (rewrite <- app_assoc; reflexivity).
        apply (IHl Hl fuel toks ((pre ++ tokens_of x) ++ [punct COMMA ","])
                 rest (arr ++ [normalize x]) yt ntl); auto.
        -- rewrite Hsplit. cbn [app]. rewrite <- !app_assoc. reflexivity.
        -- rewrite !length_app. cbn [List.length]. unfold c1. lia.
        -- subst c'. rewrite !length_app. cbn [List.length]. lia.
        -- cbn [List.length] in Hf. lia.
      * exists (punct COMMA ","). split; [|reflexivity].
        rewrite Hsplit, Hc1. cbn [app]. apply nth_error_at.
      * rewrite Hsplit, Hc1. cbn [app]. rewrite Hnext. apply nth_error_at1.
Qed.

Lemma object_loop_reads_as (l : list (string * JsonValue)) :
  Forall (fun kv => reads_as (snd kv) (normalize (snd kv))) l ->
  forall fuel toks pre rest obj tk tl c c',
    object_tokens l ++ [punct RIGHT_CURLY "}"] = tk :: tl ->
    toks = pre ++ (object_tokens l ++ [punct RIGHT_CURLY "}"]) ++ rest ->
    c = S (List.length pre) ->
    c' = List.length pre + List.length (object_tokens l) + 1 ->
    3 * List.length (object_tokens l) + 1 <= fuel ->
    parse_object_loop fuel tk obj (mk toks c)
    = Ok (assign_entries l obj) (mk toks c').
Proof.
  induction l as [|[k x] l IHl];
    intros Hall fuel toks pre rest obj tk tl c c' Htk Htoks Hc Hc' Hf.
  - cbn [object_tokens app] in *. inversion Htk; subst tk tl.
    destruct fuel as [|fuel]; [lia|].
    rewrite object_loop_close by reflexivity.
    subst. simpl. do 2 f_equal. lia.
  - inversion Hall as [|? ? Hx Hl]; subst x0 l0. cbn [snd] in Hx.
    rewrite RenderFacts.object_tokens_cons in *.
    destruct (tokens_of_cons x) as (xt & xtl & Hxt).
    cbn [app] in Htk. inversion Htk; subst tk tl. clear Htk.
    destruct fuel as [|fuel]; [lia|].
    rewrite !length_app in Hf. cbn [List.length] in Hf.
    assert (Hxlen : 1 <= List.length (tokens_of x)).
    { rewrite Hxt. simpl. lia. }
    set (sep := match l with [] => [] | _ => [punct COMMA ","] end) in *.
    set (pre2 := pre ++ [mkToken STRING (VString k); punct COLON ":"]).
    assert (Hpre2 : List.length pre2 = S (S (List.length pre))).
    { unfold pre2. rewrite length_app. simpl. lia. }
    set (c1 := List.length pre2 + List.length (tokens_of x)).
    assert (Htoks2 : toks = pre2 ++ tokens_of x
                            ++ (sep ++ [] ++ object_tokens l
                                    ++ [punct RIGHT_CURLY "}"]) ++ rest).
    { rewrite Htoks. unfold pre2. cbn [app]. rewrite <- !app_assoc.
      reflexivity. }
    assert (Hv : parse_from_token fuel xt (mk toks (S (S c)))
                 = Ok (normalize x) (mk toks c1)).
    { apply (Hx fuel toks pre2
               ((sep ++ [] ++ object_tokens l ++ [punct RIGHT_CURLY "}"])
                ++ rest) xt xtl); auto; lia. }
    rewrite (object_loop_pair fuel _ obj toks c xt (normalize x) c1 k); auto.
    2:{ exists (punct COLON ":"). split; [|reflexivity].
        rewrite Htoks, Hc. cbn [app]. apply nth_error_at1. }
    2:{ rewrite Htoks, Hc, Hxt. cbn [app]. apply nth_error_at2. }
    change (assign_entries ((k, x) :: l) obj)
      with (assign_entries l (map_assign k (normalize x) obj)).
    assert (Hsplit : toks = (pre2 ++ tokens_of x)
                            ++ (sep ++ [] ++ object_tokens l
                                    ++ [punct RIGHT_CURLY "}"]) ++ rest).
    { rewrite Htoks2. rewrite <- !app_assoc. reflexivity. }
    assert (Hc1 : c1 = List.length (pre2 ++ tokens_of x)).
    { unfold c1. rewrite length_app. reflexivity. }
    destruct l as [|[k2 y] l].
    + cbn [object_tokens app] in *. subst sep. cbn [app] in Hsplit.
      rewrite (tail_close RIGHT_CURLY _ toks c1 (punct RIGHT_CURLY "}")).
      * destruct fuel as [|fuel]; [lia|].
        rewrite object_loop_close by reflexivity.
        subst c'. do 2 f_equal. unfold c1. rewrite Hpre2. len.
      * rewrite Hsplit, Hc1. apply nth_error_at.
      * reflexivity.
      * discriminate.
    + subst sep. cbn [app] in Hsplit.
      assert (Hnext : exists ntl,
                 object_tokens ((k2, y) :: l) ++ [punct RIGHT_CURLY "}"]
                 = mkToken STRING (VString k2) :: ntl).
      { rewrite RenderFacts.object_tokens_cons. simpl. eauto. }
      destruct Hnext as (ntl & Hnext).
      rewrite (tail_comma RIGHT_CURLY _ toks c1 (mkToken STRING (VString k2))).
      * apply (IHl Hl fuel toks ((pre2 ++ tokens_of x) ++ [punct COMMA ","])
                 rest _ _ ntl); auto.
        -- rewrite Hsplit. rewrite <- !app_assoc. reflexivity.
        -- unfold c1. len.
        -- subst c'. unfold c1. len.
        -- cbn [List.length] in Hf. lia.
      * exists (punct COMMA ","). split; [|reflexivity].
        rewrite Hsplit, Hc1. apply nth_error_at.
      * rewrite Hsplit, Hc1, Hnext. apply nth_error_at1.
Qed.

(** The descent reads the tokens of every tree as the normalized tree. *)
Lemma reads_as_normalize v : reads_as v (normalize v).
Proof.
  induction v as [o IH|a IH|s|i|d|b|] using JsonValue_ind.
  - (* object *)
    assert (Hall : Forall (fun kv => reads_as (snd kv) (normalize (snd kv))) o).
    { exact IH. }
    rewrite normalize_object.
    intros fuel toks pre rest tk tl c c' Htk Htoks Hc Hc' Hf.
    rewrite RenderFacts.tokens_of_object in *.
    inversion Htk; subst tk tl. clear Htk.
    cbn [List.length] in Hf, Hc'. rewrite length_app in Hf, Hc'.
    cbn [List.length] in Hf, Hc'.
    destruct fuel as [|[|fuel]]; try lia.
    cbn [parse_from_token token_type punct parse_object].
    assert (Hnext : exists key ktl,
               object_tokens o ++ [punct RIGHT_CURLY "}"] = key :: ktl).
    { destruct (object_tokens o); simpl; eauto. }
    destruct Hnext as (key & ktl & Hnext).
    rewrite (bind_Ok _ _ _ (assign_entries o []) (mk toks c')); [reflexivity|].
    rewrite (bind_Ok _ _ _ key (mk toks (S c))).
    2:{ apply advanceCurrent_mk. rewrite Htoks, Hc. cbn [app].
        rewrite Hnext. apply nth_error_at1. }
    apply (object_loop_reads_as o Hall fuel toks
             (pre ++ [punct LEFT_CURLY "{"]) rest [] key ktl); auto.
    + rewrite Htoks. cbn [app]. rewrite <- !app_assoc. reflexivity.
    + rewrite length_app. cbn [List.length]. lia.
    + rewrite length_app. cbn [List.length]. lia.
    + lia.
  - (* array *)
    rewrite normalize_array.
    intros fuel toks pre rest tk tl c c' Htk Htoks Hc Hc' Hf.
    rewrite RenderFacts.tokens_of_array in *.
    inversion Htk; subst tk tl. clear Htk.
    cbn [List.length] in Hf, Hc'. rewrite length_app in Hf, Hc'.
    cbn [List.length] in Hf, Hc'.
    destruct fuel as [|[|fuel]]; try lia.
    cbn [parse_from_token token_type punct parse_array].
    assert (Hnext : exists key ktl,
               array_tokens a ++ [punct RIGHT_SQUARE "]"] = key :: ktl).
    { destruct (array_tokens a); simpl; eauto. }
    destruct Hnext as (key & ktl & Hnext).
    rewrite (bind_Ok _ _ _ (map normalize a) (mk toks c')); [reflexivity|].
    rewrite (bind_Ok _ _ _ key (mk toks (S c))).
    2:{ apply advanceCurrent_mk. rewrite Htoks, Hc. cbn [app].
        rewrite Hnext. apply nth_error_at1. }
    apply (array_loop_reads_as a IH fuel toks
             (pre ++ [punct LEFT_SQUARE "["]) rest [] key ktl); auto.
    + rewrite Htoks. cbn [app]. rewrite <- !app_assoc. reflexivity.
    + rewrite length_app. cbn [List.length]. lia.
    + rewrite length_app. cbn [List.length]. lia.
    + lia.
  - eapply reads_as_scalar; [reflexivity|]. reflexivity.
  - eapply reads_as_scalar; [reflexivity|]. reflexivity.
  - eapply reads_as_scalar; [reflexivity|]. reflexivity.
  - eapply reads_as_scalar; [reflexivity|]. reflexivity.
  - eapply reads_as_scalar; [reflexivity|]. reflexivity.
Qed.

(** [parse] over the tokens of [t], whatever tokens follow. *)
Lemma parse_tokens_of t rest fuel :
  3 * List.length (tokens_of t) <= fuel ->
  Parser.parse fuel (init (tokens_of t ++ rest))
  = Ok (normalize t) (mk (tokens_of t ++ rest) (List.length (tokens_of t))).
Proof.
  intros Hf. destruct (tokens_of_cons t) as (tk & tl & Htk).
  unfold Parser.parse.
  rewrite (bind_Ok _ _ _ tk (mk (tokens_of t ++ rest) 1)).
  2:{ apply (advanceCurrent_mk _ 0 tk). rewrite Htk. reflexivity. }
  apply (reads_as_normalize t fuel _ [] rest tk tl); auto.
Qed.

(** *** Assignment and lookup *)

Lemma string_compare_refl k : String.compare k k = Eq.
Proof.
  pose proof (String.compare_antisym k k) as A.
  destruct (String.compare k k); auto; discriminate.
Qed.

Lemma string_lt_irrefl k : ~ string_lt k k.
Proof. unfold string_lt. rewrite string_compare_refl. discriminate. Qed.

Lemma map_assign_In k v m k' v' :
  StronglySorted string_lt (keys m) ->
  In (k', v') (map_assign k v m)
  <-> (k' = k /\ v' = v) \/ (k' <> k /\ In (k', v') m).
Proof.
  induction m as [|[k0 v0] m IH]; simpl; intros Hs.
  - split.
    + intros [H|[]]. inversion H; auto.
    + intros [[-> ->]|[_ []]]. auto.
  - apply StronglySorted_inv in Hs. destruct Hs as [Hs Hk].
    fold (keys m) in Hs, Hk.
    assert (Hfresh : forall x, In (k0, x) m -> False).
    { intros x Hin. rewrite Forall_forall in Hk.
      apply (string_lt_irrefl k0), Hk.
      change k0 with (fst (k0, x)). apply in_map, Hin. }
    destruct (String.compare k k0) eqn:E; simpl.
    + apply String.compare_eq_iff in E. subst k0. split.
      * intros [H|H]; [inversion H; auto|].
        right. split; auto. intros ->. eapply Hfresh; eauto.
      * intros [[-> ->]|[Hne [H|H]]]; auto.
        inversion H; congruence.
    + assert (Hnew : forall x, In (k, x) ((k0, v0) :: m) -> False).
      { intros x [H|H].
        - inversion H; subst. eapply string_lt_irrefl; eauto.
        - rewrite Forall_forall in Hk.
          assert (Hlt : string_lt k0 k).
          { apply Hk. change k with (fst (k, x)). apply in_map, H. }
          apply (string_lt_irrefl k).
          eapply ValueFacts.string_lt_trans; eauto. }
      split.
      * intros [H|H]; [inversion H; auto|].
        right. split; auto. intros ->. eapply Hnew; eauto.
      * intros [[-> ->]|[Hne H]]; auto.
    + rewrite IH by exact Hs. split.
      * intros [H|[H|[Hne H]]]; auto.
        inversion H; subst. right. split; auto.
        intros ->. rewrite string_compare_refl in E. discriminate.
      * intros [H|[Hne [H|H]]]; auto.
Qed.

Lemma assign_entries_sorted l : forall acc,
  Sorted string_lt (keys acc) -> Sorted string_lt (keys (assign_entries l acc)).
Proof.
  induction l as [|[k x] l IH]; intros acc Hs; simpl; auto.
  apply IH, ValueFacts.map_assign_sorted, Hs.
Qed.

Lemma assign_entries_In l : forall acc k v,
  Sorted string_lt (keys acc) ->
  In (k, v) (assign_entries l acc)
  <-> match last_value k l with
      | Some x => v = normalize x
      | None => In (k, v) acc
      end.
Proof.
  induction l as [|[k0 x] l IH]; intros acc k v Hs; cbn [last_value].
  - reflexivity.
  - change (assign_entries ((k0, x) :: l) acc)
      with (assign_entries l (map_assign k0 (normalize x) acc)).
    rewrite IH by (apply ValueFacts.map_assign_sorted, Hs).
    destruct (last_value k l) as [y|]; [reflexivity|].
    rewrite map_assign_In
      by (apply Sorted_StronglySorted; [exact string_lt_Transitive|exact Hs]).
    destruct (String.eqb_spec k k0) as [->|Hne].
    + split; [intros [[_ H]|[H _]]; congruence|auto].
    + split; [intros [[H _]|[_ H]]; [congruence|exact H]|auto].
Qed.

End ParseSpelling.

(** ** Values that parse can deliver *)

Module ValueShape.

Lemma sorted_NoDup l : Sorted string_lt l -> NoDup l.
Proof.
  intros H. apply Sorted_StronglySorted in H;
    [|exact ParseTokens.string_lt_Transitive].
  induction H as [|k l Hs IH Hk]; constructor; auto.
  intros Hin. rewrite Forall_forall in Hk.
  exact (ParseSpelling.string_lt_irrefl k (Hk k Hin)).
Qed.

Lemma unique_keys_object o :
  unique_keys (JObject o)
  <-> NoDup (keys o) /\ Forall (fun kv => unique_keys (snd kv)) o.
Proof.
  cbn [unique_keys].
  rewrite (ValueFacts.entries_Forall (fun _ x => unique_keys x)). reflexivity.
Qed.

Lemma unique_keys_array a : unique_keys (JArray a) <-> Forall unique_keys a.
Proof. cbn [unique_keys]. apply ValueFacts.items_Forall. Qed.

Lemma leaves_scannable_object o :
  leaves_scannable (JObject o)
  <-> Forall (fun kv => absent dquote (fst kv) /\ leaves_scannable (snd kv)) o.
Proof.
  cbn [leaves_scannable].
  apply (ValueFacts.entries_Forall
           (fun k x => absent dquote k /\ leaves_scannable x)).
Qed.

Lemma leaves_scannable_array a :
  leaves_scannable (JArray a) <-> Forall leaves_scannable a.
Proof. cbn [leaves_scannable]. apply ValueFacts.items_Forall. Qed.

Lemma canonical_unique_keys v : canonical v -> unique_keys v.
Proof.
  induction v as [o IH|a IH| | | | |] using JsonValue_ind;
    try (intros; exact I).
  - rewrite ValueFacts.canonical_object, unique_keys_object. intros [Hs Hf].
    split; [apply sorted_NoDup, Hs|]. rewrite Forall_forall in *.
    intros kv Hin. apply IH; auto. apply Hf; auto.
  - rewrite ValueFacts.canonical_array, unique_keys_array. intros Hf.
    rewrite Forall_forall in *. intros x Hin. apply IH; auto.
Qed.

Lemma canonical_leaves v : canonical v -> leaves_scannable v.
Proof.
  induction v as [o IH|a IH| | | | |] using JsonValue_ind;
    try (intros H; exact H).
  - rewrite ValueFacts.canonical_object, leaves_scannable_object.
    intros [_ Hf]. rewrite Forall_forall in *.
    intros kv Hin. destruct (Hf kv Hin). split; auto.
  - rewrite ValueFacts.canonical_array, leaves_scannable_array. intros Hf.
    rewrite Forall_forall in *. intros x Hin. apply IH; auto.
Qed.

End ValueShape.

(** ** Rendered texts *)

Module Rendered.

(** The scanner reads the text of a value as the tokens of the value. *)
Lemma scan_print_json v indent :
  canonical v -> no_double v ->
  scan (print_json v indent)
  = Returns (tokens_of v ++ [mkToken EOF_TOKEN monostate]).
Proof.
  intros Hc Hn.
  destruct (ScanText.scan_lexes ends_ok (print_json v indent) (tokens_of v)
              (scan_fuel (print_json v indent))
              (RenderFacts.lexes_value v Hc Hn indent) I (le_n _))
    as [s' Hs].
  unfold scan. rewrite Hs. reflexivity.
Qed.

(** Parsing the text of a value gives the value back. *)
Lemma parse_print_json v indent :
  canonical v -> no_double v -> parse (print_json v indent) = Returns v.
Proof.
  intros Hc Hn. unfold parse. rewrite (scan_print_json v indent Hc Hn).
  set (toks := tokens_of v ++ [mkToken EOF_TOKEN monostate]).
  destruct (ParseTokens.tokens_of_cons v) as (tk & tl & Htk).
  unfold Parser.parse.
  rewrite (ParserFacts.bind_Ok _ _ _ tk (Parser.mk toks 1)).
  2:{ apply (ParserFacts.advanceCurrent_mk toks 0 tk).
      unfold toks. rewrite Htk. reflexivity. }
  rewrite (ParseTokens.canonical_reads_back v Hc (parse_fuel toks) toks []
             [mkToken EOF_TOKEN monostate] tk tl 1
             (List.length (tokens_of v)));
    auto.
  unfold parse_fuel, toks. rewrite length_app. lia.
Qed.

End Rendered.

(** ** Whole runs of the parser *)

Module ParseRun.

Lemma scanned_tokens body :
  Forall wf_token body ->
  ends_with_eof (body ++ [mkToken EOF_TOKEN monostate])
  /\ Forall wf_or_eof (body ++ [mkToken EOF_TOKEN monostate]).
Proof.
  intros Hwf. split.
  - exists body, (mkToken EOF_TOKEN monostate). split; reflexivity.
  - apply Forall_app. split.
    + eapply Forall_impl; [|exact Hwf]. intros tk Htk. left. exact Htk.
    + constructor; [right; reflexivity|constructor].
Qed.

(** Over the tokens of a scan, with the fuel [parse] gives it, the parser
    returns or throws an error of the grammar. *)
Lemma parse_outcome toks :
  ends_with_eof toks -> Forall wf_or_eof toks ->
  match Parser.parse (parse_fuel toks) (Parser.init toks) with
  | Ok _ _ => True
  | Throw e _ => syntax_error e
  | Fault => False
  | OutOfFuel => False
  end.
Proof.
  intros He Hwf. unfold Parser.parse, bind.
  assert (H0 : 0 < List.length toks).
  { destruct He as (b & e & -> & _). rewrite length_app. simpl. lia. }
  destruct (ParserFacts.token_at_some (Parser.init toks) H0) as [tk Hn].
  rewrite (ParserFacts.advanceCurrent_some _ _ Hn). cbv beta iota.
  destruct (ParserFacts.parser_good toks He (parse_fuel toks)) as (Hv & _).
  specialize (Hv tk 1 (ParserFacts.ready_next _ _ _ He Hn)).
  destruct (ParserOutcomes.parser_throws toks Hwf (parse_fuel toks))
    as (Ht & _).
  specialize (Ht tk 1).
  unfold Parser.incr_current, Parser.init in *. simpl Parser.tokens in *.
  simpl Parser.current in *.
  destruct (Parser.parse_from_token (parse_fuel toks) tk (Parser.mk toks 1))
    as [v p'|e p'| |]; simpl in Hv; auto.
  - eapply Ht; eauto. eapply ParserFacts.wf_or_eof_nth; eauto.
  - unfold parse_fuel in Hv. lia.
Qed.

End ParseRun.

(** ** The scanner inside a longer text *)

Module ScanInside.
Import Scanner ScanState ScannerFacts ScanToken ScanLexeme ScanText.

Lemma blind_isdigit : blind isdigit.
Proof.
  intros c H. unfold is_blank in H. apply orb_prop in H.
  destruct H as [H|H]; apply Ascii.eqb_eq in H; subst c; reflexivity.
Qed.

Lemma blind_isalpha : blind isalpha.
Proof.
  intros c H. unfold is_blank in H. apply orb_prop in H.
  destruct H as [H|H]; apply Ascii.eqb_eq in H; subst c; reflexivity.
Qed.

Lemma blind_point : blind (fun c => (c =? ".")%char).
Proof.
  intros c H. unfold is_blank in H. apply orb_prop in H.
  destruct H as [H|H]; apply Ascii.eqb_eq in H; subst c; reflexivity.
Qed.

Lemma blind_not_dquote : blind (fun c => negb (c =? dquote)%char).
Proof.
  intros c H. unfold is_blank in H. apply orb_prop in H.
  destruct H as [H|H]; apply Ascii.eqb_eq in H; subst c; reflexivity.
Qed.

Lemma blanks_absent_dquote ws : all_chars is_blank ws -> absent dquote ws.
Proof.
  induction ws as [|c ws IH]; simpl; auto. intros [Hc H]. split; auto.
  intros ->. discriminate.
Qed.

Lemma substring_prefix x post : forall a n,
  a + n <= String.length x -> substring a n (x ++ post) = substring a n x.
Proof.
  induction x as [|c x IH]; intros a n H; simpl in H.
  - assert (a = 0) by lia. assert (n = 0) by lia. subst.
    simpl. destruct post; reflexivity.
  - destruct a as [|a]; simpl.
    + destruct n as [|n]; [reflexivity|]. f_equal. apply (IH 0 n). lia.
    + apply IH. lia.
Qed.

Lemma substring_inside pre x post a n :
  a + n <= String.length x ->
  substring (String.length pre + a) n (pre ++ x ++ post) = substring a n x.
Proof.
  intros H. induction pre as [|c pre IH]; simpl; auto.
  apply substring_prefix, H.
Qed.

Section Inside.
Variables (pre post : string) (T : list Token).
Hypothesis Hq : quiet post.

Local Abbreviation inside := (inside pre post T).
Local Abbreviation mirrors := (mirrors pre post T).

Lemma inside_incr s s2 : inside s s2 -> inside (incr_current s) (incr_current s2).
Proof.
  intros (H1 & H2 & H3 & H4). repeat split; simpl; auto. lia.
Qed.

Lemma inside_adv n s s2 : inside s s2 -> inside (adv n s) (adv n s2).
Proof.
  intros (H1 & H2 & H3 & H4). repeat split; simpl; auto. lia.
Qed.

Lemma inside_line s s2 : inside s s2 -> inside (incr_line s) (incr_line s2).
Proof. intros (H1 & H2 & H3 & H4). repeat split; simpl; auto. Qed.

Lemma inside_push tk s s2 :
  inside s s2 -> inside (push_back tk s) (push_back tk s2).
Proof.
  intros (H1 & H2 & H3 & H4). repeat split; simpl; auto.
  rewrite H4. rewrite app_assoc. reflexivity.
Qed.

(** The character at index [i] of the text, a space beyond its end, as
    [p] sees it. *)
Lemma get_inside p x i :
  blind p -> i <= String.length x ->
  p (match String.get (String.length pre + i) (pre ++ x ++ post) with
     | Some c => c
     | None => space
     end)
  = p (match String.get i x with Some c => c | None => space end).
Proof.
  intros Hp Hi. rewrite get_append_r.
  destruct (Nat.eq_dec i (String.length x)) as [->|Hne].
  - rewrite (get_none x) by lia.
    rewrite <- (Nat.add_0_r (String.length x)), get_append_r.
    destruct post as [|c post']; simpl; auto.
  - rewrite get_append_l by lia. reflexivity.
Qed.

Lemma peek_inside p s s2 :
  blind p -> inside s s2 -> current s <= String.length (str s) ->
  p (peek s2) = p (peek s).
Proof.
  intros Hp (H1 & _ & H3 & _) Hc. unfold peek. rewrite H1, H3.
  apply get_inside; auto.
Qed.

Lemma peek_next_inside p s s2 :
  blind p -> inside s s2 -> current s < String.length (str s) ->
  p (peek_next s2) = p (peek_next s).
Proof.
  intros Hp (H1 & _ & H3 & _) Hc. unfold peek_next. rewrite H1, H3.
  rewrite <- Nat.add_assoc. apply get_inside; auto. lia.
Qed.

Lemma get_cursor_inside s s2 :
  inside s s2 -> current s < String.length (str s) ->
  String.get (current s2) (str s2) = String.get (current s) (str s).
Proof.
  intros (H1 & _ & H3 & _) Hc. rewrite H1, H3, get_append_r.
  apply get_append_l, Hc.
Qed.

Lemma isLast_inside s s2 :
  inside s s2 -> current s < String.length (str s) -> isLast s2 = false.
Proof.
  intros (H1 & _ & H3 & _) Hc. apply isLast_false.
  rewrite H1, H3, !length_append. lia.
Qed.

Lemma lexeme_inside s s2 :
  inside s s2 -> start s <= current s -> current s <= String.length (str s) ->
  lexeme s2 = lexeme s.
Proof.
  intros (H1 & H2 & H3 & _) Hs Hc. unfold lexeme. rewrite H1, H2, H3.
  replace (String.length pre + current s - (String.length pre + start s))
    with (current s - start s) by lia.
  apply substring_inside. lia.
Qed.

Lemma advance_inside s s2 :
  inside s s2 -> current s < String.length (str s) ->
  exists c, advanceCurrent s = Ok c (incr_current s)
            /\ advanceCurrent s2 = Ok c (incr_current s2).
Proof.
  intros Hin Hc. destruct (get_some _ _ Hc) as [c Hg]. exists c. split.
  - apply advanceCurrent_get, Hg.
  - apply advanceCurrent_get. rewrite (get_cursor_inside _ _ Hin Hc). exact Hg.
Qed.

(** A loop that moves the cursor over the characters that satisfy [p]
    stops at the same character. *)
Lemma run_inside p F1 F2 s s2 :
  blind p -> p space = false -> inside s s2 ->
  current s <= String.length (str s) ->
  String.length (str s) <= F1 -> String.length (str s) <= F2 ->
  exists n,
    while_ F1 (cond_of p) (modify incr_current) s = Ok tt (adv n s)
    /\ while_ F2 (cond_of p) (modify incr_current) s2 = Ok tt (adv n s2)
    /\ n + current s <= String.length (str s)
    /\ p (peek (adv n s)) = false.
Proof.
  intros Hp Hsp Hin Hc HF1 HF2.
  destruct (while_total F1 (cond_of p) s) as (n & Hw & Hn & Hi & Hb).
  { intros s' H. rewrite cond_of_peek in H. apply peek_in_bounds.
    intros E. rewrite E in H. congruence. }
  { lia. }
  specialize (Hb Hc). exists n. split; [exact Hw|]. split; [|split; auto].
  - apply while_exact.
    + lia.
    + intros i Hlt. rewrite cond_of_peek.
      rewrite (peek_inside p (adv i s) (adv i s2) Hp (inside_adv i _ _ Hin)).
      * rewrite <- cond_of_peek. apply Hi, Hlt.
      * simpl. lia.
    + rewrite cond_of_peek.
      rewrite (peek_inside p (adv n s) (adv n s2) Hp (inside_adv n _ _ Hin)).
      * rewrite <- cond_of_peek. exact Hn.
      * simpl. lia.
  - rewrite <- cond_of_peek. exact Hn.
Qed.


Ltac same := intros _; eexists; reflexivity.

Lemma addNumber_inside F1 F2 s s2 :
  inside s s2 -> start s <= current s ->
  current s <= String.length (str s) ->
  String.length (str s) <= F1 -> String.length (str s) <= F2 ->
  mirrors (addNumber F1 s) (addNumber F2 s2).
Proof.
  intros Hin Hst Hc HF1 HF2. unfold addNumber, bind.
  destruct (run_inside isdigit F1 F2 s s2 blind_isdigit eq_refl Hin Hc HF1 HF2)
    as (n & Hw & Hw2 & Hb & _).
  rewrite Hw, Hw2. cbv beta iota. rewrite !getCurrValue_peek. cbv beta iota.
  pose proof (inside_adv n _ _ Hin) as Hin1.
  assert (Ep : (peek (adv n s2) =? ".")%char = (peek (adv n s) =? ".")%char).
  { apply (peek_inside (fun c => (c =? ".")%char) _ _ blind_point Hin1).
    simpl. lia. }
  rewrite Ep. destruct (peek (adv n s) =? ".")%char eqn:Ed.
  - assert (Hlt : current (adv n s) < String.length (str (adv n s))).
    { apply peek_in_bounds. intros E. rewrite E in Ed. discriminate. }
    rewrite !getNextValue_peek. cbv beta iota.
    rewrite (peek_next_inside isdigit _ _ blind_isdigit Hin1 Hlt).
    destruct (isdigit (peek_next (adv n s))) eqn:Ed2; cbn [negb]; mred;
      [|simpl; same].
    apply isdigit_not_space, peek_next_in_bounds in Ed2.
    pose proof (inside_incr _ _ Hin1) as Hin2.
    destruct (run_inside isdigit F1 F2 _ _ blind_isdigit eq_refl Hin2)
      as (m & Hv & Hv2 & Hb2 & _); sstate; try lia.
    rewrite Hv, Hv2. mred.
    pose proof (inside_adv m _ _ Hin2) as Hin3.
    rewrite (lexeme_inside _ _ Hin3) by (sstate; lia).
    destruct (stod (lexeme (adv m (incr_current (adv n s))))); mred;
      simpl; [same|].
    eexists. split; [reflexivity|]. apply inside_push, Hin3.
  - mred. rewrite (lexeme_inside _ _ Hin1) by (sstate; lia).
    destruct (stoi (lexeme (adv n s))); mred; simpl; [same|].
    eexists. split; [reflexivity|]. apply inside_push, Hin1.
Qed.

Lemma addKeyword_inside F1 F2 s s2 :
  inside s s2 -> start s <= current s ->
  current s <= String.length (str s) ->
  String.length (str s) <= F1 -> String.length (str s) <= F2 ->
  mirrors (addKeyword F1 s) (addKeyword F2 s2).
Proof.
  intros Hin Hst Hc HF1 HF2. unfold addKeyword, bind.
  destruct (run_inside isalpha F1 F2 s s2 blind_isalpha eq_refl Hin Hc HF1 HF2)
    as (n & Hw & Hw2 & Hb & _).
  rewrite Hw, Hw2. mred.
  pose proof (inside_adv n _ _ Hin) as Hin1.
  rewrite (lexeme_inside _ _ Hin1) by (sstate; lia).
  destruct (lexeme (adv n s) =? "true")%string;
    [|destruct (lexeme (adv n s) =? "false")%string;
      [|destruct (lexeme (adv n s) =? "null")%string]];
    mred; simpl; try same;
    (eexists; split; [reflexivity|]; apply inside_push, Hin1).
Qed.

Lemma get_post s s2 j :
  inside s s2 ->
  String.get (j + String.length (str s) + String.length pre) (str s2)
  = String.get j post.
Proof.
  intros (H1 & _). rewrite H1.
  replace (j + String.length (str s) + String.length pre)
    with (String.length pre + (String.length (str s) + j)) by lia.
  rewrite !get_append_r. reflexivity.
Qed.

Lemma addString_inside F1 F2 s s2 :
  inside s s2 -> start s + 1 = current s ->
  current s <= String.length (str s) ->
  String.length (str s) <= F1 -> String.length (str s2) <= F2 ->
  mirrors (addString F1 s) (addString F2 s2).
Proof.
  intros Hin Hst Hc HF1 HF2.
  assert (Hlen : String.length (str s2)
                 = String.length pre + String.length (str s)
                   + String.length post).
  { destruct Hin as (H1 & _). rewrite H1, !length_append. lia. }
  unfold addString, bind.
  set (cond := fun s => cond_of (fun c => negb (c =? dquote)%char) s
                        && negb (isLast s)).
  destruct (while_total F1 cond s) as (n & Hw & Hn & Hi & Hb).
  { intros s' H. apply andb_prop in H. destruct H as [_ H].
    apply negb_true_iff in H. apply isLast_false. exact H. }
  { lia. }
  specialize (Hb Hc). rewrite Hw. mred.
  pose proof (inside_adv n _ _ Hin) as Hin1.
  assert (Hrun : forall i, i < n -> cond (adv i s2) = true).
  { intros i Hlt. specialize (Hi i Hlt). unfold cond in *.
    apply andb_prop in Hi. destruct Hi as [Hi1 Hi2].
    apply negb_true_iff, isLast_false in Hi2.
    rewrite cond_of_peek in *.
    rewrite (peek_inside _ _ _ blind_not_dquote (inside_adv i _ _ Hin))
      by (sstate; lia).
    rewrite Hi1. rewrite (isLast_inside _ _ (inside_adv i _ _ Hin) Hi2).
    reflexivity. }
  destruct (isLast (adv n s)) eqn:El; mred.
  - (* the text ends inside the literal *)
    simpl. intros Habs. apply isLast_true in El. sstate.
    assert (Hw2 : while_ F2 cond (modify incr_current) s2
                  = Ok tt (adv (n + String.length post) s2)).
    { apply while_exact.
      - lia.
      - intros i Hlt. destruct (Nat.lt_ge_cases i n) as [Hi'|Hi'];
          [apply Hrun, Hi'|].
        unfold cond. rewrite cond_of_peek. unfold peek. sstate.
        destruct Hin as (H1 & H2 & H3 & H4).
        replace (i + current s2)
          with ((i - n) + String.length (str s) + String.length pre) by lia.
        rewrite (get_post s s2 (i - n)) by (repeat split; auto).
        destruct (get_some post (i - n) ltac:(lia)) as [c Hg]. rewrite Hg.
        assert (Hne : c <> dquote) by (eapply ScanLoop.absent_get; eauto).
        apply Ascii.eqb_neq in Hne. rewrite Hne. cbn [negb andb].
        apply negb_true_iff, isLast_false. sstate. lia.
      - unfold cond. replace (isLast (adv (n + String.length post) s2))
          with true; [apply andb_false_r|].
        symmetry. apply isLast_true. sstate. destruct Hin as (_ & _ & H3 & _).
        lia. }
    rewrite Hw2. mred.
    replace (isLast (adv (n + String.length post) s2)) with true.
    + mred. eexists. reflexivity.
    + symmetry. apply isLast_true. sstate. destruct Hin as (_ & _ & H3 & _).
      lia.
  - (* a double quote closes the literal *)
    apply isLast_false in El. sstate.
    assert (Hw2 : while_ F2 cond (modify incr_current) s2 = Ok tt (adv n s2)).
    { apply while_exact; auto.
      - lia.
      - unfold cond in *. rewrite cond_of_peek in *.
        rewrite (peek_inside _ _ _ blind_not_dquote Hin1) by (sstate; lia).
        apply andb_false_iff in Hn. destruct Hn as [Hn|Hn].
        + rewrite Hn. reflexivity.
        + apply negb_false_iff, isLast_true in Hn. sstate. lia. }
    rewrite Hw2. mred.
    rewrite (isLast_inside _ _ Hin1) by (sstate; lia). mred. sstate.
    destruct Hin as (H1 & H2 & H3 & H4). rewrite H1, H2, H3.
    replace (String.length pre + start s + 1)
      with (String.length pre + (start s + 1)) by lia.
    replace (S (n + (String.length pre + current s))
             - (String.length pre + start s) - 2)
      with (S (n + current s) - start s - 2) by lia.
    rewrite substring_inside by lia.
    simpl. eexists. split; [reflexivity|].
    repeat split; sstate; auto; try lia.
    rewrite H4, app_assoc. reflexivity.
Qed.

Lemma scanToken_inside F1 F2 s s2 :
  inside s s2 -> start s = current s ->
  current s < String.length (str s) ->
  String.length (str s) <= F1 -> String.length (str s2) <= F2 ->
  mirrors (scanToken F1 s) (scanToken F2 s2).
Proof.
  intros Hin Hst Hc HF1 HF2.
  assert (HF2' : String.length (str s) <= F2).
  { destruct Hin as (H1 & _). rewrite H1, !length_append in HF2. lia. }
  unfold scanToken.
  destruct (advance_inside _ _ Hin Hc) as (c & A1 & A2).
  rewrite (ParserFacts.bind_Ok _ _ _ _ _ A1), (ParserFacts.bind_Ok _ _ _ _ _ A2).
  pose proof (inside_incr _ _ Hin) as Hin1.
  assert (Hpunct : forall ty,
             mirrors (punctuation ty c (incr_current s))
                     (punctuation ty c (incr_current s2))).
  { intros ty. unfold punctuation. mred. simpl.
    eexists. split; [reflexivity|]. apply inside_push, Hin1. }
  repeat match goal with
         | |- mirrors ((if ?b then _ else _) _) _ => destruct b eqn:?
         end; auto.
  - mred. simpl. eexists. split; [reflexivity|]. apply inside_line, Hin1.
  - mred. simpl. eexists. split; [reflexivity|]. exact Hin1.
  - apply addString_inside; sstate; auto; lia.
  - unfold bind. rewrite !getCurrValue_peek. cbv beta iota.
    rewrite (peek_inside isdigit _ _ blind_isdigit Hin1) by (sstate; lia).
    destruct (isdigit (peek (incr_current s))) eqn:Ed; [|mred; simpl; same].
    pose proof (peek_in_bounds _ (isdigit_not_space _ Ed)) as Hb.
    destruct (advance_inside _ _ Hin1 Hb) as (c' & B1 & B2).
    rewrite B1, B2. cbv beta iota.
    apply addNumber_inside; sstate; auto; try lia.
    apply inside_incr, Hin1.
  - apply addNumber_inside; sstate; auto; lia.
  - apply addKeyword_inside; sstate; auto; lia.
  - mred. simpl. same.
Qed.

Lemma inside_set_start s s2 :
  inside s s2 -> inside (set_start s) (set_start s2).
Proof. intros (H1 & H2 & H3 & H4). repeat split; simpl; auto. Qed.

(** The loop of [scan], run on the text and inside the longer text. *)
Lemma loop_inside F1 F2 k : forall s s2,
  inside (set_start s) (set_start s2) ->
  current s <= String.length (str s) ->
  String.length (str s) <= F1 -> String.length (str s2) <= F2 ->
  String.length (str s) - current s <= k ->
  match while_ k more (body F1) s with
  | Ok _ s' =>
      exists n s2',
        n <= String.length (str s) - current s
        /\ steps F2 n s2 s2'
        /\ inside (set_start s') (set_start s2')
        /\ current s' = String.length (str s') /\ str s' = str s
  | Throw e _ =>
      absent dquote post ->
      exists n s2',
        n < String.length (str s) - current s
        /\ forall j, while_ (n + S j) more (body F2) s2 = Throw e s2'
  | Fault => True
  | OutOfFuel => True
  end.
Proof.
  induction k as [|k IH]; intros s s2 Hin Hc HF1 HF2 Hk.
  - cbn [while_]. unfold more. destruct (isLast s) eqn:E; cbn [negb]; auto.
    apply isLast_true in E. exists 0, s2.
    split; [lia|]. split; [intros j; reflexivity|]. split; [exact Hin|].
    split; [lia|reflexivity].
  - cbn [while_]. unfold more at 1. destruct (isLast s) eqn:E; cbn [negb].
    { apply isLast_true in E. exists 0, s2.
      split; [lia|]. split; [intros j; reflexivity|]. split; [exact Hin|].
      split; [lia|reflexivity]. }
    apply isLast_false in E. rewrite body_eq.
    pose proof (scanToken_post F1 (set_start s)) as HP. sstate.
    specialize (HP eq_refl E HF1).
    pose proof (scanToken_inside F1 F2 (set_start s) (set_start s2) Hin)
      as HS.
    sstate. specialize (HS eq_refl E HF1 HF2).
    assert (Hl2 : isLast s2 = false).
    { apply isLast_false. destruct Hin as (H1 & _ & H3 & _). sstate.
      rewrite H1, H3, !length_append. lia. }
    destruct (scanToken F1 (set_start s)) as [u s1|e s1| |]; sstate; auto.
    + destruct HS as (s21 & HS & Hin1). destruct HP as (Hs & Hb & _).
      assert (Hstep : steps F2 1 s2 s21).
      { apply steps_one; auto. rewrite body_eq. destruct u. exact HS. }
      specialize (IH s1 s21 (inside_set_start _ _ Hin1)).
      rewrite Hs in IH.
      assert (Hstr : str s21 = str s2).
      { destruct Hin1 as (H1 & _). destruct Hin as (H1' & _). sstate.
        rewrite H1, H1', Hs. reflexivity. }
      rewrite Hstr in IH.
      specialize (IH ltac:(lia) HF1 HF2 ltac:(lia)).
      destruct (while_ k more (body F1) s1) as [u' s'|e s'| |]; auto.
      * destruct IH as (n & s2' & Hn & Hsteps & Hin' & Hc' & Hs').
        exists (1 + n), s2'.
        split; [lia|]. split; [eapply steps_trans; eauto|].
        split; [exact Hin'|]. split; [exact Hc'|congruence].
      * intros Habs. destruct (IH Habs) as (n & s2' & Hn & Hthrow).
        exists (S n), s2'. split; [lia|]. intros j.
        rewrite <- (Hthrow j). apply (Hstep (n + S j)).
    + intros Habs. destruct (HS Habs) as [s2' HS'].
      exists 0, s2'. split; [lia|]. intros j.
      apply while_throw; auto.
Qed.

End Inside.

End ScanInside.

(** ** Texts put together *)

Module ScanJoin.
Import ScanState ScannerFacts ScanToken ScanLexeme ScanText LexFacts.

Lemma scan_steps big n s' :
  steps (String.length big) n (Scanner.init big) s' ->
  n <= String.length big -> Scanner.isLast s' = true ->
  scan big = Returns (Scanner.tokens s' ++ [mkToken EOF_TOKEN monostate]).
Proof.
  intros Hs Hn Hl. unfold scan, scan_fuel. rewrite scan_unfold. unfold bind.
  replace (String.length big) with (n + (String.length big - n)) at 1 by lia.
  rewrite (Hs (String.length big - n)), (while_done _ _ _ Hl). reflexivity.
Qed.

Lemma scan_steps_throw big n m s1 s' e :
  steps (String.length big) n (Scanner.init big) s1 ->
  (forall j, while_ (m + S j) more (body (String.length big)) s1 = Throw e s') ->
  n + m < String.length big ->
  scan big = Throws e.
Proof.
  intros Hs Ht Hn. unfold scan, scan_fuel. rewrite scan_unfold. unfold bind.
  replace (String.length big)
    with (n + (m + S (String.length big - n - m - 1))) at 1 by lia.
  rewrite (Hs _), (Ht _). reflexivity.
Qed.

(** The loop of [scan] over the text [a], and from a state that stands
    before [a] inside a longer text. *)
Lemma scan_embedded pre a post T s2 :
  quiet post ->
  Scanner.str s2 = (pre ++ a ++ post)%string ->
  Scanner.current s2 = String.length pre -> Scanner.tokens s2 = T ->
  match while_ (String.length a) more (body (String.length a))
               (Scanner.init a) with
  | Ok _ s1 =>
      exists n s2',
        n <= String.length a
        /\ steps (String.length (Scanner.str s2)) n s2 s2'
        /\ at_split s2' (pre ++ a) post
        /\ Scanner.tokens s2' = T ++ Scanner.tokens s1
  | Throw e _ =>
      absent dquote post ->
      exists n s2',
        n < String.length a
        /\ forall j, while_ (n + S j) more
                       (body (String.length (Scanner.str s2))) s2
                     = Throw e s2'
  | Fault => False
  | OutOfFuel => False
  end.
Proof.
  intros Hq Hstr Hcur Htok.
  pose proof (ScanInside.loop_inside pre post T Hq (String.length a)
                (String.length (Scanner.str s2)) (String.length a)
                (Scanner.init a) s2) as HL.
  pose proof (scan_loop_post (String.length a) (String.length a)
                (Scanner.init a)) as HP.
  simpl in HP. specialize (HP (le_n _) ltac:(lia) ltac:(lia)).
  simpl in HL.
  assert (Hin : inside pre post T (Scanner.set_start (Scanner.init a))
                       (Scanner.set_start s2)).
  { repeat split; simpl; auto; try lia. rewrite app_nil_r. exact Htok. }
  specialize (HL Hin ltac:(lia) (le_n _) (le_n _) ltac:(lia)).
  fold more in HP. change (modify Scanner.set_start ;; Scanner.scanToken
                             (String.length a))%monad
    with (body (String.length a)) in HP.
  destruct (while_ (String.length a) more (body (String.length a))
              (Scanner.init a)) as [u s1|e s1| |];
    cbn [loop_post] in HP; try contradiction.
  2:{ intros Habs. destruct (HL Habs) as (n & s2' & Hn & Ht).
      exists n, s2'. split; [lia|exact Ht]. }
  destruct HL as (n & s2' & Hn & Hsteps & Hin' & Hc' & Hs').
  simpl in Hs'. exists n, s2'. split; [lia|]. split; [exact Hsteps|].
  destruct Hin' as (H1 & _ & H3 & H4). simpl in H1, H3, H4.
  split; [|exact H4]. split.
  - rewrite H1, Hs', append_assoc. reflexivity.
  - rewrite H3, Hc', Hs', length_append. reflexivity.
Qed.

Lemma blanks_quiet ws : all_chars is_blank ws -> quiet ws.
Proof. destruct ws; simpl; tauto. Qed.

(** Spaces and newlines around a text do not change its scan. *)
Lemma scan_padded ws a ws' :
  all_chars is_blank ws -> all_chars is_blank ws' ->
  scan (ws ++ a ++ ws') = scan a.
Proof.
  intros Hws Hws'.
  set (big := (ws ++ a ++ ws')%string).
  destruct (ScanErrors.lexes_blanks ws Hws (String.length big) EmptyString
              (a ++ ws')%string (Scanner.init big))
    as (n0 & s0 & Hn0 & Hs0 & Ha0 & Ht0); auto.
  { split; reflexivity. }
  { exact I. }
  destruct Ha0 as [Hstr0 Hcur0]. cbn [append] in Hstr0, Hcur0.
  simpl in Ht0.
  pose proof (scan_embedded ws a ws' [] s0 (blanks_quiet ws' Hws')
                Hstr0 Hcur0 Ht0) as HE.
  rewrite Hstr0 in HE. fold big in HE.
  unfold scan at 2. unfold scan_fuel. rewrite scan_unfold. unfold bind.
  destruct (while_ (String.length a) more (body (String.length a))
              (Scanner.init a)) as [u s1|e s1| |]; try contradiction.
  - destruct HE as (n1 & s2 & Hn1 & Hs1 & Ha1 & Ht1).
    mred. cbn [observe Scanner.push_back Scanner.tokens].
    destruct (ScanErrors.lexes_blanks ws' Hws' (String.length big)
                (ws ++ a)%string EmptyString s2)
      as (n2 & s3 & Hn2 & Hs2 & Ha2 & Ht2); auto.
    { rewrite append_nil_r. exact Ha1. }
    { exact I. }
    { destruct Ha1 as [E _]. rewrite E, append_assoc. apply le_n. }
    rewrite (scan_steps big (n0 + (n1 + n2)) s3).
    + rewrite Ht2, Ht1, app_nil_r. reflexivity.
    + eapply steps_trans; [exact Hs0|]. eapply steps_trans; eauto.
    + unfold big. rewrite !length_append. lia.
    + eapply at_split_isLast_end; eauto.
  - cbn [observe].
    destruct (HE (ScanInside.blanks_absent_dquote ws' Hws'))
      as (n1 & s2 & Hn1 & Ht).
    apply (scan_steps_throw big n0 n1 s0 s2 e); auto.
    unfold big. rewrite !length_append. lia.
Qed.

(** Two texts that scan, with spaces or newlines between them. *)
Lemma scan_joined a ws b ka kb :
  all_chars is_blank ws -> ws <> EmptyString ->
  scan a = Returns (ka ++ [mkToken EOF_TOKEN monostate]) ->
  scan b = Returns (kb ++ [mkToken EOF_TOKEN monostate]) ->
  scan (a ++ ws ++ b)
  = Returns (ka ++ kb ++ [mkToken EOF_TOKEN monostate]).
Proof.
  intros Hws Hne Ha Hb.
  set (big := (a ++ ws ++ b)%string).
  assert (Hq : quiet (ws ++ b)).
  { destruct ws as [|c ws]; [congruence|]. destruct Hws as [Hc _]. exact Hc. }
  pose proof (scan_embedded EmptyString a (ws ++ b)%string []
                (Scanner.init big) Hq eq_refl eq_refl eq_refl) as HA.
  cbn [Scanner.init Scanner.str] in HA. fold big in HA.
  unfold scan, scan_fuel in Ha. rewrite scan_unfold in Ha. unfold bind in Ha.
  destruct (while_ (String.length a) more (body (String.length a))
              (Scanner.init a)) as [u s1|e s1| |]; try discriminate.
  rewrite modify_eq, gets_eq in Ha.
  cbn [observe Scanner.push_back Scanner.tokens] in Ha.
  inversion Ha as [Hka]. apply app_inj_tail in Hka. destruct Hka as [Hka _].
  destruct HA as (n1 & s2 & Hn1 & Hs1 & Ha1 & Ht1).
  cbn [append app] in Ha1, Ht1.
  destruct (ScanErrors.lexes_blanks ws Hws (String.length big) a b s2)
    as (n2 & s3 & Hn2 & Hs2 & Ha2 & Ht2); auto.
  { exact I. }
  { destruct Ha1 as [E _]. rewrite E. apply le_n. }
  destruct Ha2 as [Hstr3 Hcur3]. rewrite app_nil_r in Ht2.
  pose proof (scan_embedded (a ++ ws)%string b EmptyString
                (Scanner.tokens s3) s3 I) as HB.
  rewrite append_nil_r in HB. specialize (HB Hstr3 Hcur3 eq_refl).
  assert (Hlen3 : String.length (Scanner.str s3) = String.length big).
  { rewrite Hstr3. unfold big. rewrite append_assoc. reflexivity. }
  rewrite Hlen3 in HB.
  unfold scan, scan_fuel in Hb. rewrite scan_unfold in Hb. unfold bind in Hb.
  destruct (while_ (String.length b) more (body (String.length b))
              (Scanner.init b)) as [u' s4|e s4| |]; try discriminate.
  rewrite modify_eq, gets_eq in Hb.
  cbn [observe Scanner.push_back Scanner.tokens] in Hb.
  inversion Hb as [Hkb]. apply app_inj_tail in Hkb. destruct Hkb as [Hkb _].
  destruct HB as (n3 & s5 & Hn3 & Hs3 & Ha3 & Ht3).
  rewrite (scan_steps big (n1 + (n2 + n3)) s5).
  - rewrite Ht3, Ht2, Ht1, Hka, Hkb, <- app_assoc. reflexivity.
  - eapply steps_trans; [exact Hs1|]. eapply steps_trans; eauto.
  - unfold big. rewrite !length_append. lia.
  - eapply at_split_isLast_end; eauto.
Qed.

End ScanJoin.

(** ** The parser: more fuel changes no result *)

Module ParserFuel.
Import Parser ParseState ParserFacts.

Lemma parser_fuel_mono k :
  forall fuel,
    (forall token p v p',
        parse_from_token fuel token p = Ok v p' ->
        parse_from_token (fuel + k) token p = Ok v p')
    /\ (forall p o p',
           parse_object fuel p = Ok o p' ->
           parse_object (fuel + k) p = Ok o p')
    /\ (forall key obj p o p',
           parse_object_loop fuel key obj p = Ok o p' ->
           parse_object_loop (fuel + k) key obj p = Ok o p')
    /\ (forall p a p',
           parse_array fuel p = Ok a p' ->
           parse_array (fuel + k) p = Ok a p')
    /\ (forall token arr p a p',
           parse_array_loop fuel token arr p = Ok a p' ->
           parse_array_loop (fuel + k) token arr p = Ok a p').
Proof.
  induction fuel as [|fuel (IHv & IHo & IHol & IHa & IHal)].
  { repeat split; intros; discriminate. }
  cbn [Nat.add]. split; [|split; [|split; [|split]]].
  - (* parse_from_token *)
    intros token p v p'. cbn [parse_from_token].
    destruct (token_type token); auto.
    + intros H. apply bind_Ok_inv in H. destruct H as (o & p1 & H1 & H2).
      rewrite (bind_Ok _ _ _ _ _ (IHo _ _ _ H1)). exact H2.
    + intros H. apply bind_Ok_inv in H. destruct H as (o & p1 & H1 & H2).
      rewrite (bind_Ok _ _ _ _ _ (IHa _ _ _ H1)). exact H2.
  - (* parse_object *)
    intros p o p'. cbn [parse_object]. intros H.
    apply bind_Ok_inv in H. destruct H as (tk & p1 & H1 & H2).
    rewrite (bind_Ok _ _ _ _ _ H1). apply IHol, H2.
  - (* parse_object_loop *)
    intros key obj p o p'. cbn [parse_object_loop].
    destruct (negb (TokenType_eqb (token_type key) RIGHT_CURLY)); auto.
    destruct (TokenType_eqb (token_type key) EOF_TOKEN); auto.
    destruct (negb (TokenType_eqb (token_type key) STRING)); auto.
    intros H.
    apply bind_Ok_inv in H. destruct H as (u & p1 & H1 & H).
    rewrite (bind_Ok _ _ _ _ _ H1).
    apply bind_Ok_inv in H. destruct H as (vt & p2 & H2 & H).
    rewrite (bind_Ok _ _ _ _ _ H2).
    apply bind_Ok_inv in H. destruct H as (v & p3 & H3 & H).
    rewrite (bind_Ok _ _ _ _ _ (IHv _ _ _ _ H3)).
    apply bind_Ok_inv in H. destruct H as (k0 & p4 & H4 & H).
    rewrite (bind_Ok _ _ _ _ _ H4).
    apply bind_Ok_inv in H. destruct H as (u' & p5 & H5 & H).
    rewrite (bind_Ok _ _ _ _ _ H5).
    apply bind_Ok_inv in H. destruct H as (kt & p6 & H6 & H).
    rewrite (bind_Ok _ _ _ _ _ H6).
    apply IHol, H.
  - (* parse_array *)
    intros p a p'. cbn [parse_array]. intros H.
    apply bind_Ok_inv in H. destruct H as (tk & p1 & H1 & H2).
    rewrite (bind_Ok _ _ _ _ _ H1). apply IHal, H2.
  - (* parse_array_loop *)
    intros token arr p a p'. cbn [parse_array_loop].
    destruct (negb (TokenType_eqb (token_type token) RIGHT_SQUARE)); auto.
    destruct (TokenType_eqb (token_type token) EOF_TOKEN); auto.
    intros H.
    apply bind_Ok_inv in H. destruct H as (v & p3 & H3 & H).
    rewrite (bind_Ok _ _ _ _ _ (IHv _ _ _ _ H3)).
    apply bind_Ok_inv in H. destruct H as (u' & p5 & H5 & H).
    rewrite (bind_Ok _ _ _ _ _ H5).
    apply bind_Ok_inv in H. destruct H as (kt & p6 & H6 & H).
    rewrite (bind_Ok _ _ _ _ _ H6).
    apply IHal, H.
Qed.

(** A parse that returns from the tokens [ka] of a scan returns the same
    when further tokens stand in the place of the end marker. *)
Lemma parse_prefix ka rest v :
  rest <> [] ->
  observe (Parser.parse (parse_fuel (ka ++ [mkToken EOF_TOKEN monostate]))
             (init (ka ++ [mkToken EOF_TOKEN monostate])))
  = Returns v ->
  observe (Parser.parse (parse_fuel (ka ++ rest)) (init (ka ++ rest)))
  = Returns v.
Proof.
  intros Hne H.
  set (toks := ka ++ [mkToken EOF_TOKEN monostate]) in *.
  destruct (Parser.parse (parse_fuel toks) (init toks)) as [v' p'| | |] eqn:E;
    try discriminate.
  cbn [observe] in H. inversion H; subst v'. clear H.
  assert (He : ends_with_eof toks).
  { exists ka, (mkToken EOF_TOKEN monostate). split; reflexivity. }
  unfold Parser.parse in E.
  apply bind_Ok_inv in E. destruct E as (tk & p1 & H1 & H2).
  apply advanceCurrent_inv in H1. destruct H1 as [Hn ->]. pstate.
  destruct (parser_good toks He (parse_fuel toks)) as (Hg & _).
  specialize (Hg tk 1 (ready_next _ _ _ He Hn)). rewrite H2 in Hg.
  destruct Hg as (_ & Hge & Hlt).
  destruct (parser_local toks (parse_fuel toks)) as (Hv & _).
  destruct (Hv tk 1 v p' H2) as (_ & _ & _ & Hl).
  assert (Hlen : List.length toks = S (List.length ka)).
  { unfold toks. rewrite length_app. simpl. lia. }
  assert (Ha : agree (current p') toks (ka ++ rest)).
  { intros i Hi. unfold toks. rewrite !nth_error_app1 by lia. reflexivity. }
  assert (Hr : 1 <= List.length rest).
  { destruct rest; [congruence|simpl; lia]. }
  unfold Parser.parse.
  rewrite (bind_Ok _ _ _ tk (mk (ka ++ rest) 1)).
  2:{ apply advanceCurrent_mk. rewrite Ha by lia. exact Hn. }
  specialize (Hl _ Ha).
  replace (parse_fuel (ka ++ rest))
    with (parse_fuel toks + 3 * (List.length rest - 1)).
  2:{ unfold parse_fuel. rewrite Hlen, length_app. lia. }
  destruct (parser_fuel_mono (3 * (List.length rest - 1)) (parse_fuel toks))
    as (Hm & _).
  rewrite (Hm _ _ _ _ Hl). reflexivity.
Qed.

End ParserFuel.

(** ** The token sequences the parser accepts *)

Module ParseGrammar.
Import Parser ParseState ParserFacts ParseTokens.

Lemma spells_cons ts v : spells ts v -> exists tk tl, ts = tk :: tl.
Proof. intros H. destruct H; eauto. Qed.

Lemma skipn_nth {A} (l : list A) : forall c x,
  nth_error l c = Some x -> skipn c l = x :: skipn (S c) l.
Proof.
  induction l as [|y l IH]; intros [|c] x H; try discriminate.
  - inversion H. reflexivity.
  - simpl in H. simpl. apply IH, H.
Qed.

Lemma get_string_inr v k : get_string v = inr k -> v = VString k.
Proof. destruct v; intros H; inversion H; reflexivity. Qed.

Lemma parser_spells toks :
  forall fuel,
    (forall tk c0 v p',
        nth_error toks c0 = Some tk ->
        parse_from_token fuel tk (mk toks (S c0)) = Ok v p' ->
        exists ts, consumed toks c0 p' ts /\ spells ts v)
    /\ (forall c o p',
           parse_object fuel (mk toks c) = Ok o p' ->
           exists body cl,
             consumed toks c p' (body ++ [cl])
             /\ token_type cl = RIGHT_CURLY /\ spells_pairs body [] o)
    /\ (forall key obj c0 o p',
           nth_error toks c0 = Some key ->
           parse_object_loop fuel key obj (mk toks (S c0)) = Ok o p' ->
           exists body cl,
             consumed toks c0 p' (body ++ [cl])
             /\ token_type cl = RIGHT_CURLY /\ spells_pairs body obj o)
    /\ (forall c a p',
           parse_array fuel (mk toks c) = Ok a p' ->
           exists body cl,
             consumed toks c p' (body ++ [cl])
             /\ token_type cl = RIGHT_SQUARE /\ spells_items body [] a)
    /\ (forall token arr c0 a p',
           nth_error toks c0 = Some token ->
           parse_array_loop fuel token arr (mk toks (S c0)) = Ok a p' ->
           exists body cl,
             consumed toks c0 p' (body ++ [cl])
             /\ token_type cl = RIGHT_SQUARE /\ spells_items body arr a).
Proof.
  induction fuel as [|fuel (IHv & IHo & IHol & IHa & IHal)].
  { repeat split; intros; discriminate. }
  assert (Hone : forall tk c0, nth_error toks c0 = Some tk ->
                   consumed toks c0 (mk toks (S c0)) [tk]).
  { intros tk c0 Hn. repeat split; simpl; auto; [|lia].
    apply skipn_nth, Hn. }
  split; [|split; [|split; [|split]]].
  - (* parse_from_token *)
    intros tk c0 v p' Hn. cbn [parse_from_token].
    destruct (token_type tk) eqn:Et; try discriminate.
    + intros H. apply bind_Ok_inv in H. destruct H as (s & p1 & H1 & H2).
      apply lift_Ok_inv in H1. destruct H1 as [Hg ->].
      rewrite ret_eq in H2. inversion H2; subst.
      exists [tk]. split; auto. apply spells_string; auto.
      apply get_string_inr, Hg.
    + destruct (value tk) eqn:Ev; cbn [holds_int]; unfold bind; mred;
        try discriminate; intros H; inversion H; subst;
        exists [tk]; split; auto.
      * apply spells_int; auto.
      * apply spells_double; auto.
    + destruct (value tk) eqn:Ev; unfold bind; mred;
        try discriminate; intros H; inversion H; subst.
      exists [tk]. split; auto. apply spells_bool; auto.
    + mred. intros H; inversion H; subst.
      exists [tk]. split; auto. apply spells_null; auto.
    + intros H. apply bind_Ok_inv in H. destruct H as (o & p1 & H1 & H2).
      rewrite ret_eq in H2. inversion H2; subst.
      destruct (IHo _ _ _ H1) as (body & cl & (Ht & Hs & Hc) & Hcl & Hp).
      exists (tk :: body ++ [cl]). split.
      * repeat split; auto.
        -- rewrite (skipn_nth _ _ _ Hn), Hs. reflexivity.
        -- rewrite Hc. simpl. lia.
      * apply spells_object; auto.
    + intros H. apply bind_Ok_inv in H. destruct H as (o & p1 & H1 & H2).
      rewrite ret_eq in H2. inversion H2; subst.
      destruct (IHa _ _ _ H1) as (body & cl & (Ht & Hs & Hc) & Hcl & Hp).
      exists (tk :: body ++ [cl]). split.
      * repeat split; auto.
        -- rewrite (skipn_nth _ _ _ Hn), Hs. reflexivity.
        -- rewrite Hc. simpl. lia.
      * apply spells_array; auto.
  - (* parse_object *)
    intros c o p'. cbn [parse_object]. intros H.
    apply bind_Ok_inv in H. destruct H as (tk & p1 & H1 & H2).
    apply advanceCurrent_inv in H1. destruct H1 as [Hn ->]. pstate.
    apply (IHol _ _ _ _ _ Hn H2).
  - (* parse_object_loop *)
    intros key obj c0 o p' Hkey. cbn [parse_object_loop].
    destruct (TokenType_eqb (token_type key) RIGHT_CURLY) eqn:Ecl; cbn [negb].
    2:{
      destruct (TokenType_eqb (token_type key) EOF_TOKEN); [discriminate|].
      destruct (TokenType_eqb (token_type key) STRING) eqn:Es; cbn [negb];
        [|discriminate].
      apply TokenType_eqb_eq in Es.
      intros H.
      apply bind_Ok_inv in H. destruct H as (u & p1 & H1 & H).
      apply consume_inv in H1. destruct H1 as (ct & Hn1 & Hct & ->). pstate.
      apply bind_Ok_inv in H. destruct H as (vt & p2 & H2 & H).
      apply advanceCurrent_inv in H2. destruct H2 as [Hn2 ->]. pstate.
      apply bind_Ok_inv in H. destruct H as (v & p3 & H3 & H).
      destruct (IHv _ _ _ _ Hn2 H3) as (ts & (Ht3 & Hs3 & Hc3) & Hsp).
      destruct p3 as [toks3 c3]. pstate. subst toks3.
      apply bind_Ok_inv in H. destruct H as (k & p4 & H4 & H).
      apply lift_Ok_inv in H4. destruct H4 as [Hg ->].
      apply get_string_inr in Hg.
      apply bind_Ok_inv in H. destruct H as (u' & p5 & H5 & H).
      apply consume_until_comma_inv in H5. destruct H5 as (st & Hn5 & Hst).
      pstate.
      apply bind_Ok_inv in H. destruct H as (kt & p6 & H6 & H).
      apply advanceCurrent_inv in H6. destruct H6 as [Hn6 ->].
      assert (Hhead : skipn c0 toks = key :: ct :: ts ++ skipn c3 toks).
      { rewrite (skipn_nth _ _ _ Hkey), (skipn_nth _ _ _ Hn1), Hs3.
        reflexivity. }
      destruct Hst as [[Hcomma ->]|(Hnc & Hclose & ->)]; pstate.
      - (* a comma, then the rest of the pairs *)
        destruct (IHol _ _ _ _ _ Hn6 H)
          as (body & cl & (Ht & Hs & Hc) & Hcl & Hp).
        exists (key :: ct :: ts ++ st :: body), cl. split; [|split; auto].
        + repeat split; auto.
          * rewrite Hhead, (skipn_nth _ _ _ Hn5), Hs.
            cbn [app]. rewrite <- !app_assoc. reflexivity.
          * rewrite Hc. repeat (rewrite length_app || cbn [List.length]).
            cbn [current tokens]. lia.
        + eapply pairs_more; eauto.
      - (* the closing brace *)
        assert (kt = st) by congruence. subst kt.
        destruct fuel as [|fuel']; [discriminate|].
        rewrite object_loop_close in H by exact Hclose.
        inversion H; subst. pstate.
        exists (key :: ct :: ts), st. split; [|split; auto].
        + repeat split; auto.
          * rewrite Hhead, (skipn_nth _ _ _ Hn5).
            cbn [app]. rewrite <- !app_assoc. reflexivity.
          * cbn [List.length]. rewrite !length_app. cbn [List.length current tokens]. lia.
        + eapply pairs_last; eauto.
    }
    mred. intros H; inversion H; subst.
    apply TokenType_eqb_eq in Ecl.
    exists [], key. split; [|split; auto].
    + apply Hone, Hkey.
    + apply pairs_done.
  - (* parse_array *)
    intros c a p'. cbn [parse_array]. intros H.
    apply bind_Ok_inv in H. destruct H as (tk & p1 & H1 & H2).
    apply advanceCurrent_inv in H1. destruct H1 as [Hn ->]. pstate.
    apply (IHal _ _ _ _ _ Hn H2).
  - (* parse_array_loop *)
    intros token arr c0 a p' Htok. cbn [parse_array_loop].
    destruct (TokenType_eqb (token_type token) RIGHT_SQUARE) eqn:Ecl;
      cbn [negb].
    2:{
      destruct (TokenType_eqb (token_type token) EOF_TOKEN); [discriminate|].
      intros H.
      apply bind_Ok_inv in H. destruct H as (v & p3 & H3 & H).
      destruct (IHv _ _ _ _ Htok H3) as (ts & (Ht3 & Hs3 & Hc3) & Hsp).
      destruct p3 as [toks3 c3]. pstate. subst toks3.
      apply bind_Ok_inv in H. destruct H as (u' & p5 & H5 & H).
      apply consume_until_comma_inv in H5. destruct H5 as (st & Hn5 & Hst).
      pstate.
      apply bind_Ok_inv in H. destruct H as (kt & p6 & H6 & H).
      apply advanceCurrent_inv in H6. destruct H6 as [Hn6 ->].
      destruct Hst as [[Hcomma ->]|(Hnc & Hclose & ->)]; pstate.
      - destruct (IHal _ _ _ _ _ Hn6 H)
          as (body & cl & (Ht & Hs & Hc) & Hcl & Hp).
        exists (ts ++ st :: body), cl. split; [|split; auto].
        + repeat split; auto.
          * rewrite Hs3, (skipn_nth _ _ _ Hn5), Hs.
            cbn [app]. rewrite <- !app_assoc. reflexivity.
          * rewrite Hc. repeat (rewrite length_app || cbn [List.length]).
            cbn [current tokens]. lia.
        + eapply items_more; eauto.
      - assert (kt = st) by congruence. subst kt.
        destruct fuel as [|fuel']; [discriminate|].
        rewrite array_loop_close in H by exact Hclose.
        inversion H; subst. pstate.
        exists ts, st. split; [|split; auto].
        + repeat split; auto.
          * rewrite Hs3, (skipn_nth _ _ _ Hn5).
            rewrite <- !app_assoc. reflexivity.
          * rewrite !length_app. cbn [List.length current tokens]. lia.
        + apply items_last; auto.
    }
    mred. intros H; inversion H; subst.
    apply TokenType_eqb_eq in Ecl.
    exists [], token. split; [|split; auto].
    + apply Hone, Htok.
    + apply items_done.
Qed.

(** A parse that returns has consumed a token sequence that spells the
    value. *)
Lemma parse_spells fuel toks v p' :
  Parser.parse fuel (init toks) = Ok v p' ->
  spells (firstn (current p') toks) v.
Proof.
  unfold Parser.parse. intros H.
  apply bind_Ok_inv in H. destruct H as (tk & p1 & H1 & H2).
  apply advanceCurrent_inv in H1. destruct H1 as [Hn ->]. pstate.
  destruct (parser_spells toks fuel) as (Hv & _).
  destruct (Hv _ _ _ _ Hn H2) as (ts & (Ht & Hs & Hc) & Hsp).
  simpl in Hs, Hc. rewrite Hs, Hc.
  rewrite firstn_app, firstn_all, Nat.sub_diag. simpl.
  rewrite app_nil_r. exact Hsp.
Qed.

(** *** Every such sequence is accepted *)

Lemma nth_error_behind {A} (pre : list A) ts x suf :
  nth_error ((pre ++ ts) ++ x :: suf) (List.length pre + List.length ts)
  = Some x.
Proof. rewrite <- length_app. apply nth_error_at. Qed.

Lemma spelled_accepted :
  (forall ts v,
      spells ts v ->
      forall fuel toks pre rest tk tl,
        ts = tk :: tl -> toks = pre ++ ts ++ rest ->
        3 * List.length ts <= fuel ->
        parse_from_token fuel tk (mk toks (S (List.length pre)))
        = Ok v (mk toks (List.length pre + List.length ts)))
  /\ (forall body acc o,
         spells_pairs body acc o ->
         forall fuel toks pre cl rest tk tl,
           token_type cl = RIGHT_CURLY ->
           body ++ [cl] = tk :: tl -> toks = pre ++ (body ++ [cl]) ++ rest ->
           3 * List.length body + 1 <= fuel ->
           parse_object_loop fuel tk acc (mk toks (S (List.length pre)))
           = Ok o (mk toks (List.length pre + List.length body + 1)))
  /\ (forall body acc a,
         spells_items body acc a ->
         forall fuel toks pre cl rest tk tl,
           token_type cl = RIGHT_SQUARE ->
           body ++ [cl] = tk :: tl -> toks = pre ++ (body ++ [cl]) ++ rest ->
           3 * List.length body + 1 <= fuel ->
           parse_array_loop fuel tk acc (mk toks (S (List.length pre)))
           = Ok a (mk toks (List.length pre + List.length body + 1))).
Proof.
  apply spells_mutind.
  - (* string *)
    intros tk s Ht Hv fuel toks pre rest tk' tl E -> Hf.
    inversion E; subst tk' tl. destruct fuel; [simpl in Hf; lia|].
    cbn [parse_from_token]. rewrite Ht. unfold bind. rewrite Hv.
    cbn [get_string get_bool lift]. mred.
    do 2 f_equal. cbn [List.length]. lia.
  - (* integer *)
    intros tk i Ht Hv fuel toks pre rest tk' tl E -> Hf.
    inversion E; subst tk' tl. destruct fuel; [simpl in Hf; lia|].
    cbn [parse_from_token]. rewrite Ht. unfold bind. rewrite Hv.
    cbn [holds_int get_int get_double lift]. mred.
    do 2 f_equal. cbn [List.length]. lia.
  - (* float *)
    intros tk d Ht Hv fuel toks pre rest tk' tl E -> Hf.
    inversion E; subst tk' tl. destruct fuel; [simpl in Hf; lia|].
    cbn [parse_from_token]. rewrite Ht. unfold bind. rewrite Hv.
    cbn [holds_int get_int get_double lift]. mred.
    do 2 f_equal. cbn [List.length]. lia.
  - (* boolean *)
    intros tk b Ht Hv fuel toks pre rest tk' tl E -> Hf.
    inversion E; subst tk' tl. destruct fuel; [simpl in Hf; lia|].
    cbn [parse_from_token]. rewrite Ht. unfold bind. rewrite Hv.
    cbn [get_string get_bool lift]. mred.
    do 2 f_equal. cbn [List.length]. lia.
  - (* null *)
    intros tk Ht fuel toks pre rest tk' tl E -> Hf.
    inversion E; subst tk' tl. destruct fuel; [simpl in Hf; lia|].
    cbn [parse_from_token]. rewrite Ht. mred.
    do 2 f_equal. cbn [List.length]. lia.
  - (* object *)
    intros op body cl o Hop _ IH Hcl fuel toks pre rest tk tl E Htoks Hf.
    inversion E; subst tk tl. clear E.
    cbn [List.length] in Hf. rewrite length_app in Hf. cbn [List.length] in Hf.
    destruct fuel as [|[|fuel]]; try lia.
    cbn [parse_from_token]. rewrite Hop. cbn [parse_object].
    assert (Hnext : exists key ktl, body ++ [cl] = key :: ktl).
    { destruct body; simpl; eauto. }
    destruct Hnext as (key & ktl & Hnext).
    rewrite (bind_Ok _ _ _ o
               (mk toks (List.length pre + List.length (op :: body ++ [cl]))));
      [reflexivity|].
    rewrite (bind_Ok _ _ _ key (mk toks (S (S (List.length pre))))).
    2:{ apply advanceCurrent_mk. rewrite Htoks. cbn [app].
        rewrite Hnext. apply nth_error_at1. }
    replace (S (S (List.length pre))) with (S (List.length (pre ++ [op])))
      by len.
    rewrite (IH fuel toks (pre ++ [op]) cl rest key ktl); auto.
    + do 2 f_equal. len.
    + rewrite Htoks. cbn [app]. rewrite <- !app_assoc. reflexivity.
    + lia.
  - (* array *)
    intros op body cl a Hop _ IH Hcl fuel toks pre rest tk tl E Htoks Hf.
    inversion E; subst tk tl. clear E.
    cbn [List.length] in Hf. rewrite length_app in Hf. cbn [List.length] in Hf.
    destruct fuel as [|[|fuel]]; try lia.
    cbn [parse_from_token]. rewrite Hop. cbn [parse_array].
    assert (Hnext : exists key ktl, body ++ [cl] = key :: ktl).
    { destruct body; simpl; eauto. }
    destruct Hnext as (key & ktl & Hnext).
    rewrite (bind_Ok _ _ _ a
               (mk toks (List.length pre + List.length (op :: body ++ [cl]))));
      [reflexivity|].
    rewrite (bind_Ok _ _ _ key (mk toks (S (S (List.length pre))))).
    2:{ apply advanceCurrent_mk. rewrite Htoks. cbn [app].
        rewrite Hnext. apply nth_error_at1. }
    replace (S (S (List.length pre))) with (S (List.length (pre ++ [op])))
      by len.
    rewrite (IH fuel toks (pre ++ [op]) cl rest key ktl); auto.
    + do 2 f_equal. len.
    + rewrite Htoks. cbn [app]. rewrite <- !app_assoc. reflexivity.
    + lia.
  - (* no pair is left *)
    intros acc fuel toks pre cl rest tk tl Hcl E -> Hf.
    cbn [app] in E. inversion E; subst tk tl.
    destruct fuel as [|fuel]; [lia|].
    rewrite object_loop_close by exact Hcl. simpl. do 2 f_equal. lia.
  - (* the last pair *)
    intros key colon ts k v acc Hk Hkv Hcolon Hsp IH
           fuel toks pre cl rest tk tl Hcl E Htoks Hf.
    cbn [app] in E. inversion E; subst tk tl. clear E.
    destruct (spells_cons _ _ Hsp) as (vt & vtl & Hvt).
    cbn [List.length] in Hf.
    destruct fuel as [|fuel]; [lia|].
    set (pre2 := pre ++ [key; colon]).
    assert (Hpre2 : List.length pre2 = S (S (List.length pre))).
    { unfold pre2. rewrite length_app. simpl. lia. }
    assert (Htoks2 : toks = pre2 ++ ts ++ cl :: rest).
    { rewrite Htoks. unfold pre2. cbn [app]. rewrite <- !app_assoc.
      reflexivity. }
    set (c1 := List.length pre2 + List.length ts).
    assert (Hv : parse_from_token fuel vt (mk toks (S (S (S (List.length pre)))))
                 = Ok v (mk toks c1)).
    { rewrite <- Hpre2. apply (IH fuel toks pre2 (cl :: rest) vt vtl); auto.
      lia. }
    rewrite (object_loop_pair fuel key acc toks (S (List.length pre)) vt v c1 k);
      auto.
    2:{ rewrite Hkv. reflexivity. }
    2:{ exists colon. split; auto. rewrite Htoks. cbn [app].
        apply nth_error_at1. }
    2:{ rewrite Htoks, Hvt. cbn [app]. apply nth_error_at2. }
    rewrite (tail_close RIGHT_CURLY _ toks c1 cl).
    + destruct fuel as [|fuel]; [lia|].
      rewrite object_loop_close by exact Hcl.
      do 2 f_equal. unfold c1. rewrite Hpre2. cbn [List.length]. lia.
    + rewrite Htoks2. unfold c1. rewrite app_assoc. apply nth_error_behind.
    + exact Hcl.
    + discriminate.
  - (* a pair, a comma and the pairs behind them *)
    intros key colon ts comma more k v acc o Hk Hkv Hcolon Hsp IH Hcomma _ IHrest
           fuel toks pre cl rest tk tl Hcl E Htoks Hf.
    cbn [app] in E. inversion E; subst tk tl. clear E.
    destruct (spells_cons _ _ Hsp) as (vt & vtl & Hvt).
    cbn [List.length] in Hf. rewrite length_app in Hf. cbn [List.length] in Hf.
    destruct fuel as [|fuel]; [lia|].
    set (pre2 := pre ++ [key; colon]).
    assert (Hpre2 : List.length pre2 = S (S (List.length pre))).
    { unfold pre2. rewrite length_app. simpl. lia. }
    assert (Htoks2 : toks = pre2 ++ ts ++ comma :: (more ++ [cl]) ++ rest).
    { rewrite Htoks. unfold pre2. cbn [app]. rewrite <- !app_assoc.
      reflexivity. }
    set (c1 := List.length pre2 + List.length ts).
    assert (Hv : parse_from_token fuel vt (mk toks (S (S (S (List.length pre)))))
                 = Ok v (mk toks c1)).
    { rewrite <- Hpre2.
      apply (IH fuel toks pre2 (comma :: (more ++ [cl]) ++ rest) vt vtl); auto.
      lia. }
    rewrite (object_loop_pair fuel key acc toks (S (List.length pre)) vt v c1 k);
      auto.
    2:{ rewrite Hkv. reflexivity. }
    2:{ exists colon. split; auto. rewrite Htoks. cbn [app].
        apply nth_error_at1. }
    2:{ rewrite Htoks, Hvt. cbn [app]. apply nth_error_at2. }
    assert (Hnext : exists nxt ntl, more ++ [cl] = nxt :: ntl).
    { destruct more; simpl; eauto. }
    destruct Hnext as (nxt & ntl & Hnext).
    set (pre3 := (pre2 ++ ts) ++ [comma]).
    assert (Htoks3 : toks = pre3 ++ (more ++ [cl]) ++ rest).
    { rewrite Htoks2. unfold pre3. rewrite <- !app_assoc. reflexivity. }
    rewrite (tail_comma RIGHT_CURLY _ toks c1 nxt).
    + replace (S (S c1)) with (S (List.length pre3))
        by (unfold pre3, c1; rewrite !length_app; cbn [List.length]; lia).
      rewrite (IHrest fuel toks pre3 cl rest nxt ntl); auto; [|lia].
      do 2 f_equal. unfold pre3. len.
    + exists comma. split; auto.
      rewrite Htoks2. unfold c1. rewrite app_assoc. apply nth_error_behind.
    + rewrite Htoks3, Hnext. unfold pre3, c1.
      replace (S (List.length pre2 + List.length ts))
        with (List.length ((pre2 ++ ts) ++ [comma]))
        by (rewrite !length_app; cbn [List.length]; lia).
      cbn [app]. apply nth_error_at.
  - (* no value is left *)
    intros acc fuel toks pre cl rest tk tl Hcl E -> Hf.
    cbn [app] in E. inversion E; subst tk tl.
    destruct fuel as [|fuel]; [lia|].
    rewrite array_loop_close by exact Hcl. simpl. do 2 f_equal. lia.
  - (* the last value *)
    intros ts v acc Hsp IH fuel toks pre cl rest tk tl Hcl E Htoks Hf.
    destruct (spells_cons _ _ Hsp) as (vt & vtl & Hvt).
    assert (tk = vt) as ->.
    { rewrite Hvt in E. inversion E. reflexivity. }
    destruct fuel as [|fuel]; [lia|].
    assert (Hlen : 1 <= List.length ts) by (rewrite Hvt; simpl; lia).
    set (c1 := List.length pre + List.length ts).
    assert (Hv : parse_from_token fuel vt (mk toks (S (List.length pre)))
                 = Ok v (mk toks c1)).
    { apply (IH fuel toks pre (cl :: rest) vt vtl); auto; [|lia].
      rewrite Htoks. rewrite <- !app_assoc. reflexivity. }
    rewrite (array_loop_element fuel vt acc toks _ v c1); auto.
    2:{ destruct Hsp; inversion Hvt; subst; congruence. }
    2:{ destruct Hsp; inversion Hvt; subst; congruence. }
    rewrite (tail_close RIGHT_SQUARE _ toks c1 cl).
    + destruct fuel as [|fuel]; [lia|].
      rewrite array_loop_close by exact Hcl.
      do 2 f_equal. unfold c1. lia.
    + rewrite Htoks. unfold c1. rewrite <- !app_assoc. cbn [app].
      rewrite app_assoc. apply nth_error_behind.
    + exact Hcl.
    + discriminate.
  - (* a value, a comma and the values behind them *)
    intros ts comma more v acc a Hsp IH Hcomma _ IHrest
           fuel toks pre cl rest tk tl Hcl E Htoks Hf.
    destruct (spells_cons _ _ Hsp) as (vt & vtl & Hvt).
    assert (tk = vt) as ->.
    { rewrite Hvt in E. inversion E. reflexivity. }
    rewrite length_app in Hf. cbn [List.length] in Hf.
    destruct fuel as [|fuel]; [lia|].
    assert (Hlen : 1 <= List.length ts) by (rewrite Hvt; simpl; lia).
    set (c1 := List.length pre + List.length ts).
    assert (Htoks2 : toks = pre ++ ts ++ comma :: (more ++ [cl]) ++ rest).
    { rewrite Htoks. rewrite <- !app_assoc. reflexivity. }
    assert (Hv : parse_from_token fuel vt (mk toks (S (List.length pre)))
                 = Ok v (mk toks c1)).
    { apply (IH fuel toks pre (comma :: (more ++ [cl]) ++ rest) vt vtl); auto.
      lia. }
    rewrite (array_loop_element fuel vt acc toks _ v c1); auto.
    2:{ destruct Hsp; inversion Hvt; subst; congruence. }
    2:{ destruct Hsp; inversion Hvt; subst; congruence. }
    assert (Hnext : exists nxt ntl, more ++ [cl] = nxt :: ntl).
    { destruct more; simpl; eauto. }
    destruct Hnext as (nxt & ntl & Hnext).
    set (pre3 := (pre ++ ts) ++ [comma]).
    assert (Htoks3 : toks = pre3 ++ (more ++ [cl]) ++ rest).
    { rewrite Htoks2. unfold pre3. rewrite <- !app_assoc. reflexivity. }
    rewrite (tail_comma RIGHT_SQUARE _ toks c1 nxt).
    + replace (S (S c1)) with (S (List.length pre3))
        by (unfold pre3, c1; rewrite !length_app; cbn [List.length]; lia).
      rewrite (IHrest fuel toks pre3 cl rest nxt ntl); auto; [|lia].
      do 2 f_equal. unfold pre3. len.
    + exists comma. split; auto.
      rewrite Htoks2. unfold c1. rewrite app_assoc. apply nth_error_behind.
    + rewrite Htoks3, Hnext. unfold pre3, c1.
      replace (S (List.length pre + List.length ts))
        with (List.length ((pre ++ ts) ++ [comma]))
        by (rewrite !length_app; cbn [List.length]; lia).
      cbn [app]. apply nth_error_at.
Qed.

(** [parse] over a sequence that spells [v], whatever tokens follow. *)
Lemma parse_spelled ts v rest fuel :
  spells ts v -> 3 * List.length ts <= fuel ->
  Parser.parse fuel (init (ts ++ rest))
  = Ok v (mk (ts ++ rest) (List.length ts)).
Proof.
  intros Hsp Hf. destruct (spells_cons _ _ Hsp) as (tk & tl & Htk).
  unfold Parser.parse.
  rewrite (bind_Ok _ _ _ tk (mk (ts ++ rest) 1)).
  2:{ apply (advanceCurrent_mk _ 0 tk). rewrite Htk. reflexivity. }
  destruct spelled_accepted as (Hv & _).
  apply (Hv ts v Hsp fuel _ [] rest tk tl); auto.
Qed.

End ParseGrammar.

(** ** The scanner: the exceptions of a scan *)

Module ScanThrows.
Import Scanner ScanState ScannerFacts ScanToken ScanLexeme ScanText.

Ltac lex :=
  solve [ unfold lexical_error, unexpected_token; simpl;
          repeat (first [left; reflexivity | right]) ].

(** A text splits into the characters that satisfy [p] at its head and
    the rest. *)
Lemma span p s :
  exists run rest,
    s = (run ++ rest)%string /\ all_chars p run
    /\ match rest with EmptyString => True | String c _ => p c = false end.
Proof.
  induction s as [|c s (run & rest & E & Hr & Hs)].
  - exists EmptyString, EmptyString. simpl. auto.
  - destruct (p c) eqn:Ep.
    + exists (String c run), rest. simpl. rewrite <- E. auto.
    + exists EmptyString, (String c s). simpl. auto.
Qed.

Lemma stops_rest p rest :
  p space = false ->
  match rest with EmptyString => True | String c _ => p c = false end ->
  stops p rest.
Proof. destruct rest; simpl; auto. Qed.

(** A numeric literal makes [scanToken] return, or throw the point error
    or a range error: [stoi] and [stod] are given a numeral. *)
Lemma number_outcome F s pre neg d rest :
  at_split s pre (sign neg ++ String d rest) -> isdigit d = true ->
  start s = current s -> String.length (str s) <= F ->
  match scanToken F s with
  | Throw e _ => lexical_error e
  | _ => True
  end.
Proof.
  intros Ha Hd Hst HF.
  destruct (span isdigit rest) as (ds & post & -> & Hds & Hpost).
  assert (Hlen : String.length (sign neg ++ String d (ds ++ post))
                 <= F).
  { destruct Ha as [E _]. rewrite E, length_append in HF. lia. }
  repeat first [ rewrite length_append in Hlen
               | progress cbn [String.length] in Hlen ].
  assert (Hne : String d ds <> EmptyString) by discriminate.
  assert (Hall : all_chars isdigit (String d ds)) by (split; auto).
  destruct (match post with
            | String c _ => (c =? ".")%char
            | EmptyString => false
            end) eqn:Ep.
  - (* a point follows the digits *)
    destruct post as [|c post2]; [discriminate|].
    apply Ascii.eqb_eq in Ep. subst c.
    destruct (span isdigit post2) as (fs & post3 & -> & Hfs & Hpost3).
    repeat first [ rewrite length_append in Hlen
               | progress cbn [String.length] in Hlen ].
    destruct fs as [|f fs].
    + rewrite (ScanErrors.scanToken_point F s pre neg (String d ds) post3);
        auto; [lex| |simpl; lia].
      apply stops_rest; auto.
    + rewrite (scanToken_float F s pre neg (String d ds) (String f fs) post3);
        auto; try discriminate; try (simpl in *; lia).
      * destruct (stod (sign neg ++ String d ds ++ String "." (String f fs)))
          as [e|x] eqn:Es; auto.
        rewrite (ScanNumber.stod_literal_error _ _ _ _ Hne Hall Es). lex.
      * apply stops_rest; auto.
  - (* no point follows *)
    rewrite (scanToken_int F s pre neg (String d ds) post); auto;
      [| |simpl; lia].
    + rewrite (ScanNumber.stoi_literal neg _ Hne Hall). cbv zeta.
      destruct ((INT_MIN <=? _) && (_ <=? INT_MAX))%Z; [exact I|lex].
    + destruct post as [|c post2]; simpl; [reflexivity|].
      unfold digit_or_point. rewrite Hpost, Ep. reflexivity.
Qed.

Lemma while_cursor_no_throw {St} fuel cond (f : St -> St) s e s' :
  while_ fuel cond (modify f) s <> Throw e s'.
Proof.
  revert s. induction fuel as [|fuel IH]; intros s; simpl;
    destruct (cond s); try discriminate.
  apply IH.
Qed.

Lemma addString_throw F s e s' :
  addString F s = Throw e s' -> e = invalid_argument "Unterminated string".
Proof.
  unfold addString. intros H.
  apply ParserOutcomes.bind_Throw_inv in H.
  destruct H as [H|(u & s1 & _ & H)];
    [exfalso; eapply while_cursor_no_throw; eauto|].
  unfold bind in H. rewrite gets_eq in H. cbv beta iota in H.
  destruct (isLast s1).
  - rewrite throw_eq in H. inversion H. reflexivity.
  - rewrite modify_eq in H. cbv beta iota in H.
    rewrite gets_eq in H. cbv beta iota in H. rewrite modify_eq in H.
    discriminate.
Qed.

Lemma addKeyword_throw F s e s' :
  addKeyword F s = Throw e s' -> e = unexpected_token.
Proof.
  unfold addKeyword. intros H.
  apply ParserOutcomes.bind_Throw_inv in H.
  destruct H as [H|(u & s1 & _ & H)];
    [exfalso; eapply while_cursor_no_throw; eauto|].
  unfold bind in H. rewrite gets_eq in H. cbv beta iota zeta in H.
  destruct (lexeme s1 =? "true")%string;
    [|destruct (lexeme s1 =? "false")%string;
      [|destruct (lexeme s1 =? "null")%string]];
    try (rewrite modify_eq in H; discriminate).
  rewrite throw_eq in H. inversion H. reflexivity.
Qed.

Lemma at_cursor s :
  current s < String.length (str s) ->
  exists pre c post, at_split s pre (String c post).
Proof.
  intros H. unfold at_split.
  generalize dependent (current s). generalize (str s). clear s.
  induction s as [|c s IH]; intros n Hn; simpl in Hn; [lia|].
  destruct n as [|n].
  - exists EmptyString, c, s. auto.
  - destruct (IH n ltac:(lia)) as (pre & c' & post & E & L).
    exists (String c pre), c', post. simpl. split; congruence.
Qed.

(** What [scanToken] throws when it is entered inside the text. *)
Lemma scanToken_throws F s :
  start s = current s -> current s < String.length (str s) ->
  String.length (str s) <= F ->
  match scanToken F s with
  | Throw e _ => lexical_error e
  | _ => True
  end.
Proof.
  intros Hst Hc HF.
  destruct (at_cursor s Hc) as (pre & c & post & Ha).
  destruct (isdigit c) eqn:Ed.
  { apply (number_outcome F s pre false c post); auto. }
  destruct (c =? "-")%char eqn:Em.
  { apply Ascii.eqb_eq in Em. subst c.
    destruct (match post with
              | String d _ => isdigit d
              | EmptyString => false
              end) eqn:Ep.
    - destruct post as [|d post2]; [discriminate|].
      apply (number_outcome F s pre true d post2); auto.
    - rewrite (ScanErrors.scanToken_lone_minus F s pre post Ha); [lex|].
      destruct post; auto. }
  unfold scanToken.
  rewrite (ParserFacts.bind_Ok _ _ _ _ _ (at_split_advance _ _ _ _ Ha)).
  rewrite Em, Ed.
  repeat match goal with
         | |- match (if ?b then _ else _) _ with _ => _ end =>
             destruct b; [unfold punctuation; mred; exact I|]
         end.
  destruct (c =? dquote)%char.
  { destruct (addString F (incr_current s)) as [u s1|e s1| |] eqn:E; auto.
    rewrite (addString_throw _ _ _ _ E). lex. }
  destruct (isalpha c).
  { destruct (addKeyword F (incr_current s)) as [u s1|e s1| |] eqn:E; auto.
    rewrite (addKeyword_throw _ _ _ _ E). lex. }
  mred. lex.
Qed.

Lemma scan_loop_throws F k : forall s,
  String.length (str s) <= F ->
  String.length (str s) - current s <= k ->
  current s <= String.length (str s) ->
  match while_ k more (body F) s with
  | Throw e _ => lexical_error e
  | _ => True
  end.
Proof.
  induction k as [|k IH]; intros s HF Hk Hc.
  - cbn [while_]. destruct (more s); exact I.
  - cbn [while_]. unfold more at 1.
    destruct (isLast s) eqn:E; cbn [negb]; [exact I|].
    apply isLast_false in E. rewrite body_eq.
    pose proof (scanToken_post F (set_start s)) as HP.
    pose proof (scanToken_throws F (set_start s)) as HT. sstate.
    specialize (HP eq_refl E HF). specialize (HT eq_refl E HF).
    destruct (scanToken F (set_start s)) as [a s'|e s'| |]; sstate; auto.
    destruct HP as (Hs & Hb & _).
    specialize (IH s'). rewrite Hs in IH. apply IH; auto; lia.
Qed.

Lemma scan_throws F input :
  String.length input <= F ->
  match Scanner.scan F (init input) with
  | Throw e _ => lexical_error e
  | _ => True
  end.
Proof.
  intros HF. rewrite scan_unfold. unfold bind.
  pose proof (scan_loop_throws F F (init input)) as HL. simpl in HL.
  specialize (HL HF ltac:(lia) ltac:(lia)).
  destruct (while_ F more (body F) (init input)); auto.
Qed.

End ScanThrows.

(* ================================================================= *)
(** * The scanner's contract *)

(** C7: for every input text on which scan returns, the returned token
    sequence ends with exactly one EOF token: its last token is EOF and no
    other token is.  For the empty text the sequence is the EOF token
    alone. *)
Theorem scan_ends_with_one_eof (input : string) (toks : list Token) :
  scan input = Returns toks ->
  (exists body,
      toks = body ++ [mkToken EOF_TOKEN monostate]
      /\ Forall (fun tk => token_type tk <> EOF_TOKEN) body)
  /\ (input = EmptyString -> toks = [mkToken EOF_TOKEN monostate]).
Proof.
  unfold scan. intros H. split.
  - pose proof (ScanToken.scan_post (scan_fuel input) input (le_n _)) as HP.
    destruct (Scanner.scan (scan_fuel input) (Scanner.init input))
      as [t s'|e s'| |]; try discriminate.
    inversion H; subst. destruct HP as (body & -> & Hwf).
    exists body. split; auto.
    eapply Forall_impl; [|exact Hwf]. apply ScanToken.wf_token_not_eof.
  - intros ->. inversion H. reflexivity.
Qed.

Lemma scan_ends_with_one_eof_witness :
  (exists body,
      [punct LEFT_SQUARE "["; mkToken NUMBER (VInt 1);
       punct RIGHT_SQUARE "]"; mkToken EOF_TOKEN monostate]
      = body ++ [mkToken EOF_TOKEN monostate]
      /\ Forall (fun tk => token_type tk <> EOF_TOKEN) body)
  /\ ("[1]" = EmptyString ->
      [punct LEFT_SQUARE "["; mkToken NUMBER (VInt 1);
       punct RIGHT_SQUARE "]"; mkToken EOF_TOKEN monostate]
      = [mkToken EOF_TOKEN monostate]).
Proof. apply (scan_ends_with_one_eof "[1]"). reflexivity. Defined.

(** C9: scan is total and terminating.  With fuel for as many loop
    iterations as the input has characters, it returns a token sequence or
    throws one of the scanner's errors; it never faults and never runs out
    of fuel.  Each iteration of its loop, entered inside the text, leaves
    the text unchanged and moves the cursor strictly ahead, and not beyond
    the end of the text. *)
Theorem scan_total (input : string) (fuel : nat) :
  String.length input <= fuel ->
  ((exists toks, observe (Scanner.scan fuel (Scanner.init input)) = Returns toks)
   \/ (exists e, observe (Scanner.scan fuel (Scanner.init input)) = Throws e
                 /\ scanner_error e))
  /\ (forall s s',
         Scanner.str s = input ->
         Scanner.current s < String.length input ->
         Scanner.scanToken fuel (Scanner.set_start s) = Ok tt s' ->
         Scanner.str s' = input
         /\ Scanner.current s < Scanner.current s' <= String.length input).
Proof.
  intros Hf. split.
  - pose proof (ScanToken.scan_post fuel input Hf) as HP.
    destruct (Scanner.scan fuel (Scanner.init input)) as [t s'|e s'| |];
      try contradiction; simpl; eauto.
  - intros s s' Hs Hc Hr.
    pose proof (ScanToken.scanToken_post fuel (Scanner.set_start s)) as HP.
    simpl in HP. rewrite Hs in HP. specialize (HP eq_refl Hc Hf).
    rewrite Hr in HP. simpl in HP. rewrite Hs in HP. tauto.
Qed.

Lemma scan_total_witness :
  ((exists toks,
       observe (Scanner.scan 4 (Scanner.init "[1, ")) = Returns toks)
   \/ (exists e, observe (Scanner.scan 4 (Scanner.init "[1, ")) = Throws e
                 /\ scanner_error e))
  /\ (forall s s',
         Scanner.str s = "[1, " ->
         Scanner.current s < String.length "[1, " ->
         Scanner.scanToken 4 (Scanner.set_start s) = Ok tt s' ->
         Scanner.str s' = "[1, "
         /\ Scanner.current s < Scanner.current s' <= String.length "[1, ").
Proof. apply (scan_total "[1, " 4). simpl. lia. Defined.

(** C3, as the code has it: a string literal ends at the next double quote,
    whether or not a backslash precedes that quote.  Entered at an opening
    quote that is followed by [body], a text without double quote, the
    scanner yields a STRING token whose payload is exactly [body] when a
    quote closes the literal ([closed = true]), and throws
    "Unterminated string" when the input ends first. *)
Theorem string_literal_ends_at_next_quote
  (fuel : nat) (s : Scanner.t) (pre body post : string) (closed : bool) :
  ScanState.at_split s pre
    (String dquote
       (body ++ if closed then String dquote post else EmptyString)) ->
  Scanner.start s = Scanner.current s ->
  absent dquote body ->
  String.length body <= fuel ->
  Scanner.scanToken fuel s
  = if closed then
      Ok tt (Scanner.push_back (mkToken STRING (VString body))
               (ScanState.adv (String.length body + 2) s))
    else
      Throw (invalid_argument "Unterminated string")
            (ScanState.adv (String.length body + 1) s).
Proof.
  intros H Hst Ha Hf. destruct closed.
  - apply ScanLexeme.scanToken_string with (pre := pre) (post := post); auto.
    unfold quoted. cbn [append]. rewrite append_assoc. exact H.
  - apply ScanLexeme.scanToken_unterminated with (pre := pre); auto.
    rewrite append_nil_r in H. exact H.
Qed.

Lemma string_literal_ends_at_next_quote_witness :
  Scanner.scanToken 2
    (Scanner.init (quoted (String "a" (String backslash "")) ++ ","))
  = Ok tt (Scanner.push_back
             (mkToken STRING (VString (String "a" (String backslash ""))))
             (ScanState.adv 4
                (Scanner.init
                   (quoted (String "a" (String backslash "")) ++ ",")))).
Proof.
  apply (string_literal_ends_at_next_quote 2 _ ""
           (String "a" (String backslash "")) "," true).
  - split; reflexivity.
  - reflexivity.
  - simpl. repeat split; discriminate.
  - simpl. lia.
Defined.

(** C3 fails on the text ["a\","b"]: the quote that follows the backslash
    closes the first literal, so the scan returns the two strings [a\] and
    [b] with a comma between them instead of one unterminated literal. *)
Lemma escaped_quote_closes_literal :
  scan (quoted (String "a" (String backslash "")) ++ "," ++ quoted "b")
  = Returns [mkToken STRING (VString (String "a" (String backslash "")));
             punct COMMA ","; mkToken STRING (VString "b");
             mkToken EOF_TOKEN monostate].
Proof. reflexivity. Qed.

(** C6, as the code has it: the lexical form of a numeric literal selects
    the conversion and the variant.  Without a decimal point the literal
    goes through [stoi]: it parses to the integer variant with the signed
    value of its digits, and the parse throws [out_of_range] when that
    value does not fit an [int].  With a decimal point it goes through
    [stod]: it parses to the float variant with the double [stod] gives,
    and the parse throws [out_of_range] when [stod] reports a range
    error. *)
Theorem number_variant_by_lexical_form (neg : bool) (ds fs : string) :
  ds <> EmptyString -> all_chars isdigit ds ->
  fs <> EmptyString -> all_chars isdigit fs ->
  parse (sign neg ++ ds)
  = (let z := (if neg then - digits_value ds else digits_value ds)%Z in
     if ((INT_MIN <=? z) && (z <=? INT_MAX))%Z then Returns (JInt z)
     else Throws (out_of_range "stoi"))
  /\ parse (sign neg ++ ds ++ String "." fs)
     = match stod (sign neg ++ ds ++ String "." fs) with
       | inr d => Returns (JDouble d)
       | inl _ => Throws (out_of_range "stod")
       end.
Proof.
  intros Hne Hd Hnf Hfs. split.
  - unfold parse. rewrite (ScanNumber.scan_int_literal neg ds Hne Hd).
    rewrite (ScanNumber.stoi_literal neg ds Hne Hd). cbv zeta.
    destruct ((INT_MIN <=? _) && (_ <=? INT_MAX))%Z; reflexivity.
  - unfold parse.
    rewrite (ScanNumber.scan_float_literal neg ds fs Hne Hd Hnf Hfs).
    destruct (stod (sign neg ++ ds ++ String "." fs)) as [e|d] eqn:E.
    + rewrite (ScanNumber.stod_literal_error _ _ _ _ Hne Hd E). reflexivity.
    + reflexivity.
Qed.

Lemma number_variant_by_lexical_form_witness :
  (parse "3" = Returns (JInt 3)
   /\ parse "3.0" = Returns (JDouble (S754_finite false 6755399441055744 (-51))))
  /\ (parse "3" = Returns (JInt 3)
      /\ parse "3.5"
         = Returns (JDouble (S754_finite false 7881299347898368 (-51))))
  /\ (parse "-3" = Returns (JInt (-3))
      /\ parse "-3.5"
         = Returns (JDouble (S754_finite true 7881299347898368 (-51)))).
Proof.
  split; [|split].
  - apply (number_variant_by_lexical_form false "3" "0");
      simpl; auto; discriminate.
  - apply (number_variant_by_lexical_form false "3" "5");
      simpl; auto; discriminate.
  - apply (number_variant_by_lexical_form true "3" "5");
      simpl; auto; discriminate.
Defined.

(** C6 fails on a literal with a decimal point that [stod] does not
    convert: the text 0.00...01 with 330 zeros behind the point and the
    text 100...0.0 with 309 zeros before it hold a decimal point, and
    their parse yields no float-variant value but throws [out_of_range]. *)
Lemma float_literal_out_of_range :
  parse ("0." ++ string_rep 330 "0" ++ "1") = Throws (out_of_range "stod")
  /\ parse ("1" ++ string_rep 309 "0" ++ ".0") = Throws (out_of_range "stod").
Proof. split; vm_compute; reflexivity. Qed.

(* ================================================================= *)
(** * The parser's contract *)

(** C10, as the code has it: over a token sequence whose last token is
    EOF, every token access of the parser is within the bounds of the
    sequence (the run never faults).  When the parse returns, the cursor
    stands on a token, so it has not moved past the EOF token.  When it
    throws, a token has been read and the cursor is at most one past the
    last token, where nothing is read; it is one past the last token only
    with the errors "Unexpected token", "Unterminated JSON object" and
    "Unterminated JSON array", which are thrown on the token that
    [advanceCurrent] has just read.  The two "Unterminated" errors are
    thrown only behind an EOF token: they leave the cursor one past the
    last token when that token is the only EOF of the sequence.  With
    [3 * length toks] units of fuel the descent runs to its end. *)
Theorem parser_reads_in_bounds (toks : list Token) (fuel : nat) :
  ends_with_eof toks ->
  match Parser.parse fuel (Parser.init toks) with
  | Ok _ p' => Parser.current p' < List.length toks
  | Throw e p' =>
      0 < Parser.current p' <= List.length toks /\ parser_error e
      /\ (Parser.current p' = List.length toks ->
          e = invalid_argument "Unexpected token"
          \/ e = unterminated_object \/ e = unterminated_array)
      /\ (e = unterminated_object \/ e = unterminated_array ->
          token_is toks (Parser.current p' - 1) EOF_TOKEN)
      /\ (e = unterminated_object \/ e = unterminated_array ->
          eof_only_last toks -> Parser.current p' = List.length toks)
  | Fault => False
  | OutOfFuel => fuel < 3 * List.length toks
  end.
Proof.
  intros He. unfold Parser.parse, bind.
  assert (H0 : 0 < List.length toks).
  { destruct He as (b & e & -> & _). rewrite length_app. simpl. lia. }
  destruct (ParserFacts.token_at_some (Parser.init toks) H0) as [tk Hn].
  rewrite (ParserFacts.advanceCurrent_some _ _ Hn). cbv beta iota.
  destruct (ParserFacts.parser_good toks He fuel) as (Hv & _).
  specialize (Hv tk 1 (ParserFacts.ready_next _ _ _ He Hn)).
  destruct (ParserThrowSite.parser_throw_site toks He fuel) as (Hs & _).
  specialize (Hs tk 0 Hn).
  unfold Parser.incr_current, Parser.init. simpl Parser.tokens.
  simpl Parser.current.
  destruct (Parser.parse_from_token fuel tk (Parser.mk toks 1))
    as [v p'|e p'| |]; simpl in Hv, Hs; try tauto; try lia.
  destruct Hv as (_ & Hle & Hpe). destruct Hs as (Hpos & Hend & Hun).
  split; [lia|]. split; [exact Hpe|]. split; [exact Hend|].
  split; [exact Hun|].
  intros Hu Hl.
  pose proof (ParserThrowSite.eof_only_last_index _ _ Hl (Hun Hu)).
  lia.
Qed.

Lemma parser_reads_in_bounds_witness :
  match Parser.parse 15
          (Parser.init [punct LEFT_SQUARE "["; mkToken NUMBER (VInt 1);
                        punct COMMA ","; mkToken EOF_TOKEN monostate])
  with
  | Ok _ p' => Parser.current p' < 4
  | Throw e p' =>
      0 < Parser.current p' <= 4 /\ parser_error e
      /\ (Parser.current p' = 4 ->
          e = invalid_argument "Unexpected token"
          \/ e = unterminated_object \/ e = unterminated_array)
      /\ (e = unterminated_object \/ e = unterminated_array ->
          token_is [punct LEFT_SQUARE "["; mkToken NUMBER (VInt 1);
                    punct COMMA ","; mkToken EOF_TOKEN monostate]
            (Parser.current p' - 1) EOF_TOKEN)
      /\ (e = unterminated_object \/ e = unterminated_array ->
          eof_only_last [punct LEFT_SQUARE "["; mkToken NUMBER (VInt 1);
                         punct COMMA ","; mkToken EOF_TOKEN monostate] ->
          Parser.current p' = 4)
  | Fault => False
  | OutOfFuel => 15 < 3 * 4
  end.
Proof.
  apply (parser_reads_in_bounds
           [punct LEFT_SQUARE "["; mkToken NUMBER (VInt 1);
            punct COMMA ","; mkToken EOF_TOKEN monostate] 15).
  exists [punct LEFT_SQUARE "["; mkToken NUMBER (VInt 1); punct COMMA ","],
    (mkToken EOF_TOKEN monostate).
  split; reflexivity.
Defined.

(** C10 fails on the tokens of the empty text: [advanceCurrent] reads the
    EOF token at index 0 and leaves the cursor at 1, past the EOF token,
    before the parse throws. *)
Lemma cursor_moves_past_eof :
  scan "" = Returns [mkToken EOF_TOKEN monostate]
  /\ Parser.parse (parse_fuel [mkToken EOF_TOKEN monostate])
       (Parser.init [mkToken EOF_TOKEN monostate])
     = Throw (invalid_argument "Unexpected token")
             (Parser.mk [mkToken EOF_TOKEN monostate] 1).
Proof. split; reflexivity. Qed.

(** C4, as the code has it: parse reads one complete JSON value from the
    front of the token sequence and returns it; the tokens behind that
    value are never examined.  A parse that returns [v] with the cursor at
    [c] returns the same [v] over every sequence that starts with the same
    [c] tokens, whatever tokens [rest] follow them. *)
Theorem parse_reads_one_value
  (fuel : nat) (toks : list Token) (v : JsonValue) (p' : Parser.t)
  (rest : list Token) :
  Parser.parse fuel (Parser.init toks) = Ok v p' ->
  Parser.parse fuel
    (Parser.init (firstn (Parser.current p') toks ++ rest))
  = Ok v (Parser.mk (firstn (Parser.current p') toks ++ rest)
            (Parser.current p')).
Proof.
  unfold Parser.parse. intros H.
  apply ParserFacts.bind_Ok_inv in H. destruct H as (tk & p1 & H1 & H2).
  apply ParserFacts.advanceCurrent_inv in H1. destruct H1 as [Hn ->].
  unfold Parser.incr_current, Parser.init in *.
  simpl Parser.tokens in *. simpl Parser.current in *.
  assert (H0 : 0 < List.length toks) by (apply nth_error_Some; congruence).
  destruct (ParserFacts.parser_local toks fuel) as (Hv & _).
  destruct (Hv tk 1 v p' H2) as (Ht & Hc & Hb & Hl).
  specialize (Hb ltac:(lia)).
  set (toks' := firstn (Parser.current p') toks ++ rest).
  assert (Ha : ParseState.agree (Parser.current p') toks toks').
  { intros i Hi. unfold toks'.
    rewrite nth_error_app1 by (rewrite length_firstn; lia).
    rewrite nth_error_firstn.
    destruct (i <? Parser.current p') eqn:E; auto.
    apply Nat.ltb_ge in E. lia. }
  rewrite (ParserFacts.bind_Ok _ _ _ tk (Parser.mk toks' 1)).
  - apply Hl, Ha.
  - apply ParserFacts.advanceCurrent_mk. rewrite Ha by lia. exact Hn.
Qed.

Lemma parse_reads_one_value_witness :
  Parser.parse 9
    (Parser.init (firstn 1 [mkToken NUMBER (VInt 1); mkToken EOF_TOKEN monostate]
                  ++ [mkToken NUMBER (VInt 2); mkToken EOF_TOKEN monostate]))
  = Ok (JInt 1)
       (Parser.mk
          (firstn 1 [mkToken NUMBER (VInt 1); mkToken EOF_TOKEN monostate]
           ++ [mkToken NUMBER (VInt 2); mkToken EOF_TOKEN monostate]) 1).
Proof.
  apply (parse_reads_one_value 9
           [mkToken NUMBER (VInt 1); mkToken EOF_TOKEN monostate]
           (JInt 1)
           (Parser.mk [mkToken NUMBER (VInt 1); mkToken EOF_TOKEN monostate] 1)).
  reflexivity.
Defined.

(** C4 fails on the texts [1 2] and [{} 5]: their token sequences hold a
    second value before the EOF token, and parse returns the first value
    alone. *)
Lemma parse_ignores_trailing_tokens :
  scan "1 2"
  = Returns [mkToken NUMBER (VInt 1); mkToken NUMBER (VInt 2);
             mkToken EOF_TOKEN monostate]
  /\ parse "1 2" = Returns (JInt 1)
  /\ parse "{} 5" = Returns (JObject []).
Proof. repeat split; reflexivity. Qed.

(** C2, as the code has it: a comma directly before the closing bracket
    or brace is skipped.  Once an element [v] (or the value [v] of a
    key/value pair) has been parsed and a comma follows it, a closing
    bracket (brace) behind that comma ends the array (object) with the
    elements read so far.  The comma/brace error, "Missing comma unless
    followed by", is thrown exactly when the token behind an element is
    neither a comma nor the closing token. *)
Theorem comma_before_closing_token_is_skipped
  (fuel c c1 : nat) (toks : list Token) (token : Token) (v : JsonValue) :
  Parser.parse_from_token fuel token (Parser.mk toks c) = Ok v (Parser.mk toks c1) ->
  token_is toks c1 COMMA ->
  (forall arr,
      token_type token <> RIGHT_SQUARE -> token_type token <> EOF_TOKEN ->
      token_is toks (S c1) RIGHT_SQUARE ->
      Parser.parse_array_loop (S fuel) token arr (Parser.mk toks c)
      = Ok (arr ++ [v]) (Parser.mk toks (S (S c1))))
  /\ (forall key k obj c0,
         token_type key = STRING -> get_string (value key) = inr k ->
         token_is toks c0 COLON -> nth_error toks (S c0) = Some token ->
         c = S (S c0) ->
         token_is toks (S c1) RIGHT_CURLY ->
         Parser.parse_object_loop (S fuel) key obj (Parser.mk toks c0)
         = Ok (map_assign k v obj) (Parser.mk toks (S (S c1))))
  /\ (forall exception c' tk,
         nth_error toks c' = Some tk ->
         Parser.consume_until_comma exception (Parser.mk toks c')
         = if TokenType_eqb (token_type tk) COMMA then
             Ok tt (Parser.mk toks (S c'))
           else if TokenType_eqb (token_type tk) exception then
             Ok tt (Parser.mk toks c')
           else Throw missing_comma (Parser.mk toks c')).
Proof.
  intros Hv Hcomma.
  destruct (ParserFacts.parse_from_token_fuel _ _ _ _ _ Hv) as [fuel' ->].
  split; [|split].
  - intros arr H1 H2 (close & Hn & Ht).
    rewrite (ParserFacts.array_loop_element _ _ _ _ _ _ _ H1 H2 Hv).
    rewrite (ParserFacts.tail_comma _ _ _ _ _ Hcomma Hn).
    apply ParserFacts.array_loop_close, Ht.
  - intros key k obj c0 Hk Hg Hcolon Hvt -> (close & Hn & Ht).
    rewrite (ParserFacts.object_loop_pair _ _ _ _ _ _ _ _ _ Hk Hg Hcolon Hvt Hv).
    rewrite (ParserFacts.tail_comma _ _ _ _ _ Hcomma Hn).
    apply ParserFacts.object_loop_close, Ht.
  - intros exception c' tk Hn.
    destruct (TokenType_eqb (token_type tk) COMMA) eqn:E.
    + apply ParserFacts.TokenType_eqb_eq in E.
      apply (ParserFacts.consume_until_comma_comma _ _ _ tk); auto.
    + destruct (TokenType_eqb (token_type tk) exception) eqn:E'.
      * apply ParserFacts.TokenType_eqb_eq in E'.
        apply (ParserFacts.consume_until_comma_close _ _ _ tk); auto.
        intros Hc. rewrite Hc in E. discriminate.
      * apply (ParserFacts.consume_until_comma_other _ _ _ tk); auto.
        -- intros Hc. rewrite Hc in E. discriminate.
        -- intros Hc. rewrite Hc, ParserFacts.TokenType_eqb_refl in E'.
           discriminate.
Qed.

Lemma comma_before_closing_token_is_skipped_witness :
  Parser.parse_array_loop 2 (mkToken NUMBER (VInt 1)) []
    (Parser.mk [punct LEFT_SQUARE "["; mkToken NUMBER (VInt 1);
                punct COMMA ","; punct RIGHT_SQUARE "]";
                mkToken EOF_TOKEN monostate] 2)
  = Ok [JInt 1]
       (Parser.mk [punct LEFT_SQUARE "["; mkToken NUMBER (VInt 1);
                   punct COMMA ","; punct RIGHT_SQUARE "]";
                   mkToken EOF_TOKEN monostate] 4)
  /\ Parser.parse_object_loop 2 (mkToken STRING (VString "a")) []
       (Parser.mk [punct LEFT_CURLY "{"; mkToken STRING (VString "a");
                   punct COLON ":"; mkToken NUMBER (VInt 1);
                   punct COMMA ","; punct RIGHT_CURLY "}";
                   mkToken EOF_TOKEN monostate] 2)
     = Ok [("a", JInt 1)]
          (Parser.mk [punct LEFT_CURLY "{"; mkToken STRING (VString "a");
                      punct COLON ":"; mkToken NUMBER (VInt 1);
                      punct COMMA ","; punct RIGHT_CURLY "}";
                      mkToken EOF_TOKEN monostate] 6).
Proof.
  split.
  - refine (proj1 (comma_before_closing_token_is_skipped 1 2 2
                     [punct LEFT_SQUARE "["; mkToken NUMBER (VInt 1);
                      punct COMMA ","; punct RIGHT_SQUARE "]";
                      mkToken EOF_TOKEN monostate]
                     (mkToken NUMBER (VInt 1)) (JInt 1) eq_refl _) [] _ _ _).
    + exists (punct COMMA ","). split; reflexivity.
    + discriminate.
    + discriminate.
    + exists (punct RIGHT_SQUARE "]"). split; reflexivity.
  - refine (proj1 (proj2 (comma_before_closing_token_is_skipped 1 4 4
                     [punct LEFT_CURLY "{"; mkToken STRING (VString "a");
                      punct COLON ":"; mkToken NUMBER (VInt 1);
                      punct COMMA ","; punct RIGHT_CURLY "}";
                      mkToken EOF_TOKEN monostate]
                     (mkToken NUMBER (VInt 1)) (JInt 1) eq_refl _))
              (mkToken STRING (VString "a")) "a" [] 2 eq_refl eq_refl _
              eq_refl eq_refl _).
    + exists (punct COMMA ","). split; reflexivity.
    + exists (punct COLON ":"). split; reflexivity.
    + exists (punct RIGHT_CURLY "}"). split; reflexivity.
Defined.

(** C2 fails on its own examples: the texts [[1,2,]] and [{"a":1,}] parse,
    to the array [1, 2] and to the object with the one entry "a". *)
Lemma trailing_comma_parses :
  parse "[1,2,]" = Returns (JArray [JInt 1; JInt 2])
  /\ parse ("{" ++ quoted "a" ++ ":1,}") = Returns (JObject [("a", JInt 1)]).
Proof. split; reflexivity. Qed.

(** C8, as the code has it: inside an array (object), the EOF token makes
    the parse throw "Unterminated JSON array" ("Unterminated JSON object")
    when it stands where an element (a key) is read: directly behind the
    opening bracket, or behind a comma.  When the EOF token directly
    follows an element (the value of a pair), as for the text [[1], the
    parse throws "Missing comma unless followed by" instead. *)
Theorem eof_inside_container
  (fuel c c1 : nat) (toks : list Token) (token : Token) (v : JsonValue) :
  Parser.parse_from_token fuel token (Parser.mk toks c) = Ok v (Parser.mk toks c1) ->
  (forall c',
      token_is toks c' EOF_TOKEN ->
      Parser.parse_array (S (S fuel)) (Parser.mk toks c')
      = Throw unterminated_array (Parser.mk toks (S c'))
      /\ Parser.parse_object (S (S fuel)) (Parser.mk toks c')
         = Throw unterminated_object (Parser.mk toks (S c')))
  /\ (forall arr,
         token_type token <> RIGHT_SQUARE -> token_type token <> EOF_TOKEN ->
         (token_is toks c1 EOF_TOKEN ->
          Parser.parse_array_loop (S fuel) token arr (Parser.mk toks c)
          = Throw missing_comma (Parser.mk toks c1))
         /\ (token_is toks c1 COMMA -> token_is toks (S c1) EOF_TOKEN ->
             Parser.parse_array_loop (S fuel) token arr (Parser.mk toks c)
             = Throw unterminated_array (Parser.mk toks (S (S c1)))))
  /\ (forall key k obj c0,
         token_type key = STRING -> get_string (value key) = inr k ->
         token_is toks c0 COLON -> nth_error toks (S c0) = Some token ->
         c = S (S c0) ->
         (token_is toks c1 EOF_TOKEN ->
          Parser.parse_object_loop (S fuel) key obj (Parser.mk toks c0)
          = Throw missing_comma (Parser.mk toks c1))
         /\ (token_is toks c1 COMMA -> token_is toks (S c1) EOF_TOKEN ->
             Parser.parse_object_loop (S fuel) key obj (Parser.mk toks c0)
             = Throw unterminated_object (Parser.mk toks (S (S c1))))).
Proof.
  intros Hv.
  destruct (ParserFacts.parse_from_token_fuel _ _ _ _ _ Hv) as [fuel' ->].
  split; [|split].
  - intros c' (eof & Hn & Ht). split.
    + cbn [Parser.parse_array].
      rewrite (ParserFacts.bind_Ok _ _ _ _ _
                 (ParserFacts.advanceCurrent_mk _ _ _ Hn)).
      apply ParserFacts.array_loop_eof, Ht.
    + cbn [Parser.parse_object].
      rewrite (ParserFacts.bind_Ok _ _ _ _ _
                 (ParserFacts.advanceCurrent_mk _ _ _ Hn)).
      apply ParserFacts.object_loop_eof, Ht.
  - intros arr H1 H2. split.
    + intros (eof & Hn & Ht).
      rewrite (ParserFacts.array_loop_element _ _ _ _ _ _ _ H1 H2 Hv).
      apply (ParserFacts.tail_other _ _ _ _ eof); auto; rewrite Ht; discriminate.
    + intros Hcomma (eof & Hn & Ht).
      rewrite (ParserFacts.array_loop_element _ _ _ _ _ _ _ H1 H2 Hv).
      rewrite (ParserFacts.tail_comma _ _ _ _ _ Hcomma Hn).
      apply ParserFacts.array_loop_eof, Ht.
  - intros key k obj c0 Hk Hg Hcolon Hvt ->. split.
    + intros (eof & Hn & Ht).
      rewrite (ParserFacts.object_loop_pair _ _ _ _ _ _ _ _ _ Hk Hg Hcolon Hvt Hv).
      apply (ParserFacts.tail_other _ _ _ _ eof); auto; rewrite Ht; discriminate.
    + intros Hcomma (eof & Hn & Ht).
      rewrite (ParserFacts.object_loop_pair _ _ _ _ _ _ _ _ _ Hk Hg Hcolon Hvt Hv).
      rewrite (ParserFacts.tail_comma _ _ _ _ _ Hcomma Hn).
      apply ParserFacts.object_loop_eof, Ht.
Qed.

Lemma eof_inside_container_witness :
  Parser.parse_array_loop 2 (mkToken NUMBER (VInt 1)) []
    (Parser.mk [punct LEFT_SQUARE "["; mkToken NUMBER (VInt 1);
                mkToken EOF_TOKEN monostate] 2)
  = Throw missing_comma
      (Parser.mk [punct LEFT_SQUARE "["; mkToken NUMBER (VInt 1);
                  mkToken EOF_TOKEN monostate] 2)
  /\ Parser.parse_array 3
       (Parser.mk [punct LEFT_SQUARE "["; mkToken NUMBER (VInt 1);
                   mkToken EOF_TOKEN monostate] 2)
     = Throw unterminated_array
         (Parser.mk [punct LEFT_SQUARE "["; mkToken NUMBER (VInt 1);
                     mkToken EOF_TOKEN monostate] 3).
Proof.
  pose proof (eof_inside_container 1 2 2
                [punct LEFT_SQUARE "["; mkToken NUMBER (VInt 1);
                 mkToken EOF_TOKEN monostate]
                (mkToken NUMBER (VInt 1)) (JInt 1) eq_refl) as (H1 & H2 & _).
  split.
  - apply (H2 []); try discriminate.
    exists (mkToken EOF_TOKEN monostate). split; reflexivity.
  - apply (H1 2).
    exists (mkToken EOF_TOKEN monostate). split; reflexivity.
Defined.

(** C8 fails on its own example: for the text [[1], where the EOF token
    directly follows the element, the parse throws the missing-comma
    error, not "Unterminated JSON array"; and for [{"a":1] likewise. *)
Lemma eof_after_element_is_missing_comma :
  parse "[1" = Throws missing_comma
  /\ parse ("{" ++ quoted "a" ++ ":1") = Throws missing_comma.
Proof. split; reflexivity. Qed.

(* ================================================================= *)
(** * The value model and the renderer *)

(** Every value that parse returns is canonical. *)
Lemma parse_canonical (input : string) (v : JsonValue) :
  parse input = Returns v -> canonical v.
Proof.
  unfold parse, scan. intros H.
  pose proof (ScanToken.scan_post (scan_fuel input) input (le_n _)) as HP.
  destruct (Scanner.scan (scan_fuel input) (Scanner.init input))
    as [toks s'|e s'| |]; try discriminate.
  cbn [observe] in H. destruct HP as (body & -> & Hwf).
  set (toks := body ++ [mkToken EOF_TOKEN monostate]) in *.
  assert (Hall : Forall wf_or_eof toks).
  { apply Forall_app. split.
    - eapply Forall_impl; [|exact Hwf]. intros tk Htk. left. exact Htk.
    - constructor; [right; reflexivity|constructor]. }
  unfold Parser.parse in H.
  destruct (Parser.advanceCurrent (Parser.init toks)) as [tk p1| | |] eqn:E;
    unfold bind in H; rewrite E in H; try discriminate.
  apply ParserFacts.advanceCurrent_inv in E. destruct E as [Hn ->].
  destruct (Parser.parse_from_token (parse_fuel toks) tk
              (Parser.incr_current (Parser.init toks)))
    as [v' p2| | |] eqn:E; try discriminate.
  inversion H; subst v'.
  destruct (ParserFacts.parser_canonical toks Hall (parse_fuel toks))
    as (Hv & _).
  eapply Hv; [|exact E].
  eapply ParserFacts.wf_or_eof_nth; eauto.
Qed.

(** C1, as the code has it: the entries of every JSON object produced by
    parse are kept, and enumerated, in strictly ascending order of their
    keys (the order of [std::string]'s [operator<]), whatever the order of
    the keys in the input text. *)
Theorem objects_enumerate_in_key_order (input : string) (v : JsonValue) :
  parse input = Returns v -> sorted_objects v.
Proof.
  intros H. apply ValueFacts.canonical_sorted, (parse_canonical input), H.
Qed.

Lemma objects_enumerate_in_key_order_witness :
  sorted_objects
    (JObject [("age", JInt 30); ("car", JNull); ("name", JString "John")]).
Proof.
  apply (objects_enumerate_in_key_order
           ("{" ++ quoted "name" ++ ":" ++ quoted "John" ++ ","
                ++ quoted "age" ++ ":30," ++ quoted "car" ++ ":null}")).
  reflexivity.
Defined.

(** C1 fails on its own example: the object parsed from
    [{"name":"John","age":30,"car":null}] lists its entries as "age",
    "car", "name", not in the order of the input. *)
Lemma entries_not_in_input_order :
  exists o,
    parse ("{" ++ quoted "name" ++ ":" ++ quoted "John" ++ ","
               ++ quoted "age" ++ ":30," ++ quoted "car" ++ ":null}")
    = Returns (JObject o)
    /\ keys o = ["age"; "car"; "name"]
    /\ keys o <> ["name"; "age"; "car"].
Proof.
  exists [("age", JInt 30); ("car", JNull); ("name", JString "John")].
  repeat split. discriminate.
Qed.

(** C5, as the code has it: round trip on canonical output.  For every
    value tree [v] that is the result of a successful parse and whose float
    leaves are each written as a literal with a fraction, rendering [v] and
    parsing the rendered text again yields [v] with each float leaf read
    again from the six significant digits written for it: a tree
    structurally equal to [v], the floats compared with a relative
    tolerance of 10^-5, and [v] itself when [stod] reads every float leaf
    back from its text. *)
Theorem roundtrip_with_tolerance (input : string) (v : JsonValue) :
  parse input = Returns v -> floats_with_fraction v ->
  parse (print_json v 0) = Returns (reread v)
  /\ similar v (reread v)
  /\ (floats_exact v -> parse (print_json v 0) = Returns v).
Proof.
  intros Hp Hn. pose proof (parse_canonical _ _ Hp) as Hc.
  assert (Hr : parse (print_json v 0) = Returns (reread v)).
  { pose proof (RereadFacts.canonical_reread v Hc) as Hc'.
    destruct (ScanText.scan_lexes ends_ok (print_json v 0)
                (tokens_of (reread v)) (scan_fuel (print_json v 0))
                (RereadFacts.lexes_reread v Hc Hn 0) I (le_n _))
      as [s' Hs].
    unfold parse, scan. rewrite Hs. cbn [observe].
    set (toks := tokens_of (reread v) ++ [mkToken EOF_TOKEN monostate]).
    destruct (ParseTokens.tokens_of_cons (reread v)) as (tk & tl & Htk).
    unfold Parser.parse.
    rewrite (ParserFacts.bind_Ok _ _ _ tk (Parser.mk toks 1)).
    2:{ apply (ParserFacts.advanceCurrent_mk toks 0 tk).
        unfold toks. rewrite Htk. reflexivity. }
    rewrite (ParseTokens.canonical_reads_back (reread v) Hc'
               (parse_fuel toks) toks []
               [mkToken EOF_TOKEN monostate] tk tl 1
               (List.length (tokens_of (reread v))));
      auto.
    unfold parse_fuel, toks. rewrite length_app. lia. }
  split; [exact Hr|]. split; [apply RereadFacts.similar_reread; exact Hn|].
  intros He. rewrite Hr, (RereadFacts.reread_exact v He). reflexivity.
Qed.

Lemma roundtrip_with_tolerance_witness :
  parse (print_json
           (JObject
              [("a", JArray [JDouble (S754_finite false 7881299347898368 (-51));
                             JDouble (S754_finite false 7205759403792794 (-56));
                             JInt (-3)]);
               ("b", JDouble (S754_finite false 6787010400354304 (-39)))]) 0)
  = Returns
      (JObject
         [("a", JArray [JDouble (S754_finite false 7881299347898368 (-51));
                        JDouble (S754_finite false 7205759403792794 (-56));
                        JInt (-3)]);
          ("b", JDouble (S754_finite false 6787010400354304 (-39)))])
  /\ (parse (print_json
               (JArray [JDouble (S754_finite false 8895992769862258 (-56))]) 0)
      = Returns (JArray [JDouble (S754_finite false 8896014387140469 (-56))])
      /\ similar
           (JArray [JDouble (S754_finite false 8895992769862258 (-56))])
           (JArray [JDouble (S754_finite false 8896014387140469 (-56))])).
Proof.
  split.
  - refine (proj2 (proj2 (roundtrip_with_tolerance
             ("{" ++ quoted "b" ++ ":12345.5," ++ quoted "a"
                  ++ ":[3.5, 0.1, -3]}") _ _ _)) _).
    + vm_compute. reflexivity.
    + cbn [floats_with_fraction]. repeat split.
      * exists false, "3", "5". vm_compute. repeat split; discriminate.
      * exists false, "0", "1". vm_compute. repeat split; discriminate.
      * exists false, "12345", "5". vm_compute. repeat split; discriminate.
    + cbn [floats_exact]. repeat split; vm_compute; reflexivity.
  - assert (H : floats_with_fraction
                  (JArray [JDouble (S754_finite false 8895992769862258 (-56))])).
    { cbn [floats_with_fraction]. repeat split.
      exists false, "0", "123457". vm_compute. repeat split; discriminate. }
    destruct (roundtrip_with_tolerance "[0.1234567]" _ (eq_refl _) H)
      as (H1 & H2 & _).
    split; [exact H1|exact H2].
Defined.

(** C5 fails on its own example: the float-variant leaf parsed from [3.0]
    is rendered as [3], and parsing that text yields the integer-variant
    leaf 3. *)
Lemma float_leaf_does_not_round_trip :
  parse "3.0" = Returns (JDouble (S754_finite false 6755399441055744 (-51)))
  /\ print_json (JDouble (S754_finite false 6755399441055744 (-51))) 0 = "3"
  /\ parse "3" = Returns (JInt 3).
Proof. repeat split; reflexivity. Qed.

(* ================================================================= *)
(** * Further properties of the scanner *)

(** X1: every token of a returned scan, the final EOF apart, holds the
    payload alternative its type announces: a string for STRING and the
    punctuation tokens, an [int] or a [double] for NUMBER, a [bool] for
    BOOLEAN, nothing for NULL_VALUE.  The string of a STRING token holds no
    double quote and the integer of a NUMBER token fits an [int]. *)
Theorem scan_tokens_well_formed (input : string) (toks : list Token) :
  scan input = Returns toks ->
  exists body,
    toks = body ++ [mkToken EOF_TOKEN monostate] /\ Forall wf_token body.
Proof.
  unfold scan. intros H.
  pose proof (ScanToken.scan_post (scan_fuel input) input (le_n _)) as HP.
  destruct (Scanner.scan (scan_fuel input) (Scanner.init input))
    as [t s'|e s'| |]; try discriminate.
  inversion H; subst. exact HP.
Qed.

Lemma scan_tokens_well_formed_witness :
  exists body,
    [punct LEFT_CURLY "{"; mkToken STRING (VString "a"); punct COLON ":";
     mkToken NUMBER (VInt (-7)); punct RIGHT_CURLY "}";
     mkToken EOF_TOKEN monostate]
    = body ++ [mkToken EOF_TOKEN monostate] /\ Forall wf_token body.
Proof.
  apply (scan_tokens_well_formed ("{" ++ quoted "a" ++ ": -7}")).
  reflexivity.
Defined.

(** X2: a returned scan holds at most one token for each character of the
    input, and the EOF token. *)
Theorem scan_token_count (input : string) (toks : list Token) :
  scan input = Returns toks -> List.length toks <= String.length input + 1.
Proof.
  unfold scan, scan_fuel. intros H. rewrite ScanText.scan_unfold in H.
  unfold bind in H.
  pose proof (ScanLoop.scan_loop_count (String.length input)
                (String.length input) (Scanner.init input)) as HC.
  simpl in HC. specialize (HC (le_n _) ltac:(lia) ltac:(lia)).
  destruct (while_ _ _ _ (Scanner.init input)) as [u s1|e s1| |];
    try discriminate.
  rewrite modify_eq, gets_eq in H. inversion H; subst. simpl.
  rewrite length_app. simpl. lia.
Qed.

Lemma scan_token_count_witness :
  List.length [punct LEFT_SQUARE "["; mkToken NUMBER (VInt 12);
               punct RIGHT_SQUARE "]"; mkToken EOF_TOKEN monostate]
  <= String.length "[ 12 ]" + 1.
Proof.
  apply (scan_token_count "[ 12 ]"
           [punct LEFT_SQUARE "["; mkToken NUMBER (VInt 12);
            punct RIGHT_SQUARE "]"; mkToken EOF_TOKEN monostate]).
  reflexivity.
Defined.

(** X3: a minus sign that no digit follows, be it the last character of
    the input, makes [scanToken] throw "- must be followed by a number". *)
Theorem minus_needs_digit
  (fuel : nat) (s : Scanner.t) (pre post : string) :
  ScanState.at_split s pre (String "-" post) -> stops isdigit post ->
  Scanner.scanToken fuel s
  = Throw (invalid_argument "- must be followed by a number")
          (Scanner.incr_current s).
Proof. apply ScanErrors.scanToken_lone_minus. Qed.

Lemma minus_needs_digit_witness :
  Scanner.scanToken 3 (ScanState.adv 1 (Scanner.init "[-]"))
  = Throw (invalid_argument "- must be followed by a number")
          (Scanner.incr_current (ScanState.adv 1 (Scanner.init "[-]"))).
Proof.
  apply (minus_needs_digit 3 _ "[" "]").
  - split; reflexivity.
  - reflexivity.
Defined.

(** X4: a numeric literal whose digits are followed by a decimal point
    that no digit follows, as in [1.] or [-20.x], makes [scanToken] throw
    "Expected digit after . (trying to parse float)". *)
Theorem point_needs_digit
  (fuel : nat) (s : Scanner.t) (pre : string) (neg : bool) (ds post : string) :
  ScanState.at_split s pre (sign neg ++ ds ++ String "." post) ->
  ds <> EmptyString -> all_chars isdigit ds -> stops isdigit post ->
  String.length ds <= fuel ->
  Scanner.scanToken fuel s
  = Throw (invalid_argument "Expected digit after . (trying to parse float)")
          (ScanState.adv (String.length (sign neg ++ ds)) s).
Proof. apply ScanErrors.scanToken_point. Qed.

Lemma point_needs_digit_witness :
  Scanner.scanToken 5 (Scanner.init "-20.x")
  = Throw (invalid_argument "Expected digit after . (trying to parse float)")
          (ScanState.adv 3 (Scanner.init "-20.x")).
Proof.
  apply (point_needs_digit 5 _ "" true "20" "x").
  - split; reflexivity.
  - discriminate.
  - simpl. auto.
  - reflexivity.
  - simpl. lia.
Defined.

(** X5: a maximal run of letters yields a token exactly when it spells
    [true], [false] or [null], in lower case: a BOOLEAN token with the
    value, or a NULL_VALUE token.  Every other run of letters makes
    [scanToken] throw "Unexpected token". *)
Theorem letters_spell_keyword
  (fuel : nat) (s : Scanner.t) (pre : string) (c : ascii) (kw post : string) :
  ScanState.at_split s pre (String c kw ++ post) ->
  Scanner.start s = Scanner.current s ->
  isalpha c = true -> all_chars isalpha kw -> stops isalpha post ->
  String.length kw <= fuel ->
  Scanner.scanToken fuel s
  = match keyword_token (String c kw) with
    | Some tk =>
        Ok tt (Scanner.push_back tk (ScanState.adv (S (String.length kw)) s))
    | None => Throw unexpected_token (ScanState.adv (S (String.length kw)) s)
    end.
Proof. apply ScanErrors.scanToken_letters. Qed.

Lemma letters_spell_keyword_witness :
  Scanner.scanToken 5 (Scanner.init "null]")
  = Ok tt (Scanner.push_back (mkToken NULL_VALUE monostate)
             (ScanState.adv 4 (Scanner.init "null]")))
  /\ Scanner.scanToken 5 (Scanner.init "True")
     = Throw unexpected_token (ScanState.adv 4 (Scanner.init "True")).
Proof.
  split.
  - apply (letters_spell_keyword 5 _ "" "n" "ull" "]").
    + split; reflexivity.
    + reflexivity.
    + reflexivity.
    + simpl. auto.
    + reflexivity.
    + simpl. lia.
  - apply (letters_spell_keyword 5 _ "" "T" "rue" "").
    + split; reflexivity.
    + reflexivity.
    + reflexivity.
    + simpl. auto.
    + reflexivity.
    + simpl. lia.
Defined.

(** X6: a text of spaces and newlines only, the empty text included, scans
    to the EOF token alone, and its parse throws "Unexpected token". *)
Theorem blank_text_has_no_value (ws : string) :
  all_chars is_blank ws ->
  scan ws = Returns [mkToken EOF_TOKEN monostate]
  /\ parse ws = Throws unexpected_token.
Proof.
  intros H.
  destruct (ScanText.scan_lexes ScanState.anything ws [] (scan_fuel ws)
              (ScanErrors.lexes_blanks ws H) I (le_n _)) as [s' Hs].
  assert (E : scan ws = Returns [mkToken EOF_TOKEN monostate]).
  { unfold scan. rewrite Hs. reflexivity. }
  split; [exact E|]. unfold parse. rewrite E. reflexivity.
Qed.

Lemma blank_text_has_no_value_witness :
  scan (String " " (String newline " ")) = Returns [mkToken EOF_TOKEN monostate]
  /\ parse (String " " (String newline " ")) = Throws unexpected_token.
Proof.
  apply (blank_text_has_no_value (String " " (String newline " "))).
  simpl. auto.
Defined.

(** X7: space and newline are the only blanks.  After leading blanks, a
    character that has no [case] label in [scanToken] and is neither a
    digit nor a letter (a tab, a carriage return, a plus sign, a point)
    makes the scan, and so the parse, throw "Unexpected token". *)
Theorem unknown_character_is_rejected (ws : string) (c : ascii) (post : string) :
  all_chars is_blank ws ->
  has_case c = false -> isdigit c = false -> isalpha c = false ->
  scan (ws ++ String c post) = Throws unexpected_token
  /\ parse (ws ++ String c post) = Throws unexpected_token.
Proof.
  intros Hws Hc Hd Ha.
  assert (E : scan (ws ++ String c post) = Throws unexpected_token).
  { apply (ScanFailure.scan_lexes_throw ScanState.anything ws []).
    - apply ScanErrors.lexes_blanks, Hws.
    - exact I.
    - discriminate.
    - intros F s p Hs _ _. eexists.
      apply (ScanErrors.scanToken_unknown F s p c post); auto. }
  split; [exact E|]. unfold parse. rewrite E. reflexivity.
Qed.

Lemma unknown_character_is_rejected_witness :
  scan (" " ++ String "009" "1") = Throws unexpected_token
  /\ parse (" " ++ String "009" "1") = Throws unexpected_token.
Proof.
  apply (unknown_character_is_rejected " " "009" "1"); simpl; auto.
Defined.

(** X8: a text that holds no decimal point parses to a value without a
    float leaf: the [double] alternative arises from a literal with a
    point only. *)
Theorem text_without_point_has_no_float (input : string) (v : JsonValue) :
  absent "." input -> parse input = Returns v -> no_double v.
Proof.
  unfold parse, scan. intros Ha H.
  destruct (Scanner.scan (scan_fuel input) (Scanner.init input))
    as [toks s'|e s'| |] eqn:Es; try discriminate.
  cbn [observe] in H.
  pose proof (ScanLoop.scan_pointless _ _ _ _ Ha Es) as Hnd.
  unfold Parser.parse in H.
  destruct (Parser.advanceCurrent (Parser.init toks)) as [tk p1| | |] eqn:E;
    unfold bind in H; rewrite E in H; try discriminate.
  apply ParserFacts.advanceCurrent_inv in E. destruct E as [Hn ->].
  destruct (Parser.parse_from_token (parse_fuel toks) tk
              (Parser.incr_current (Parser.init toks)))
    as [v' p2| | |] eqn:E; try discriminate.
  inversion H; subst v'.
  destruct (ParserOutcomes.parser_no_double toks Hnd (parse_fuel toks))
    as (Hv & _).
  eapply Hv; [|exact E].
  rewrite Forall_forall in Hnd. apply Hnd. eapply nth_error_In; eauto.
Qed.

Lemma text_without_point_has_no_float_witness :
  no_double (JArray [JInt 10; JString "x"; JObject [("k", JBool false)]]).
Proof.
  apply (text_without_point_has_no_float
           ("[10, " ++ quoted "x" ++ ", {" ++ quoted "k" ++ ": false}]")).
  - simpl. repeat split; discriminate.
  - reflexivity.
Defined.

(* ================================================================= *)
(** * Further properties of the parser *)

(** X9: for every input text, parse returns a value or throws; it never
    reads a token outside the token sequence and never runs on without
    end.  What it throws is one of the four messages of the scanner, a
    range error of [stoi] or [stod], or one of the six messages of the
    parser; no [std::get] on a token fails. *)
Theorem parse_returns_or_reports (input : string) :
  (exists v, parse input = Returns v)
  \/ (exists e, parse input = Throws e
                /\ (lexical_error e \/ syntax_error e)).
Proof.
  unfold parse, scan.
  pose proof (ScanToken.scan_post (scan_fuel input) input (le_n _)) as HP.
  pose proof (ScanThrows.scan_throws (scan_fuel input) input (le_n _)) as HT.
  destruct (Scanner.scan (scan_fuel input) (Scanner.init input))
    as [toks s'|e s'| |]; try contradiction; cbn [observe].
  - destruct HP as (body & -> & Hwf).
    destruct (ParseRun.scanned_tokens body Hwf) as [He Hall].
    pose proof (ParseRun.parse_outcome _ He Hall) as HO.
    destruct (Parser.parse _ _) as [v p'|e p'| |]; try contradiction;
      cbn [observe]; eauto.
  - right. eauto.
Qed.

(** X10: the parser accepts the token sequence of every tree, with the
    pairs of an object in any order and keys that may repeat: it returns
    the tree with every object rebuilt by assigning its pairs in turn, has
    then consumed exactly the tokens of the tree and looks at none of the
    tokens that follow. *)
Theorem parser_accepts_tokens_of
  (t : JsonValue) (rest : list Token) (fuel : nat) :
  3 * List.length (tokens_of t) <= fuel ->
  Parser.parse fuel (Parser.init (tokens_of t ++ rest))
  = Ok (normalize t)
       (Parser.mk (tokens_of t ++ rest) (List.length (tokens_of t))).
Proof. apply ParseSpelling.parse_tokens_of. Qed.

Lemma parser_accepts_tokens_of_witness :
  Parser.parse 45
    (Parser.init
       (tokens_of (JObject [("b", JInt 1); ("a", JArray [JNull]);
                            ("b", JInt 2)])
        ++ [mkToken EOF_TOKEN monostate]))
  = Ok (JObject [("a", JArray [JNull]); ("b", JInt 2)])
       (Parser.mk
          (tokens_of (JObject [("b", JInt 1); ("a", JArray [JNull]);
                               ("b", JInt 2)])
           ++ [mkToken EOF_TOKEN monostate]) 15).
Proof.
  apply (parser_accepts_tokens_of
           (JObject [("b", JInt 1); ("a", JArray [JNull]); ("b", JInt 2)])
           [mkToken EOF_TOKEN monostate] 45).
  simpl. lia.
Defined.

(** X11: in an object, the last pair of a key wins.  Parsing the tokens of
    an object whose pairs are [l], in this order, returns an object with
    its keys in ascending order that maps a key to a value exactly when
    the value is the parse of the last pair of [l] with this key. *)
Theorem last_pair_of_a_key_wins
  (l : list (string * JsonValue)) (rest : list Token) :
  exists o,
    observe (Parser.parse (parse_fuel (tokens_of (JObject l) ++ rest))
               (Parser.init (tokens_of (JObject l) ++ rest)))
    = Returns (JObject o)
    /\ Sorted string_lt (keys o)
    /\ forall k v,
        In (k, v) o <-> option_map normalize (last_value k l) = Some v.
Proof.
  exists (assign_entries l []). split; [|split].
  - rewrite ParseSpelling.parse_tokens_of; [reflexivity|].
    unfold parse_fuel. rewrite length_app. lia.
  - apply ParseSpelling.assign_entries_sorted. constructor.
  - intros k v. rewrite ParseSpelling.assign_entries_In by constructor.
    destruct (last_value k l) as [x|]; simpl.
    + split; [intros ->; reflexivity|intros H; inversion H; reflexivity].
    + split; [intros []|discriminate].
Qed.

(* ================================================================= *)
(** * Further properties of the values and of the renderer *)

(** X12: no object inside a parsed value holds a key twice. *)
Theorem parsed_keys_are_unique (input : string) (v : JsonValue) :
  parse input = Returns v -> unique_keys v.
Proof.
  intros H. apply ValueShape.canonical_unique_keys, (parse_canonical input), H.
Qed.

Lemma parsed_keys_are_unique_witness :
  unique_keys (JObject [("a", JInt 3); ("b", JObject [("c", JNull)])]).
Proof.
  apply (parsed_keys_are_unique
           ("{" ++ quoted "a" ++ ":1," ++ quoted "b" ++ ":{"
                ++ quoted "c" ++ ":null}," ++ quoted "a" ++ ":3}")).
  reflexivity.
Defined.

(** X13: no string and no key of a parsed value holds a double quote, and
    every integer of a parsed value lies between INT_MIN and INT_MAX. *)
Theorem parsed_leaves_are_scannable (input : string) (v : JsonValue) :
  parse input = Returns v -> leaves_scannable v.
Proof.
  intros H. apply ValueShape.canonical_leaves, (parse_canonical input), H.
Qed.

Lemma parsed_leaves_are_scannable_witness :
  leaves_scannable (JArray [JString "x y"; JInt 2147483647]).
Proof.
  apply (parsed_leaves_are_scannable ("[" ++ quoted "x y" ++ ",2147483647]")).
  reflexivity.
Defined.

(** X14: the text [print_json] writes for a value without a float leaf,
    at any indentation, scans to the tokens of the value: the indentation
    and the newlines yield no token, and every key, string, integer and
    keyword is read as one token. *)
Theorem rendered_text_scans_to_tokens (v : JsonValue) (indent : nat) :
  canonical v -> no_double v ->
  scan (print_json v indent)
  = Returns (tokens_of v ++ [mkToken EOF_TOKEN monostate]).
Proof. apply Rendered.scan_print_json. Qed.

Lemma rendered_text_scans_to_tokens_witness :
  scan (print_json (JArray [JInt (-1); JObject [("k", JBool true)]]) 3)
  = Returns (tokens_of (JArray [JInt (-1); JObject [("k", JBool true)]])
             ++ [mkToken EOF_TOKEN monostate]).
Proof.
  apply (rendered_text_scans_to_tokens
           (JArray [JInt (-1); JObject [("k", JBool true)]]) 3).
  - simpl. repeat split; try discriminate; try lia; repeat constructor.
  - simpl. tauto.
Defined.

(** X15: parse undoes [print_json] at every indentation.  For a value
    whose objects list their keys in ascending order, whose strings and
    keys hold no double quote, whose integers fit an [int] and that holds
    no float leaf, parsing the text written at any indentation returns the
    value. *)
Theorem parse_undoes_print_json (v : JsonValue) (indent : nat) :
  canonical v -> no_double v -> parse (print_json v indent) = Returns v.
Proof. apply Rendered.parse_print_json. Qed.

Lemma parse_undoes_print_json_witness :
  parse (print_json (JObject [("a", JArray [JInt 5; JNull]);
                              ("b", JString "s")]) 4)
  = Returns (JObject [("a", JArray [JInt 5; JNull]); ("b", JString "s")]).
Proof.
  apply (parse_undoes_print_json
           (JObject [("a", JArray [JInt 5; JNull]); ("b", JString "s")]) 4).
  - simpl. repeat split; try discriminate; try lia; repeat constructor.
  - simpl. tauto.
Defined.

(** X16: [print_json] writes different texts for different values: two
    such values with the same text, be it at different indentations, are
    equal. *)
Theorem print_json_is_injective (v w : JsonValue) (n m : nat) :
  canonical v -> no_double v -> canonical w -> no_double w ->
  print_json v n = print_json w m -> v = w.
Proof.
  intros Hv Hnv Hw Hnw E.
  pose proof (Rendered.parse_print_json v n Hv Hnv) as Pv.
  pose proof (Rendered.parse_print_json w m Hw Hnw) as Pw.
  rewrite E in Pv. rewrite Pv in Pw. inversion Pw. reflexivity.
Qed.

Lemma print_json_is_injective_witness : JInt 5 = JInt 5.
Proof.
  apply (print_json_is_injective (JInt 5) (JInt 5) 0 7);
    try exact I; try reflexivity; simpl; split; discriminate.
Defined.

(* ================================================================= *)
(** * Further properties: texts put together *)

(** X17: spaces and newlines before and after a text change neither its
    scan nor its parse, whether they return or throw. *)
Theorem blank_padding_is_ignored (ws a ws' : string) :
  all_chars is_blank ws -> all_chars is_blank ws' ->
  scan (ws ++ a ++ ws') = scan a /\ parse (ws ++ a ++ ws') = parse a.
Proof.
  intros Hws Hws'.
  pose proof (ScanJoin.scan_padded ws a ws' Hws Hws') as E.
  split; [exact E|]. unfold parse. rewrite E. reflexivity.
Qed.

Lemma blank_padding_is_ignored_witness :
  scan (String newline " " ++ "[1" ++ " ") = scan "[1"
  /\ parse (String newline " " ++ "[1" ++ " ") = parse "[1".
Proof.
  apply (blank_padding_is_ignored (String newline " ") "[1" " ");
    simpl; auto.
Defined.

(** X18: scanning composes over blanks.  When the texts [a] and [b] both
    scan, the text made of [a], one or more spaces or newlines, and [b]
    scans to the tokens of [a] followed by the tokens of [b]. *)
Theorem blanks_join_scans (a ws b : string) (ka kb : list Token) :
  all_chars is_blank ws -> ws <> EmptyString ->
  scan a = Returns (ka ++ [mkToken EOF_TOKEN monostate]) ->
  scan b = Returns (kb ++ [mkToken EOF_TOKEN monostate]) ->
  scan (a ++ ws ++ b) = Returns (ka ++ kb ++ [mkToken EOF_TOKEN monostate]).
Proof. apply ScanJoin.scan_joined. Qed.

Lemma blanks_join_scans_witness :
  scan ("12" ++ String newline "" ++ "34]")
  = Returns ([mkToken NUMBER (VInt 12)]
             ++ [mkToken NUMBER (VInt 34); punct RIGHT_SQUARE "]"]
             ++ [mkToken EOF_TOKEN monostate]).
Proof.
  apply (blanks_join_scans "12" (String newline "") "34]").
  - simpl. auto.
  - discriminate.
  - reflexivity.
  - reflexivity.
Defined.

(** X19: text behind a value is ignored as long as it scans.  When parse
    returns [v] for the text [a] and the text [b] scans, parse returns [v]
    for [a], one or more spaces or newlines, and [b] as well. *)
Theorem text_behind_a_value_is_ignored
  (a ws b : string) (v : JsonValue) (tb : list Token) :
  all_chars is_blank ws -> ws <> EmptyString ->
  parse a = Returns v -> scan b = Returns tb ->
  parse (a ++ ws ++ b) = Returns v.
Proof.
  intros Hws Hne Pa Sb.
  unfold parse in Pa. destruct (scan a) as [ta| | |] eqn:Sa; try discriminate.
  assert (Ha : exists ka, ta = ka ++ [mkToken EOF_TOKEN monostate]).
  { unfold scan in Sa.
    pose proof (ScanToken.scan_post (scan_fuel a) a (le_n _)) as HP.
    destruct (Scanner.scan (scan_fuel a) (Scanner.init a))
      as [t s'|e s'| |]; try discriminate.
    inversion Sa; subst. destruct HP as (ka & -> & _). eauto. }
  assert (Hb : exists kb, tb = kb ++ [mkToken EOF_TOKEN monostate]).
  { unfold scan in Sb.
    pose proof (ScanToken.scan_post (scan_fuel b) b (le_n _)) as HP.
    destruct (Scanner.scan (scan_fuel b) (Scanner.init b))
      as [t s'|e s'| |]; try discriminate.
    inversion Sb; subst. destruct HP as (kb & -> & _). eauto. }
  destruct Ha as [ka ->]. destruct Hb as [kb ->].
  unfold parse. rewrite (ScanJoin.scan_joined a ws b ka kb Hws Hne Sa Sb).
  apply ParserFuel.parse_prefix; [|exact Pa].
  destruct kb; discriminate.
Qed.

Lemma text_behind_a_value_is_ignored_witness :
  parse ("[1]" ++ " " ++ "}, true") = Returns (JArray [JInt 1]).
Proof.
  apply (text_behind_a_value_is_ignored "[1]" " " "}, true" (JArray [JInt 1])
           [punct RIGHT_CURLY "}"; punct COMMA ","; mkToken BOOLEAN (VBool true);
            mkToken EOF_TOKEN monostate]).
  - simpl. auto.
  - discriminate.
  - reflexivity.
  - reflexivity.
Defined.

(* ================================================================= *)
(** * Further properties: the token sequences the parser accepts *)

(** X20: the parser accepts every token sequence that spells a value: a
    scalar token; an opening brace, pairs of a STRING key, a colon and a
    value with a comma between two pairs and possibly behind the last
    one, and a closing brace; an opening bracket, values with commas in
    the same way, and a closing bracket.  It returns the value spelled,
    the pairs of an object assigned in turn, has then consumed exactly
    these tokens, and does not depend on the tokens that follow. *)
Theorem parser_accepts_spelled
  (ts : list Token) (v : JsonValue) (rest : list Token) (fuel : nat) :
  spells ts v -> 3 * List.length ts <= fuel ->
  Parser.parse fuel (Parser.init (ts ++ rest))
  = Ok v (Parser.mk (ts ++ rest) (List.length ts)).
Proof. apply ParseGrammar.parse_spelled. Qed.

Lemma parser_accepts_spelled_witness :
  Parser.parse 12
    (Parser.init
       ([punct LEFT_SQUARE "["; mkToken NUMBER (VInt 1); punct COMMA ",";
         punct RIGHT_SQUARE "]"]
        ++ [mkToken EOF_TOKEN monostate]))
  = Ok (JArray [JInt 1])
       (Parser.mk
          ([punct LEFT_SQUARE "["; mkToken NUMBER (VInt 1); punct COMMA ",";
            punct RIGHT_SQUARE "]"]
           ++ [mkToken EOF_TOKEN monostate]) 4).
Proof.
  apply (parser_accepts_spelled
           [punct LEFT_SQUARE "["; mkToken NUMBER (VInt 1); punct COMMA ",";
            punct RIGHT_SQUARE "]"]
           (JArray [JInt 1]) [mkToken EOF_TOKEN monostate] 12).
  - apply (spells_array (punct LEFT_SQUARE "[")
             [mkToken NUMBER (VInt 1); punct COMMA ","]
             (punct RIGHT_SQUARE "]")); [reflexivity| |reflexivity].
    apply (items_more [mkToken NUMBER (VInt 1)] (punct COMMA ",") []
             (JInt 1) []); [|reflexivity|apply items_done].
    apply spells_int; reflexivity.
  - simpl. lia.
Defined.

(** X21: the parser accepts nothing else.  When parse returns a value
    with its cursor at [n], the first [n] tokens spell this value. *)
Theorem parser_returns_spelled
  (fuel : nat) (toks : list Token) (v : JsonValue) (p' : Parser.t) :
  Parser.parse fuel (Parser.init toks) = Ok v p' ->
  spells (firstn (Parser.current p') toks) v.
Proof. apply ParseGrammar.parse_spells. Qed.

Lemma parser_returns_spelled_witness :
  spells (firstn 2 [punct LEFT_CURLY "{"; punct RIGHT_CURLY "}";
                    mkToken NUMBER (VInt 5); mkToken EOF_TOKEN monostate])
         (JObject []).
Proof.
  apply (parser_returns_spelled 9
           [punct LEFT_CURLY "{"; punct RIGHT_CURLY "}";
            mkToken NUMBER (VInt 5); mkToken EOF_TOKEN monostate]
           (JObject [])
           (Parser.mk [punct LEFT_CURLY "{"; punct RIGHT_CURLY "}";
                       mkToken NUMBER (VInt 5); mkToken EOF_TOKEN monostate] 2)).
  reflexivity.
Defined.

(* ================================================================= *)
(** * Further properties: the exceptions of a scan *)

(** X22: a scan that throws throws one of the four messages of the
    scanner or a range error of [stoi] or [stod].  The conversions are
    given a numeral only, so that neither reports an invalid argument. *)
Theorem scan_throws_lexical_errors (input : string) (e : Error) :
  scan input = Throws e -> lexical_error e.
Proof.
  unfold scan. intros H.
  pose proof (ScanThrows.scan_throws (scan_fuel input) input (le_n _)) as HT.
  destruct (Scanner.scan (scan_fuel input) (Scanner.init input))
    as [t s'|e' s'| |]; try discriminate.
  inversion H; subst. exact HT.
Qed.

Lemma scan_throws_lexical_errors_witness :
  lexical_error (out_of_range "stoi").
Proof.
  apply (scan_throws_lexical_errors "[1, 99999999999]"). reflexivity.
Defined.
